(** * Expression graph of [bamboo.treeoperations]

    A shallow embedding of the operation-node model of
    [src/bamboo/treeoperations.py]: Python objects live in a store indexed by
    their identity, every [TupleOp] carries its lazily filled repr/hash cache,
    and the methods of the classes are store-passing functions that may raise.
    Recursive methods take a fuel argument (the Python call depth). *)

From Stdlib Require Import ZArith NArith QArith Qround String Ascii List Bool
  DecimalString Sorting.Mergesort Orders Permutation Sorted Lia.
From stdpp Require Import base option list gmap.
Import ListNotations.
Open Scope string_scope.
Open Scope Z_scope.

(** ** Python strings

    A Python [str] is modelled by a [string] whose characters are the code
    points below 256. *)

Module PyStr.

(** ["{0:d}".format(z)] and [str(z)] of an integer. *)
Definition of_Z (z : Z) : string := NilZero.string_of_int (Z.to_int z).

(** [sep.join(parts)] *)
Fixpoint join (sep : string) (parts : list string) : string :=
  match parts with
  | [] => ""
  | [s] => s
  | s :: rest => s ++ sep ++ join sep rest
  end.

Fixpoint repeat_str (n : nat) (s : string) : string :=
  match n with O => "" | S k => s ++ repeat_str k s end.

Fixpoint mem_char (c : ascii) (s : string) : bool :=
  match s with
  | EmptyString => false
  | String d rest => Ascii.eqb c d || mem_char c rest
  end.

(** The double quote character. *)
Definition dquote : ascii := "034"%char.

Definition hex_digit (n : N) : ascii :=
  ascii_of_N (if (n <? 10)%N then 48 + n else 87 + n)%N.

(** Code points that [repr] writes as an escape: the C0 and C1 controls,
    DEL, the no-break space and the soft hyphen are not printable. *)
Definition printable (c : ascii) : bool :=
  let n := N_of_ascii c in
  negb ((n <? 32) || ((127 <=? n) && (n <=? 160)) || (n =? 173))%N.

Definition repr_char (quote c : ascii) : string :=
  let n := N_of_ascii c in
  if Ascii.eqb c quote || Ascii.eqb c "\"%char then String "\"%char (String c "")
  else if (n =? 9)%N then "\t"
  else if (n =? 10)%N then "\n"
  else if (n =? 13)%N then "\r"
  else if printable c then String c ""
  else String "\"%char (String "x"%char
         (String (hex_digit (n / 16)) (String (hex_digit (n mod 16)) ""))).

Fixpoint repr_body (quote : ascii) (s : string) : string :=
  match s with
  | EmptyString => ""
  | String c rest => repr_char quote c ++ repr_body quote rest
  end.

(** [repr(s)] of a [str]: single quotes, unless the text has a single
    quote and no double quote. *)
Definition repr (s : string) : string :=
  let quote : ascii := if mem_char "'"%char s && negb (mem_char dquote s) then dquote else "'"%char in
  String quote (repr_body quote s ++ String quote "").

(** [s.startswith(p)] *)
Definition startswith (p s : string) : bool := String.prefix p s.

(** [s[n:]] *)
Fixpoint drop (n : nat) (s : string) : string :=
  match n, s with
  | O, _ => s
  | S k, String _ rest => drop k rest
  | S _, EmptyString => ""
  end.

Definition upper_char (c : ascii) : ascii :=
  let n := N_of_ascii c in
  if ((97 <=? n) && (n <=? 122))%N then ascii_of_N (n - 32) else c.

Definition lower_char (c : ascii) : ascii :=
  let n := N_of_ascii c in
  if ((65 <=? n) && (n <=? 90))%N then ascii_of_N (n + 32) else c.

Fixpoint lower (s : string) : string :=
  match s with
  | EmptyString => ""
  | String c rest => String (lower_char c) (lower rest)
  end.

(** [s.capitalize()]: the case mapping is the one of the ASCII letters;
    other code points are kept. *)
Definition capitalize (s : string) : string :=
  match s with
  | EmptyString => ""
  | String c rest => String (upper_char c) (lower rest)
  end.

Fixpoint lstrip (c : ascii) (s : string) : string :=
  match s with
  | String d rest => if Ascii.eqb c d then lstrip c rest else s
  | EmptyString => ""
  end.

Fixpoint rev_str (acc s : string) : string :=
  match s with
  | EmptyString => acc
  | String c rest => rev_str (String c acc) rest
  end.

(** [s.strip(c)] for a one-character argument. *)
Definition strip (c : ascii) (s : string) : string :=
  rev_str "" (lstrip c (rev_str "" (lstrip c s))).

(** [repr(l)] of a list of [str]. *)
Definition repr_list (l : list string) : string :=
  "[" ++ join ", " (map repr l) ++ "]".

(** [repr(t)] of a tuple, given the reprs of its items. *)
Definition repr_tuple (items : list string) : string :=
  match items with
  | [s] => "(" ++ s ++ ",)"
  | _ => "(" ++ join ", " items ++ ")"
  end.

(** [repr(o)] of an optional [str]. *)
Definition repr_opt (o : option string) : string :=
  match o with None => "None" | Some s => repr s end.

(** [a < b] on [str]: code point order. *)
Fixpoint ltb (a b : string) : bool :=
  match a, b with
  | _, EmptyString => false
  | EmptyString, String _ _ => true
  | String c a', String d b' =>
      if (N_of_ascii c <? N_of_ascii d)%N then true
      else if (N_of_ascii d <? N_of_ascii c)%N then false
      else ltb a' b'
  end.

Definition leb (a b : string) : bool := negb (ltb b a).

End PyStr.

(** ** Python numbers

    A [float] is a binary64 value: sign, mantissa and binary exponent
    ([m * 2^e]), an infinity or a NaN. *)

Inductive pyfloat : Type :=
| PyFinite (neg : bool) (m : N) (e : Z)
| PyInf (neg : bool)
| PyNaN.

Module PyFloat.

Definition pow2 (k : Z) : Q := Qpower (2 # 1) k.
Definition pow10 (k : Z) : Q := Qpower (10 # 1) k.
Definition Qleb (a b : Q) : bool := Qle_bool a b.
Definition Qltb (a b : Q) : bool := negb (Qle_bool b a).

(** Least [D] with [x < 10^D], searched upwards from an estimate below it. *)
Fixpoint decpt_from (fuel : nat) (x : Q) (D : Z) : Z :=
  match fuel with
  | O => D
  | S k => if Qltb x (pow10 D) then D else decpt_from k x (D + 1)
  end.

Definition decpt (x : Q) (p : Z) : Z :=
  decpt_from 8 x (p * 30103 / 100000 - 2).

Fixpoint strip_zeros (fuel : nat) (d k : Z) : Z * Z :=
  match fuel with
  | O => (d, k)
  | S f =>
      if (0 <? d) && (d mod 10 =? 0) then strip_zeros f (d / 10) (k + 1)
      else (d, k)
  end.

(** The decimals with [n] significant digits next to [x]; one is kept when
    it lies in the rounding interval [lo, hi] of [x], the nearer one when
    both do. *)
Definition shortest_try (x lo hi : Q) (closed : bool) (D n : Z) : option (Z * Z) :=
  let k := D - n in
  let f := Qfloor (Qred (x / pow10 k)) in
  let c1 := Qred (inject_Z f * pow10 k) in
  let c2 := Qred (inject_Z (f + 1) * pow10 k) in
  let inside c :=
    if closed then Qleb lo c && Qleb c hi else Qltb lo c && Qltb c hi in
  match (0 <? f) && inside c1, inside c2 with
  | true, true =>
      let d1 := Qred (x - c1) in
      let d2 := Qred (c2 - x) in
      if Qltb d1 d2 then Some (f, k)
      else if Qltb d2 d1 then Some (f + 1, k)
      else if Z.even f then Some (f, k) else Some (f + 1, k)
  | true, false => Some (f, k)
  | false, true => Some (f + 1, k)
  | false, false => None
  end.

Fixpoint shortest_search (x lo hi : Q) (closed : bool) (D : Z) (ns : list Z) : Z * Z :=
  match ns with
  | [] => (Qfloor (Qred (x / pow10 (D - 17))), D - 17)
  | n :: rest =>
      match shortest_try x lo hi closed D n with
      | Some r => r
      | None => shortest_search x lo hi closed D rest
      end
  end.

(** Digits [d] and decimal exponent [k] of the shortest decimal [d * 10^k]
    that rounds to the binary64 value [m * 2^e] (round to nearest, ties to
    even): what [repr] of a float prints. *)
Definition shortest (m : N) (e : Z) : Z * Z :=
  let x := Qred (inject_Z (Z.of_N m) * pow2 e) in
  let p := Z.log2 (Z.of_N m) + e in
  let u := Z.max (p - 52) (-1074) in
  let mant := Qfloor (Qred (x / pow2 u)) in
  let hi := Qred (x + pow2 (u - 1)) in
  let lo := Qred (x - (if (mant =? 2 ^ 52) && (-1074 <? u)
                       then pow2 (u - 2) else pow2 (u - 1))) in
  let '(d, k) := shortest_search x lo hi (Z.even mant) (decpt x p)
                   [1;2;3;4;5;6;7;8;9;10;11;12;13;14;15;16;17] in
  strip_zeros 20 d k.

(** Layout of the digits: exponent notation when the decimal point is at
    position [<= -4] or [> 16], else positional with at least one digit
    after the point. *)
Definition format (neg : bool) (digits : string) (dp : Z) : string :=
  let n := Z.of_nat (String.length digits) in
  let body :=
    if (dp <=? -4) || (16 <? dp) then
      let ex := dp - 1 in
      let exs := PyStr.of_Z (Z.abs ex) in
      let exs := if Z.abs ex <? 10 then "0" ++ exs else exs in
      let mant := match digits with
                  | String c EmptyString => String c EmptyString
                  | String c rest => String c ("." ++ rest)
                  | EmptyString => ""
                  end in
      mant ++ "e" ++ (if ex <? 0 then "-" else "+") ++ exs
    else if dp <=? 0 then
      "0." ++ PyStr.repeat_str (Z.to_nat (- dp)) "0" ++ digits
    else if n <=? dp then
      digits ++ PyStr.repeat_str (Z.to_nat (dp - n)) "0" ++ ".0"
    else
      substring 0 (Z.to_nat dp) digits ++ "." ++
      substring (Z.to_nat dp) (Z.to_nat (n - dp)) digits in
  (if neg then "-" else "") ++ body.

(** [repr(f)] and [str(f)] of a float. *)
Definition repr (f : pyfloat) : string :=
  match f with
  | PyNaN => "nan"
  | PyInf neg => if neg then "-inf" else "inf"
  | PyFinite neg 0%N _ => if neg then "-0.0" else "0.0"
  | PyFinite neg m e =>
      let '(d, k) := shortest m e in
      let ds := PyStr.of_Z d in
      format neg ds (Z.of_nat (String.length ds) + k)
  end.

(** Exact value of a finite float. *)
Definition value (neg : bool) (m : N) (e : Z) : Q :=
  let x := Qred (inject_Z (Z.of_N m) * pow2 e) in
  if neg then Qred (- x) else x.

(** [a == b] on floats. *)
Definition eqb (a b : pyfloat) : bool :=
  match a, b with
  | PyFinite n1 m1 e1, PyFinite n2 m2 e2 => Qeq_bool (value n1 m1 e1) (value n2 m2 e2)
  | PyInf n1, PyInf n2 => Bool.eqb n1 n2
  | _, _ => false
  end.

(** [f == z] for an integer [z]. *)
Definition eqb_int (f : pyfloat) (z : Z) : bool :=
  match f with
  | PyFinite n m e => Qeq_bool (value n m e) (inject_Z z)
  | _ => false
  end.

End PyFloat.

(** The literals a [Const] holds: integers, floats and strings. *)
Inductive PyVal : Type :=
| PyInt (z : Z)
| PyFloat (f : pyfloat)
| PyString (s : string).

Module PyValue.

(** [repr(v)] *)
Definition repr (v : PyVal) : string :=
  match v with
  | PyInt z => PyStr.of_Z z
  | PyFloat f => PyFloat.repr f
  | PyString s => PyStr.repr s
  end.

(** [str(v)] *)
Definition str (v : PyVal) : string :=
  match v with
  | PyInt z => PyStr.of_Z z
  | PyFloat f => PyFloat.repr f
  | PyString s => s
  end.

(** [a == b] *)
Definition eqb (a b : PyVal) : bool :=
  match a, b with
  | PyInt x, PyInt y => Z.eqb x y
  | PyFloat f, PyFloat g => PyFloat.eqb f g
  | PyFloat f, PyInt z | PyInt z, PyFloat f => PyFloat.eqb_int f z
  | PyString s, PyString t => String.eqb s t
  | _, _ => false
  end.

(** [abs(v) == float("inf")], and [None] where [abs] raises [TypeError]. *)
Definition abs_is_inf (v : PyVal) : option bool :=
  match v with
  | PyInt _ => Some false
  | PyFloat (PyInf _) => Some true
  | PyFloat _ => Some false
  | PyString _ => None
  end.

(** [v < 0.] for the infinities. *)
Definition is_negative (v : PyVal) : bool :=
  match v with
  | PyFloat (PyInf neg) => neg
  | _ => false
  end.

End PyValue.

(** ** Objects and the store *)

(** The identity of an object ([id(x)]): its index in the store. *)
Abbreviation addr := nat.

(** [TupleOpCache]: the lazily filled hash and repr of a node. *)
Record TupleOpCache : Type := mkCache {
  cache_hash : option Z;
  cache_repr : option string
}.

(** [TupleOpCache.__init__] *)
Definition empty_cache : TupleOpCache := mkCache None None.

(** [x is not None] *)
Definition is_not_None {A} (x : option A) : bool :=
  match x with Some _ => true | None => false end.

(** [TupleOpCache.__bool__] *)
Definition cache_bool (c : TupleOpCache) : bool :=
  is_not_None (cache_hash c) || is_not_None (cache_repr c).

(** [TupleBaseProxy]: a type name and the operation it stands for. *)
Record TupleBaseProxy : Type := mkProxy {
  _typeName : string;
  _parent : option addr
}.

(** A range proxy, with the attributes the operations read from it: the
    proxy of its index list and its underlying collection. *)
Record RangeProxy : Type := mkRange {
  rng_proxy : TupleBaseProxy;
  _idxs : TupleBaseProxy;
  _base : nat;
  rng_id : nat
}.

(** The fields of each class of operation (its [__slots__] or attributes);
    operands are held by identity. *)
Inductive TupleOp : Type :=
| BareTupleOp
| ForwardingOp (wrapped : addr)
| Const (typeName : string) (value : PyVal)
| GetColumn (typeName name : string)
| GetArrayColumn (typeName name : string) (length : addr)
| MathOp (outType op : string) (args : list addr)
| GetItem (arg : addr) (typeName : string) (_index : addr)
| Construct (typeName : string) (args : list addr)
| CallMethod (name : string) (args : list addr) (_retType : string)
| CallMemberMethod (this : addr) (name : string) (args : list addr) (_retType : string)
| GetDataMember (this : addr) (name : string)
| ExtVar (typeName name : string)
| DefinedVar (typeName definition : string) (_nameHint : option string)
| InitList (typeName : string) (elms : list addr)
| LocalVariablePlaceholder (typeHint : string) (_parent : option addr) (i : option Z)
| Select (rng : RangeProxy) (predExpr _i : addr)
| Sort (rng : RangeProxy) (funExpr _i : addr)
| Map (rng : RangeProxy) (funExpr _i : addr) (typeName : string)
| Next (rng : RangeProxy) (predExpr _i : addr)
| Reduce (rng : RangeProxy) (resultType : string) (start accuExpr _i _prevRes : addr)
| Combine (ranges : list RangeProxy) (candPredExpr : addr) (_i : list addr)
| ScaleFactorWithSystOp (wrapped : addr) (systName : string) (variations : list string)
| SystModifiedCollectionOp (wrapped : addr) (systName : string) (variations : list string).

(** [self.__class__.__name__] *)
Definition class_name (o : TupleOp) : string :=
  match o with
  | BareTupleOp => "TupleOp"
  | ForwardingOp _ => "ForwardingOp"
  | Const _ _ => "Const"
  | GetColumn _ _ => "GetColumn"
  | GetArrayColumn _ _ _ => "GetArrayColumn"
  | MathOp _ _ _ => "MathOp"
  | GetItem _ _ _ => "GetItem"
  | Construct _ _ => "Construct"
  | CallMethod _ _ _ => "CallMethod"
  | CallMemberMethod _ _ _ _ => "CallMemberMethod"
  | GetDataMember _ _ => "GetDataMember"
  | ExtVar _ _ => "ExtVar"
  | DefinedVar _ _ _ => "DefinedVar"
  | InitList _ _ => "InitList"
  | LocalVariablePlaceholder _ _ _ => "LocalVariablePlaceholder"
  | Select _ _ _ => "Select"
  | Sort _ _ _ => "Sort"
  | Map _ _ _ _ => "Map"
  | Next _ _ _ => "Next"
  | Reduce _ _ _ _ _ _ => "Reduce"
  | Combine _ _ _ => "Combine"
  | ScaleFactorWithSystOp _ _ _ => "ScaleFactorWithSystOp"
  | SystModifiedCollectionOp _ _ _ => "SystModifiedCollectionOp"
  end.

(** A stored node: its fields and its [_cache] attribute. [Reduce.__init__]
    does not call [TupleOp.__init__], so a [Reduce] has no [_cache]. *)
Record PyObject : Type := mkObject {
  fields : TupleOp;
  _cache : option TupleOpCache
}.

Abbreviation heap := (list PyObject).

(** What a name can be bound to where the operations pass objects around:
    [None], a node or a range proxy. *)
Inductive pyobj : Type :=
| PNone
| POp (a : addr)
| PRange (r : RangeProxy).

Inductive exn : Type :=
| AttributeError (attr : string)
| RuntimeError (msg : string)
| ValueError (msg : string)
| TypeError (msg : string)
| KeyError (key : string)
| IndexError (msg : string)
| NameError (name : string)
| AssertionError (msg : string)
| DanglingReference (a : addr).

(** The result of running a piece of code on a store: a value and the new
    store, an exception raised (the store keeps the writes made before it),
    or the recursion limit. *)
Inductive outcome (A : Type) : Type :=
| Ok (a : A) (h : heap)
| Raise (e : exn) (h : heap)
| OutOfFuel.
Arguments Ok {A} a h.
Arguments Raise {A} e h.
Arguments OutOfFuel {A}.

Definition M (A : Type) : Type := heap -> outcome A.

Definition ret {A} (a : A) : M A := fun h => Ok a h.

Definition bind {A B} (m : M A) (k : A -> M B) : M B :=
  fun h => match m h with
           | Ok a h' => k a h'
           | Raise e h' => Raise e h'
           | OutOfFuel => OutOfFuel
           end.

Definition raise {A} (e : exn) : M A := fun h => Raise e h.

Definition out_of_fuel {A} : M A := fun _ => OutOfFuel.

Notation "'let*' x ':=' c1 'in' c2" := (bind c1 (fun x => c2))
  (at level 10, x pattern, c1 at level 100, c2 at level 200).

(** [try: body except: handler] *)
Definition try_except {A} (body handler : M A) : M A :=
  fun h => match body h with
           | Raise _ h' => handler h'
           | r => r
           end.

Fixpoint mapM {A B} (f : A -> M B) (l : list A) : M (list B) :=
  match l with
  | [] => ret []
  | x :: rest =>
      let* y := f x in
      let* ys := mapM f rest in
      ret (y :: ys)
  end.

(** The node stored at an identity. *)
Definition get_object (a : addr) : M PyObject :=
  fun h => match h !! a with
           | Some o => Ok o h
           | None => Raise (DanglingReference a) h
           end.

Definition get_fields (a : addr) : M TupleOp :=
  let* o := get_object a in ret (fields o).

(** Attribute assignment: the fields of the node at [a] are replaced. *)
Definition set_fields (a : addr) (f : TupleOp) : M unit :=
  fun h => match h !! a with
           | Some o => Ok tt (<[a := mkObject f (_cache o)]> h)
           | None => Raise (DanglingReference a) h
           end.

(** [self._cache] *)
Definition get_cache (a : addr) : M TupleOpCache :=
  let* o := get_object a in
  match _cache o with
  | Some c => ret c
  | None => raise (AttributeError "_cache")
  end.

Definition set_cache (a : addr) (c : TupleOpCache) : M unit :=
  fun h => match h !! a with
           | Some o => Ok tt (<[a := mkObject (fields o) (Some c)]> h)
           | None => Raise (DanglingReference a) h
           end.

(** Object creation by a class whose [__init__] reaches [TupleOp.__init__]:
    a new identity, with an empty cache. *)
Definition new_object (f : TupleOp) : M addr :=
  fun h => Ok (List.length h) (h ++ [mkObject f (Some empty_cache)])%list.

(** Object creation by [Reduce], whose [__init__] sets the fields only. *)
Definition new_object_without_cache (f : TupleOp) : M addr :=
  fun h => Ok (List.length h) (h ++ [mkObject f None])%list.

(** [Reduce.__init__] *)
Definition Reduce_init (rng : RangeProxy) (resultType : string)
    (start accuExpr idx prevRes : addr) : M addr :=
  new_object_without_cache (Reduce rng resultType start accuExpr idx prevRes).

(** The [op] property of a proxy. *)
Definition proxy_op (p : TupleBaseProxy) : M addr :=
  match _parent p with
  | None => raise (ValueError "Cannot get operation, abstract base class / empty parent")
  | Some a => ret a
  end.

(** ** What the module takes from outside

    The hash of the interpreter on [str] and on [None]; the methods of the
    range proxies,
    whose classes are defined in another module; the return type that the
    reflection of the C++ interpreter gives for a function
    ([CallMethod._initReturnType]) or for a member of the type of a proxy
    ([guessReturnType(getattr(this._typ, name))]); the type name of the proxy
    that the [result] property of a node builds ([ld.result._typeName]); the
    order in which a [set] is iterated, given its entries and their hashes
    in the order they were added. They may run any code on the store. *)
Class Runtime : Type := {
  str_hash : string -> Z;
  proxy_repr : RangeProxy -> M string;
  proxy_eq : RangeProxy -> RangeProxy -> M bool;
  proxy_clone : RangeProxy -> gmap nat nat -> M (RangeProxy * gmap nat nat);
  proxy_deps : RangeProxy -> (pyobj -> M bool) -> bool -> M (list (option addr));
  none_hash : Z;
  initReturnType : string -> bool -> M string;
  memberReturnType : TupleBaseProxy -> string -> M string;
  result_typeName : option addr -> M string;
  set_order : list (option addr * Z) -> list (option addr * Z)
}.

(** [a and b] where [b] is only evaluated when [a] holds. *)
Definition and_then (a : bool) (b : M bool) : M bool :=
  if a then b else ret false.

Definition andM (a b : M bool) : M bool :=
  let* x := a in and_then x b.

(** [t1 == t2] on tuples: the items are compared in turn up to the first
    that differ (identical items are equal), then the lengths. *)
Fixpoint tuple_eq {A} (same : A -> A -> bool) (eq : A -> A -> M bool)
    (t1 t2 : list A) : M bool :=
  match t1, t2 with
  | x :: xs, y :: ys =>
      let* b := (if same x y then ret true else eq x y) in
      if b then tuple_eq same eq xs ys else ret false
  | [], [] => ret true
  | _, _ => ret false
  end.

(** [l1 == l2] on lists of [str]. *)
Definition str_list_eqb (l1 l2 : list string) : bool :=
  bool_decide (l1 = l2).

Definition opt_Z_eqb (a b : option Z) : bool := bool_decide (a = b).

Definition opt_str_eqb (a b : option string) : bool := bool_decide (a = b).

Section Representation.
Context `{Runtime}.

(** The [fromopcache] decorator, for the key [repr]. *)
Definition fromopcache_repr (func : addr -> M string) (self : addr) : M string :=
  let* c := get_cache self in
  match cache_repr c with
  | None =>
      let* v := func self in
      let* c' := get_cache self in
      let* _ := set_cache self (mkCache (cache_hash c') (Some v)) in
      ret v
  | Some v => ret v
  end.

(** The [fromopcache] decorator, for the key [hash]. *)
Definition fromopcache_hash (func : addr -> M Z) (self : addr) : M Z :=
  let* c := get_cache self in
  match cache_hash c with
  | None =>
      let* v := func self in
      let* c' := get_cache self in
      let* _ := set_cache self (mkCache (Some v) (cache_repr c')) in
      ret v
  | Some v => ret v
  end.

(** [repr(self._parent)] and the like: [None] prints as [None]. *)
Definition repr_optional (repr : addr -> M string) (o : option addr) : M string :=
  match o with
  | None => ret "None"
  | Some a => repr a
  end.

(** [", ".join(repr(arg) for arg in args)] *)
Definition repr_args (repr : addr -> M string) (args : list addr) : M string :=
  let* rs := mapM repr args in ret (PyStr.join ", " rs).

(** The [_repr] method of each class; [repr] is the cached [__repr__] of
    the operands. *)
Definition _repr (repr : addr -> M string) (self : addr) : M string :=
  let* f := get_fields self in
  match f with
  | BareTupleOp => ret "TupleOp()"
  | ForwardingOp wrapped =>
      let* w := repr wrapped in
      ret ("ForwardingOp(" ++ w ++ ")")
  | Const typeName value =>
      ret ("Const(" ++ PyStr.repr typeName ++ ", " ++ PyValue.repr value ++ ")")
  | GetColumn typeName name =>
      ret ("GetColumn(" ++ PyStr.repr typeName ++ ", " ++ PyStr.repr name ++ ")")
  | GetArrayColumn typeName name length =>
      let* l := repr length in
      ret ("GetArrayColumn(" ++ PyStr.repr typeName ++ ", " ++ PyStr.repr name
           ++ ", " ++ l ++ ")")
  | MathOp outType op args =>
      let* a := repr_args repr args in
      ret ("MathOp(" ++ op ++ ", " ++ a ++ ", outType=" ++ PyStr.repr outType ++ ")")
  | GetItem arg typeName _index =>
      let* a := repr arg in
      let* ix := repr _index in
      ret ("GetItem(" ++ a ++ ", " ++ PyStr.repr typeName ++ ", " ++ ix ++ ")")
  | Construct typeName args =>
      let* a := repr_args repr args in
      ret ("Construct(" ++ PyStr.repr typeName ++ ", " ++ a ++ ")")
  | CallMethod name args _retType =>
      let* a := repr_args repr args in
      ret ("CallMethod(" ++ PyStr.repr name ++ ", (" ++ a ++ "), returnType="
           ++ PyStr.repr _retType ++ ")")
  | CallMemberMethod this name args _retType =>
      let* t := repr this in
      let* a := repr_args repr args in
      ret ("CallMemberMethod(" ++ t ++ ", " ++ PyStr.repr name ++ ", (" ++ a
           ++ "), returnType=" ++ PyStr.repr _retType ++ ")")
  | GetDataMember this name =>
      let* t := repr this in
      ret ("GetDataMember(" ++ t ++ ", " ++ PyStr.repr name ++ ")")
  | ExtVar typeName name =>
      ret ("ExtVar(" ++ PyStr.repr typeName ++ ", " ++ PyStr.repr name ++ ")")
  | DefinedVar typeName definition _nameHint =>
      ret ("DefinedVar(" ++ PyStr.repr typeName ++ ", " ++ PyStr.repr definition
           ++ ", nameHint=" ++ PyStr.repr_opt _nameHint ++ ")")
  | InitList typeName elms =>
      let* e := repr_args repr elms in
      ret ("InitList<" ++ typeName ++ ">(" ++ e ++ ")")
  | LocalVariablePlaceholder typeHint _ i =>
      ret ("LocalVariablePlaceholder(" ++ PyStr.repr typeHint ++ ", i="
           ++ match i with None => "None" | Some z => PyStr.of_Z z end ++ ")")
  | Select rng predExpr _i =>
      let* r := proxy_repr rng in
      let* p := repr predExpr in
      let* ix := repr _i in
      ret ("Select(" ++ r ++ ", " ++ p ++ ", " ++ ix ++ ")")
  | Sort rng funExpr _i =>
      let* r := proxy_repr rng in
      let* p := repr funExpr in
      let* ix := repr _i in
      ret ("Sort(" ++ r ++ ", " ++ p ++ ", " ++ ix ++ ")")
  | Map rng funExpr _i typeName =>
      let* r := proxy_repr rng in
      let* p := repr funExpr in
      let* ix := repr _i in
      ret ("Map(" ++ r ++ ", " ++ p ++ ", " ++ ix ++ ", " ++ PyStr.repr typeName ++ ")")
  | Next rng predExpr _i =>
      let* r := proxy_repr rng in
      let* p := repr predExpr in
      let* ix := repr _i in
      ret ("Next(" ++ r ++ ", " ++ p ++ ", " ++ ix ++ ")")
  | Reduce _ _ _ _ _ _ =>
      (* the last argument of the format call is the unbound name self_prevRes *)
      raise (NameError "self_prevRes")
  | Combine ranges candPredExpr _i =>
      let* rs := mapM proxy_repr ranges in
      let* p := repr candPredExpr in
      let* ixs := mapM repr _i in
      ret ("Combine(" ++ PyStr.repr_tuple rs ++ ", " ++ p ++ ", "
           ++ PyStr.repr_tuple ixs ++ ")")
  | ScaleFactorWithSystOp wrapped systName variations =>
      let* w := repr wrapped in
      ret ("ScaleFactorWithSystOp(" ++ w ++ ", " ++ PyStr.repr systName ++ ", "
           ++ PyStr.repr_list variations ++ ")")
  | SystModifiedCollectionOp wrapped systName variations =>
      let* w := repr wrapped in
      ret ("SystModifiedCollectionOp(" ++ w ++ ", " ++ PyStr.repr systName ++ ", "
           ++ PyStr.repr_list variations ++ ")")
  end.

(** [TupleOp.__repr__] *)
Fixpoint py_repr (fuel : nat) (self : addr) : M string :=
  match fuel with
  | O => out_of_fuel
  | S fuel' => fromopcache_repr (_repr (py_repr fuel')) self
  end.

(** [TupleOp.__hash__] *)
Definition py_hash (fuel : nat) (self : addr) : M Z :=
  fromopcache_hash
    (fun self => let* s := py_repr fuel self in ret (str_hash s)) self.

(** [self.__class__ == other.__class__] *)
Definition same_class (a b : TupleOp) : bool :=
  String.eqb (class_name a) (class_name b).

(** The [_eq] method of each class, called on two nodes of one class;
    [eq] is [==] on the operands. *)
Definition _eq (eq : addr -> addr -> M bool) (repr : addr -> M string)
    (fs fo : TupleOp) : M bool :=
  match fs, fo with
  | BareTupleOp, BareTupleOp => ret true
  | ForwardingOp w1, ForwardingOp w2 => eq w1 w2
  | Const t1 v1, Const t2 v2 =>
      ret (String.eqb t1 t2 && PyValue.eqb v1 v2)
  | GetColumn t1 n1, GetColumn t2 n2 =>
      ret (String.eqb t1 t2 && String.eqb n1 n2)
  | GetArrayColumn t1 n1 l1, GetArrayColumn t2 n2 l2 =>
      and_then (String.eqb t1 t2 && String.eqb n1 n2) (eq l1 l2)
  | MathOp o1 op1 a1, MathOp o2 op2 a2 =>
      and_then (String.eqb o1 o2 && String.eqb op1 op2) (tuple_eq Nat.eqb eq a1 a2)
  | GetItem a1 t1 i1, GetItem a2 t2 i2 =>
      andM (eq a1 a2) (and_then (String.eqb t1 t2) (eq i1 i2))
  | Construct t1 a1, Construct t2 a2 =>
      and_then (String.eqb t1 t2) (tuple_eq Nat.eqb eq a1 a2)
  | CallMethod n1 a1 r1, CallMethod n2 a2 r2 =>
      and_then (String.eqb n1 n2 && String.eqb r1 r2) (tuple_eq Nat.eqb eq a1 a2)
  | CallMemberMethod th1 n1 a1 r1, CallMemberMethod th2 n2 a2 r2 =>
      andM (eq th1 th2)
        (and_then (String.eqb n1 n2 && String.eqb r1 r2) (tuple_eq Nat.eqb eq a1 a2))
  | GetDataMember th1 n1, GetDataMember th2 n2 =>
      andM (eq th1 th2) (ret (String.eqb n1 n2))
  | ExtVar t1 n1, ExtVar t2 n2 =>
      ret (String.eqb t1 t2 && String.eqb n1 n2)
  | DefinedVar t1 d1 h1, DefinedVar t2 d2 h2 =>
      ret (String.eqb t1 t2 && String.eqb d1 d2 && opt_str_eqb h1 h2)
  | InitList t1 e1, InitList t2 e2 =>
      and_then (String.eqb t1 t2) (tuple_eq Nat.eqb eq e1 e2)
  | LocalVariablePlaceholder t1 p1 i1, LocalVariablePlaceholder t2 p2 i2 =>
      and_then (String.eqb t1 t2)
        (let* r1 := repr_optional repr p1 in
         let* r2 := repr_optional repr p2 in
         ret (String.eqb r1 r2 && opt_Z_eqb i1 i2))
  | Select r1 p1 i1, Select r2 p2 i2
  | Sort r1 p1 i1, Sort r2 p2 i2
  | Next r1 p1 i1, Next r2 p2 i2 =>
      andM (proxy_eq r1 r2) (andM (eq p1 p2) (eq i1 i2))
  | Map r1 p1 i1 t1, Map r2 p2 i2 t2 =>
      andM (proxy_eq r1 r2) (andM (eq p1 p2) (andM (eq i1 i2) (ret (String.eqb t1 t2))))
  | Reduce r1 t1 s1 a1 i1 p1, Reduce r2 t2 s2 a2 i2 p2 =>
      andM (proxy_eq r1 r2)
        (and_then (String.eqb t1 t2)
           (andM (eq s1 s2) (andM (eq a1 a2) (andM (eq i1 i2) (eq p1 p2)))))
  | Combine r1 c1 i1, Combine r2 c2 i2 =>
      andM (tuple_eq (fun a b => Nat.eqb (rng_id a) (rng_id b)) proxy_eq r1 r2)
        (andM (eq c1 c2) (tuple_eq Nat.eqb eq i1 i2))
  | ScaleFactorWithSystOp w1 s1 v1, ScaleFactorWithSystOp w2 s2 v2
  | SystModifiedCollectionOp w1 s1 v1, SystModifiedCollectionOp w2 s2 v2 =>
      andM (eq w1 w2) (ret (String.eqb s1 s2 && str_list_eqb v1 v2))
  | _, _ => raise (AttributeError "_eq on nodes of two classes")
  end.

(** [TupleOp.__eq__] *)
Fixpoint py_eq (fuel : nat) (self other : addr) : M bool :=
  match fuel with
  | O => out_of_fuel
  | S fuel' =>
      if Nat.eqb self other then ret true
      else
        let* hs := py_hash fuel' self in
        let* ho := py_hash fuel' other in
        and_then (Z.eqb hs ho)
          (let* fs := get_fields self in
           let* fo := get_fields other in
           and_then (same_class fs fo)
             (_eq (py_eq fuel') (py_repr fuel') fs fo))
  end.

(** [self == other] where [other] may also be [None]: the hash of [self]
    is taken, and the classes differ. *)
Definition py_eq_obj (fuel : nat) (self : addr) (other : option addr) : M bool :=
  match other with
  | Some b => py_eq fuel self b
  | None => let* _ := py_hash fuel self in ret false
  end.

End Representation.

(** ** The expression cache interface

    [CppStrRedir] and the classes that refine it: the four things the
    operations ask of a [defCache]. [dc_call] is [defCache(arg)], given the
    [get_cppStr] of the nodes bound to this cache; [dc_symbol] takes the
    declaration and the keyword arguments the operations pass with it;
    [dc_shouldDefine] is not defined by [CppStrRedir] itself. What a cache
    records for itself is not part of the store. *)
Inductive symbol_kwargs : Type :=
| NameHint (nameHint : option string)
| ResultArgs (resultType args : string).

Record DefCache : Type := mkDefCache {
  dc_call : (addr -> M string) -> pyobj -> M string;
  dc_symbol : string -> symbol_kwargs -> M string;
  dc_getColName : pyobj -> M (option string);
  dc_shouldDefine : pyobj -> M bool
}.

(** [cppNoRedir = CppStrRedir()]: no caching. *)
Definition cppNoRedir : DefCache := {|
  dc_call := fun get_cppStr arg =>
    match arg with
    | POp a => get_cppStr a
    | _ => raise (AttributeError "get_cppStr")
    end;
  dc_symbol := fun decl kwargs =>
    raise (TypeError ("symbol() got an unexpected keyword argument "
                      ++ match kwargs with
                         | NameHint _ => "'nameHint'"
                         | ResultArgs _ _ => "'resultType'"
                         end));
  dc_getColName := fun _ => ret None;
  dc_shouldDefine := fun _ => raise (AttributeError "shouldDefine")
|}.

(** Truth value of an optional [str]. *)
Definition truthy (o : option string) : bool :=
  match o with
  | None | Some EmptyString => false
  | Some _ => true
  end.

Fixpoint concatM {A B} (f : A -> M (list B)) (l : list A) : M (list B) :=
  match l with
  | [] => ret []
  | x :: rest =>
      let* ys := f x in
      let* zs := concatM f rest in
      ret (ys ++ zs)%list
  end.

(** [for x in l: acc = f(acc, x)] *)
Fixpoint foldM {A B} (f : A -> B -> M A) (acc : A) (l : list B) : M A :=
  match l with
  | [] => ret acc
  | x :: rest => let* acc' := f acc x in foldM f acc' rest
  end.

Fixpoint filterM {A} (f : A -> M bool) (l : list A) : M (list A) :=
  match l with
  | [] => ret []
  | x :: rest =>
      let* b := f x in
      let* ys := filterM f rest in
      ret (if b then x :: ys else ys)
  end.

Definition SizeType : string := "std::size_t".

Section Dependencies.
Context `{Runtime}.

(** [dp != other] for an enumerated [dp] and a node [other]. *)
Definition py_ne (fuel : nat) (dp : option addr) (other : addr) : M bool :=
  let* b := match dp with
            | Some d => py_eq fuel d other
            | None => py_eq_obj fuel other None
            end in
  ret (negb b).

(** [dp in items] for a tuple of nodes: each item in turn is compared
    with [dp] (identity, then [item == dp]). *)
Fixpoint py_in (fuel : nat) (dp : option addr) (items : list addr) : M bool :=
  match items with
  | [] => ret false
  | item :: rest =>
      let* b := py_eq_obj fuel item dp in
      if b then ret true else py_in fuel dp rest
  end.

Section WithCache.
Variable defCache : DefCache.
Variable select : pyobj -> M bool.
Variable includeLocal : bool.

(** The body shared by the [deps] generators of the plain classes:
    [if select(arg): yield arg], then the dependencies of [arg]. *)
Definition deps_of_arg (rec : addr -> M (list (option addr))) (arg : addr)
    : M (list (option addr)) :=
  let* s := select (POp arg) in
  let* ds := rec arg in
  ret (if s then Some arg :: ds else ds).

(** The same for [Select], [Sort], [Map] and [Next]: own placeholder
    [_i] is left out of what [arg] depends on, unless [includeLocal]. *)
Definition deps_of_arg_local (fuel : nat) (rec : addr -> M (list (option addr)))
    (_i : addr) (arg : addr) : M (list (option addr)) :=
  let* s := select (POp arg) in
  let* ds := rec arg in
  let* ds' := filterM (fun dp => if includeLocal then ret true else py_ne fuel dp _i) ds in
  ret (if s then Some arg :: ds' else ds').

(** The same as written in [Reduce.deps] and [Combine.deps]: for a
    selected [arg] the generator runs a bare [yield], which yields
    [None]. *)
Definition deps_of_arg_bare (fuel : nat) (arg_deps : M (list (option addr)))
    (arg : pyobj) (locals : list addr) : M (list (option addr)) :=
  let* s := select arg in
  let* ds := arg_deps in
  let* ds' := filterM (fun dp => if includeLocal then ret true
                                 else let* b := py_in fuel dp locals in ret (negb b)) ds in
  ret (if s then None :: ds' else ds').

(** [if not defCache._getColName(self): ...] *)
Definition unless_defined (self : addr) (body : M (list (option addr)))
    : M (list (option addr)) :=
  let* cn := dc_getColName defCache (POp self) in
  if truthy cn then ret [] else body.

(** The [deps] generator of each class, run to its end: the items in the
    order they are yielded. *)
Fixpoint deps (fuel : nat) (self : addr) : M (list (option addr)) :=
  match fuel with
  | O => out_of_fuel
  | S fuel' =>
      let rec := deps fuel' in
      let* f := get_fields self in
      match f with
      | BareTupleOp | Const _ _ | GetColumn _ _ | ExtVar _ _ | DefinedVar _ _ _
      | LocalVariablePlaceholder _ _ _ => ret []
      | ForwardingOp wrapped
      | ScaleFactorWithSystOp wrapped _ _
      | SystModifiedCollectionOp wrapped _ _ => rec wrapped
      | GetArrayColumn _ _ length => deps_of_arg rec length
      | MathOp _ _ args | Construct _ args | CallMethod _ args _ | InitList _ args =>
          unless_defined self (concatM (deps_of_arg rec) args)
      | GetItem arg _ _index => concatM (deps_of_arg rec) [arg; _index]
      | CallMemberMethod this _ args _ =>
          unless_defined self (concatM (deps_of_arg rec) (this :: args))
      | GetDataMember this _ =>
          unless_defined self (deps_of_arg rec this)
      | Select rng body _i | Sort rng body _i | Map rng body _i _ | Next rng body _i =>
          unless_defined self
            (let* r := proxy_op (rng_proxy rng) in
             concatM (deps_of_arg_local fuel' rec _i) [r; body])
      | Reduce rng _ start accuExpr _i _prevRes =>
          unless_defined self
            (let* d1 := deps_of_arg_bare fuel' (proxy_deps rng select includeLocal)
                          (PRange rng) [_i; _prevRes] in
             let* d2 := concatM (fun a => deps_of_arg_bare fuel' (rec a) (POp a) [_i; _prevRes])
                          [start; accuExpr] in
             ret (d1 ++ d2)%list)
      | Combine ranges candPredExpr _i =>
          unless_defined self
            (let* d1 := concatM (fun r => deps_of_arg_bare fuel'
                                   (proxy_deps r select includeLocal) (PRange r) _i) ranges in
             let* d2 := deps_of_arg_bare fuel' (rec candPredExpr) (POp candPredExpr) _i in
             ret (d1 ++ d2)%list)
      end
  end.

End WithCache.

(** The same generators as they run under a loop [for dep in ...: body]:
    a generator is resumed only when the loop asks for the next item, so
    the body runs on each item at the point where it is yielded, before
    the generator goes on. [body acc dep] is the body of the loop, on the
    state [acc] that the loop keeps. A loop of a generator over the items
    of another ([for dp in arg.deps(...): if ...: yield dp]) is the body
    under which the inner one runs. The generator of a range proxy is
    defined in another module: its items are taken as [proxy_deps] gives
    them, then handed on in turn. *)
Section Consumed.
Context {A : Type}.
Variable defCache : DefCache.
Variable select : pyobj -> M bool.
Variable includeLocal : bool.

(** [if select(arg): yield arg], then the dependencies of [arg]. *)
Definition each_of_arg (rec : addr -> (A -> option addr -> M A) -> A -> M A)
    (body : A -> option addr -> M A) (acc : A) (arg : addr) : M A :=
  let* s := select (POp arg) in
  let* acc1 := if s then body acc (Some arg) else ret acc in
  rec arg body acc1.

(** [if includeLocal or dp != self._i: yield dp] *)
Definition unless_local (fuel : nat) (_i : addr) (body : A -> option addr -> M A)
    (acc : A) (dp : option addr) : M A :=
  let* keep := if includeLocal then ret true else py_ne fuel dp _i in
  if keep then body acc dp else ret acc.

(** [if includeLocal or dp not in locals: yield dp] *)
Definition unless_among (fuel : nat) (locals : list addr)
    (body : A -> option addr -> M A) (acc : A) (dp : option addr) : M A :=
  let* keep := if includeLocal then ret true
               else let* b := py_in fuel dp locals in ret (negb b) in
  if keep then body acc dp else ret acc.

Definition each_of_arg_local (fuel : nat)
    (rec : addr -> (A -> option addr -> M A) -> A -> M A) (_i : addr)
    (body : A -> option addr -> M A) (acc : A) (arg : addr) : M A :=
  let* s := select (POp arg) in
  let* acc1 := if s then body acc (Some arg) else ret acc in
  rec arg (unless_local fuel _i body) acc1.

(** For [Reduce] and [Combine]: the bare [yield] hands on [None];
    [arg_each] runs the generator of [arg] under a body. *)
Definition each_of_arg_bare (fuel : nat)
    (arg_each : (A -> option addr -> M A) -> A -> M A) (arg : pyobj)
    (locals : list addr) (body : A -> option addr -> M A) (acc : A) : M A :=
  let* s := select arg in
  let* acc1 := if s then body acc None else ret acc in
  arg_each (unless_among fuel locals body) acc1.

(** [rng.deps(...)] of a range proxy under a body. *)
Definition proxy_each (rng : RangeProxy) (body : A -> option addr -> M A) (acc : A)
    : M A :=
  let* ds := proxy_deps rng select includeLocal in
  foldM body acc ds.

Definition unless_defined_each (self : addr) (acc : A) (rest : M A) : M A :=
  let* cn := dc_getColName defCache (POp self) in
  if truthy cn then ret acc else rest.

Fixpoint deps_each (fuel : nat) (self : addr) (body : A -> option addr -> M A)
    (acc : A) : M A :=
  match fuel with
  | O => out_of_fuel
  | S fuel' =>
      let rec := deps_each fuel' in
      let* f := get_fields self in
      match f with
      | BareTupleOp | Const _ _ | GetColumn _ _ | ExtVar _ _ | DefinedVar _ _ _
      | LocalVariablePlaceholder _ _ _ => ret acc
      | ForwardingOp wrapped
      | ScaleFactorWithSystOp wrapped _ _
      | SystModifiedCollectionOp wrapped _ _ => rec wrapped body acc
      | GetArrayColumn _ _ length => each_of_arg rec body acc length
      | MathOp _ _ args | Construct _ args | CallMethod _ args _ | InitList _ args =>
          unless_defined_each self acc (foldM (each_of_arg rec body) acc args)
      | GetItem arg _ _index => foldM (each_of_arg rec body) acc [arg; _index]
      | CallMemberMethod this _ args _ =>
          unless_defined_each self acc (foldM (each_of_arg rec body) acc (this :: args))
      | GetDataMember this _ =>
          unless_defined_each self acc (each_of_arg rec body acc this)
      | Select rng e _i | Sort rng e _i | Map rng e _i _ | Next rng e _i =>
          unless_defined_each self acc
            (let* r := proxy_op (rng_proxy rng) in
             foldM (each_of_arg_local fuel' rec _i body) acc [r; e])
      | Reduce rng _ start accuExpr _i _prevRes =>
          unless_defined_each self acc
            (let* acc1 := each_of_arg_bare fuel' (proxy_each rng) (PRange rng)
                            [_i; _prevRes] body acc in
             foldM (fun acc2 a => each_of_arg_bare fuel' (rec a) (POp a) [_i; _prevRes]
                                    body acc2)
               acc1 [start; accuExpr])
      | Combine ranges candPredExpr _i =>
          unless_defined_each self acc
            (let* acc1 := foldM (fun acc2 r => each_of_arg_bare fuel' (proxy_each r)
                                                 (PRange r) _i body acc2)
                            acc ranges in
             each_of_arg_bare fuel' (rec candPredExpr) (POp candPredExpr) _i body acc1)
      end
  end.

End Consumed.

(** [isinstance(nd, LocalVariablePlaceholder)] *)
Definition is_placeholder (nd : pyobj) : M bool :=
  match nd with
  | POp a =>
      let* f := get_fields a in
      ret (match f with LocalVariablePlaceholder _ _ _ => true | _ => false end)
  | _ => ret false
  end.

(** [collectNodes(expr, select)] *)
Definition collectNodes (fuel : nat) (expr : addr) (select : pyobj -> M bool)
    : M (list (option addr)) :=
  let* s := select (POp expr) in
  let* ds := deps cppNoRedir select true fuel expr in
  ret (if s then Some expr :: ds else ds).

End Dependencies.

(** ** Construction *)

(** What a constructor may be given for an operand: a proxy, a node or a
    literal. *)
Inductive pyarg : Type :=
| ArgProxy (p : TupleBaseProxy)
| ArgOp (a : addr)
| ArgVal (v : PyVal).

(** ['"{}"'.format(s)] *)
Definition quoted (s : string) : string :=
  String PyStr.dquote (s ++ String PyStr.dquote "").

Definition adaptArg (arg : pyarg) (typeHint : option string) : M addr :=
  match arg with
  | ArgProxy p => proxy_op p
  | ArgOp a => ret a
  | ArgVal v =>
      match typeHint with
      | Some t =>
          match v with
          | PyString s => new_object (Const t (PyString (quoted s)))
          | _ => new_object (Const t v)
          end
      | None => raise (ValueError "Should get some kind of type hint")
      end
  end.

(** The dictionary [memo] of [clone]: from the identity of a node to its
    copy. *)
Abbreviation memo_t := (gmap nat nat).

Section Constructors.
Context `{Runtime}.

(** The [__init__] of the classes that do more than store their
    arguments; a node gets its identity once its fields are set. *)
Definition MathOp_init (op : string) (args : list pyarg) (outType : string) : M addr :=
  let* args' := mapM (fun a => adaptArg a (Some "Double_t")) args in
  new_object (MathOp outType op args').

Definition GetItem_init (arg : pyarg) (valueType : string) (index : pyarg)
    (indexType : string) : M addr :=
  let* arg' := adaptArg arg None in
  let* index' := adaptArg index (Some indexType) in
  new_object (GetItem arg' valueType index').

Definition Construct_init (typeName : string) (args : list pyarg) : M addr :=
  let* args' := mapM (fun a => adaptArg a (Some "Double_t")) args in
  new_object (Construct typeName args').

Definition CallMethod_init (name : string) (args : list pyarg)
    (returnType : option string) (getFromRoot : bool) : M addr :=
  let* args' := mapM (fun a => adaptArg a None) args in
  let* rt := match returnType with
             | Some (String c r) => ret (String c r)
             | _ => initReturnType name getFromRoot
             end in
  new_object (CallMethod name args' rt).

Definition CallMemberMethod_init (this : pyarg) (name : string) (args : list pyarg)
    (returnType : option string) : M addr :=
  let* this' := adaptArg this None in
  let* args' := mapM (fun a => adaptArg a None) args in
  let* rt := match returnType with
             | Some (String c r) => ret (String c r)
             | _ => match this with
                    | ArgProxy p => memberReturnType p name
                    | _ => raise (AttributeError "_typ")
                    end
             end in
  new_object (CallMemberMethod this' name args' rt).

Definition GetDataMember_init (this : pyarg) (name : string) : M addr :=
  let* this' := adaptArg this None in
  new_object (GetDataMember this' name).

Definition InitList_init (typeName : string) (elms : list pyarg)
    (elmType : option string) : M addr :=
  let* elms' := mapM (fun e => adaptArg e elmType) elms in
  new_object (InitList typeName elms').

(** [variations if variations else [systName + "up", systName + "down"]] *)
Definition ScaleFactorWithSystOp_init (wrapped : addr) (systName : string)
    (variations : list string) : M addr :=
  new_object (ScaleFactorWithSystOp wrapped systName
    (match variations with
     | [] => [systName ++ "up"; systName ++ "down"]
     | _ => variations
     end)).

(** ** Cloning *)

(** [tuple(a.clone(memo=memo) for a in args)] *)
Fixpoint clone_all {A B} (cl : A -> memo_t -> M (B * memo_t)) (args : list A)
    (memo : memo_t) : M (list B * memo_t) :=
  match args with
  | [] => ret ([], memo)
  | a :: rest =>
      let* (a', memo1) := cl a memo in
      let* (rest', memo2) := clone_all cl rest memo1 in
      ret (a' :: rest', memo2)
  end.

(** The [_clone] method of each class; [cl] is [clone] on the operands and
    the dictionary [memo] is threaded through the calls. *)
Definition _clone (cl : addr -> memo_t -> M (addr * memo_t)) (self : addr)
    (memo : memo_t) : M (addr * memo_t) :=
  let* f := get_fields self in
  match f with
  | BareTupleOp =>
      let* cp := new_object BareTupleOp in ret (cp, memo)
  | ForwardingOp wrapped =>
      let* (w, memo) := cl wrapped memo in
      let* cp := new_object (ForwardingOp w) in ret (cp, memo)
  | Const typeName value =>
      let* cp := new_object (Const typeName value) in ret (cp, memo)
  | GetColumn typeName name =>
      let* cp := new_object (GetColumn typeName name) in ret (cp, memo)
  | GetArrayColumn typeName name length =>
      let* (l, memo) := cl length memo in
      let* cp := new_object (GetArrayColumn typeName name l) in ret (cp, memo)
  | MathOp outType op args =>
      let* (args', memo) := clone_all cl args memo in
      let* cp := MathOp_init op (map ArgOp args') outType in ret (cp, memo)
  | GetItem arg typeName _index =>
      let* (a, memo) := cl arg memo in
      let* (ix, memo) := cl _index memo in
      let* cp := GetItem_init (ArgOp a) typeName (ArgOp ix) SizeType in ret (cp, memo)
  | Construct typeName args =>
      let* (args', memo) := clone_all cl args memo in
      let* cp := Construct_init typeName (map ArgOp args') in ret (cp, memo)
  | CallMethod name args _retType =>
      let* (args', memo) := clone_all cl args memo in
      let* cp := CallMethod_init name (map ArgOp args') (Some _retType) true in
      ret (cp, memo)
  | CallMemberMethod this name args _retType =>
      let* (t, memo) := cl this memo in
      let* (args', memo) := clone_all cl args memo in
      let* cp := CallMemberMethod_init (ArgOp t) name (map ArgOp args') (Some _retType) in
      ret (cp, memo)
  | GetDataMember this name =>
      let* (t, memo) := cl this memo in
      let* cp := GetDataMember_init (ArgOp t) name in ret (cp, memo)
  | ExtVar typeName name =>
      let* cp := new_object (ExtVar typeName name) in ret (cp, memo)
  | DefinedVar typeName definition _nameHint =>
      let* cp := new_object (DefinedVar typeName definition _nameHint) in ret (cp, memo)
  | InitList typeName elms =>
      let* (elms', memo) := clone_all cl elms memo in
      let* cp := InitList_init typeName (map ArgOp elms') None in ret (cp, memo)
  | LocalVariablePlaceholder typeHint _parent i =>
      let* cp := new_object (LocalVariablePlaceholder typeHint _parent i) in
      ret (cp, memo)
  | Select rng predExpr _i =>
      let* (r, memo) := proxy_clone rng memo in
      let* (p, memo) := cl predExpr memo in
      let* (ix, memo) := cl _i memo in
      let* cp := new_object (Select r p ix) in ret (cp, memo)
  | Sort rng funExpr _i =>
      let* (r, memo) := proxy_clone rng memo in
      let* (p, memo) := cl funExpr memo in
      let* (ix, memo) := cl _i memo in
      let* cp := new_object (Sort r p ix) in ret (cp, memo)
  | Map rng funExpr _i typeName =>
      let* (r, memo) := proxy_clone rng memo in
      let* (p, memo) := cl funExpr memo in
      let* (ix, memo) := cl _i memo in
      let* cp := new_object (Map r p ix typeName) in ret (cp, memo)
  | Next rng predExpr _i =>
      let* (r, memo) := proxy_clone rng memo in
      let* (p, memo) := cl predExpr memo in
      let* (ix, memo) := cl _i memo in
      let* cp := new_object (Next r p ix) in ret (cp, memo)
  | Reduce rng resultType start accuExpr _i _prevRes =>
      let* (r, memo) := proxy_clone rng memo in
      let* (s, memo) := cl start memo in
      let* (a, memo) := cl accuExpr memo in
      let* (ix, memo) := cl _i memo in
      let* (pr, memo) := cl _prevRes memo in
      let* cp := Reduce_init r resultType s a ix pr in
      ret (cp, memo)
  | Combine ranges candPredExpr _i =>
      let* (rs, memo) := clone_all proxy_clone ranges memo in
      let* (c, memo) := cl candPredExpr memo in
      let* (ixs, memo) := clone_all cl _i memo in
      let* cp := new_object (Combine rs c ixs) in ret (cp, memo)
  | ScaleFactorWithSystOp wrapped systName variations =>
      let* (w, memo) := cl wrapped memo in
      let* cp := ScaleFactorWithSystOp_init w systName variations in ret (cp, memo)
  | SystModifiedCollectionOp wrapped systName variations =>
      let* (w, memo) := cl wrapped memo in
      let* cp := new_object (SystModifiedCollectionOp w systName variations) in
      ret (cp, memo)
  end.

(** [TupleOp.clone], with the dictionary [memo] given. *)
Fixpoint clone_memo (fuel : nat) (self : addr) (memo : memo_t) : M (addr * memo_t) :=
  match fuel with
  | O => out_of_fuel
  | S fuel' =>
      match memo !! self with
      | Some cp => ret (cp, memo)
      | None =>
          let* (cp, memo') := _clone (clone_memo fuel') self memo in
          ret (cp, <[self := cp]> memo')
      end
  end.

(** [self.clone()]: top level, with a new dictionary. *)
Definition clone (fuel : nat) (self : addr) : M addr :=
  let* (cp, _) := clone_memo fuel self ∅ in ret cp.

End Constructors.

(** ** Attributes read and written through an operand *)

(** [o.args] *)
Definition attr_args (o : TupleOp) : M (list addr) :=
  match o with
  | MathOp _ _ args | Construct _ args | CallMethod _ args _
  | CallMemberMethod _ _ args _ => ret args
  | _ => raise (AttributeError "args")
  end.

(** [t[-1]] *)
Definition tuple_last (t : list addr) : M addr :=
  match List.last (map Some t) None with
  | Some a => ret a
  | None => raise (IndexError "tuple index out of range")
  end.

(** [t[0]] *)
Definition tuple_first (t : list addr) : M addr :=
  match t with
  | a :: _ => ret a
  | [] => raise (IndexError "tuple index out of range")
  end.

Definition no_index_msg : string :=
  "Using LocalVariablePlaceholder before giving it an index".

(** [LocalVariablePlaceholder.name] *)
Definition placeholder_name (i : option Z) : M string :=
  match i with
  | None => raise (RuntimeError no_index_msg)
  | Some z => ret ("i" ++ PyStr.of_Z z)
  end.

(** [x.name] for the node [x] at [a]: a slot of some classes, a property of
    the placeholders. *)
Definition attr_name (a : addr) : M string :=
  let* o := get_fields a in
  match o with
  | GetColumn _ name | GetArrayColumn _ name _ | CallMethod name _ _
  | CallMemberMethod _ name _ _ | GetDataMember _ name | ExtVar _ name => ret name
  | LocalVariablePlaceholder _ _ i => placeholder_name i
  | _ => raise (AttributeError "name")
  end.

(** [x.name = v]: the classes whose [__slots__] have [name]. The property
    of the placeholders has no setter. *)
Definition set_attr_name (a : addr) (v : string) : M unit :=
  let* o := get_fields a in
  match o with
  | GetColumn t _ => set_fields a (GetColumn t v)
  | GetArrayColumn t _ l => set_fields a (GetArrayColumn t v l)
  | CallMethod _ args r => set_fields a (CallMethod v args r)
  | CallMemberMethod th _ args r => set_fields a (CallMemberMethod th v args r)
  | GetDataMember th _ => set_fields a (GetDataMember th v)
  | ExtVar t _ => set_fields a (ExtVar t v)
  | _ => raise (AttributeError "name")
  end.

(** [x.value] *)
Definition attr_value (a : addr) : M PyVal :=
  let* o := get_fields a in
  match o with
  | Const _ value => ret value
  | _ => raise (AttributeError "value")
  end.

(** [x.value = v] *)
Definition set_attr_value (a : addr) (v : PyVal) : M unit :=
  let* o := get_fields a in
  match o with
  | Const t _ => set_fields a (Const t v)
  | _ => raise (AttributeError "value")
  end.

(** [o.wrapped] of the forwarding classes. *)
Definition attr_wrapped (o : TupleOp) : M addr :=
  match o with
  | ForwardingOp w | ScaleFactorWithSystOp w _ _ | SystModifiedCollectionOp w _ _ => ret w
  | _ => raise (AttributeError "wrapped")
  end.

(** ** Systematic variations *)

Definition frozen_msg : string :=
  "Cannot change variation of an expression that is already frozen".

(** [x in l] on a list of [str]. *)
Definition str_in (x : string) (l : list string) : bool :=
  existsb (String.eqb x) l.

(** [ScaleFactorWithSystOp.changeVariation] *)
Definition ScaleFactorWithSystOp_changeVariation (self : addr) (newVariation : string)
    (systName : string) (variations : list string) (wrapped : addr) : M unit :=
  let* c := get_cache self in
  if cache_bool c then raise (RuntimeError frozen_msg)
  else if negb (str_in newVariation variations)
  then raise (ValueError ("Invalid variation: " ++ newVariation))
  else
    let newVariation :=
      PyStr.capitalize
        (if PyStr.startswith systName newVariation
         then PyStr.drop (String.length systName) newVariation
         else newVariation) in
    let* w := get_fields wrapped in
    let* args := attr_args w in
    let* lst := tuple_last args in
    let* nm := attr_name lst in
    if String.eqb nm "Nominal" then
      let* args := attr_args w in
      let* lst := tuple_last args in
      let* nm := attr_name lst in
      if negb (String.eqb newVariation nm) then
        let* args := attr_args w in
        let* lst := tuple_last args in
        set_attr_name lst newVariation
      else ret tt
    else ret tt.

(** [SystModifiedCollectionOp.changeVariation] *)
Definition SystModifiedCollectionOp_changeVariation (self : addr) (newCollection : string)
    (variations : list string) (wrapped : addr) : M unit :=
  let* c := get_cache self in
  if cache_bool c then raise (RuntimeError frozen_msg)
  else if negb (str_in newCollection variations)
  then raise (ValueError ("Invalid collection: " ++ newCollection))
  else
    let* w := get_fields wrapped in
    let* args := attr_args w in
    let* fst := tuple_first args in
    let* v := attr_value fst in
    if PyValue.eqb v (PyString (quoted "nominal")) then
      let* args := attr_args w in
      let* fst := tuple_first args in
      let* v := attr_value fst in
      match v with
      | PyString s =>
          if negb (String.eqb newCollection (PyStr.strip PyStr.dquote s)) then
            let* args := attr_args w in
            let* fst := tuple_first args in
            set_attr_value fst (PyString (quoted newCollection))
          else ret tt
      | _ => raise (AttributeError "strip")
      end
    else ret tt.

(** [self.changeVariation(newVar)]: the method of the class of [self]. *)
Definition changeVariation (self : addr) (newVar : string) : M unit :=
  let* o := get_fields self in
  match o with
  | ScaleFactorWithSystOp wrapped systName variations =>
      ScaleFactorWithSystOp_changeVariation self newVar systName variations wrapped
  | SystModifiedCollectionOp wrapped _ variations =>
      SystModifiedCollectionOp_changeVariation self newVar variations wrapped
  | _ => raise (AttributeError "changeVariation")
  end.

(** ** Rendering *)

Module PyText.

(** [needle in hay] on [str]. *)
Fixpoint contains (needle hay : string) : bool :=
  String.prefix needle hay ||
  match hay with
  | EmptyString => false
  | String _ rest => contains needle rest
  end.

Fixpoint replace_from (fuel : nat) (old new s : string) : string :=
  match fuel with
  | O => s
  | S k =>
      match s with
      | EmptyString => ""
      | String c rest =>
          if String.prefix old s
          then new ++ replace_from k old new (PyStr.drop (String.length old) s)
          else String c (replace_from k old new rest)
      end
  end.

Fixpoint intersperse (new s : string) : string :=
  match s with
  | EmptyString => new
  | String c rest => new ++ String c (intersperse new rest)
  end.

(** [s.replace(old, new)] *)
Definition replace (old new s : string) : string :=
  match old with
  | EmptyString => intersperse new s
  | _ => replace_from (String.length s) old new s
  end.

Definition nl : string := String "010"%char "".

End PyText.

(** [sorted(l, key=...)]: a stable sort, [leb] comparing the keys. *)
Fixpoint insert_sorted {A} (leb : A -> A -> bool) (x : A) (l : list A) : list A :=
  match l with
  | [] => [x]
  | y :: rest => if leb x y then x :: y :: rest else y :: insert_sorted leb x rest
  end.

Definition sorted_by {A} (leb : A -> A -> bool) (l : list A) : list A :=
  foldr (insert_sorted leb) [] l.

(** The table [mathOpFuns_cppStr]: a text around the joined arguments, or
    around a fixed number of them. *)
Inductive mathOpFun : Type :=
| Joined (sep : string)
| Unary (pre post : string)
| Binary (pre mid post : string)
| Ternary (pre mid1 mid2 post : string).

Definition mathOpFuns_cppStr : list (string * mathOpFun) :=
  [ ("add", Joined " + ")
  ; ("multiply", Joined " * ")
  ; ("subtract", Binary "( " " - " " )")
  ; ("divide", Binary "( " " / " " )")
  ; ("floatdiv", Binary "( 1.*" " / " " )")
  ; ("lt", Binary "( " " <  " " )")
  ; ("le", Binary "( " " <= " " )")
  ; ("eq", Binary "( " " == " " )")
  ; ("ne", Binary "( " " != " " )")
  ; ("gt", Binary "( " " >  " " )")
  ; ("ge", Binary "( " " >= " " )")
  ; ("and", Joined " && ")
  ; ("or", Joined " || ")
  ; ("not", Unary "( ! " " )")
  ; ("band", Joined " & ")
  ; ("bor", Joined " | ")
  ; ("bxor", Joined " ^ ")
  ; ("bnot", Unary "( ~ " " )")
  ; ("abs", Unary "std::abs( " " )")
  ; ("sqrt", Unary "std::sqrt( " " )")
  ; ("pow", Binary "std::pow( " ", " " )")
  ; ("exp", Unary "std::exp( " " )")
  ; ("log", Unary "std::log( " " )")
  ; ("log10", Unary "std::log10( " " )")
  ; ("max", Binary "std::max( " ", " " )")
  ; ("min", Binary "std::min( " ", " " )")
  ; ("switch", Ternary "( " " ) ? ( " " ) : ( " " )")
  ].

Fixpoint dict_get {V} (d : list (string * V)) (k : string) : option V :=
  match d with
  | [] => None
  | (k', v) :: rest => if String.eqb k' k then Some v else dict_get rest k
  end.

(** [fun(cppStr, *args)] for an entry of the table. *)
Definition apply_mathOpFun (f : mathOpFun) (cppStr : addr -> M string)
    (args : list addr) : M string :=
  match f, args with
  | Joined sep, _ =>
      let* rs := mapM cppStr args in ret ("( " ++ PyStr.join sep rs ++ " )")
  | Unary pre post, [a] =>
      let* s := cppStr a in ret (pre ++ s ++ post)
  | Binary pre mid post, [a1; a2] =>
      let* s1 := cppStr a1 in
      let* s2 := cppStr a2 in
      ret (pre ++ s1 ++ mid ++ s2 ++ post)
  | Ternary pre mid1 mid2 post, [a1; a2; a3] =>
      let* s1 := cppStr a1 in
      let* s2 := cppStr a2 in
      let* s3 := cppStr a3 in
      ret (pre ++ s1 ++ mid1 ++ s2 ++ mid2 ++ s3 ++ post)
  | _, _ => raise (TypeError "<lambda>() called with a wrong number of arguments")
  end.

(** [Const.get_cppStr] *)
Definition Const_get_cppStr (typeName : string) (value : PyVal) : string :=
  match PyValue.abs_is_inf value with
  | Some true =>
      "std::numeric_limits<" ++ typeName ++ ">::"
      ++ (if PyValue.is_negative value then "min" else "max") ++ "()"
  | _ => PyValue.str value
  end.

(** ["{0}".format(o)] for an optional [str]. *)
Definition fmt_opt (o : option string) : string :=
  match o with None => "None" | Some s => s end.

(** A triple of capture, declaration and call argument; the last is a
    column name, which a cache may give as [None]. *)
Abbreviation triple := (string * string * option string)%type.

(** [l.append(x)] *)
Definition append {A} (l : list A) (x : A) : list A := (l ++ [x])%list.

(** The transposition [zip] makes of a list of triples: no item for
    the empty list, else the three tuples of the first, second and third
    parts. *)
Definition zip_star (l : list triple)
    : option (list string * list string * list (option string)) :=
  match l with
  | [] => None
  | _ => Some (map (fun t => t.1.1) l, map (fun t => t.1.2) l, map (fun t => t.2) l)
  end.

(** [captures, paramDecl, paramCall = ...] *)
Definition unpack3 {T} (z : option T) : M T :=
  match z with
  | Some t => ret t
  | None => raise (ValueError "not enough values to unpack (expected 3)")
  end.

(** The items of a list where all are [str]; else the position of the
    first that is [None]. *)
Fixpoint all_str (i : nat) (items : list (option string)) : list string + nat :=
  match items with
  | [] => inl []
  | None :: _ => inr i
  | Some s :: rest =>
      match all_str (S i) rest with
      | inl l => inl (s :: l)
      | inr k => inr k
      end
  end.

(** [sep.join(items)] where an item may be [None]. *)
Definition join_names (sep : string) (items : list (option string)) : M string :=
  match all_str 0 items with
  | inl l => ret (PyStr.join sep l)
  | inr k => raise (TypeError ("sequence item " ++ PyStr.of_Z (Z.of_nat k)
                               ++ ": expected str instance, NoneType found"))
  end.

(** [_normFunArgs] *)
Fixpoint _normFunArgs_loop (todo : list (nat * string)) (newExpr : string)
    (newArgs : list string) : M (string * list string) :=
  match todo with
  | [] => ret (newExpr, newArgs)
  | (i, argN) :: rest =>
      let newName := "myArg" ++ PyStr.of_Z (Z.of_nat i) in
      if negb (Nat.eqb (List.length (filter (fun ia => PyText.contains argN ia) newArgs)) 1)
      then raise (AssertionError "")
      else
        let newArgs' := map (fun ia => if PyText.contains argN ia
                                       then PyText.replace argN newName ia else ia) newArgs in
        _normFunArgs_loop rest (PyText.replace argN newName newExpr) newArgs'
  end.

Definition _normFunArgs (expr : string) (args : list string)
    (argNames : list (option string)) : M (string * list string) :=
  match all_str 0 argNames with
  | inr _ => raise (TypeError "object of type 'NoneType' has no len()")
  | inl names =>
      _normFunArgs_loop
        (sorted_by (fun x y => Nat.leb (String.length y.2) (String.length x.2))
           (imap (fun i n => (i, n)) names))
        expr args
  end.

Section Rendering.
Context `{Runtime}.

(** ["{0}".format(ld)] for an enumerated item: the [repr] of a node (no
    class defines [__format__] or [__str__]), the text [None] for
    [None]. *)
Definition py_format (fuel : nat) (ld : option addr) : M string :=
  match ld with
  | Some a => py_repr fuel a
  | None => ret "None"
  end.

(** [print("... {0}".format(ld))]: what is modelled of it is the
    formatting of the text. *)
Definition print_format (fuel : nat) (ld : option addr) : M unit :=
  let* _ := py_format fuel ld in ret tt.

(** One step of the loop of [_convertFunArgs]. *)
Definition _convertFunArgs_step (fuel : nat) (defCache : DefCache)
    (capDeclCall : list triple) (ld : option addr) : M (list triple) :=
  let* f := match ld with
            | Some a => let* f := get_fields a in ret (Some f)
            | None => ret None
            end in
  match f with
  | Some (GetArrayColumn typeName name _) =>
      ret (append capDeclCall
             ("&" ++ name, "const ROOT::VecOps::RVec<" ++ typeName ++ ">& " ++ name,
              Some name))
  | Some (GetColumn typeName name) =>
      ret (append capDeclCall
             ("&" ++ name, "const " ++ typeName ++ "& " ++ name, Some name))
  | Some (LocalVariablePlaceholder typeHint _ i) =>
      let* _ := placeholder_name i in
      let* n1 := placeholder_name i in
      let* n2 := placeholder_name i in
      let* n3 := placeholder_name i in
      ret (append capDeclCall (n1, typeHint ++ " " ++ n2, Some n3))
  | _ =>
      let obj := match ld with Some a => POp a | None => PNone end in
      let* sd := dc_shouldDefine defCache obj in
      if sd then
        let* nm := dc_getColName defCache obj in
        let* _ := if truthy nm then ret tt else print_format fuel ld in
        if negb (existsb (fun t => String.eqb ("&" ++ fmt_opt nm) t.1.1) capDeclCall) then
          let* rt := match ld with
                     | Some _ => result_typeName ld
                     | None => raise (AttributeError "result")
                     end in
          ret (append capDeclCall
                 ("&" ++ fmt_opt nm, "const " ++ rt ++ "& " ++ fmt_opt nm, nm))
        else ret capDeclCall
      else
        let* r := py_format fuel ld in
        raise (AssertionError ("Dependency with unknown type: " ++ r))
  end.

(** [_convertFunArgs(deps, defCache)]; [deps] in the order the set is
    iterated. The triples are sorted by their declaration. *)
Definition _convertFunArgs (fuel : nat) (deps : list (option addr)) (defCache : DefCache)
    : M (option (list string * list string * list (option string))) :=
  let* capDeclCall := foldM (_convertFunArgs_step fuel defCache) [] deps in
  ret (zip_star (sorted_by (fun x y => PyStr.leb x.1.2 y.1.2) capDeclCall)).

(** [hash(x)] of an enumerated item. *)
Definition item_hash (fuel : nat) (x : option addr) : M Z :=
  match x with
  | Some a => py_hash fuel a
  | None => ret none_hash
  end.

(** Adding [x], of hash [hx], to a set: it is compared with the entries
    of the same hash ([entry is x or entry == x]). *)
Fixpoint set_insert (fuel : nat) (x : option addr) (hx : Z)
    (entries : list (option addr * Z)) : M (list (option addr * Z)) :=
  match entries with
  | [] => ret [(x, hx)]
  | (y, hy) :: rest =>
      let* same :=
        if Z.eqb hy hx then
          if bool_decide (y = x) then ret true
          else match y, x with
               | Some a, _ => py_eq_obj fuel a x
               | None, Some b => py_eq_obj fuel b None
               | None, None => ret true
               end
        else ret false in
      if same then ret entries
      else let* rest' := set_insert fuel x hx rest in ret ((y, hy) :: rest')
  end.

(** Adding [x] to a set: its hash is taken first. *)
Definition set_add (fuel : nat) (entries : list (option addr * Z)) (x : option addr)
    : M (list (option addr * Z)) :=
  let* hx := item_hash fuel x in set_insert fuel x hx entries.

(** The [select] of the second pass of [_collectDeps]. *)
Definition collect_select (fuel : nat) (defCache : DefCache) (ownLocal : list addr)
    (op : pyobj) : M bool :=
  let* f := match op with
            | POp a => let* f := get_fields a in ret (Some f)
            | _ => ret None
            end in
  match f with
  | Some (GetColumn _ _) | Some (GetArrayColumn _ _ _) => ret true
  | _ =>
      let* sd := dc_shouldDefine defCache op in
      if sd then ret true
      else match op, f with
           | POp a, Some (LocalVariablePlaceholder _ _ _) =>
               let* b := py_in fuel (Some a) ownLocal in ret (negb b)
           | _, _ => ret false
           end
  end.

Definition as_pyobj (x : option addr) : pyobj :=
  match x with Some a => POp a | None => PNone end.

(** [expr.deps(defCache=defCache, select=select)] under a loop, for a
    root that is a range proxy or a node. *)
Definition each_of_root {A} (fuel : nat) (defCache : DefCache) (select : pyobj -> M bool)
    (body : A -> option addr -> M A) (acc : A) (expr : pyobj) : M A :=
  match expr with
  | POp a => deps_each defCache select false fuel a body acc
  | PRange r => proxy_each select false r body acc
  | PNone => raise (AttributeError "deps")
  end.

(** The body of the loop of the first pass: [cn = defCache(dep)], and
    the text of the warning is formatted when [cn] is empty. *)
Definition trigger_definition (fuel : nat) (cppStr : pyobj -> M string)
    (_ : unit) (dep : option addr) : M unit :=
  let* cn := cppStr (as_pyobj dep) in
  match cn with
  | EmptyString => print_format fuel dep
  | String _ _ => ret tt
  end.

(** [_collectDeps(exprs, ownLocal, defCache)]; [cppStr] is [defCache(.)].
    Both passes take the items of the chained generators one at a time:
    the first calls [defCache] on each, the second adds each to the
    set. *)
Definition _collectDeps (fuel : nat) (cppStr : pyobj -> M string) (exprs : list pyobj)
    (ownLocal : list addr) (defCache : DefCache) : M (list (option addr)) :=
  let* _ := foldM (each_of_root fuel defCache (dc_shouldDefine defCache)
                     (trigger_definition fuel cppStr)) tt exprs in
  let* entries := foldM (each_of_root fuel defCache (collect_select fuel defCache ownLocal)
                           (set_add fuel)) [] exprs in
  ret (map fst (set_order entries)).

(** [any(isinstance(dp, LocalVariablePlaceholder) for dp in depList)] *)
Fixpoint any_placeholder (depList : list (option addr)) : M bool :=
  match depList with
  | [] => ret false
  | dp :: rest =>
      let* b := is_placeholder (as_pyobj dp) in
      if b then ret true else any_placeholder rest
  end.

(** ["{0} {1}".format(x.typeHint, x.name)] for the placeholder at [a]. *)
Definition placeholder_decl (a : addr) : M string :=
  let* f := get_fields a in
  match f with
  | LocalVariablePlaceholder typeHint _ i =>
      let* n := placeholder_name i in ret (typeHint ++ " " ++ n)
  | _ => raise (AttributeError "typeHint")
  end.

(** The end shared by the [get_cppStr] of the operations on ranges: the
    expression itself when it depends on a placeholder, else a call of the
    symbol defined for it. *)
Definition inline_or_symbol (defCache : DefCache) (depList : list (option addr))
    (expr : string) (resultType : string) (paramDecl : list string)
    (paramCall : list (option string)) : M string :=
  let* nested := any_placeholder depList in
  if nested then ret expr
  else
    let* funName := dc_symbol defCache expr
                      (ResultArgs resultType (PyStr.join ", " paramDecl)) in
    let* call := join_names ", " paramCall in
    ret (funName ++ "(" ++ call ++ ")").

Definition RVec (t : string) : string := "ROOT::VecOps::RVec<" ++ t ++ ">".

(** The [get_cppStr] method of each class. *)
Fixpoint get_cppStr (defCache : DefCache) (fuel : nat) (self : addr) : M string :=
  match fuel with
  | O => out_of_fuel
  | S fuel' =>
      let cppStr := dc_call defCache (get_cppStr defCache fuel') in
      let cppStrOp a := cppStr (POp a) in
      let idxs rng := let* ix := proxy_op (_idxs rng) in cppStrOp ix in
      let* f := get_fields self in
      match f with
      | BareTupleOp => raise (AttributeError "get_cppStr")
      | ForwardingOp wrapped
      | ScaleFactorWithSystOp wrapped _ _
      | SystModifiedCollectionOp wrapped _ _ => get_cppStr defCache fuel' wrapped
      | Const typeName value => ret (Const_get_cppStr typeName value)
      | GetColumn _ name | GetArrayColumn _ name _ | ExtVar _ name => ret name
      | MathOp _ op args =>
          match dict_get mathOpFuns_cppStr op with
          | Some fn => apply_mathOpFun fn cppStrOp args
          | None => raise (KeyError op)
          end
      | GetItem arg _ _index =>
          let* a := cppStrOp arg in
          let* ix := cppStrOp _index in
          ret (a ++ "[" ++ ix ++ "]")
      | Construct typeName args =>
          let* rs := mapM cppStrOp args in
          ret (typeName ++ "{" ++ PyStr.join ", " rs ++ "}")
      | CallMethod name args _ =>
          let* sd := dc_shouldDefine defCache (POp self) in
          if negb sd then
            let* rs := mapM cppStrOp args in
            ret (name ++ "(" ++ PyStr.join ", " rs ++ ")")
          else
            let* depList := _collectDeps fuel' cppStr (map POp args) [] defCache in
            let* cdc := _convertFunArgs fuel' depList defCache in
            let* (_, paramDecl, paramCall) := unpack3 cdc in
            let* rs := mapM cppStrOp args in
            let expr := name ++ "(" ++ PyStr.join ", " rs ++ ")" ++ PyText.nl in
            let* rt := result_typeName (Some self) in
            let* funName := dc_symbol defCache expr
                              (ResultArgs rt (PyStr.join ", " paramDecl)) in
            let* call := join_names ", " paramCall in
            ret (funName ++ "(" ++ call ++ ")")
      | CallMemberMethod this name args _ =>
          let* t := cppStrOp this in
          let* rs := mapM cppStrOp args in
          ret (t ++ "." ++ name ++ "(" ++ PyStr.join ", " rs ++ ")")
      | GetDataMember this name =>
          let* t := cppStrOp this in
          ret (t ++ "." ++ name)
      | DefinedVar _ definition _nameHint =>
          dc_symbol defCache definition (NameHint _nameHint)
      | InitList _ elms =>
          let* rs := mapM cppStrOp elms in
          ret ("{ " ++ PyStr.join ", " rs ++ " }")
      | LocalVariablePlaceholder _ _ i => placeholder_name i
      | Select rng predExpr _i =>
          let* depList := _collectDeps fuel' cppStr [PRange rng; POp predExpr] [_i] defCache in
          let* cdc := _convertFunArgs fuel' depList defCache in
          let* (captures, paramDecl, paramCall) := unpack3 cdc in
          let* ix := idxs rng in
          let* i := placeholder_decl _i in
          let* p := cppStrOp predExpr in
          let expr := "rdfhelpers::select(" ++ ix ++ "," ++ PyText.nl ++ "    ["
                      ++ PyStr.join ", " captures ++ "] ( " ++ i ++ " ) { return " ++ p
                      ++ "; })" in
          let* nested := any_placeholder depList in
          if nested then ret expr
          else
            let* (expr_n, args_n) := _normFunArgs expr paramDecl paramCall in
            let* funName := dc_symbol defCache expr_n
                              (ResultArgs (RVec SizeType) (PyStr.join ", " args_n)) in
            let* call := join_names ", " paramCall in
            ret (funName ++ "(" ++ call ++ ")")
      | Sort rng funExpr _i =>
          let* depList := _collectDeps fuel' cppStr [PRange rng; POp funExpr] [_i] defCache in
          let* cdc := _convertFunArgs fuel' depList defCache in
          let* (captures, paramDecl, paramCall) := unpack3 cdc in
          let* ix := idxs rng in
          let* i := placeholder_decl _i in
          let* p := cppStrOp funExpr in
          inline_or_symbol defCache depList
            ("rdfhelpers::sort(" ++ ix ++ "," ++ PyText.nl ++ "    ["
             ++ PyStr.join ", " captures ++ "] ( " ++ i ++ " ) { return " ++ p ++ "; })")
            (RVec SizeType) paramDecl paramCall
      | Map rng funExpr _i typeName =>
          let* depList := _collectDeps fuel' cppStr [PRange rng; POp funExpr] [_i] defCache in
          let* cdc := _convertFunArgs fuel' depList defCache in
          let* (captures, paramDecl, paramCall) := unpack3 cdc in
          let* ix := idxs rng in
          let* i := placeholder_decl _i in
          let* p := cppStrOp funExpr in
          inline_or_symbol defCache depList
            ("rdfhelpers::map<" ++ typeName ++ ">(" ++ ix ++ "," ++ PyText.nl ++ "    ["
             ++ PyStr.join ", " captures ++ "] ( " ++ i ++ " ) { return " ++ p ++ "; })")
            (RVec typeName) paramDecl paramCall
      | Next rng predExpr _i =>
          let* depList := _collectDeps fuel' cppStr [PRange rng; POp predExpr] [_i] defCache in
          let* cdc := _convertFunArgs fuel' depList defCache in
          let* (captures, paramDecl, paramCall) := unpack3 cdc in
          let* ix := idxs rng in
          let* i := placeholder_decl _i in
          let* p := cppStrOp predExpr in
          inline_or_symbol defCache depList
            ("rdfhelpers::next(" ++ ix ++ "," ++ PyText.nl ++ "     ["
             ++ PyStr.join ", " captures ++ "] ( " ++ i ++ " ) { return " ++ p ++ "; }, -1)")
            SizeType paramDecl paramCall
      | Reduce rng resultType start accuExpr _i _prevRes =>
          let* depList := _collectDeps fuel' cppStr [PRange rng; POp start; POp accuExpr]
                            [_i; _prevRes] defCache in
          let* cdc := _convertFunArgs fuel' depList defCache in
          let* (captures, paramDecl, paramCall) := unpack3 cdc in
          let* ix := idxs rng in
          let* st := cppStrOp start in
          let* pr := placeholder_decl _prevRes in
          let* i := placeholder_decl _i in
          let* a := cppStrOp accuExpr in
          inline_or_symbol defCache depList
            ("rdfhelpers::reduce(" ++ ix ++ ", " ++ st ++ "," ++ PyText.nl ++ "     ["
             ++ PyStr.join ", " captures ++ "] ( " ++ pr ++ ", " ++ i ++ " ) { return " ++ a
             ++ "; })")
            resultType paramDecl paramCall
      | Combine ranges candPredExpr _i =>
          let* depList := _collectDeps fuel' cppStr
                            (append (map PRange ranges) (POp candPredExpr)) _i defCache in
          let* cdc := _convertFunArgs fuel' depList defCache in
          let* (captures, paramDecl, paramCall) := unpack3 cdc in
          let num := PyStr.of_Z (Z.of_nat (List.length ranges)) in
          let* predIdxArgs := mapM placeholder_decl _i in
          let* p := cppStrOp candPredExpr in
          let* rs := mapM idxs ranges in
          inline_or_symbol defCache depList
            ("rdfhelpers::combine" ++ num ++ "(" ++ PyText.nl ++ "     ["
             ++ PyStr.join ", " captures ++ "] ( " ++ PyStr.join ", " predIdxArgs
             ++ " ) { return " ++ p ++ "; }," ++ PyText.nl ++ "     "
             ++ PyStr.join ", " rs ++ ")")
            ("ROOT::VecOps::RVec<rdfhelpers::Combination<" ++ num ++ ">>")
            paramDecl paramCall
      end
  end.

End Rendering.

(** ** Operations on ranges: the factory methods

    The callback of the user is given the placeholder(s) and returns what it
    built from the element proxies [rng._base[idx.result]]; it may run any
    code on the store. *)

(** [x.i] of an enumerated node. *)
Definition attr_i (nd : option addr) : M (option Z) :=
  match nd with
  | None => raise (AttributeError "i")
  | Some a =>
      let* f := get_fields a in
      match f with
      | LocalVariablePlaceholder _ _ i => ret i
      | _ => raise (AttributeError "i")
      end
  end.

(** [idx.i = v] *)
Definition set_attr_i (idx : addr) (v : Z) : M unit :=
  let* f := get_fields idx in
  match f with
  | LocalVariablePlaceholder typeHint _parent _ =>
      set_fields idx (LocalVariablePlaceholder typeHint _parent (Some v))
  | _ => raise (AttributeError "i")
  end.

(** [idx._parent = res] *)
Definition set_attr_parent (idx : addr) (res : addr) : M unit :=
  let* f := get_fields idx in
  match f with
  | LocalVariablePlaceholder typeHint _ i =>
      set_fields idx (LocalVariablePlaceholder typeHint (Some res) i)
  | _ => raise (AttributeError "_parent")
  end.

(** [max(chain([-1], items))] *)
Definition max_from (items : list Z) : Z := fold_left Z.max items (-1).

(** [val._typeName] *)
Definition arg_typeName (val : pyarg) : M string :=
  match val with
  | ArgProxy p => ret (_typeName p)
  | _ => raise (AttributeError "_typeName")
  end.

(** [idx.result]: the proxy of a placeholder. *)
Definition result_of_placeholder (typeHint : string) (idx : addr) : pyarg :=
  ArgProxy (mkProxy typeHint (Some idx)).

(** All the pairs of two items of a list, as [combinations(l, 2)] yields
    them. *)
Fixpoint combinations2 {A} (l : list A) : list (A * A) :=
  match l with
  | [] => []
  | x :: rest => (map (fun y => (x, y)) rest ++ combinations2 rest)%list
  end.

(** [zip(a, b)] *)
Fixpoint zip {A B} (a : list A) (b : list B) : list (A * B) :=
  match a, b with
  | x :: a', y :: b' => (x, y) :: zip a' b'
  | _, _ => []
  end.

Section Factories.
Context `{Runtime}.

(** The greatest index of the placeholders that [collectNodes] finds in
    [expr], a placeholder without index counting for [-1]; [-1] if there
    is none. *)
Definition max_placeholder_index (fuel : nat) (expr : addr) : M Z :=
  let* nds := collectNodes fuel expr is_placeholder in
  let* idxs := mapM (fun nd => let* i := attr_i nd in ret (default (-1) i)) nds in
  ret (max_from idxs).

(** [Select.fromRngFun] *)
Definition Select_fromRngFun (fuel : nat) (rng : RangeProxy) (pred : addr -> M pyarg)
    : M addr :=
  let* idx := new_object (LocalVariablePlaceholder SizeType None None) in
  let* p := pred idx in
  let* predExpr := adaptArg p None in
  let* m := max_placeholder_index fuel predExpr in
  let* _ := set_attr_i idx (m + 1) in
  let* res := new_object (Select rng predExpr idx) in
  let* _ := set_attr_parent idx res in
  ret res.

(** [Sort.fromRngFun] *)
Definition Sort_fromRngFun (fuel : nat) (rng : RangeProxy) (fn : addr -> M pyarg)
    : M addr :=
  let* idx := new_object (LocalVariablePlaceholder SizeType None None) in
  let* p := fn idx in
  let* funExpr := adaptArg p None in
  let* m := max_placeholder_index fuel funExpr in
  let* _ := set_attr_i idx (m + 1) in
  let* res := new_object (Sort rng funExpr idx) in
  let* _ := set_attr_parent idx res in
  ret res.

(** [Map.fromRngFun] *)
Definition Map_fromRngFun (fuel : nat) (rng : RangeProxy) (fn : addr -> M pyarg)
    (typeName : option string) : M addr :=
  let* idx := new_object (LocalVariablePlaceholder SizeType None None) in
  let* val := fn idx in
  let* funExpr := adaptArg val None in
  let* m := max_placeholder_index fuel funExpr in
  let* _ := set_attr_i idx (m + 1) in
  let* tn := match typeName with
             | Some t => ret t
             | None => arg_typeName val
             end in
  let* res := new_object (Map rng funExpr idx tn) in
  let* _ := set_attr_parent idx res in
  ret res.

(** [Next.fromRngFun] *)
Definition Next_fromRngFun (fuel : nat) (rng : RangeProxy) (pred : addr -> M pyarg)
    : M addr :=
  let* idx := new_object (LocalVariablePlaceholder SizeType None None) in
  let* p := pred idx in
  let* predExpr := adaptArg p None in
  let* m := max_placeholder_index fuel predExpr in
  let* _ := set_attr_i idx (m + 1) in
  let* res := new_object (Next rng predExpr idx) in
  let* _ := set_attr_parent idx res in
  ret res.

(** [Reduce.fromRngFun] *)
Definition Reduce_fromRngFun (fuel : nat) (rng : RangeProxy) (start : pyarg)
    (accuFun : addr -> addr -> M pyarg) : M addr :=
  let* resultType := arg_typeName start in
  let* idx := new_object (LocalVariablePlaceholder SizeType None None) in
  let* prevRes := new_object (LocalVariablePlaceholder resultType None (Some (-1))) in
  let* a := accuFun prevRes idx in
  let* accuExpr := adaptArg a None in
  let* maxLVIdx := max_placeholder_index fuel accuExpr in
  let* _ := set_attr_i idx (maxLVIdx + 1) in
  let* _ := set_attr_i prevRes (maxLVIdx + 2) in
  let* start' := adaptArg start None in
  let* res := Reduce_init rng resultType start' accuExpr idx prevRes in
  let* _ := set_attr_parent idx res in
  let* _ := set_attr_parent prevRes res in
  ret res.

(** Modelled from the spec: [treefunctions.AND], which is not part of this
    module. The spec has the predicates conjoined; the factory reads the
    operands of the conjunction back as [areDiff.op.args], so that [AND]
    gives the proxy of a ["and"] operation over its arguments. *)
Definition op_AND (args : list pyarg) : M TupleBaseProxy :=
  let* a := MathOp_init "and" args "bool" in
  ret (mkProxy "bool" (Some a)).

(** Modelled from the spec: the default [sameIdxPred], [i1 < i2] on two
    index proxies, whose classes are not part of this module: the strictly
    increasing order of the indices, the ["lt"] operation of the table of
    operators. *)
Definition default_sameIdxPred (i1 i2 : pyarg) : M pyarg :=
  let* a := MathOp_init "lt" [i1; i2] "bool" in
  ret (ArgProxy (mkProxy "bool" (Some a))).

(** Modelled from the spec: [ra._base == rb._base], on objects whose class
    is not part of this module: whether two ranges have the same
    underlying collection. *)
Definition same_base (ra rb : RangeProxy) : bool := Nat.eqb (_base ra) (_base rb).

(** [Combine.fromRngFun] *)
Definition Combine_fromRngFun (fuel : nat) (num : nat) (ranges : list RangeProxy)
    (candPredFun : list addr -> M pyarg)
    (sameIdxPred : pyarg -> pyarg -> M pyarg) : M addr :=
  let* ranges := match ranges with
                 | _ :: _ :: _ => ret ranges
                 | [r] => ret (replicate num r)
                 | [] => raise (IndexError "list index out of range")
                 end in
  let* idx := mapM (fun i => new_object
                      (LocalVariablePlaceholder SizeType None (Some (-1 - Z.of_nat i))))
                (seq 0 num) in
  let* diffs := mapM (fun p => sameIdxPred (result_of_placeholder SizeType p.1.1)
                                           (result_of_placeholder SizeType p.2.1))
                  (filter (fun p => same_base p.1.2 p.2.2) (combinations2 (zip idx ranges))) in
  let* areDiff := op_AND diffs in
  let* candPred := candPredFun (map fst (zip idx ranges)) in
  let* areDiffOp := proxy_op areDiff in
  let* areDiffFields := get_fields areDiffOp in
  let* areDiffArgs := attr_args areDiffFields in
  let* candPredExpr :=
    match areDiffArgs with
    | _ :: _ =>
        let* both := op_AND [ArgProxy areDiff; candPred] in
        adaptArg (ArgProxy both) None
    | [] => adaptArg candPred None
    end in
  let* maxLVIdx := max_placeholder_index fuel candPredExpr in
  let* _ := mapM (fun p => set_attr_i p.2 (maxLVIdx + 1 + Z.of_nat p.1))
              (imap (fun i ilvp => (i, ilvp)) idx) in
  let* res := new_object (Combine ranges candPredExpr idx) in
  let* _ := mapM (fun ilvp => set_attr_parent ilvp res) idx in
  ret res.

End Factories.

(** ** A runtime for the examples

    A polynomial hash of the code points; range proxies that print their
    identity, are equal when identical, clone to themselves and have no
    dependencies of their own; [Float_t] for the reflected return types;
    sets iterated in the order of insertion. *)

Fixpoint poly_hash_from (acc : Z) (s : string) : Z :=
  match s with
  | EmptyString => acc
  | String c rest => poly_hash_from ((acc * 31 + Z.of_N (N_of_ascii c)) mod 2 ^ 61) rest
  end.

Definition example_runtime : Runtime := {|
  str_hash := poly_hash_from 7;
  none_hash := 0;
  proxy_repr := fun r => ret ("<RangeProxy " ++ PyStr.of_Z (Z.of_nat (rng_id r)) ++ ">");
  proxy_eq := fun a b => ret (Nat.eqb (rng_id a) (rng_id b));
  proxy_clone := fun r memo => ret (r, memo);
  proxy_deps := fun _ _ _ => ret [];
  initReturnType := fun _ _ => ret "Float_t";
  memberReturnType := fun _ _ => ret "Float_t";
  result_typeName := fun _ => ret "Float_t";
  set_order := fun entries => entries
|}.


(** * Statements

    The notions the properties are stated with. *)

(** The arguments of a call, for the classes that have [args]. *)
Definition args_of (o : TupleOp) : option (list addr) :=
  match o with
  | MathOp _ _ args | Construct _ args | CallMethod _ args _
  | CallMemberMethod _ _ args _ => Some args
  | _ => None
  end.

(** The operand a wrapper rewrites: the last argument of the wrapped call
    for a scale factor, the first for a modified collection. *)
Definition selector (h : heap) (w : TupleOp) : option addr :=
  match w with
  | ScaleFactorWithSystOp wrapped _ _ =>
      o ← h !! wrapped; args ← args_of (fields o); List.last (map Some args) None
  | SystModifiedCollectionOp wrapped _ _ =>
      o ← h !! wrapped; args ← args_of (fields o); head args
  | _ => None
  end.

(** Whether the selector of a wrapper of class [w] holds the nominal value. *)
Definition holds_nominal (w sel : TupleOp) : bool :=
  match w, sel with
  | ScaleFactorWithSystOp _ _ _,
    (GetColumn _ name | GetArrayColumn _ name _ | CallMethod name _ _
     | CallMemberMethod _ name _ _ | GetDataMember _ name | ExtVar _ name) =>
      String.eqb name "Nominal"
  | SystModifiedCollectionOp _ _ _, Const _ value =>
      PyValue.eqb value (PyString (quoted "nominal"))
  | _, _ => false
  end.

(** [x.name], where the node has one. *)
Definition name_of (o : TupleOp) : option string :=
  match o with
  | GetColumn _ name | GetArrayColumn _ name _ | CallMethod name _ _
  | CallMemberMethod _ name _ _ | GetDataMember _ name | ExtVar _ name => Some name
  | LocalVariablePlaceholder _ _ (Some z) => Some ("i" ++ PyStr.of_Z z)
  | _ => None
  end.

(** The fields after [x.name = v], where the class has the slot. *)
Definition with_name (o : TupleOp) (v : string) : option TupleOp :=
  match o with
  | GetColumn t _ => Some (GetColumn t v)
  | GetArrayColumn t _ l => Some (GetArrayColumn t v l)
  | CallMethod _ args r => Some (CallMethod v args r)
  | CallMemberMethod th _ args r => Some (CallMemberMethod th v args r)
  | GetDataMember th _ => Some (GetDataMember th v)
  | ExtVar t _ => Some (ExtVar t v)
  | _ => None
  end.

(** What one call of [changeVariation] may do to the store: nothing, or
    the assignment of a new name or value to a selector that held the
    nominal one. *)
Inductive rewrites_selector (h : heap) (w : TupleOp) (h' : heap) : Prop :=
| Rewritten (sel : addr) (so : PyObject) (f' : TupleOp) :
    selector h w = Some sel ->
    h !! sel = Some so ->
    holds_nominal w (fields so) = true ->
    holds_nominal w f' = false ->
    args_of f' = args_of (fields so) ->
    class_name f' = class_name (fields so) ->
    h' = <[sel := mkObject f' (_cache so)]> h ->
    rewrites_selector h w h'.

(** Two stores with the same nodes, up to their caches. *)
Definition same_fields (h h' : heap) : Prop :=
  forall a, fields <$> (h' !! a) = fields <$> (h !! a).

(** A piece of code that assigns to no attribute of a node and creates no
    node: it may fill caches. *)
Definition cache_only {A} (m : M A) : Prop :=
  forall h, match m h with
            | Ok _ h' | Raise _ h' => same_fields h h'
            | OutOfFuel => True
            end.

(** What is assumed of the methods of the range proxies where a property
    needs it: printing and comparing them assigns to no attribute of a
    node. *)
Class RuntimeLaws `{Runtime} : Prop := {
  proxy_repr_cache_only : forall r, cache_only (proxy_repr r);
  proxy_eq_cache_only : forall r1 r2, cache_only (proxy_eq r1 r2)
}.

(** The classes with a [changeVariation] of their own. *)
Definition is_wrapper (o : TupleOp) : bool :=
  match o with
  | ScaleFactorWithSystOp _ _ _ | SystModifiedCollectionOp _ _ _ => true
  | _ => false
  end.

(** [v in self.variations] *)
Definition declared (v : string) (w : TupleOp) : bool :=
  match w with
  | ScaleFactorWithSystOp _ _ variations
  | SystModifiedCollectionOp _ _ variations => str_in v variations
  | _ => false
  end.

(** [m] never raises the exception [e0]. *)
Definition never_raises {A} (e0 : exn) (m : M A) : Prop :=
  forall h e h', m h = Raise e h' -> e <> e0.

(** The wrapped node is a call whose selector can be read: an operand with
    a [name] for a scale factor, a [Const] for a modified collection. *)
Definition readable_selector (h : heap) (w : TupleOp) : Prop :=
  exists sel so,
    selector h w = Some sel /\ h !! sel = Some so /\
    match w with
    | ScaleFactorWithSystOp _ _ _ => is_Some (name_of (fields so))
    | SystModifiedCollectionOp _ _ _ => exists t v, fields so = Const t v
    | _ => False
    end.

(** A scale factor call [elIDSF.get(Nominal)] under its wrapper. *)
Definition sf_heap : heap :=
  [ mkObject (ExtVar "ILeptonScaleFactor" "elIDSF") (Some empty_cache)
  ; mkObject (ExtVar "int" "Nominal") (Some empty_cache)
  ; mkObject (CallMemberMethod 0 "get" [1%nat] "float") (Some empty_cache)
  ; mkObject (ScaleFactorWithSystOp 2 "elid" ["elidup"; "eliddown"]) (Some empty_cache) ].

Definition sf_heap_up : heap := <[1%nat := mkObject (ExtVar "int" "Up") (Some empty_cache)]> sf_heap.

(** The classes whose [deps] is written with a bare [yield]. *)
Definition bare_yield_class (o : TupleOp) : bool :=
  match o with
  | Reduce _ _ _ _ _ _ | Combine _ _ _ => true
  | _ => false
  end.

(** Two jet ranges over the column [Jet_pt], and the conjunction of their
    [Combine]. *)
Definition jets : RangeProxy :=
  mkRange (mkProxy "Jet" (Some 1%nat)) (mkProxy "ROOT::VecOps::RVec<std::size_t>" (Some 1%nat))
    0 0.

Definition combine_heap : heap :=
  [ mkObject (GetColumn "UInt_t" "nJet") (Some empty_cache)
  ; mkObject (GetArrayColumn "Float_t" "Jet_pt" 0) (Some empty_cache)
  ; mkObject (LocalVariablePlaceholder SizeType (Some 5%nat) (Some 0)) (Some empty_cache)
  ; mkObject (LocalVariablePlaceholder SizeType (Some 5%nat) (Some 1)) (Some empty_cache)
  ; mkObject (MathOp "bool" "lt" [2%nat; 3%nat]) (Some empty_cache)
  ; mkObject (Combine [jets; jets] 4 [2%nat; 3%nat]) (Some empty_cache) ].

Definition muons : RangeProxy :=
  mkRange (mkProxy "Muon" (Some 3%nat)) (mkProxy "ROOT::VecOps::RVec<std::size_t>" (Some 3%nat))
    1 1.

(** The columns of the jets and of the muons. *)
Definition columns_heap : heap :=
  [ mkObject (GetColumn "UInt_t" "nJet") (Some empty_cache)
  ; mkObject (GetArrayColumn "Float_t" "Jet_pt" 0) (Some empty_cache)
  ; mkObject (GetColumn "UInt_t" "nMuon") (Some empty_cache)
  ; mkObject (GetArrayColumn "Float_t" "Muon_pt" 2) (Some empty_cache) ].

(** [lambda m : j.pt > 30.]: a predicate on the muons that reads the jet
    [j] only. *)
Definition jet_pt_above_30 (j : addr) (m : addr) : M pyarg :=
  let* pt := GetItem_init (ArgOp 1%nat) "Float_t" (ArgOp j) SizeType in
  let* c := MathOp_init "gt" [ArgOp pt; ArgVal (PyFloat (PyFinite false 15 1))] "bool" in
  ret (ArgOp c).

(** [Map.fromRngFun(jets, lambda j : Select.fromRngFun(muons, lambda m : j.pt > 30.))] *)
Definition nested_select `{Runtime} : M addr :=
  Map_fromRngFun 10 jets
    (fun j => let* s := Select_fromRngFun 10 muons (jet_pt_above_30 j) in ret (ArgOp s))
    (Some "ROOT::VecOps::RVec<std::size_t>").

(** A sum over the jets: [Reduce(jets, "Float_t", start, accuExpr, idx, prevRes)]. *)
Definition reduce_heap : heap :=
  [ mkObject (GetColumn "UInt_t" "nJet") (Some empty_cache)
  ; mkObject (GetArrayColumn "Float_t" "Jet_pt" 0) (Some empty_cache)
  ; mkObject (Const "Float_t" (PyInt 0)) (Some empty_cache)
  ; mkObject (LocalVariablePlaceholder SizeType (Some 7%nat) (Some 0)) (Some empty_cache)
  ; mkObject (LocalVariablePlaceholder "Float_t" (Some 7%nat) (Some 1)) (Some empty_cache)
  ; mkObject (GetItem 1 "Float_t" 3) (Some empty_cache)
  ; mkObject (MathOp "Double_t" "add" [4%nat; 5%nat]) (Some empty_cache)
  ; mkObject (Reduce jets "Float_t" 2 6 3 4) None ].

(** The parts of a triple. *)
Definition capture_of (t : triple) : string := t.1.1.
Definition decl_of (t : triple) : string := t.1.2.
Definition call_of (t : triple) : option string := t.2.

(** What the loop of [_convertFunArgs] appends for the dependency [ld] on
    the store [h], when it goes through without a message: a column and an
    indexed placeholder give a triple by themselves; any other node is one
    that the cache defines, under a column name that is not empty, where the
    answers of the cache and the type name of the result leave [h] as it
    is. *)
Definition makes_triple `{Runtime} (defCache : DefCache) (h : heap) (ld : option addr)
    (t : triple) : Prop :=
  match ld with
  | None => False
  | Some a =>
      match fields <$> h !! a with
      | None => False
      | Some (GetArrayColumn typeName name _) =>
          t = ("&" ++ name, "const ROOT::VecOps::RVec<" ++ typeName ++ ">& " ++ name, Some name)
      | Some (GetColumn typeName name) =>
          t = ("&" ++ name, "const " ++ typeName ++ "& " ++ name, Some name)
      | Some (LocalVariablePlaceholder typeHint _ (Some z)) =>
          t = ("i" ++ PyStr.of_Z z, typeHint ++ " " ++ "i" ++ PyStr.of_Z z,
               Some ("i" ++ PyStr.of_Z z))
      | Some (LocalVariablePlaceholder _ _ None) => False
      | Some _ =>
          exists nm rt,
            truthy (Some nm) = true /\
            dc_shouldDefine defCache (POp a) h = Ok true h /\
            dc_getColName defCache (POp a) h = Ok (Some nm) h /\
            result_typeName (Some a) h = Ok rt h /\
            t = ("&" ++ nm, "const " ++ rt ++ "& " ++ nm, Some nm)
      end
  end.

(** The order of the declarations. *)
Definition decl_le (x y : triple) : Prop := PyStr.leb (decl_of x) (decl_of y) = true.

(** Two columns whose declarations are the same text. *)
Definition clash_heap : heap :=
  [ mkObject (GetColumn "A& B" "C") (Some empty_cache)
  ; mkObject (GetColumn "A" "B& C") (Some empty_cache) ].

(** Two columns and a placeholder. *)
Definition capture_heap : heap :=
  [ mkObject (GetColumn "UInt_t" "nJet") (Some empty_cache)
  ; mkObject (GetArrayColumn "Float_t" "Jet_pt" 0) (Some empty_cache)
  ; mkObject (LocalVariablePlaceholder SizeType None (Some 0)) (Some empty_cache) ].

(** The fields of the node at an identity. *)
Definition node (h : heap) (a : addr) : option TupleOp := fields <$> h !! a.

(** [isinstance(f, LocalVariablePlaceholder)] on the fields. *)
Definition placeholder_fields (f : TupleOp) : bool :=
  match f with LocalVariablePlaceholder _ _ _ => true | _ => false end.

(** The operations of [h] other than the placeholders are those of [h']
    still: code between the two stores may create nodes, fill caches and
    assign to the attributes of placeholders. *)
Definition keeps_ops (h h' : heap) : Prop :=
  forall a f, node h a = Some f -> placeholder_fields f = false -> node h' a = Some f.

(** The ranges a [Combine] of [num] is made over: one range stands for
    [num] times itself. *)
Definition combined_ranges (num : nat) (ranges : list RangeProxy) : list RangeProxy :=
  match ranges with
  | [r] => replicate num r
  | _ => ranges
  end.

(** The store once [Combine.fromRngFun], started on [h], has made its
    [num] placeholders, with the indices [-1], [-2], ... *)
Definition placeholders_made (h : heap) (num : nat) : heap :=
  (h ++ map (fun i => mkObject (LocalVariablePlaceholder SizeType None (Some (-1 - Z.of_nat i)))
                        (Some empty_cache))
          (seq 0 num))%list.

(** The pairs of placeholder and range that [Combine.fromRngFun] calls
    [sameIdxPred] on, in the order of the calls. *)
Definition compared_pairs (idx : list addr) (rs : list RangeProxy)
    : list ((addr * RangeProxy) * (addr * RangeProxy)) :=
  filter (fun p => same_base p.1.2 p.2.2) (combinations2 (zip idx rs)).

(** The node at [a] is a placeholder. *)
Definition placeholder_at (h : heap) (a : addr) : Prop :=
  exists th par i, node h a = Some (LocalVariablePlaceholder th par i).

(** What an assignment to an attribute of a placeholder leaves: as many
    nodes, the other operations as they were, the placeholders
    placeholders. *)
Definition sets_placeholder (h h' : heap) : Prop :=
  length h' = length h /\ keeps_ops h h' /\
  forall a, placeholder_at h a -> placeholder_at h' a.

(** [ia] and [ib] are the placeholders of two positions [k < m] of a
    combination, whose ranges have the same underlying collection. *)
Definition same_collection (idx : list addr) (rs : list RangeProxy) (ia ib : addr) : Prop :=
  exists k m ra rb,
    (k < m)%nat /\ idx !! k = Some ia /\ idx !! m = Some ib /\
    rs !! k = Some ra /\ rs !! m = Some rb /\ _base ra = _base rb.

(** What a predicate says of the values [env] of the nodes it compares:
    the table of operators renders [and] as [&&] and [lt] as [<]; the truth
    of any other node is [user]'s. *)
Fixpoint holds (user : addr -> bool) (env : addr -> Z) (h : heap) (fuel : nat) (a : addr)
    : bool :=
  match fuel with
  | O => false
  | S fuel' =>
      match node h a with
      | Some (MathOp _ op args) =>
          if String.eqb op "and" then forallb (holds user env h fuel') args
          else if String.eqb op "lt" then
            match args with
            | [x; y] => Z.ltb (env x) (env y)
            | _ => user a
            end
          else user a
      | _ => user a
      end
  end.

(** [lambda a, b : a.pt > 30.]: a predicate on two candidates that reads
    the first only. *)
Definition leading_pt_above_30 (ix : list addr) : M pyarg :=
  match ix with
  | [a; b] => jet_pt_above_30 a b
  | _ => raise (TypeError "<lambda>() takes 2 positional arguments")
  end.

(** [Combine.fromRngFun(2, (jets, jets), lambda a, b : a.pt > 30.)] *)
Definition combine_jets_jets `{Runtime} : M addr :=
  Combine_fromRngFun 10 2 [jets; jets] leading_pt_above_30 default_sameIdxPred.

(** [Combine.fromRngFun(2, (jets, muons), lambda a, b : a.pt > 30.)] *)
Definition combine_jets_muons `{Runtime} : M addr :=
  Combine_fromRngFun 10 2 [jets; muons] leading_pt_above_30 default_sameIdxPred.

(** [lambda a, b, c : a.pt > 30.]: a predicate on three candidates that
    reads the first only. *)
Definition first_pt_above_30 (ix : list addr) : M pyarg :=
  match ix with
  | [a; b; c] => jet_pt_above_30 a b
  | _ => raise (TypeError "<lambda>() takes 3 positional arguments")
  end.

(** [Combine.fromRngFun(3, (jets, muons, jets), lambda a, b, c : a.pt > 30.)] *)
Definition combine_jets_muons_jets `{Runtime} : M addr :=
  Combine_fromRngFun 10 3 [jets; muons; jets] first_pt_above_30 default_sameIdxPred.

(** [lambda i1, i2 : i1 != i2], a [sameIdxPred] given by the caller: the
    ["ne"] operation of the table of operators. *)
Definition ne_sameIdxPred (i1 i2 : pyarg) : M pyarg :=
  let* a := MathOp_init "ne" [i1; i2] "bool" in
  ret (ArgProxy (mkProxy "bool" (Some a))).

(** [Combine.fromRngFun(2, (jets,), lambda a, b : a.pt > 30., sameIdxPred=lambda i1, i2 : i1 != i2)] *)
Definition combine_jets_unequal `{Runtime} : M addr :=
  Combine_fromRngFun 10 2 [jets] leading_pt_above_30 ne_sameIdxPred.

(** [cppNoRedir(c.candPredExpr)] for the [Combine] that [c] makes. *)
Definition render_candPredExpr `{Runtime} (c : M addr) : M string :=
  let* res := c in
  let* f := get_fields res in
  match f with
  | Combine _ e _ => get_cppStr cppNoRedir 10 e
  | _ => raise (AttributeError "candPredExpr")
  end.

(** Two columns built one after the other from the same values. *)
Definition twin_heap : heap :=
  [ mkObject (GetColumn "UInt_t" "nJet") (Some empty_cache)
  ; mkObject (GetColumn "UInt_t" "nJet") (Some empty_cache) ].

(** The nodes that a node holds in its own attributes: its operands, and
    for the operations on ranges their body and their placeholders. The
    parent a placeholder points back to is not one of them, and neither is
    what a range proxy holds. *)
Definition operands (f : TupleOp) : list addr :=
  match f with
  | BareTupleOp | Const _ _ | GetColumn _ _ | ExtVar _ _ | DefinedVar _ _ _
  | LocalVariablePlaceholder _ _ _ => []
  | ForwardingOp w | ScaleFactorWithSystOp w _ _ | SystModifiedCollectionOp w _ _ => [w]
  | GetArrayColumn _ _ l => [l]
  | MathOp _ _ args | Construct _ args | CallMethod _ args _ | InitList _ args => args
  | GetItem a _ i => [a; i]
  | CallMemberMethod this _ args _ => this :: args
  | GetDataMember this _ => [this]
  | Select _ b i | Sort _ b i | Map _ b i _ | Next _ b i => [b; i]
  | Reduce _ _ s a i p => [s; a; i; p]
  | Combine _ c ixs => c :: ixs
  end.

(** The store [h'] is [h] with nodes added. *)
Definition extends (h h' : heap) : Prop := exists new, h' = (h ++ new)%list.

(** A range proxy that stands for any. *)
Definition any_range : RangeProxy := mkRange (mkProxy "" None) (mkProxy "" None) 0 0.

(** The attributes of a node that are not nodes: its fields with the
    operands and the range proxies blanked. *)
Definition skeleton (f : TupleOp) : TupleOp :=
  match f with
  | ForwardingOp _ => ForwardingOp 0
  | GetArrayColumn t n _ => GetArrayColumn t n 0
  | MathOp o op _ => MathOp o op []
  | GetItem _ t _ => GetItem 0 t 0
  | Construct t _ => Construct t []
  | CallMethod n _ r => CallMethod n [] r
  | CallMemberMethod _ n _ r => CallMemberMethod 0 n [] r
  | GetDataMember _ n => GetDataMember 0 n
  | InitList t _ => InitList t []
  | Select _ _ _ => Select any_range 0 0
  | Sort _ _ _ => Sort any_range 0 0
  | Map _ _ _ t => Map any_range 0 0 t
  | Next _ _ _ => Next any_range 0 0
  | Reduce _ t _ _ _ _ => Reduce any_range t 0 0 0 0
  | Combine rs _ _ => Combine (map (fun _ => any_range) rs) 0 []
  | ScaleFactorWithSystOp _ s v => ScaleFactorWithSystOp 0 s v
  | SystModifiedCollectionOp _ s v => SystModifiedCollectionOp 0 s v
  | BareTupleOp | Const _ _ | GetColumn _ _ | ExtVar _ _ | DefinedVar _ _ _
  | LocalVariablePlaceholder _ _ _ => f
  end.

(** [c] is a copy of [a]: the two nodes agree on what is not a node, and
    their operands are copies of each other, in turn. *)
#[local] Unset Elimination Schemes.
Inductive copy_of (h : heap) : addr -> addr -> Prop :=
| Copy (a c : addr) (fa fc : TupleOp) :
    node h a = Some fa -> node h c = Some fc ->
    skeleton fc = skeleton fa ->
    Forall2 (copy_of h) (operands fa) (operands fc) ->
    copy_of h a c.
#[local] Set Elimination Schemes.

(** The nodes that [a] reaches through operands. *)
Inductive reaches (h : heap) : addr -> addr -> Prop :=
| reaches_refl (a : addr) : reaches h a a
| reaches_step (a x y : addr) (f : TupleOp) :
    node h a = Some f -> x ∈ operands f -> reaches h x y -> reaches h a y.

(** A node as its [__init__] leaves it: the return type of a call and the
    variations of a scale factor are not empty ([__init__] looks up the one
    and fills in the other). *)
Definition as_constructed (f : TupleOp) : bool :=
  match f with
  | CallMethod _ _ "" | CallMemberMethod _ _ _ "" | ScaleFactorWithSystOp _ _ [] => false
  | _ => true
  end.

Definition all_as_constructed (h : heap) : Prop :=
  forall v f, node h v = Some f -> as_constructed f = true.

(** What holds of the store and of the dictionary [memo] while [clone]
    runs on a store that had [n] nodes: the nodes are as constructed, the
    nodes made since hold nodes made since, and [memo] maps nodes to copies
    of them made since. *)
Definition clone_inv (n : nat) (h : heap) (memo : memo_t) : Prop :=
  all_as_constructed h /\
  (forall v f, (n <= v)%nat -> node h v = Some f -> Forall (fun x => (n <= x)%nat) (operands f)) /\
  (forall k v, memo !! k = Some v -> (n <= v)%nat /\ copy_of h k v).

(** What is assumed of the code outside this module that [clone] runs:
    [clone] of a range proxy creates nodes only and keeps [clone_inv]. *)
Class CloneLaws `{Runtime} : Prop := {
  proxy_clone_creates : forall r memo h r' memo' h',
    proxy_clone r memo h = Ok (r', memo') h' ->
    extends h h' /\
    forall n, (n <= length h)%nat -> clone_inv n h memo -> clone_inv n h' memo'
}.

(** What a cloner of nodes is to give, on a store that had [n] nodes when
    the top-level [clone] started. *)
Definition clones `{Runtime} (n : nat) (cl : addr -> memo_t -> M (addr * memo_t)) : Prop :=
  forall a memo h cp memo' h',
    cl a memo h = Ok (cp, memo') h' ->
    (n <= length h)%nat -> clone_inv n h memo ->
    extends h h' /\ clone_inv n h' memo' /\ (n <= cp)%nat /\ copy_of h' a cp.

(** The nodes among what a generator yielded all have the property [P]. *)
Definition all_selected (P : pyobj -> Prop) (l : list (option addr)) : Prop :=
  forall x, Some x ∈ l -> P (POp x).

(** The placeholders of an operation on ranges: the local variables of the
    function it generates. *)
Definition own_placeholders (f : TupleOp) : list addr :=
  match f with
  | Select _ _ i | Sort _ _ i | Map _ _ i _ | Next _ _ i => [i]
  | Reduce _ _ _ _ i p => [i; p]
  | Combine _ _ ixs => ixs
  | _ => []
  end.

(** The operands that [Select], [Sort], [Map] and [Next] yield themselves
    when selected: the node of the range and the body. *)
Definition yielded_as_operand (f : TupleOp) : list addr :=
  match f with
  | Select rng b _ | Sort rng b _ | Map rng b _ _ | Next rng b _ =>
      b :: match _parent (rng_proxy rng) with Some r => [r] | None => [] end
  | _ => []
  end.

(** A selection of the jets above 30: [Select(jets, Jet_pt[i0] > 30., i0)]. *)
Definition select_heap : heap :=
  [ mkObject (GetColumn "UInt_t" "nJet") (Some empty_cache)
  ; mkObject (GetArrayColumn "Float_t" "Jet_pt" 0) (Some empty_cache)
  ; mkObject (LocalVariablePlaceholder SizeType (Some 6%nat) (Some 0)) (Some empty_cache)
  ; mkObject (GetItem 1 "Float_t" 2) (Some empty_cache)
  ; mkObject (Const "Double_t" (PyFloat (PyFinite false 15 1))) (Some empty_cache)
  ; mkObject (MathOp "bool" "gt" [3%nat; 4%nat]) (Some empty_cache)
  ; mkObject (Select jets 5 2) (Some empty_cache) ].

(** [lambda op : op is a], for a node [a]. *)
Definition select_node (a : addr) (o : pyobj) : M bool :=
  ret (match o with POp b => Nat.eqb b a | _ => false end).

(** A cache that only observes: what it is asked assigns to no attribute
    of a node, given that the rendering it calls back does not. *)
Definition observer_cache (dc : DefCache) : Prop :=
  (forall g o, (forall a, cache_only (g a)) -> cache_only (dc_call dc g o)) /\
  (forall decl kw, cache_only (dc_symbol dc decl kw)) /\
  (forall o, cache_only (dc_getColName dc o)) /\
  (forall o, cache_only (dc_shouldDefine dc o)).

(** What is assumed besides of the code outside this module: the
    enumeration of the dependencies of a range proxy and the type name of
    the [result] of a node assign to no attribute of a node. *)
Class ObserverLaws `{RuntimeLaws} : Prop := {
  proxy_deps_observes : forall r select includeLocal,
    (forall o, cache_only (select o)) -> cache_only (proxy_deps r select includeLocal);
  result_typeName_observes : forall ld, cache_only (result_typeName ld)
}.

(** What a factory [fromRngFun] leaves when it returns [res] on a store
    [h], for the callback [fn]: the placeholder is made first, at
    [length h]; [fn] is called on it and returns [p], which is adapted to
    the body [e]; [max_placeholder_index] scans [e] on the store that these
    left and finds [m]; the node [res] is the operation [K] on [e] and on
    the placeholder, which has [res] as parent and the index [m + 1], which
    is not negative. *)
Definition made_by_fromRngFun `{Runtime} (fuel : nat) (fn : addr -> M pyarg) (h : heap)
    (res : addr) (h' : heap) (K : addr -> addr -> TupleOp) : Prop :=
  exists p h1 e h2 m h3 th,
    fn (length h)
       (h ++ [mkObject (LocalVariablePlaceholder SizeType None None) (Some empty_cache)])%list
    = Ok p h1 /\
    adaptArg p None h1 = Ok e h2 /\
    max_placeholder_index fuel e h2 = Ok m h3 /\
    node h' res = Some (K e (length h)) /\
    node h' (length h) = Some (LocalVariablePlaceholder th (Some res) (Some (m + 1))) /\
    0 <= m + 1.

(** [lambda acc, j : acc + j.pt] *)
Definition add_jet_pt (acc j : addr) : M pyarg :=
  let* pt := GetItem_init (ArgOp 1%nat) "Float_t" (ArgOp j) SizeType in
  let* s := MathOp_init "add" [ArgOp acc; ArgOp pt] "Double_t" in
  ret (ArgOp s).

(** The operands that [get_cppStr] of a node renders in turn. *)
Definition rendered (f : TupleOp) : list addr :=
  match f with
  | ForwardingOp w | ScaleFactorWithSystOp w _ _ | SystModifiedCollectionOp w _ _ => [w]
  | MathOp _ _ args | Construct _ args | InitList _ args => args
  | GetItem a _ i => [a; i]
  | CallMemberMethod this _ args _ => this :: args
  | GetDataMember this _ => [this]
  | Select _ b _ | Sort _ b _ | Map _ b _ _ | Next _ b _ => [b]
  | Reduce _ _ s a _ _ => [s; a]
  | Combine _ c _ => [c]
  | _ => []
  end.

(** The rendering of the node [a] of [h] comes to a call of a free
    function or to a defined variable: [a] is one, or one of the operands it
    renders comes to one. *)
Inductive needs_symbol (h : heap) : addr -> Prop :=
| needs_CallMethod a name args rt :
    node h a = Some (CallMethod name args rt) -> needs_symbol h a
| needs_DefinedVar a t d n :
    node h a = Some (DefinedVar t d n) -> needs_symbol h a
| needs_operand a f b :
    node h a = Some f -> b ∈ rendered f -> needs_symbol h b -> needs_symbol h a.

(** [x + std::abs(y)], with the columns [x] and [y]. *)
Definition call_heap : heap :=
  [ mkObject (GetColumn "Float_t" "x") (Some empty_cache)
  ; mkObject (GetColumn "Float_t" "y") (Some empty_cache)
  ; mkObject (CallMethod "std::abs" [1%nat] "Float_t") (Some empty_cache)
  ; mkObject (MathOp "Double_t" "add" [0%nat; 2%nat]) (Some empty_cache) ].

(** A piece of code that reads the store only. *)
Definition reads_only {A} (m : M A) : Prop :=
  forall h, match m h with
            | Ok _ h' | Raise _ h' => h' = h
            | OutOfFuel => True
            end.

(** A piece of code that, when it raises, leaves the store as it found
    it. *)
Definition fails_cleanly {A} (m : M A) : Prop :=
  forall h e h', m h = Raise e h' -> h' = h.

(** The text of the [ValueError] that [changeVariation] of the class of [w]
    raises for a name that is not declared. *)
Definition undeclared_msg (w : TupleOp) (v : string) : string :=
  match w with
  | ScaleFactorWithSystOp _ _ _ => "Invalid variation: " ++ v
  | _ => "Invalid collection: " ++ v
  end.

(** The number of operands that the entry of an operator in
    [mathOpFuns_cppStr] takes, where it is fixed. *)
Definition arity (fn : mathOpFun) : option nat :=
  match fn with
  | Joined _ => None
  | Unary _ _ => Some 1%nat
  | Binary _ _ _ => Some 2%nat
  | Ternary _ _ _ _ => Some 3%nat
  end.

(** The operands that the [deps] of a node yields themselves, when
    [select] accepts them. *)
Definition yielded (f : TupleOp) : list addr :=
  match f with
  | GetArrayColumn _ _ l => [l]
  | MathOp _ _ args | Construct _ args | CallMethod _ args _ | InitList _ args => args
  | GetItem a _ i => [a; i]
  | CallMemberMethod this _ args _ => this :: args
  | GetDataMember this _ => [this]
  | _ => yielded_as_operand f
  end.

(** The operands whose dependencies the [deps] of a node passes on
    without yielding the operand itself: the wrapped node of the forwarding
    classes, and the operands of [Reduce] and [Combine], for which the
    generator yields [None]. *)
Definition passed_on (f : TupleOp) : list addr :=
  match f with
  | ForwardingOp w | ScaleFactorWithSystOp w _ _ | SystModifiedCollectionOp w _ _ => [w]
  | Reduce _ _ s a _ _ => [s; a]
  | Combine _ c _ => [c]
  | _ => []
  end.

(** The node [x] is below [a]: an operand that [a] yields, or below an
    operand that [a] yields or passes on. *)
Inductive below (h : heap) : addr -> addr -> Prop :=
| below_yielded a f x :
    node h a = Some f -> x ∈ yielded f -> below h a x
| below_step a f y x :
    node h a = Some f -> y ∈ (yielded f ++ passed_on f)%list -> below h y x -> below h a x.

(** A cache that has a column for no node. *)
Definition names_no_column (dc : DefCache) : Prop :=
  forall o h cn h', dc_getColName dc o h = Ok cn h' -> truthy cn = false.

(** The nodes that a range proxy stands for. *)
Definition range_nodes (r : RangeProxy) : list addr :=
  omap _parent [rng_proxy r; _idxs r].

(** The range proxies that a node holds. *)
Definition ranges_of (f : TupleOp) : list RangeProxy :=
  match f with
  | Select r _ _ | Sort r _ _ | Map r _ _ _ | Next r _ _ | Reduce r _ _ _ _ _ => [r]
  | Combine rs _ _ => rs
  | _ => []
  end.

(** The first [n] nodes of the store were built in order: the operands of
    a node, and the nodes of the ranges it holds, were made before it. This
    is how the constructors of the module leave the store, as no operand is
    assigned to after construction. *)
Definition built_in_order (n : nat) (h : heap) : Prop :=
  forall v f, (v < n)%nat -> node h v = Some f ->
    Forall (fun x => (x < v)%nat) (operands f) /\
    forall r x, r ∈ ranges_of f -> x ∈ range_nodes r -> (x < v)%nat.

(** The node [v] is the image of the node [k] under [memo]: its operands
    are what [memo] has for the operands of [k], one by one. *)
Definition image_of (h : heap) (memo : memo_t) (k v : addr) : Prop :=
  exists f f', node h k = Some f /\ node h v = Some f' /\
    Forall2 (fun x y => memo !! x = Some y) (operands f) (operands f').

Definition memo_images (h : heap) (memo : memo_t) : Prop :=
  forall k v, memo !! k = Some v -> image_of h memo k v.

(** The dictionary [memo'] has the entries of [memo], unchanged. *)
Definition grows (memo memo' : memo_t) : Prop :=
  forall k v, memo !! k = Some v -> memo' !! k = Some v.

(** What is assumed of [clone] on a range proxy, besides [CloneLaws]: it
    keeps the entries of [memo], the keys it adds are the nodes of the range
    or older ones, and what it adds are images. *)
Class MemoLaws `{Runtime} : Prop := {
  proxy_clone_memo : forall r memo h r' memo' h',
    proxy_clone r memo h = Ok (r', memo') h' ->
    grows memo memo' /\
    (forall k, memo !! k = None -> is_Some (memo' !! k) ->
       exists x, x ∈ range_nodes r /\ (k <= x)%nat) /\
    (memo_images h memo -> memo_images h' memo')
}.

(** The state in the middle of the [_clone] of the node [self], started
    on the store [h] with the dictionary [memo]. *)
Definition mid (n : nat) (self : addr) (memo : memo_t) (h hk : heap) (mk : memo_t) : Prop :=
  extends h hk /\ (n <= length hk)%nat /\ clone_inv n hk mk /\ built_in_order n hk /\
  memo_images hk mk /\ grows memo mk /\
  forall k, memo !! k = None -> is_Some (mk !! k) -> (k < self)%nat.

(** What a cloner of nodes is to give for the sharing: the entries of
    [memo] are kept, the copy is entered for the node, the keys added are
    the node or older ones, and the entries are images. *)
Definition shares `{Runtime} (n : nat) (cl : addr -> memo_t -> M (addr * memo_t)) : Prop :=
  forall a memo h cp memo' h',
    cl a memo h = Ok (cp, memo') h' ->
    (a < n)%nat -> (n <= length h)%nat -> clone_inv n h memo ->
    built_in_order n h -> memo_images h memo ->
    grows memo memo' /\ memo' !! a = Some cp /\
    (forall k, memo !! k = None -> is_Some (memo' !! k) -> (k <= a)%nat) /\
    memo_images h' memo'.

(** [x * x]: the column [x] is both operands of the product. *)
Definition square_heap : heap :=
  [ mkObject (GetColumn "Float_t" "x") (Some empty_cache)
  ; mkObject (MathOp "Double_t" "multiply" [0%nat; 0%nat]) (Some empty_cache) ].

(** [c.isspace()], for a code point below 256. *)
Definition is_space (c : ascii) : bool :=
  let n := N_of_ascii c in
  (((9 <=? n) && (n <=? 13)) || ((28 <=? n) && (n <=? 32)) || (n =? 133) || (n =? 160))%N.

(** [s.split()]: the maximal runs of [s] without whitespace; [cur] is the
    run being read. *)
Fixpoint split_ws (cur : string) (s : string) : list string :=
  match s with
  | EmptyString => match cur with EmptyString => [] | _ => [cur] end
  | String c rest =>
      if is_space c
      then match cur with
           | EmptyString => split_ws "" rest
           | _ => cur :: split_ws "" rest
           end
      else split_ws (cur ++ String c "") rest
  end.

(** [s.rstrip(c)] for a one-character argument. *)
Definition rstrip (c : ascii) (s : string) : string :=
  PyStr.rev_str "" (PyStr.lstrip c (PyStr.rev_str "" s)).

(** [s.endswith(suffix)] *)
Definition endswith (suffix s : string) : bool :=
  String.prefix (PyStr.rev_str "" suffix) (PyStr.rev_str "" s).

(** [s.count(c)] for a one-character argument. *)
Fixpoint count_char (c : ascii) (s : string) : Z :=
  match s with
  | EmptyString => 0
  | String d rest => (if Ascii.eqb c d then 1 else 0) + count_char c rest
  end.

(** [tok.rstrip("&") in ("", "const", "static")] *)
Definition qualifier (tok : string) : bool :=
  str_in (rstrip "&" tok) [""; "const"; "static"].

(** [while toks[0].rstrip("&") in (...): toks = toks[1:]] *)
Fixpoint strip_head (toks : list string) : M (list string) :=
  match toks with
  | [] => raise (IndexError "list index out of range")
  | t :: rest => if qualifier t then strip_head rest else ret toks
  end.

(** [while toks[-1].rstrip("&") in (...): toks = toks[:-1]]: the same
    loop, run on the list read from its end. *)
Definition strip_tail (toks : list string) : M (list string) :=
  let* r := strip_head (rev toks) in ret (rev r).

(** [next(i for i,tok in enumerate(toks) if p(tok))], where there is one. *)
Fixpoint first_index {A} (p : A -> bool) (l : list A) : option nat :=
  match l with
  | [] => None
  | x :: rest => if p x then Some O else S <$> first_index p rest
  end.

(** [while any(tok.endswith("unsigned") for tok in toks): ...]: the first
    such token is joined with the one after it. *)
Fixpoint join_unsigned (fuel : nat) (toks : list string) : M (list string) :=
  match fuel with
  | O => out_of_fuel
  | S fuel' =>
      match first_index (endswith "unsigned") toks with
      | None => ret toks
      | Some iU =>
          match toks !! iU, toks !! S iU with
          | Some t, Some nxt =>
              join_unsigned fuel' (delete (S iU) (<[iU := t ++ " " ++ nxt]> toks))
          | _, _ => raise (IndexError "list index out of range")
          end
      end
  end.

(** [while i < len(toks) and (i == 0 or nOpen != 0): ...]: the value of
    [i] after the loop; [rest] is [toks[i:]]. *)
Fixpoint close_brackets (rest : list string) (i : nat) (nOpen : Z) : nat :=
  match rest with
  | [] => i
  | t :: rest' =>
      if Nat.eqb i 0 || negb (nOpen =? 0)
      then close_brackets rest' (S i) (nOpen + (count_char "<" t - count_char ">" t))
      else i
  end.

(** [guessReturnType(mp)]. The argument is [None] for an object without
    [func_doc] or without [func_name], else the value of its [func_doc]:
    a [str], or [None] for no documentation. *)
Definition guessReturnType (mp : option (option string)) : M string :=
  match mp with
  | None => ret "Float_t"
  | Some None => raise (AttributeError "split")
  | Some (Some doc) =>
      let* toks := strip_tail (split_ws "" doc) in
      let* toks := strip_head toks in
      let* toks := join_unsigned (S (length toks)) toks in
      if Nat.eqb (length toks) 2 then
        match toks with
        | t :: _ => ret (rstrip "&" t)
        | [] => raise (IndexError "list index out of range")
        end
      else ret (rstrip "&" (PyStr.join " " (take (close_brackets toks 0 0) toks)))
  end.

(** [captures, paramDecl, paramCall = _convertFunArgs(deps, defCache)] *)
Definition unpacked_funArgs `{Runtime} (fuel : nat) (deps : list (option addr))
    (defCache : DefCache) : M (list string * list string * list (option string)) :=
  let* cdc := _convertFunArgs fuel deps defCache in unpack3 cdc.

(** * Properties *)

(** ** Running code on a store *)

Section MonadLaws.
Context {A B : Type}.

Lemma bind_Ok (m : M A) (k : A -> M B) h a h' :
  m h = Ok a h' -> bind m k h = k a h'.
Proof. unfold bind. by intros ->. Qed.

Lemma bind_Raise (m : M A) (k : A -> M B) h e h' :
  m h = Raise e h' -> bind m k h = Raise e h'.
Proof. unfold bind. by intros ->. Qed.

Lemma bind_inv_Ok (m : M A) (k : A -> M B) h b h'' :
  bind m k h = Ok b h'' -> exists a h', m h = Ok a h' /\ k a h' = Ok b h''.
Proof. unfold bind. destruct (m h); [eauto | done | done]. Qed.

End MonadLaws.

Lemma get_object_Ok h a o : h !! a = Some o -> get_object a h = Ok o h.
Proof. unfold get_object. by intros ->. Qed.

Lemma get_fields_Ok h a o : h !! a = Some o -> get_fields a h = Ok (fields o) h.
Proof.
  intros Ha. unfold get_fields.
  by rewrite (bind_Ok _ _ _ _ _ (get_object_Ok _ _ _ Ha)).
Qed.

Lemma get_fields_inv h a f h' :
  get_fields a h = Ok f h' -> h' = h /\ exists o, h !! a = Some o /\ fields o = f.
Proof.
  unfold get_fields, get_object, bind, ret.
  destruct (h !! a) as [o|]; [|done]. intros [= <- <-]. eauto.
Qed.

Lemma get_cache_inv h a c h' :
  get_cache a h = Ok c h' -> h' = h /\ exists o, h !! a = Some o /\ _cache o = Some c.
Proof.
  unfold get_cache, get_object, bind, ret, raise.
  destruct (h !! a) as [o|]; [|done].
  destruct (_cache o) eqn:Hc; [|done]. intros [= <- <-]. eauto.
Qed.

Lemma set_cache_inv h a c h' :
  set_cache a c h = Ok tt h' ->
  exists o, h !! a = Some o /\ h' = <[a := mkObject (fields o) (Some c)]> h.
Proof.
  unfold set_cache. destruct (h !! a) as [o|]; [|done]. intros [= <-]. eauto.
Qed.

Lemma lookup_app_plus (h l : heap) (k : nat) :
  (h ++ l)%list !! (List.length h + k)%nat = l !! k.
Proof. rewrite lookup_app_r by lia. f_equal. lia. Qed.

Lemma lookup_app_len (h l : heap) :
  (h ++ l)%list !! (List.length h) = l !! 0%nat.
Proof. rewrite <- (lookup_app_plus h l 0). f_equal. lia. Qed.

(** Lookups in a store that a run has extended are brought to lookups in
    what was added. *)
Ltac heap_norm :=
  repeat rewrite <- app_assoc; cbn [app];
  repeat rewrite length_app; cbn [List.length];
  repeat first [rewrite lookup_app_plus | rewrite lookup_app_len];
  cbn [lookup list_lookup].

Ltac mrun :=
  repeat (progress (unfold bind, ret, raise, get_fields, get_object, get_cache, set_fields,
                    set_cache, new_object, new_object_without_cache;
                    cbn [fields _cache mapM adaptArg];
                    heap_norm; cbv beta iota)).

(** ** Rendering of a comparison *)

(** The float [30.0] is [15 * 2^1]. *)
Lemma repr_30 : PyFloat.repr (PyFinite false 15 1) = "30.0".
Proof. vm_compute. reflexivity. Qed.

(** C8. Building [MathOp("gt", GetColumn(typeName, "pt"), Const(typeName, 30.0))]
    on any store and rendering it with the default cache gives exactly the
    text [( pt >  30.0 )], with two spaces after the operator, whatever the
    type name is. *)
Theorem gt_rendering `{Runtime} (typeName : string) (h : heap) (fuel : nat) :
  exists h',
    (let* pt := new_object (GetColumn typeName "pt") in
     let* c := new_object (Const typeName (PyFloat (PyFinite false 15 1))) in
     let* m := MathOp_init "gt" [ArgOp pt; ArgOp c] "Double_t" in
     get_cppStr cppNoRedir (S (S fuel)) m) h = Ok "( pt >  30.0 )" h'.
Proof.
  eexists. unfold MathOp_init. mrun.
  cbn [get_cppStr]. mrun.
  change (dict_get mathOpFuns_cppStr "gt") with (Some (Binary "( " " >  " " )")).
  cbn [apply_mathOpFun cppNoRedir dc_call]. mrun.
  unfold Const_get_cppStr; cbn [PyValue.abs_is_inf PyValue.str].
  rewrite repr_30. reflexivity.
Qed.

(** ** Placeholders *)

(** C9. For a placeholder stored at [a]: while its index is [None], reading
    its [name] raises the RuntimeError of the class, and so does rendering
    it, with any cache; once the index is [z], both return the text [i]
    followed by the decimal writing of [z], and the store is unchanged. *)
Theorem placeholder_name_needs_index `{Runtime} (defCache : DefCache) (fuel : nat)
    (h : heap) (a : addr) (typeHint : string) (parent : option addr) (i : option Z)
    (c : option TupleOpCache) :
  h !! a = Some (mkObject (LocalVariablePlaceholder typeHint parent i) c) ->
  match i with
  | None =>
      attr_name a h = Raise (RuntimeError no_index_msg) h /\
      get_cppStr defCache (S fuel) a h = Raise (RuntimeError no_index_msg) h
  | Some z =>
      attr_name a h = Ok ("i" ++ PyStr.of_Z z) h /\
      get_cppStr defCache (S fuel) a h = Ok ("i" ++ PyStr.of_Z z) h
  end.
Proof.
  intros Ha. unfold attr_name. cbn [get_cppStr].
  rewrite !(bind_Ok _ _ _ _ _ (get_fields_Ok _ _ _ Ha)). cbn [fields].
  destruct i; done.
Qed.

Lemma placeholder_name_needs_index_witness :
  let lvp i := [mkObject (LocalVariablePlaceholder SizeType None i) (Some empty_cache)] in
  (attr_name 0%nat (lvp None) = Raise (RuntimeError no_index_msg) (lvp None) /\
   get_cppStr (H := example_runtime) cppNoRedir 1 0%nat (lvp None)
   = Raise (RuntimeError no_index_msg) (lvp None)) /\
  (attr_name 0%nat (lvp (Some 3)) = Ok "i3" (lvp (Some 3)) /\
   get_cppStr (H := example_runtime) cppNoRedir 1 0%nat (lvp (Some 3)) = Ok "i3" (lvp (Some 3))).
Proof.
  split.
  - exact (placeholder_name_needs_index (H := example_runtime) cppNoRedir 0
             [mkObject (LocalVariablePlaceholder SizeType None None) (Some empty_cache)]
             0%nat SizeType None None (Some empty_cache) eq_refl).
  - exact (placeholder_name_needs_index (H := example_runtime) cppNoRedir 0
             [mkObject (LocalVariablePlaceholder SizeType None (Some 3)) (Some empty_cache)]
             0%nat SizeType None (Some 3) (Some empty_cache) eq_refl).
Defined.

Lemma attr_args_inv o args h h' :
  attr_args o h = Ok args h' -> h' = h /\ args_of o = Some args.
Proof. destruct o; cbn; intros [=]; subst; auto. Qed.

Lemma tuple_last_inv args a h h' :
  tuple_last args h = Ok a h' -> h' = h /\ List.last (map Some args) None = Some a.
Proof.
  unfold tuple_last. destruct (List.last _ _); cbn; intros [=]; subst; auto.
Qed.

Lemma tuple_first_inv args a h h' :
  tuple_first args h = Ok a h' -> h' = h /\ head args = Some a.
Proof. destruct args; cbn; intros [=]; subst; auto. Qed.

Lemma set_fields_inv h a f h' :
  set_fields a f h = Ok tt h' ->
  exists o, h !! a = Some o /\ h' = <[a := mkObject f (_cache o)]> h.
Proof.
  unfold set_fields. destruct (h !! a) as [o|]; [|done]. intros [= <-]. eauto.
Qed.

Lemma attr_name_inv a nm h h' :
  attr_name a h = Ok nm h' ->
  h' = h /\ exists o, h !! a = Some o /\ name_of (fields o) = Some nm.
Proof.
  unfold attr_name. intros Hn.
  apply bind_inv_Ok in Hn as (f & h1 & Hf & Hn).
  apply get_fields_inv in Hf as [-> (o & Ho & <-)].
  destruct (fields o) eqn:Hfo; cbn in Hn; try discriminate;
    try (injection Hn as <- <-; split; [done|]; exists o; rewrite Hfo; done).
  destruct i; cbn in Hn; [|discriminate].
  injection Hn as <- <-; split; [done|]; exists o; rewrite Hfo; done.
Qed.

Lemma attr_value_inv a v h h' :
  attr_value a h = Ok v h' -> h' = h /\ exists o t, h !! a = Some o /\ fields o = Const t v.
Proof.
  unfold attr_value. intros Hn.
  apply bind_inv_Ok in Hn as (f & h1 & Hf & Hn).
  apply get_fields_inv in Hf as [-> (o & Ho & <-)].
  destruct (fields o) eqn:Hfo; cbn in Hn; try discriminate.
  injection Hn as <- <-. eauto.
Qed.

Lemma set_attr_name_inv a v h h' :
  set_attr_name a v h = Ok tt h' ->
  exists o f', h !! a = Some o /\ with_name (fields o) v = Some f' /\
               h' = <[a := mkObject f' (_cache o)]> h.
Proof.
  unfold set_attr_name. intros Hs.
  apply bind_inv_Ok in Hs as (f & h1 & Hf & Hs).
  apply get_fields_inv in Hf as [-> (o & Ho & <-)].
  destruct (fields o) eqn:Hfo; cbn in Hs; try discriminate;
    apply set_fields_inv in Hs as (o' & Ho' & ->);
    rewrite Ho in Ho'; injection Ho' as <-.
  all: try (eexists _, _; split; [eassumption|]; split; [rewrite Hfo; reflexivity|reflexivity]).
Qed.

Lemma set_attr_value_inv a v h h' :
  set_attr_value a v h = Ok tt h' ->
  exists o t v0, h !! a = Some o /\ fields o = Const t v0 /\
                 h' = <[a := mkObject (Const t v) (_cache o)]> h.
Proof.
  unfold set_attr_value. intros Hs.
  apply bind_inv_Ok in Hs as (f & h1 & Hf & Hs).
  apply get_fields_inv in Hf as [-> (o & Ho & <-)].
  destruct (fields o) eqn:Hfo; cbn in Hs; try discriminate.
  apply set_fields_inv in Hs as (o' & Ho' & ->).
  rewrite Ho in Ho'; injection Ho' as <-. eauto 10.
Qed.

Lemma quoted_inj s t : quoted s = quoted t -> s = t.
Proof.
  unfold quoted. intros [= Heq]. revert t Heq.
  induction s as [|c s IH]; intros [|d t]; cbn; intros Heq; try done.
  - injection Heq as _ Heq. by destruct t.
  - injection Heq as _ Heq. by destruct s.
  - injection Heq as -> Heq. f_equal. by apply IH.
Qed.

Lemma SF_changeVariation_frame self v systName variations wrapped h h' :
  ScaleFactorWithSystOp_changeVariation self v systName variations wrapped h = Ok tt h' ->
  h' = h \/ rewrites_selector h (ScaleFactorWithSystOp wrapped systName variations) h'.
Proof.
  unfold ScaleFactorWithSystOp_changeVariation. intros Hc.
  apply bind_inv_Ok in Hc as (c & h1 & Hcache & Hc).
  apply get_cache_inv in Hcache as [-> _].
  destruct (cache_bool c); [discriminate|].
  destruct (negb (str_in v variations)); [discriminate|].
  set (nv := PyStr.capitalize _) in Hc.
  apply bind_inv_Ok in Hc as (w & h1 & Hw & Hc).
  apply get_fields_inv in Hw as [-> (ow & How & <-)].
  apply bind_inv_Ok in Hc as (args & h1 & Hargs & Hc).
  apply attr_args_inv in Hargs as [-> Hargs].
  apply bind_inv_Ok in Hc as (sel & h1 & Hsel & Hc).
  apply tuple_last_inv in Hsel as [-> Hsel].
  apply bind_inv_Ok in Hc as (nm & h1 & Hnm & Hc).
  apply attr_name_inv in Hnm as [-> (so & Hso & Hnm)].
  destruct (String.eqb nm "Nominal") eqn:Hnominal; [|left; by injection Hc].
  apply String.eqb_eq in Hnominal as ->.
  apply bind_inv_Ok in Hc as (args2 & h1 & Hargs2 & Hc).
  apply attr_args_inv in Hargs2 as [-> Hargs2].
  rewrite Hargs in Hargs2. injection Hargs2 as <-.
  apply bind_inv_Ok in Hc as (sel2 & h1 & Hsel2 & Hc).
  apply tuple_last_inv in Hsel2 as [-> Hsel2].
  rewrite Hsel in Hsel2. injection Hsel2 as <-.
  apply bind_inv_Ok in Hc as (nm2 & h1 & Hnm2 & Hc).
  apply attr_name_inv in Hnm2 as [-> (so2 & Hso2 & Hnm2)].
  rewrite Hso in Hso2. injection Hso2 as <-.
  rewrite Hnm in Hnm2. injection Hnm2 as <-.
  destruct (negb (String.eqb nv "Nominal")) eqn:Hne; [|left; by injection Hc].
  apply bind_inv_Ok in Hc as (args3 & h1 & Hargs3 & Hc).
  apply attr_args_inv in Hargs3 as [-> Hargs3].
  rewrite Hargs in Hargs3. injection Hargs3 as <-.
  apply bind_inv_Ok in Hc as (sel3 & h1 & Hsel3 & Hc).
  apply tuple_last_inv in Hsel3 as [-> Hsel3].
  rewrite Hsel in Hsel3. injection Hsel3 as <-.
  apply set_attr_name_inv in Hc as (so3 & f' & Hso3 & Hwn & ->).
  rewrite Hso in Hso3. injection Hso3 as <-.
  right. apply (Rewritten _ _ _ sel so f'); try done.
  - cbn. rewrite How. cbn. rewrite Hargs. cbn. exact Hsel.
  - destruct (fields so); try discriminate; cbn in *; injection Hnm as ->; done.
  - apply negb_true_iff in Hne.
    destruct (fields so); try discriminate; cbn in *; injection Hwn as <-; done.
  - destruct (fields so); try discriminate; cbn in *; injection Hwn as <-; done.
  - destruct (fields so); try discriminate; cbn in *; injection Hwn as <-; done.
Qed.

Lemma SM_changeVariation_frame self v variations wrapped systName h h' :
  SystModifiedCollectionOp_changeVariation self v variations wrapped h = Ok tt h' ->
  h' = h \/ rewrites_selector h (SystModifiedCollectionOp wrapped systName variations) h'.
Proof.
  unfold SystModifiedCollectionOp_changeVariation. intros Hc.
  apply bind_inv_Ok in Hc as (c & h1 & Hcache & Hc).
  apply get_cache_inv in Hcache as [-> _].
  destruct (cache_bool c); [discriminate|].
  destruct (negb (str_in v variations)); [discriminate|].
  apply bind_inv_Ok in Hc as (w & h1 & Hw & Hc).
  apply get_fields_inv in Hw as [-> (ow & How & <-)].
  apply bind_inv_Ok in Hc as (args & h1 & Hargs & Hc).
  apply attr_args_inv in Hargs as [-> Hargs].
  apply bind_inv_Ok in Hc as (sel & h1 & Hsel & Hc).
  apply tuple_first_inv in Hsel as [-> Hsel].
  apply bind_inv_Ok in Hc as (val & h1 & Hval & Hc).
  apply attr_value_inv in Hval as [-> (so & t & Hso & Hval)].
  destruct (PyValue.eqb val (PyString (quoted "nominal"))) eqn:Hnominal;
    [|left; by injection Hc].
  apply bind_inv_Ok in Hc as (args2 & h1 & Hargs2 & Hc).
  apply attr_args_inv in Hargs2 as [-> Hargs2].
  rewrite Hargs in Hargs2. injection Hargs2 as <-.
  apply bind_inv_Ok in Hc as (sel2 & h1 & Hsel2 & Hc).
  apply tuple_first_inv in Hsel2 as [-> Hsel2].
  rewrite Hsel in Hsel2. injection Hsel2 as <-.
  apply bind_inv_Ok in Hc as (val2 & h1 & Hval2 & Hc).
  apply attr_value_inv in Hval2 as [-> (so2 & t2 & Hso2 & Hval2)].
  rewrite Hso in Hso2. injection Hso2 as <-.
  rewrite Hval in Hval2. injection Hval2 as <- <-.
  destruct val as [z|f|s]; try discriminate.
  cbn in Hnominal. apply String.eqb_eq in Hnominal as ->.
  destruct (negb (String.eqb v _)) eqn:Hne; [|left; by injection Hc].
  apply bind_inv_Ok in Hc as (args3 & h1 & Hargs3 & Hc).
  apply attr_args_inv in Hargs3 as [-> Hargs3].
  rewrite Hargs in Hargs3. injection Hargs3 as <-.
  apply bind_inv_Ok in Hc as (sel3 & h1 & Hsel3 & Hc).
  apply tuple_first_inv in Hsel3 as [-> Hsel3].
  rewrite Hsel in Hsel3. injection Hsel3 as <-.
  apply set_attr_value_inv in Hc as (so3 & t3 & v3 & Hso3 & Hf3 & ->).
  rewrite Hso in Hso3. injection Hso3 as <-.
  rewrite Hval in Hf3. injection Hf3 as <- <-.
  right. apply (Rewritten _ _ _ sel so (Const t (PyString (quoted v)))); try done.
  - cbn. rewrite How. cbn. rewrite Hargs. cbn. exact Hsel.
  - rewrite Hval. cbn. by rewrite String.eqb_refl.
  - change (String.eqb (quoted v) (quoted "nominal") = false).
    apply negb_true_iff in Hne. apply String.eqb_neq in Hne.
    apply String.eqb_neq. intros Heq. apply Hne.
    apply quoted_inj in Heq. subst v. reflexivity.
  - by rewrite Hval.
  - by rewrite Hval.
Qed.

(** ** Code that only fills caches *)

Lemma same_fields_refl h : same_fields h h.
Proof. by intros a. Qed.

Lemma same_fields_trans h1 h2 h3 :
  same_fields h1 h2 -> same_fields h2 h3 -> same_fields h1 h3.
Proof. intros H12 H23 a. by rewrite H23, H12. Qed.

Lemma same_fields_set_cache h a o c :
  h !! a = Some o -> same_fields h (<[a := mkObject (fields o) (Some c)]> h).
Proof.
  intros Ha b. destruct (decide (a = b)) as [<-|Hne].
  - rewrite list_lookup_insert_eq by (by eapply lookup_lt_Some). by rewrite Ha.
  - by rewrite list_lookup_insert_ne.
Qed.

Lemma cache_only_ret {A} (a : A) : cache_only (ret a).
Proof. intros h. apply same_fields_refl. Qed.

Lemma cache_only_raise {A} e : cache_only (@raise A e).
Proof. intros h. apply same_fields_refl. Qed.

Lemma cache_only_out_of_fuel {A} : cache_only (@out_of_fuel A).
Proof. by intros h. Qed.

Lemma cache_only_bind {A B} (m : M A) (k : A -> M B) :
  cache_only m -> (forall a, cache_only (k a)) -> cache_only (bind m k).
Proof.
  intros Hm Hk h. unfold bind. specialize (Hm h).
  destruct (m h) as [a h'| |]; [|done|done].
  specialize (Hk a h'). destruct (k a h'); [| |done]; by eapply same_fields_trans.
Qed.

Lemma cache_only_get_object a : cache_only (get_object a).
Proof. intros h. unfold get_object. destruct (h !! a); apply same_fields_refl. Qed.

Lemma cache_only_get_fields a : cache_only (get_fields a).
Proof.
  apply cache_only_bind; [apply cache_only_get_object | intros; apply cache_only_ret].
Qed.

Lemma cache_only_get_cache a : cache_only (get_cache a).
Proof.
  apply cache_only_bind; [apply cache_only_get_object|].
  intros o. destruct (_cache o); [apply cache_only_ret | apply cache_only_raise].
Qed.

Lemma cache_only_set_cache a c : cache_only (set_cache a c).
Proof.
  intros h. unfold set_cache. destruct (h !! a) eqn:Ha.
  - by apply same_fields_set_cache.
  - apply same_fields_refl.
Qed.

Lemma cache_only_mapM {A B} (f : A -> M B) (l : list A) :
  (forall a, cache_only (f a)) -> cache_only (mapM f l).
Proof.
  intros Hf. induction l as [|x l IH]; cbn [mapM].
  - apply cache_only_ret.
  - apply cache_only_bind; [apply Hf|]. intros y.
    apply cache_only_bind; [apply IH|]. intros ys. apply cache_only_ret.
Qed.

Lemma cache_only_and_then b (m : M bool) : cache_only m -> cache_only (and_then b m).
Proof. intros Hm. destruct b; [exact Hm | apply cache_only_ret]. Qed.

Lemma cache_only_andM (m1 m2 : M bool) :
  cache_only m1 -> cache_only m2 -> cache_only (andM m1 m2).
Proof.
  intros H1 H2. apply cache_only_bind; [exact H1|]. intros b. by apply cache_only_and_then.
Qed.

Lemma cache_only_tuple_eq {A} (same : A -> A -> bool) (eq : A -> A -> M bool) t1 t2 :
  (forall x y, cache_only (eq x y)) -> cache_only (tuple_eq same eq t1 t2).
Proof.
  intros Heq. revert t2. induction t1 as [|x t1 IH]; intros [|y t2]; cbn [tuple_eq];
    try apply cache_only_ret.
  apply cache_only_bind.
  - destruct (same x y); [apply cache_only_ret | apply Heq].
  - intros b. destruct b; [apply IH | apply cache_only_ret].
Qed.

Create HintDb cache_only.
#[export] Hint Resolve cache_only_ret cache_only_raise cache_only_out_of_fuel
  cache_only_get_object cache_only_get_fields cache_only_get_cache cache_only_set_cache
  cache_only_mapM cache_only_and_then cache_only_andM cache_only_tuple_eq : cache_only.

Ltac cache_only_tac :=
  repeat first
    [ apply cache_only_bind; [|intros ?]
    | apply cache_only_and_then
    | apply cache_only_andM
    | apply cache_only_mapM; intros ?
    | apply cache_only_tuple_eq; intros ? ?
    | progress eauto with cache_only
    | match goal with
      | |- cache_only (match ?x with _ => _ end) => destruct x
      | |- cache_only (if ?x then _ else _) => destruct x
      | |- cache_only (let (_, _) := ?x in _) => destruct x
      end ].

Section CacheOnly.
Context `{RuntimeLaws}.

Lemma cache_only__repr repr self :
  (forall a, cache_only (repr a)) -> cache_only (_repr repr self).
Proof.
  intros Hr. unfold _repr, repr_args.
  pose proof proxy_repr_cache_only.
  cache_only_tac.
Qed.

Lemma cache_only_fromopcache_repr func self :
  (forall a, cache_only (func a)) -> cache_only (fromopcache_repr func self).
Proof. intros Hf. unfold fromopcache_repr. cache_only_tac. Qed.

Lemma cache_only_fromopcache_hash func self :
  (forall a, cache_only (func a)) -> cache_only (fromopcache_hash func self).
Proof. intros Hf. unfold fromopcache_hash. cache_only_tac. Qed.

Lemma cache_only_py_repr fuel self : cache_only (py_repr fuel self).
Proof.
  revert self. induction fuel as [|fuel IH]; intros self; cbn [py_repr].
  - apply cache_only_out_of_fuel.
  - apply cache_only_fromopcache_repr. intros a. by apply cache_only__repr.
Qed.

Lemma cache_only_py_hash fuel self : cache_only (py_hash fuel self).
Proof.
  unfold py_hash. apply cache_only_fromopcache_hash. intros a.
  pose proof cache_only_py_repr. cache_only_tac.
Qed.

Lemma cache_only__eq eq repr fs fo :
  (forall a b, cache_only (eq a b)) -> (forall a, cache_only (repr a)) ->
  cache_only (_eq eq repr fs fo).
Proof.
  intros He Hr. pose proof proxy_eq_cache_only.
  unfold _eq, repr_optional. destruct fs, fo; cache_only_tac.
Qed.

Lemma cache_only_py_eq fuel a b : cache_only (py_eq fuel a b).
Proof.
  revert a b. induction fuel as [|fuel IH]; intros a b; cbn [py_eq].
  - apply cache_only_out_of_fuel.
  - pose proof cache_only_py_hash. pose proof cache_only_py_repr.
    pose proof cache_only__eq. cache_only_tac.
Qed.

End CacheOnly.

#[export] Instance example_runtime_laws : @RuntimeLaws example_runtime.
Proof. split; intros; apply cache_only_ret. Qed.

Lemma selector_insert h w sel so f' :
  h !! sel = Some so -> args_of f' = args_of (fields so) ->
  selector (<[sel := mkObject f' (_cache so)]> h) w = selector h w.
Proof.
  intros Hso Hargs.
  destruct w; cbn; try done.
  all: destruct (decide (wrapped = sel)) as [->|Hne];
    [ rewrite list_lookup_insert_eq by (by eapply lookup_lt_Some);
      rewrite Hso; cbn; by rewrite Hargs
    | by rewrite list_lookup_insert_ne ].
Qed.

Lemma changeVariation_frame h w o v h' :
  h !! w = Some o -> changeVariation w v h = Ok tt h' ->
  h' = h \/ rewrites_selector h (fields o) h'.
Proof.
  intros Hw Hc. unfold changeVariation in Hc.
  rewrite (bind_Ok _ _ _ _ _ (get_fields_Ok _ _ _ Hw)) in Hc.
  destruct (fields o); try discriminate.
  - by eapply SF_changeVariation_frame.
  - by eapply SM_changeVariation_frame.
Qed.

(** C10. A call of [changeVariation] that returns leaves the store as it
    is, or assigns to the selector of the wrapped call (the [name] of its
    last argument for [ScaleFactorWithSystOp], the [value] of its first
    argument for [SystModifiedCollectionOp]), and this only when the
    selector held the nominal value; a selector that does not hold the
    nominal value is never rewritten; and after a call that did rewrite the
    selector, every further call that returns leaves the store unchanged. *)
Theorem changeVariation_rewrites_only_nominal (h : heap) (w : addr) (o : PyObject)
    (v : string) (h' : heap) :
  h !! w = Some o ->
  changeVariation w v h = Ok tt h' ->
  (h' = h \/ rewrites_selector h (fields o) h') /\
  (forall sel so, selector h (fields o) = Some sel -> h !! sel = Some so ->
                  holds_nominal (fields o) (fields so) = false -> h' = h) /\
  (rewrites_selector h (fields o) h' ->
   forall v2 h2, changeVariation w v2 h' = Ok tt h2 -> h2 = h').
Proof.
  intros Hw Hc. pose proof (changeVariation_frame _ _ _ _ _ Hw Hc) as Hframe.
  split; [exact Hframe|]. split.
  - intros sel so Hsel Hso Hnom. destruct Hframe as [->|Hr]; [done|].
    destruct Hr as [sel' so' f' Hsel' Hso' Hnom' _ _ _ _].
    rewrite Hsel in Hsel'. injection Hsel' as <-.
    rewrite Hso in Hso'. injection Hso' as <-. congruence.
  - intros [sel so f' Hsel Hso Hnom Hnom' Hargs Hcls ->] v2 h2 Hc2.
    assert (Hne : sel <> w).
    { intros ->. rewrite Hw in Hso. injection Hso as <-.
      destruct (fields o); discriminate. }
    assert (Hw' : (<[sel := mkObject f' (_cache so)]> h) !! w = Some o).
    { by rewrite list_lookup_insert_ne. }
    destruct (changeVariation_frame _ _ _ _ _ Hw' Hc2) as [->|Hr]; [done|].
    destruct Hr as [sel2 so2 f2 Hsel2 Hso2 Hnom2 _ _ _ _].
    rewrite (selector_insert _ _ _ _ _ Hso Hargs) in Hsel2.
    rewrite Hsel in Hsel2. injection Hsel2 as <-.
    rewrite list_lookup_insert_eq in Hso2 by (by eapply lookup_lt_Some).
    injection Hso2 as <-. cbn in Hnom2. congruence.
Qed.

Lemma changeVariation_rewrites_only_nominal_witness :
  sf_heap !! 3%nat
  = Some (mkObject (ScaleFactorWithSystOp 2 "elid" ["elidup"; "eliddown"]) (Some empty_cache)) /\
  changeVariation 3 "elidup" sf_heap = Ok tt sf_heap_up /\
  (sf_heap_up = sf_heap \/
   rewrites_selector sf_heap (ScaleFactorWithSystOp 2 "elid" ["elidup"; "eliddown"]) sf_heap_up) /\
  (forall sel so,
     selector sf_heap (ScaleFactorWithSystOp 2 "elid" ["elidup"; "eliddown"]) = Some sel ->
     sf_heap !! sel = Some so ->
     holds_nominal (ScaleFactorWithSystOp 2 "elid" ["elidup"; "eliddown"]) (fields so) = false ->
     sf_heap_up = sf_heap) /\
  (rewrites_selector sf_heap (ScaleFactorWithSystOp 2 "elid" ["elidup"; "eliddown"]) sf_heap_up ->
   forall v2 h2, changeVariation 3 v2 sf_heap_up = Ok tt h2 -> h2 = sf_heap_up).
Proof.
  split; [reflexivity|]. split; [reflexivity|].
  exact (changeVariation_rewrites_only_nominal sf_heap 3
           (mkObject (ScaleFactorWithSystOp 2 "elid" ["elidup"; "eliddown"]) (Some empty_cache))
           "elidup" sf_heap_up eq_refl eq_refl).
Defined.

Lemma get_cache_Ok h a f c :
  h !! a = Some (mkObject f (Some c)) -> get_cache a h = Ok c h.
Proof.
  intros Ha. unfold get_cache.
  by rewrite (bind_Ok _ _ _ _ _ (get_object_Ok _ _ _ Ha)).
Qed.

Lemma cache_bool_repr c s : cache_repr c = Some s -> cache_bool c = true.
Proof. destruct c as [hs rp]. cbn. intros ->. by destruct hs. Qed.

Lemma cache_bool_hash c z : cache_hash c = Some z -> cache_bool c = true.
Proof. destruct c as [hs rp]. cbn. by intros ->. Qed.

Section Freeze.
Context `{RuntimeLaws}.

Lemma same_fields_lookup h h' a o :
  same_fields h h' -> h !! a = Some o -> exists o', h' !! a = Some o' /\ fields o' = fields o.
Proof.
  intros Hs Ha. specialize (Hs a). rewrite Ha in Hs.
  destruct (h' !! a) as [o'|]; [|done]. injection Hs as Hs. eauto.
Qed.

(** Once [repr] of a node has returned, the node is there with the same
    fields and its cache holds the text. *)
Lemma py_repr_fills_cache fuel a h s h1 o :
  h !! a = Some o -> py_repr fuel a h = Ok s h1 ->
  exists c1, h1 !! a = Some (mkObject (fields o) (Some c1)) /\ cache_repr c1 = Some s.
Proof.
  intros Ha Hr. destruct fuel as [|fuel]; [done|]. cbn [py_repr] in Hr.
  unfold fromopcache_repr in Hr.
  apply bind_inv_Ok in Hr as (c & h' & Hc & Hr).
  apply get_cache_inv in Hc as [-> (o' & Ho' & Hc)].
  rewrite Ha in Ho'. injection Ho' as <-.
  destruct (cache_repr c) as [v|] eqn:Hcr.
  - injection Hr as <- <-. exists c. split; [|done].
    rewrite Ha. destruct o as [f cc]. cbn in *. by rewrite Hc.
  - apply bind_inv_Ok in Hr as (v & h2 & Hv & Hr).
    apply bind_inv_Ok in Hr as (c' & h3 & Hc' & Hr).
    apply get_cache_inv in Hc' as [-> (o2 & Ho2 & Hc')].
    apply bind_inv_Ok in Hr as ([] & h3 & Hset & Hr).
    injection Hr as <- <-.
    apply set_cache_inv in Hset as (o3 & Ho3 & ->).
    rewrite Ho2 in Ho3. injection Ho3 as <-.
    pose proof (cache_only__repr (py_repr fuel) a (cache_only_py_repr fuel) h) as Hco.
    rewrite Hv in Hco.
    destruct (same_fields_lookup _ _ _ _ Hco Ha) as (o2' & Ho2' & Hf).
    rewrite Ho2 in Ho2'. injection Ho2' as <-.
    eexists. rewrite list_lookup_insert_eq by (by eapply lookup_lt_Some).
    rewrite Hf. split; reflexivity.
Qed.

Lemma py_hash_fills_cache fuel a h z h1 o :
  h !! a = Some o -> py_hash fuel a h = Ok z h1 ->
  exists c1, h1 !! a = Some (mkObject (fields o) (Some c1)) /\ cache_hash c1 = Some z.
Proof.
  intros Ha Hr. unfold py_hash, fromopcache_hash in Hr.
  apply bind_inv_Ok in Hr as (c & h' & Hc & Hr).
  apply get_cache_inv in Hc as [-> (o' & Ho' & Hc)].
  rewrite Ha in Ho'. injection Ho' as <-.
  destruct (cache_hash c) as [v|] eqn:Hcr.
  - injection Hr as <- <-. exists c. split; [|done].
    rewrite Ha. destruct o as [f cc]. cbn in *. by rewrite Hc.
  - apply bind_inv_Ok in Hr as (v & h2 & Hv & Hr).
    apply bind_inv_Ok in Hr as (c' & h3 & Hc' & Hr).
    apply get_cache_inv in Hc' as [-> (o2 & Ho2 & Hc')].
    apply bind_inv_Ok in Hr as ([] & h3 & Hset & Hr).
    injection Hr as <- <-.
    apply set_cache_inv in Hset as (o3 & Ho3 & ->).
    rewrite Ho2 in Ho3. injection Ho3 as <-.
    assert (Hco : same_fields h h2).
    { apply bind_inv_Ok in Hv as (s & h4 & Hs & Hv). injection Hv as _ <-.
      pose proof (cache_only_py_repr fuel a h) as Hco. by rewrite Hs in Hco. }
    destruct (same_fields_lookup _ _ _ _ Hco Ha) as (o2' & Ho2' & Hf).
    rewrite Ho2 in Ho2'. injection Ho2' as <-.
    eexists. rewrite list_lookup_insert_eq by (by eapply lookup_lt_Some).
    rewrite Hf. split; reflexivity.
Qed.

Lemma changeVariation_frozen h w f c v :
  h !! w = Some (mkObject f (Some c)) -> is_wrapper f = true -> cache_bool c = true ->
  changeVariation w v h = Raise (RuntimeError frozen_msg) h.
Proof.
  intros Hw Hwr Hc. unfold changeVariation.
  rewrite (bind_Ok _ _ _ _ _ (get_fields_Ok _ _ _ Hw)). cbn [fields].
  destruct f; try discriminate.
  - unfold ScaleFactorWithSystOp_changeVariation.
    rewrite (bind_Ok _ _ _ _ _ (get_cache_Ok _ _ _ _ Hw)). by rewrite Hc.
  - unfold SystModifiedCollectionOp_changeVariation.
    rewrite (bind_Ok _ _ _ _ _ (get_cache_Ok _ _ _ _ Hw)). by rewrite Hc.
Qed.

End Freeze.

Lemma attr_args_Ok o args h : args_of o = Some args -> attr_args o h = Ok args h.
Proof. destruct o; cbn; intros [=]; subst; done. Qed.

Lemma attr_name_Ok a o nm h :
  h !! a = Some o -> name_of (fields o) = Some nm -> attr_name a h = Ok nm h.
Proof.
  intros Ha Hn. unfold attr_name.
  rewrite (bind_Ok _ _ _ _ _ (get_fields_Ok _ _ _ Ha)).
  destruct (fields o); cbn in *; try discriminate; try (by injection Hn as ->).
  destruct i; [|discriminate]. by injection Hn as <-.
Qed.

Lemma changeVariation_mutable h w f c v :
  h !! w = Some (mkObject f (Some c)) -> cache_bool c = false ->
  declared v f = true -> readable_selector h f ->
  exists h', changeVariation w v h = Ok tt h'.
Proof.
  intros Hw Hc Hd (sel & so & Hsel & Hso & Hkind). unfold changeVariation.
  rewrite (bind_Ok _ _ _ _ _ (get_fields_Ok _ _ _ Hw)). cbn [fields].
  destruct f; try done.
  - unfold ScaleFactorWithSystOp_changeVariation.
    rewrite (bind_Ok _ _ _ _ _ (get_cache_Ok _ _ _ _ Hw)).
    rewrite Hc. cbn in Hd. rewrite Hd. cbn [negb].
    cbn in Hsel. destruct (h !! wrapped) as [ow|] eqn:How; [|done]. cbn in Hsel.
    destruct (args_of (fields ow)) as [args|] eqn:Hargs; [|done]. cbn in Hsel.
    destruct Hkind as [nm Hnm].
    assert (Hlast : tuple_last args h = Ok sel h).
    { unfold tuple_last. by rewrite Hsel. }
    rewrite (bind_Ok _ _ _ _ _ (get_fields_Ok _ _ _ How)).
    rewrite !(bind_Ok _ _ _ _ _ (attr_args_Ok _ _ _ Hargs)).
    rewrite !(bind_Ok _ _ _ _ _ Hlast).
    rewrite !(bind_Ok _ _ _ _ _ (attr_name_Ok _ _ _ _ Hso Hnm)).
    destruct (String.eqb nm "Nominal") eqn:Hnominal; [|by eexists].
    rewrite !(bind_Ok _ _ _ _ _ (attr_args_Ok _ _ _ Hargs)).
    rewrite !(bind_Ok _ _ _ _ _ Hlast).
    rewrite !(bind_Ok _ _ _ _ _ (attr_name_Ok _ _ _ _ Hso Hnm)).
    destruct (negb _); [|by eexists].
    rewrite !(bind_Ok _ _ _ _ _ (attr_args_Ok _ _ _ Hargs)).
    rewrite !(bind_Ok _ _ _ _ _ Hlast).
    unfold set_attr_name. rewrite (bind_Ok _ _ _ _ _ (get_fields_Ok _ _ _ Hso)).
    apply String.eqb_eq in Hnominal as ->.
    destruct (fields so); cbn in Hnm; try discriminate;
      try (unfold set_fields; rewrite Hso; by eexists).
    destruct i; discriminate.
  - unfold SystModifiedCollectionOp_changeVariation.
    rewrite (bind_Ok _ _ _ _ _ (get_cache_Ok _ _ _ _ Hw)).
    rewrite Hc. cbn in Hd. rewrite Hd. cbn [negb].
    cbn in Hsel. destruct (h !! wrapped) as [ow|] eqn:How; [|done]. cbn in Hsel.
    destruct (args_of (fields ow)) as [args|] eqn:Hargs; [|done]. cbn in Hsel.
    destruct Hkind as (t & val & Hval).
    assert (Hfirst : tuple_first args h = Ok sel h).
    { destruct args; [done|]. by injection Hsel as ->. }
    assert (Hv : attr_value sel h = Ok val h).
    { unfold attr_value. rewrite (bind_Ok _ _ _ _ _ (get_fields_Ok _ _ _ Hso)).
      by rewrite Hval. }
    rewrite (bind_Ok _ _ _ _ _ (get_fields_Ok _ _ _ How)).
    rewrite !(bind_Ok _ _ _ _ _ (attr_args_Ok _ _ _ Hargs)).
    rewrite !(bind_Ok _ _ _ _ _ Hfirst).
    rewrite !(bind_Ok _ _ _ _ _ Hv).
    destruct (PyValue.eqb val _) eqn:Hnominal; [|by eexists].
    rewrite !(bind_Ok _ _ _ _ _ (attr_args_Ok _ _ _ Hargs)).
    rewrite !(bind_Ok _ _ _ _ _ Hfirst).
    rewrite !(bind_Ok _ _ _ _ _ Hv).
    destruct val; try discriminate.
    destruct (negb _); [|by eexists].
    rewrite !(bind_Ok _ _ _ _ _ (attr_args_Ok _ _ _ Hargs)).
    rewrite !(bind_Ok _ _ _ _ _ Hfirst).
    unfold set_attr_value. rewrite (bind_Ok _ _ _ _ _ (get_fields_Ok _ _ _ Hso)).
    rewrite Hval. unfold set_fields. rewrite Hso. by eexists.
Qed.

Lemma never_raises_bind {A B} e0 (m : M A) (k : A -> M B) :
  never_raises e0 m -> (forall a, never_raises e0 (k a)) -> never_raises e0 (bind m k).
Proof.
  intros Hm Hk h e h' Hr. unfold bind in Hr.
  destruct (m h) as [a h1|e1 h1|] eqn:Hmh; [|injection Hr as <- <-|done].
  - by eapply Hk.
  - by eapply Hm.
Qed.

Lemma never_raises_ret {A} e0 (a : A) : never_raises e0 (ret a).
Proof. by intros h e h' Hr. Qed.

Lemma never_raises_raise {A} e0 e1 : e1 <> e0 -> never_raises (A := A) e0 (raise e1).
Proof. intros Hne h e h' Hr. by injection Hr as <- _. Qed.

Lemma never_raises_get_object e0 a :
  (forall b, e0 <> DanglingReference b) -> never_raises e0 (get_object a).
Proof.
  intros Hne h e h' Hr. unfold get_object in Hr.
  destruct (h !! a); [done|]. injection Hr as <- _. intros Heq. symmetry in Heq. by eapply Hne.
Qed.

Lemma never_raises_set_fields e0 a f :
  (forall b, e0 <> DanglingReference b) -> never_raises e0 (set_fields a f).
Proof.
  intros Hne h e h' Hr. unfold set_fields in Hr.
  destruct (h !! a); [done|]. injection Hr as <- _. intros Heq. symmetry in Heq. by eapply Hne.
Qed.

Lemma never_raises_apply {A} e0 (m : M A) h e h' :
  never_raises e0 m -> m h = Raise e h' -> e <> e0.
Proof. intros Hm. apply Hm. Qed.

Ltac never_raises_tac :=
  repeat first
    [ apply never_raises_bind; [|intros ?]
    | apply never_raises_ret
    | apply never_raises_raise; discriminate
    | apply never_raises_get_object; discriminate
    | apply never_raises_set_fields; discriminate
    | match goal with
      | |- never_raises _ (match ?x with _ => _ end) => destruct x
      | |- never_raises _ (if ?x then _ else _) => destruct x
      end ].

Lemma changeVariation_unfrozen_other_error h w f c v e h' :
  h !! w = Some (mkObject f (Some c)) -> is_wrapper f = true -> cache_bool c = false ->
  changeVariation w v h = Raise e h' -> e <> RuntimeError frozen_msg.
Proof.
  intros Hw Hwr Hc. unfold changeVariation.
  rewrite (bind_Ok _ _ _ _ _ (get_fields_Ok _ _ _ Hw)). cbn [fields].
  destruct f; try discriminate.
  - unfold ScaleFactorWithSystOp_changeVariation.
    rewrite (bind_Ok _ _ _ _ _ (get_cache_Ok _ _ _ _ Hw)). rewrite Hc.
    intros Hr. eapply never_raises_apply; [|exact Hr].
    unfold get_fields, attr_args, tuple_last, attr_name, set_attr_name, get_fields,
      placeholder_name.
    never_raises_tac.
  - unfold SystModifiedCollectionOp_changeVariation.
    rewrite (bind_Ok _ _ _ _ _ (get_cache_Ok _ _ _ _ Hw)). rewrite Hc.
    intros Hr. eapply never_raises_apply; [|exact Hr].
    unfold get_fields, attr_args, tuple_first, attr_value, set_attr_value, get_fields.
    never_raises_tac.
Qed.

(** C2, as the code has it. For a wrapper of either class, stored at [w]:
    when its own cache holds a repr or a hash, every call of
    [changeVariation] raises the RuntimeError [Cannot change variation of an
    expression that is already frozen]; this is the case in the store left
    by [repr(w)] and in the store left by [hash(w)]. While its own cache is
    empty, no call raises that error, whatever else it raises; and a call
    with a declared name returns when the selector of the wrapped call can
    be read (the last argument has a [name], for a scale factor; the first
    is a [Const], for a modified collection). *)
Theorem changeVariation_frozen_by_own_cache `{RuntimeLaws} (h : heap) (w : addr)
    (f : TupleOp) (c : TupleOpCache) (v : string) :
  h !! w = Some (mkObject f (Some c)) ->
  is_wrapper f = true ->
  (cache_bool c = true -> changeVariation w v h = Raise (RuntimeError frozen_msg) h) /\
  (forall fuel s h1, py_repr fuel w h = Ok s h1 ->
     changeVariation w v h1 = Raise (RuntimeError frozen_msg) h1) /\
  (forall fuel z h1, py_hash fuel w h = Ok z h1 ->
     changeVariation w v h1 = Raise (RuntimeError frozen_msg) h1) /\
  (cache_bool c = false ->
   (forall e h', changeVariation w v h = Raise e h' -> e <> RuntimeError frozen_msg) /\
   (declared v f = true -> readable_selector h f ->
    exists h', changeVariation w v h = Ok tt h')).
Proof.
  intros Hw Hwr. split; [|split; [|split]].
  - intros Hc. by eapply changeVariation_frozen.
  - intros fuel s h1 Hr.
    destruct (py_repr_fills_cache _ _ _ _ _ _ Hw Hr) as (c1 & Hw1 & Hc1).
    eapply changeVariation_frozen; [exact Hw1 | exact Hwr | by eapply cache_bool_repr].
  - intros fuel z h1 Hr.
    destruct (py_hash_fills_cache _ _ _ _ _ _ Hw Hr) as (c1 & Hw1 & Hc1).
    eapply changeVariation_frozen; [exact Hw1 | exact Hwr | by eapply cache_bool_hash].
  - intros Hc. split.
    + intros e h' Hr. by eapply changeVariation_unfrozen_other_error.
    + intros Hd Hsel. by eapply changeVariation_mutable.
Qed.

Lemma changeVariation_frozen_by_own_cache_witness :
  let w := ScaleFactorWithSystOp 2 "elid" ["elidup"; "eliddown"] in
  let frozen := <[3%nat := mkObject w (Some (mkCache (Some 0) None))]> sf_heap in
  changeVariation 3 "elidup" frozen = Raise (RuntimeError frozen_msg) frozen /\
  (exists s h1, py_repr (H := example_runtime) 4 3 sf_heap = Ok s h1 /\
     changeVariation 3 "elidup" h1 = Raise (RuntimeError frozen_msg) h1) /\
  (exists z h1, py_hash (H := example_runtime) 4 3 sf_heap = Ok z h1 /\
     changeVariation 3 "elidup" h1 = Raise (RuntimeError frozen_msg) h1) /\
  (forall e h', changeVariation 3 "elidup" sf_heap = Raise e h' ->
     e <> RuntimeError frozen_msg) /\
  (exists h', changeVariation 3 "elidup" sf_heap = Ok tt h').
Proof.
  intros w frozen.
  destruct (changeVariation_frozen_by_own_cache (H := example_runtime) sf_heap 3 w
              empty_cache "elidup" eq_refl eq_refl) as (_ & Hrepr & Hhash & Hfree).
  destruct (Hfree eq_refl) as [Hother Hreturns].
  split; [|split; [|split; [|split]]].
  - exact (proj1 (changeVariation_frozen_by_own_cache (H := example_runtime) frozen 3 w
                    (mkCache (Some 0) None) "elidup" eq_refl eq_refl) eq_refl).
  - destruct (py_repr (H := example_runtime) 4 3 sf_heap) as [s h1| |] eqn:Hr;
      [|by vm_compute in Hr..].
    exists s, h1. split; [done|]. exact (Hrepr 4%nat s h1 Hr).
  - destruct (py_hash (H := example_runtime) 4 3 sf_heap) as [z h1| |] eqn:Hr;
      [|by vm_compute in Hr..].
    exists z, h1. split; [done|]. exact (Hhash 4%nat z h1 Hr).
  - exact Hother.
  - apply Hreturns; [reflexivity|].
    exists 1%nat, (mkObject (ExtVar "int" "Nominal") (Some empty_cache)).
    split; [reflexivity|]. split; [reflexivity|]. by eexists.
Defined.

(** C2, as stated, fails: the wrapper at 3 points at the call at 2; after
    the repr of the call has been observed (its cache is filled), and after
    the wrapper has been rendered, [changeVariation] on the wrapper returns
    and renames the selector of the call. *)
Lemma changeVariation_after_observing_wrapped :
  exists s h1 h2,
    py_repr (H := example_runtime) 3 2 sf_heap = Ok s h1 /\
    (exists o c, h1 !! 2%nat = Some o /\ _cache o = Some c /\ cache_bool c = true) /\
    get_cppStr (H := example_runtime) cppNoRedir 4 3 h1 = Ok "elIDSF.get(Nominal)" h1 /\
    changeVariation 3 "elidup" h1 = Ok tt h2 /\
    changeVariation 3 "elidup" h1 <> Raise (RuntimeError frozen_msg) h1 /\
    (fields <$> h2 !! 1%nat) = Some (ExtVar "int" "Up").
Proof.
  eexists _, _, _. split; [vm_compute; reflexivity|].
  split; [eexists _, _; split; [reflexivity|]; split; reflexivity|].
  split; [vm_compute; reflexivity|].
  split; [vm_compute; reflexivity|].
  split; [vm_compute; discriminate|].
  vm_compute; reflexivity.
Qed.

Section BareYield.
Context `{Runtime}.
Variable includeLocal : bool.

Let select : pyobj -> M bool := fun _ => ret true.

Lemma deps_of_arg_bare_head fuel arg_deps arg locals h l h' :
  deps_of_arg_bare select includeLocal fuel arg_deps arg locals h = Ok l h' ->
  head l = Some None.
Proof.
  unfold deps_of_arg_bare. intros Hd.
  apply bind_inv_Ok in Hd as (s & h1 & Hs & Hd). injection Hs as <- <-.
  apply bind_inv_Ok in Hd as (ds & h2 & _ & Hd).
  apply bind_inv_Ok in Hd as (ds' & h3 & _ & Hd).
  by injection Hd as <- _.
Qed.

(** C7, at the classes where it fails. With the default [select], which
    accepts everything, the first item that the [deps] generator of a
    [Reduce] or of a [Combine] yields is [None]: the bare [yield] for its
    first operand, where the generators of the other classes yield the
    operand itself. *)
Theorem bare_yield_gives_None (fuel : nat) (a : addr) (o : PyObject)
    (h : heap) (l : list (option addr)) (h' : heap) :
  h !! a = Some o ->
  bare_yield_class (fields o) = true ->
  deps cppNoRedir select includeLocal fuel a h = Ok l h' ->
  head l = Some None.
Proof.
  intros Ha Hcls Hd. destruct fuel as [|fuel]; [done|]. cbn [deps] in Hd.
  rewrite (bind_Ok _ _ _ _ _ (get_fields_Ok _ _ _ Ha)) in Hd.
  destruct (fields o); try discriminate; unfold unless_defined in Hd; cbn in Hd.
  - apply bind_inv_Ok in Hd as (d1 & h1 & Hd1 & Hd).
    apply deps_of_arg_bare_head in Hd1.
    apply bind_inv_Ok in Hd as (d2 & h2 & _ & Hd). injection Hd as <- _.
    by destruct d1.
  - apply bind_inv_Ok in Hd as (d1 & h1 & Hd1 & Hd).
    apply bind_inv_Ok in Hd as (d2 & h2 & Hd2 & Hd). injection Hd as <- _.
    apply deps_of_arg_bare_head in Hd2.
    destruct ranges as [|r ranges]; cbn [concatM] in Hd1.
    + injection Hd1 as <- _. done.
    + apply bind_inv_Ok in Hd1 as (ys & h3 & Hys & Hd1).
      apply deps_of_arg_bare_head in Hys.
      apply bind_inv_Ok in Hd1 as (zs & h4 & _ & Hd1). injection Hd1 as <- _.
      by destruct ys.
Qed.

End BareYield.

Lemma bare_yield_gives_None_witness :
  combine_heap !! 5%nat = Some (mkObject (Combine [jets; jets] 4 [2%nat; 3%nat]) (Some empty_cache)) /\
  bare_yield_class (Combine [jets; jets] 4 [2%nat; 3%nat]) = true /\
  deps (H := example_runtime) cppNoRedir (fun _ => ret true) true 3 5 combine_heap
  = Ok [None; None; None; Some 2%nat; Some 3%nat] combine_heap /\
  head [None; None; None; Some 2%nat; Some 3%nat] = Some (@None addr).
Proof.
  split; [reflexivity|]. split; [reflexivity|]. split; [vm_compute; reflexivity|].
  exact (bare_yield_gives_None (H := example_runtime) true 3 5
           (mkObject (Combine [jets; jets] 4 [2%nat; 3%nat]) (Some empty_cache))
           combine_heap [None; None; None; Some 2%nat; Some 3%nat] combine_heap
           eq_refl eq_refl eq_refl).
Defined.

(** ** Nested operations on ranges *)

(** C3, at an input where it fails. The [Map] over the jets is the node 10,
    with the placeholder 4; its body is the [Select] over the muons, the
    node 9, with the placeholder 5. The predicate of the [Select] does not
    use the placeholder 5, so the scan of the body of the [Map] does not
    meet it: both placeholders get the index 0, and the predicate, which
    reads the jet, is rendered with the name [i0] that the [Select] declares
    for the muon. *)
Lemma nested_placeholders_share_index :
  exists h',
    nested_select (H := example_runtime) columns_heap = Ok 10%nat h' /\
    (fields <$> h' !! 10%nat) = Some (Map jets 9 4 "ROOT::VecOps::RVec<std::size_t>") /\
    (fields <$> h' !! 9%nat) = Some (Select muons 8 5) /\
    (fields <$> h' !! 4%nat) = Some (LocalVariablePlaceholder SizeType (Some 10%nat) (Some 0)) /\
    (fields <$> h' !! 5%nat) = Some (LocalVariablePlaceholder SizeType (Some 9%nat) (Some 0)) /\
    collectNodes (H := example_runtime) 10 9 is_placeholder h' = Ok [Some 4%nat] h' /\
    get_cppStr (H := example_runtime) cppNoRedir 10 8 h' = Ok "( Jet_pt[i0] >  30.0 )" h' /\
    placeholder_decl 5 h' = Ok "std::size_t i0" h'.
Proof.
  eexists. split; [vm_compute; reflexivity|].
  repeat split; vm_compute; reflexivity.
Qed.

(** ** Equality of [Reduce] nodes *)

(** C1, at the class where it fails. Two [Reduce] nodes built one after the
    other from the same operands: [a == b] raises AttributeError, since
    neither has the [_cache] that [__hash__] reads. *)
Theorem Reduce_eq_raises `{Runtime} (rng : RangeProxy) (resultType : string)
    (start accuExpr idx prevRes : addr) (fuel : nat) (h : heap) :
  exists h',
    (let* a := Reduce_init rng resultType start accuExpr idx prevRes in
     let* b := Reduce_init rng resultType start accuExpr idx prevRes in
     py_eq (S fuel) a b) h = Raise (AttributeError "_cache") h'.
Proof.
  eexists. unfold Reduce_init. mrun. cbn [py_eq].
  replace (List.length h =? List.length h + 1)%nat with false
    by (symmetry; apply Nat.eqb_neq; lia).
  unfold py_hash, fromopcache_hash. mrun. reflexivity.
Qed.

(** The same for [hash(a)] and [repr(a)]. *)
Lemma Reduce_hash_repr_raise `{Runtime} (f : TupleOp) (a : addr) (fuel : nat) (h : heap) :
  h !! a = Some (mkObject f None) ->
  py_hash fuel a h = Raise (AttributeError "_cache") h /\
  py_repr (S fuel) a h = Raise (AttributeError "_cache") h.
Proof.
  intros Ha. split.
  - unfold py_hash, fromopcache_hash, get_cache, bind, get_object. by rewrite Ha.
  - cbn [py_repr]. unfold fromopcache_repr, get_cache, bind, get_object. by rewrite Ha.
Qed.

(** ** Clones of [Reduce] nodes *)

Section CloneReduce.
Context `{Runtime}.

(** C6, at the class where it fails. When [clone] of a [Reduce] node
    returns, the copy is a [Reduce] node without [_cache] attribute (not
    an empty cache), and [clone(a) == a] raises AttributeError instead of
    returning [True]. *)
Theorem clone_Reduce_has_no_cache (fuel : nat) (a : addr) (o : PyObject) (h : heap)
    (c : addr) (h' : heap) :
  h !! a = Some o ->
  (exists rng rt st acc i p, fields o = Reduce rng rt st acc i p) ->
  clone fuel a h = Ok c h' ->
  (exists rng rt st acc i p, h' !! c = Some (mkObject (Reduce rng rt st acc i p) None)) /\
  (c <> a -> forall fuel', py_eq (S fuel') c a h' = Raise (AttributeError "_cache") h').
Proof.
  intros Ha (rng & rt & st & acc & i & p & Hf) Hc.
  assert (Hcp : exists rng rt st acc i p,
             h' !! c = Some (mkObject (Reduce rng rt st acc i p) None)).
  { unfold clone in Hc. apply bind_inv_Ok in Hc as ([cp memo] & h1 & Hcm & Hc).
    injection Hc as <- <-. destruct fuel as [|fuel]; [done|]. cbn [clone_memo] in Hcm.
    rewrite lookup_empty in Hcm.
    apply bind_inv_Ok in Hcm as ([cp' memo'] & h2 & Hcl & Hcm). injection Hcm as <- _ <-.
    unfold _clone in Hcl.
    rewrite (bind_Ok _ _ _ _ _ (get_fields_Ok _ _ _ Ha)), Hf in Hcl.
    apply bind_inv_Ok in Hcl as ([r m1] & h3 & _ & Hcl).
    apply bind_inv_Ok in Hcl as ([s m2] & h4 & _ & Hcl).
    apply bind_inv_Ok in Hcl as ([a' m3] & h5 & _ & Hcl).
    apply bind_inv_Ok in Hcl as ([ix m4] & h6 & _ & Hcl).
    apply bind_inv_Ok in Hcl as ([pr m5] & h7 & _ & Hcl).
    apply bind_inv_Ok in Hcl as (cp'' & h8 & Hnew & Hcl). injection Hcl as <- _ <-.
    injection Hnew as <- <-. eexists _, _, _, _, _, _. by rewrite lookup_app_len. }
  split; [exact Hcp|]. intros Hne fuel'.
  destruct Hcp as (rng' & rt' & st' & acc' & i' & p' & Hcp).
  cbn [py_eq]. apply Nat.eqb_neq in Hne. rewrite Hne.
  destruct (Reduce_hash_repr_raise _ _ fuel' _ Hcp) as [Hh _].
  by rewrite (bind_Raise _ _ _ _ _ Hh).
Qed.

End CloneReduce.

Lemma clone_Reduce_has_no_cache_witness :
  exists h',
    reduce_heap !! 7%nat = Some (mkObject (Reduce jets "Float_t" 2 6 3 4) None) /\
    (exists rng rt st acc i p, Reduce jets "Float_t" 2 6 3 4 = Reduce rng rt st acc i p) /\
    clone (H := example_runtime) 5 7 reduce_heap = Ok 15%nat h' /\
    (exists rng rt st acc i p,
       h' !! 15%nat = Some (mkObject (Reduce rng rt st acc i p) None)) /\
    (15%nat <> 7%nat ->
     forall fuel', py_eq (H := example_runtime) (S fuel') 15 7 h'
                   = Raise (AttributeError "_cache") h').
Proof.
  eexists. split; [reflexivity|].
  split; [by eexists _, _, _, _, _, _|].
  split; [vm_compute; reflexivity|].
  refine (clone_Reduce_has_no_cache (H := example_runtime) 5 7
            (mkObject (Reduce jets "Float_t" 2 6 3 4) None) reduce_heap 15 _
            eq_refl _ _).
  - by eexists _, _, _, _, _, _.
  - vm_compute; reflexivity.
Defined.

(** ** The order of [str] *)

Module StrOrder.

Lemma ltb_irrefl a : PyStr.ltb a a = false.
Proof.
  induction a as [|c a IH]; [done|]. cbn. by rewrite N.ltb_irrefl.
Qed.

Lemma ltb_trans a b c :
  PyStr.ltb a b = true -> PyStr.ltb b c = true -> PyStr.ltb a c = true.
Proof.
  revert b c. induction a as [|x a IH]; intros [|y b] [|z c]; cbn; try done.
  destruct (N.ltb_spec (N_of_ascii x) (N_of_ascii y)) as [Hxy|Hxy].
  - intros _. destruct (N.ltb_spec (N_of_ascii y) (N_of_ascii z)) as [Hyz|Hyz].
    + intros _. destruct (N.ltb_spec (N_of_ascii x) (N_of_ascii z)); [done|lia].
    + destruct (N.ltb_spec (N_of_ascii z) (N_of_ascii y)); [done|].
      assert (N_of_ascii y = N_of_ascii z) as <- by lia.
      intros _. destruct (N.ltb_spec (N_of_ascii x) (N_of_ascii y)); [done|lia].
  - destruct (N.ltb_spec (N_of_ascii y) (N_of_ascii x)); [done|].
    assert (N_of_ascii x = N_of_ascii y) as -> by lia. intros Hab.
    destruct (N.ltb_spec (N_of_ascii y) (N_of_ascii z)); [done|].
    destruct (N.ltb_spec (N_of_ascii z) (N_of_ascii y)); [done|].
    by apply IH.
Qed.

Lemma ltb_connex a b :
  PyStr.ltb a b = false -> PyStr.ltb b a = false -> a = b.
Proof.
  revert b. induction a as [|x a IH]; intros [|y b]; cbn; try done.
  destruct (N.ltb_spec (N_of_ascii x) (N_of_ascii y)); [done|].
  destruct (N.ltb_spec (N_of_ascii y) (N_of_ascii x)); [done|].
  assert (Hxy : N_of_ascii x = N_of_ascii y) by lia.
  destruct (N.ltb_spec (N_of_ascii x) (N_of_ascii y)); [lia|].
  intros Hab Hba. f_equal; [|by apply IH].
  rewrite <- (ascii_N_embedding x), <- (ascii_N_embedding y). by rewrite Hxy.
Qed.

Lemma ltb_asym a b : PyStr.ltb a b = true -> PyStr.ltb b a = false.
Proof.
  intros Hab. destruct (PyStr.ltb b a) eqn:Hba; [|done].
  pose proof (ltb_trans _ _ _ Hab Hba) as Haa. by rewrite ltb_irrefl in Haa.
Qed.

Lemma leb_total a b : PyStr.leb a b = true \/ PyStr.leb b a = true.
Proof.
  unfold PyStr.leb. destruct (PyStr.ltb b a) eqn:Hba; [|by left].
  right. by rewrite (ltb_asym _ _ Hba).
Qed.

Lemma leb_trans a b c :
  PyStr.leb a b = true -> PyStr.leb b c = true -> PyStr.leb a c = true.
Proof.
  unfold PyStr.leb. rewrite !negb_true_iff. intros Hba Hcb.
  destruct (PyStr.ltb c a) eqn:Hca; [|done].
  destruct (PyStr.ltb b c) eqn:Hbc.
  - by rewrite (ltb_trans _ _ _ Hbc Hca) in Hba.
  - pose proof (ltb_connex _ _ Hbc Hcb) as ->. congruence.
Qed.

Lemma leb_antisym a b : PyStr.leb a b = true -> PyStr.leb b a = true -> a = b.
Proof.
  unfold PyStr.leb. rewrite !negb_true_iff. intros Hba Hab. by apply ltb_connex.
Qed.

End StrOrder.

(** ** Sorting by a key *)

Section SortedBy.
Context {A : Type} (key : A -> string).

Let le (x y : A) : Prop := PyStr.leb (key x) (key y) = true.
Let leb (x y : A) : bool := PyStr.leb (key x) (key y).

Lemma insert_sorted_perm x l : Permutation (insert_sorted leb x l) (x :: l).
Proof.
  induction l as [|y l IH]; cbn; [done|].
  destruct (leb x y); [done|]. rewrite IH. apply perm_swap.
Qed.

Lemma sorted_by_perm l : Permutation (sorted_by leb l) l.
Proof.
  induction l as [|x l IH]; cbn; [done|].
  rewrite insert_sorted_perm. by constructor.
Qed.

Lemma insert_sorted_sorted x l :
  StronglySorted le l -> StronglySorted le (insert_sorted leb x l).
Proof.
  induction 1 as [|y l Hl IH Hy]; cbn.
  - repeat constructor.
  - destruct (leb x y) eqn:Hxy.
    + constructor; [by constructor|]. constructor; [exact Hxy|].
      eapply Forall_impl; [exact Hy|]. intros z Hz.
      unfold le in *. by eapply StrOrder.leb_trans.
    + constructor; [exact IH|].
      assert (Hyx : le y x).
      { unfold le, leb in *. destruct (StrOrder.leb_total (key x) (key y)); congruence. }
      eapply Permutation_Forall; [symmetry; apply insert_sorted_perm|].
      by constructor.
Qed.

Lemma sorted_by_sorted l : StronglySorted le (sorted_by leb l).
Proof.
  induction l as [|x l IH]; cbn; [constructor|]. by apply insert_sorted_sorted.
Qed.

(** Two sorted arrangements of the same items, whose keys are pairwise
    distinct, are the same list. *)
Lemma sorted_unique l1 l2 :
  StronglySorted le l1 -> StronglySorted le l2 -> Permutation l1 l2 ->
  NoDup (map key l1) -> l1 = l2.
Proof.
  intros Hs1. revert l2. induction Hs1 as [|x l1 Hl1 IH Hx]; intros l2 Hs2 Hp Hnd.
  - by apply Permutation_nil in Hp.
  - destruct Hs2 as [|y l2 Hl2 Hy].
    { symmetry in Hp. by apply Permutation_nil in Hp. }
    assert (Hxy : x = y).
    { assert (Hin_y : y ∈ x :: l1) by (rewrite Hp; left).
      assert (Hin_x : x ∈ y :: l2) by (rewrite <- Hp; left).
      apply elem_of_cons in Hin_y as [Heq|Hin_y]; [done|].
      apply elem_of_cons in Hin_x as [Heq|Hin_x]; [done|].
      rewrite Forall_forall in Hx, Hy.
      assert (Hk : key x = key y).
      { apply StrOrder.leb_antisym; [by apply Hx | by apply Hy]. }
      cbn in Hnd. apply NoDup_cons in Hnd as [Hnin _].
      exfalso. apply Hnin. rewrite Hk. by apply list_elem_of_fmap_2. }
    subst y. f_equal. apply IH; [exact Hl2 | by eapply Permutation_cons_inv|].
    cbn in Hnd. by apply NoDup_cons in Hnd as [_ ?].
Qed.

(** Sorting does not depend on the order of the input, when the keys are
    pairwise distinct. *)
Lemma sorted_by_perm_invariant l1 l2 :
  Permutation l1 l2 -> NoDup (map key l1) -> sorted_by leb l1 = sorted_by leb l2.
Proof.
  intros Hp Hnd. apply sorted_unique.
  - apply sorted_by_sorted.
  - apply sorted_by_sorted.
  - by rewrite !sorted_by_perm.
  - assert (Hp' : map key (sorted_by leb l1) ≡ₚ map key l1)
      by apply Permutation_map, sorted_by_perm.
    by rewrite Hp'.
Qed.

End SortedBy.

(** ** The capture lists *)

Section CaptureLists.
Context `{Runtime}.
Variable defCache : DefCache.

Lemma existsb_capture (c : string) (acc : list triple) :
  c ∉ map capture_of acc ->
  existsb (fun t' => String.eqb c t'.1.1) acc = false.
Proof.
  intros Hnin. apply not_true_is_false. intros Hex.
  apply existsb_exists in Hex as (t' & Hin & Heq). apply String.eqb_eq in Heq.
  apply Hnin. rewrite Heq. change (t'.1.1) with (capture_of t').
  apply list_elem_of_fmap_2. by apply list_elem_of_In.
Qed.

Lemma _convertFunArgs_step_Ok fuel acc ld t h :
  makes_triple defCache h ld t ->
  capture_of t ∉ map capture_of acc ->
  _convertFunArgs_step fuel defCache acc ld h = Ok (append acc t) h.
Proof.
  intros Ht Hnin. unfold _convertFunArgs_step.
  destruct ld as [a|]; [|done]. cbn [makes_triple] in Ht.
  destruct (h !! a) as [o|] eqn:Ha; [|done]. cbn in Ht.
  assert (Hf : (let* f := get_fields a in ret (Some f)) h = Ok (Some (fields o)) h)
    by by rewrite (bind_Ok _ _ _ _ _ (get_fields_Ok _ _ _ Ha)).
  rewrite (bind_Ok _ _ _ _ _ Hf).
  destruct (fields o).
  all: try (destruct Ht as (nm & rt & Hnm & Hsd & Hcn & Hrt & ->);
            rewrite (bind_Ok _ _ _ _ _ Hsd); cbv beta iota;
            destruct nm as [|c nm]; [done|];
            rewrite (bind_Ok _ _ _ _ _ Hcn); cbv beta; cbn [truthy];
            rewrite (bind_Ok _ _ _ tt h (eq_refl : ret tt h = Ok tt h));
            cbn [capture_of fst fmt_opt] in Hnin |- *;
            rewrite (existsb_capture _ _ Hnin); cbn [negb];
            by rewrite (bind_Ok _ _ _ _ _ Hrt)).
  - by subst t.
  - by subst t.
  - destruct i as [z|]; [|done]. by subst t.
Qed.

Lemma _convertFunArgs_loop fuel deps ts acc h :
  Forall2 (makes_triple defCache h) deps ts ->
  NoDup (map capture_of (acc ++ ts)%list) ->
  foldM (_convertFunArgs_step fuel defCache) acc deps h = Ok (acc ++ ts)%list h.
Proof.
  intros Hf. revert acc. induction Hf as [|ld t deps ts Ht Hf IH]; intros acc Hnd.
  - cbn. by rewrite app_nil_r.
  - cbn [foldM].
    assert (Hnin : capture_of t ∉ map capture_of acc).
    { rewrite map_app in Hnd. apply NoDup_app in Hnd as (_ & Hdisj & _).
      intros Hin. apply (Hdisj _ Hin). cbn. left. }
    rewrite (bind_Ok _ _ _ _ _ (_convertFunArgs_step_Ok fuel _ _ _ _ Ht Hnin)).
    unfold append. rewrite (IH (acc ++ [t])%list).
    + by rewrite <- app_assoc.
    + by rewrite <- app_assoc.
Qed.

(** C4, as the code has it. Take dependencies for which the loop goes
    through without a message: columns, indexed placeholders, and nodes
    that the cache defines under a column name that is not empty (its
    answers leaving the store as it is). When their declarations are
    pairwise distinct and their captures are pairwise distinct,
    [_convertFunArgs] returns, on an unchanged store, the captures, the
    declarations and the call arguments of their triples sorted by
    declaration, and it returns the same three lists for the dependencies
    taken in any other order. *)
Theorem _convertFunArgs_sorted_and_order_independent (fuel : nat)
    (deps1 deps2 : list (option addr)) (ts : list triple) (h : heap) :
  Forall2 (makes_triple defCache h) deps1 ts ->
  NoDup (map decl_of ts) ->
  NoDup (map capture_of ts) ->
  deps1 ≡ₚ deps2 ->
  exists sorted,
    StronglySorted decl_le sorted /\ sorted ≡ₚ ts /\
    _convertFunArgs fuel deps1 defCache h = Ok (zip_star sorted) h /\
    _convertFunArgs fuel deps2 defCache h = Ok (zip_star sorted) h.
Proof.
  intros Hf Hdecl Hcap Hp.
  exists (sorted_by (fun x y => PyStr.leb (decl_of x) (decl_of y)) ts).
  split; [apply (sorted_by_sorted decl_of)|].
  split; [apply (sorted_by_perm decl_of)|].
  split.
  - unfold _convertFunArgs.
    by rewrite (bind_Ok _ _ _ _ _ (_convertFunArgs_loop fuel _ _ [] _ Hf Hcap)).
  - assert (Hts2 : exists ts2, ts ≡ₚ ts2 /\
              Forall2 (makes_triple defCache h) deps2 ts2).
    { clear Hdecl Hcap. revert ts Hf.
      induction Hp as [|x l l' Hp IH|x y l|l l' l'' Hp1 IH1 Hp2 IH2]; intros ts Hf.
      - exists ts. split; [done|exact Hf].
      - apply Forall2_cons_inv_l in Hf as (t & ts' & Ht & Hf & ->).
        destruct (IH _ Hf) as (ts2 & Hp2 & Hf2).
        exists (t :: ts2). split; [by constructor | by constructor].
      - apply Forall2_cons_inv_l in Hf as (t1 & ts' & Ht1 & Hf & ->).
        apply Forall2_cons_inv_l in Hf as (t2 & ts'' & Ht2 & Hf & ->).
        exists (t2 :: t1 :: ts''). split; [apply perm_swap | by repeat constructor].
      - destruct (IH1 _ Hf) as (ts1 & Hq1 & Hf1).
        destruct (IH2 _ Hf1) as (ts2 & Hq2 & Hf2).
        exists ts2. split; [by etrans | exact Hf2]. }
    destruct Hts2 as (ts2 & Hpts & Hf2).
    assert (Hcap2 : NoDup (map capture_of ts2)).
    { assert (Hq : map capture_of ts ≡ₚ map capture_of ts2) by by apply Permutation_map.
      by rewrite <- Hq. }
    unfold _convertFunArgs.
    rewrite (bind_Ok _ _ _ _ _ (_convertFunArgs_loop fuel _ _ [] _ Hf2 Hcap2)).
    cbn [app]. unfold ret. do 2 f_equal. symmetry.
    by apply (sorted_by_perm_invariant decl_of).
Qed.

End CaptureLists.

Lemma _convertFunArgs_sorted_and_order_independent_witness :
  exists sorted,
    StronglySorted decl_le sorted /\
    sorted ≡ₚ [ ("&nJet", "const UInt_t& nJet", Some "nJet")
              ; ("&Jet_pt", "const ROOT::VecOps::RVec<Float_t>& Jet_pt", Some "Jet_pt")
              ; ("i0", "std::size_t i0", Some "i0") ] /\
    _convertFunArgs (H := example_runtime) 1 [Some 0%nat; Some 1%nat; Some 2%nat]
      cppNoRedir capture_heap = Ok (zip_star sorted) capture_heap /\
    _convertFunArgs (H := example_runtime) 1 [Some 2%nat; Some 0%nat; Some 1%nat]
      cppNoRedir capture_heap = Ok (zip_star sorted) capture_heap.
Proof.
  apply (_convertFunArgs_sorted_and_order_independent (H := example_runtime) cppNoRedir).
  - repeat constructor.
  - compute_done.
  - compute_done.
  - change ([Some 0%nat; Some 1%nat] ++ [Some 2%nat] ≡ₚ [Some 2%nat] ++ [Some 0%nat; Some 1%nat]).
    apply Permutation_app_comm.
Defined.

(** C4, as it is written, fails when two declarations are the same text:
    the columns [C] of type [A& B] and [B& C] of type [A] are both declared
    [const A& B& C], the sort keeps them in the order they came in, and the
    capture and call lists of the two orders differ. *)
Lemma _convertFunArgs_order_dependent :
  [Some 0%nat; Some 1%nat] ≡ₚ [Some 1%nat; Some 0%nat] /\
  _convertFunArgs (H := example_runtime) 1 [Some 0%nat; Some 1%nat] cppNoRedir clash_heap
    = Ok (Some (["&C"; "&B& C"], ["const A& B& C"; "const A& B& C"], [Some "C"; Some "B& C"]))
        clash_heap /\
  _convertFunArgs (H := example_runtime) 1 [Some 1%nat; Some 0%nat] cppNoRedir clash_heap
    = Ok (Some (["&B& C"; "&C"], ["const A& B& C"; "const A& B& C"], [Some "B& C"; Some "C"]))
        clash_heap /\
  _convertFunArgs (H := example_runtime) 1 [Some 0%nat; Some 1%nat] cppNoRedir clash_heap
    <> _convertFunArgs (H := example_runtime) 1 [Some 1%nat; Some 0%nat] cppNoRedir clash_heap.
Proof.
  split; [apply perm_swap|].
  split; [by vm_compute|]. split; [by vm_compute|].
  vm_compute. discriminate.
Qed.

(** ** The constraints of [Combine.fromRngFun] *)

Lemma keeps_ops_refl h : keeps_ops h h.
Proof. by intros a f. Qed.

Lemma keeps_ops_trans h1 h2 h3 : keeps_ops h1 h2 -> keeps_ops h2 h3 -> keeps_ops h1 h3.
Proof. intros H12 H23 a f Ha Hf. apply H23; [by apply H12 | done]. Qed.

Lemma keeps_ops_app h new : keeps_ops h (h ++ new).
Proof.
  intros a f Ha _. unfold node in *. destruct (h !! a) as [o|] eqn:Ho; [|done].
  by rewrite (lookup_app_l_Some _ _ _ _ Ho).
Qed.

Lemma same_fields_keeps_ops h h' : same_fields h h' -> keeps_ops h h'.
Proof. intros Hs a f Ha _. unfold node. by rewrite Hs. Qed.

Lemma node_app_new h o new : node (h ++ o :: new) (length h) = Some (fields o).
Proof. unfold node. by rewrite list_lookup_middle. Qed.

Lemma cache_only_run {A} (m : M A) h v h' :
  cache_only m -> m h = Ok v h' -> keeps_ops h h'.
Proof. intros Hm Hr. specialize (Hm h). rewrite Hr in Hm. by apply same_fields_keeps_ops. Qed.

Lemma cache_only_concatM {A B} (f : A -> M (list B)) (l : list A) :
  (forall a, cache_only (f a)) -> cache_only (concatM f l).
Proof.
  intros Hf. induction l as [|x l IH]; cbn [concatM]; cache_only_tac.
Qed.

Lemma cache_only_filterM {A} (f : A -> M bool) (l : list A) :
  (forall a, cache_only (f a)) -> cache_only (filterM f l).
Proof.
  intros Hf. induction l as [|x l IH]; cbn [filterM]; cache_only_tac.
Qed.

Lemma cache_only_proxy_op p : cache_only (proxy_op p).
Proof. unfold proxy_op. cache_only_tac. Qed.

Lemma cache_only_is_placeholder o : cache_only (is_placeholder o).
Proof. unfold is_placeholder. cache_only_tac. Qed.

Section Scan.
Context `{Runtime}.
Hypothesis proxy_deps_cache_only :
  forall r select includeLocal,
    (forall o, cache_only (select o)) -> cache_only (proxy_deps r select includeLocal).

Lemma cache_only_deps select fuel self :
  (forall o, cache_only (select o)) -> cache_only (deps cppNoRedir select true fuel self).
Proof.
  intros Hsel. revert self. induction fuel as [|fuel IH]; intros self; cbn [deps].
  - apply cache_only_out_of_fuel.
  - pose proof cache_only_proxy_op.
    unfold unless_defined, deps_of_arg, deps_of_arg_local, deps_of_arg_bare.
    cbn [dc_getColName cppNoRedir].
    repeat first
      [ apply cache_only_concatM; intros ?
      | apply cache_only_filterM; intros ?
      | apply proxy_deps_cache_only
      | progress cache_only_tac ].
Qed.

Lemma cache_only_max_placeholder_index fuel expr :
  cache_only (max_placeholder_index fuel expr).
Proof.
  unfold max_placeholder_index, collectNodes, attr_i.
  pose proof cache_only_is_placeholder. pose proof (cache_only_deps is_placeholder).
  cache_only_tac.
Qed.

End Scan.

(** *** Creation of the placeholders and of the comparisons *)

Lemma mapM_new_object {A} (g : A -> TupleOp) (l : list A) h :
  mapM (fun i => new_object (g i)) l h
  = Ok (seq (length h) (length l))
       (h ++ map (fun i => mkObject (g i) (Some empty_cache)) l)%list.
Proof.
  revert h. induction l as [|x l IH]; intros h; cbn [mapM map length seq].
  - unfold ret. by rewrite app_nil_r.
  - unfold bind at 1. unfold new_object at 1. unfold bind at 1. rewrite IH.
    unfold ret. rewrite length_app, Nat.add_1_r. cbn [length].
    by rewrite <- app_assoc.
Qed.

Lemma mapM_adaptArg_proxies t ty (l : list addr) h :
  mapM (fun a => adaptArg a ty) (map (fun a => ArgProxy (mkProxy t (Some a))) l) h = Ok l h.
Proof.
  induction l as [|x l IH]; cbn [mapM map]; [done|].
  unfold bind at 1. cbn. unfold bind at 1. by rewrite IH.
Qed.

Section Combine.
Context `{Runtime}.

Lemma MathOp_init_proxies op t outType (l : list addr) h :
  MathOp_init op (map (fun a => ArgProxy (mkProxy t (Some a))) l) outType h
  = Ok (length h) (h ++ [mkObject (MathOp outType op l) (Some empty_cache)])%list.
Proof.
  unfold MathOp_init. by rewrite (bind_Ok _ _ _ _ _ (mapM_adaptArg_proxies _ _ _ _)).
Qed.

Lemma default_sameIdxPred_Ok t ia ib h :
  default_sameIdxPred (result_of_placeholder t ia) (result_of_placeholder t ib) h
  = Ok (ArgProxy (mkProxy "bool" (Some (length h))))
       (h ++ [mkObject (MathOp "bool" "lt" [ia; ib]) (Some empty_cache)])%list.
Proof.
  unfold default_sameIdxPred, result_of_placeholder.
  by rewrite (bind_Ok _ _ _ _ _ (MathOp_init_proxies "lt" t "bool" [ia; ib] h)).
Qed.

Lemma mapM_default_sameIdxPred {A} (fa fb : A -> addr) t (pairs : list A) h :
  mapM (fun p => default_sameIdxPred (result_of_placeholder t (fa p))
                   (result_of_placeholder t (fb p))) pairs h
  = Ok (map (fun a => ArgProxy (mkProxy "bool" (Some a))) (seq (length h) (length pairs)))
       (h ++ map (fun p => mkObject (MathOp "bool" "lt" [fa p; fb p]) (Some empty_cache))
               pairs)%list.
Proof.
  revert h. induction pairs as [|p pairs IH]; intros h; cbn [mapM map length seq].
  - unfold ret. by rewrite app_nil_r.
  - rewrite (bind_Ok _ _ _ _ _ (default_sameIdxPred_Ok _ _ _ _)).
    rewrite (bind_Ok _ _ _ _ _ (IH _)).
    unfold ret. rewrite length_app, Nat.add_1_r. cbn [length].
    by rewrite <- app_assoc.
Qed.

Lemma op_AND_proxies (l : list addr) h :
  op_AND (map (fun a => ArgProxy (mkProxy "bool" (Some a))) l) h
  = Ok (mkProxy "bool" (Some (length h)))
       (h ++ [mkObject (MathOp "bool" "and" l) (Some empty_cache)])%list.
Proof.
  unfold op_AND. by rewrite (bind_Ok _ _ _ _ _ (MathOp_init_proxies "and" "bool" "bool" l h)).
Qed.

(** *** Assignments to the placeholders *)

Lemma keeps_ops_set_fields a f f0 h h' :
  node h a = Some f0 -> placeholder_fields f0 = true ->
  set_fields a f h = Ok tt h' -> keeps_ops h h'.
Proof.
  intros Ha Hp Hs. unfold set_fields in Hs.
  destruct (h !! a) as [o|] eqn:Ho; [|done]. injection Hs as <-.
  intros b g Hb Hg. unfold node in *.
  destruct (decide (b = a)) as [->|Hne].
  - rewrite Ho in Ha, Hb. cbn in Ha, Hb. congruence.
  - by rewrite list_lookup_insert_ne.
Qed.

Lemma keeps_ops_set_attr_i idx v h u h' :
  set_attr_i idx v h = Ok u h' -> keeps_ops h h'.
Proof.
  unfold set_attr_i. intros Hr.
  apply bind_inv_Ok in Hr as (f & h1 & Hf & Hr).
  apply get_fields_inv in Hf as (-> & o & Ho & <-).
  destruct (fields o) eqn:Hfo; try done. destruct u.
  eapply keeps_ops_set_fields; [| |exact Hr]; [unfold node; by rewrite Ho; cbn; rewrite Hfo|done].
Qed.

Lemma keeps_ops_set_attr_parent idx res h u h' :
  set_attr_parent idx res h = Ok u h' -> keeps_ops h h'.
Proof.
  unfold set_attr_parent. intros Hr.
  apply bind_inv_Ok in Hr as (f & h1 & Hf & Hr).
  apply get_fields_inv in Hf as (-> & o & Ho & <-).
  destruct (fields o) eqn:Hfo; try done. destruct u.
  eapply keeps_ops_set_fields; [| |exact Hr]; [unfold node; by rewrite Ho; cbn; rewrite Hfo|done].
Qed.

Lemma keeps_ops_mapM {A B} (f : A -> M B) (l : list A) h ys h' :
  (forall x h y h', f x h = Ok y h' -> keeps_ops h h') ->
  mapM f l h = Ok ys h' -> keeps_ops h h'.
Proof.
  intros Hf. revert h ys. induction l as [|x l IH]; intros h ys Hr; cbn [mapM] in Hr.
  - injection Hr as _ <-. apply keeps_ops_refl.
  - apply bind_inv_Ok in Hr as (y & h1 & Hy & Hr).
    apply bind_inv_Ok in Hr as (ys' & h2 & Hys & Hr). injection Hr as _ <-.
    eapply keeps_ops_trans; [by eapply Hf | by eapply IH].
Qed.

Lemma keeps_ops_adaptArg arg ty h a h' : adaptArg arg ty h = Ok a h' -> keeps_ops h h'.
Proof.
  destruct arg as [p|b|v]; cbn [adaptArg].
  - unfold proxy_op. destruct (_parent p); [|done]. intros [= _ <-]. apply keeps_ops_refl.
  - intros [= _ <-]. apply keeps_ops_refl.
  - destruct ty as [t|]; [|done]. destruct v; intros [= _ <-]; apply keeps_ops_app.
Qed.

End Combine.

Lemma nodes_of_new {A} (g : A -> PyObject) (l : list A) h :
  Forall2 (fun a p => node (h ++ map g l) a = Some (fields (g p))) (seq (length h) (length l)) l.
Proof.
  revert h. induction l as [|p l IH]; intros h; cbn [map length seq]; constructor.
  - apply node_app_new.
  - specialize (IH (h ++ [g p])%list).
    rewrite length_app, Nat.add_1_r, <- app_assoc in IH. exact IH.
Qed.

(** *** Assignments to the placeholders, run to their end *)

Lemma placeholder_at_insert h a b o :
  placeholder_at h a -> placeholder_fields (fields o) = true ->
  placeholder_at (<[b := o]> h) a.
Proof.
  intros (th & par & i & Ha) Ho. unfold placeholder_at, node in *.
  destruct (decide (a = b)) as [->|Hne].
  - destruct (h !! b) as [ob|] eqn:Hb; [|done].
    rewrite list_lookup_insert_eq by (by eapply lookup_lt_Some).
    destruct (fields o) eqn:Hf; try done. cbn. rewrite Hf. by eexists _, _, _.
  - rewrite list_lookup_insert_ne by done. by eexists _, _, _.
Qed.

Lemma set_attr_i_Ok idx v h :
  placeholder_at h idx -> exists h', set_attr_i idx v h = Ok tt h' /\ sets_placeholder h h'.
Proof.
  intros (th & par & i & Hn). unfold node in Hn.
  destruct (h !! idx) as [o|] eqn:Ho; [|done]. cbn in Hn. injection Hn as Hf.
  assert (Hr : set_attr_i idx v h
               = Ok tt (<[idx := mkObject (LocalVariablePlaceholder th par (Some v)) (_cache o)]> h)).
  { unfold set_attr_i. rewrite (bind_Ok _ _ _ _ _ (get_fields_Ok _ _ _ Ho)). rewrite Hf.
    unfold set_fields. by rewrite Ho. }
  eexists. split; [exact Hr|]. split; [by rewrite length_insert|]. split.
  - by eapply keeps_ops_set_attr_i.
  - intros a Ha. by apply placeholder_at_insert.
Qed.

Lemma set_attr_parent_Ok idx res h :
  placeholder_at h idx -> exists h', set_attr_parent idx res h = Ok tt h' /\ sets_placeholder h h'.
Proof.
  intros (th & par & i & Hn). unfold node in Hn.
  destruct (h !! idx) as [o|] eqn:Ho; [|done]. cbn in Hn. injection Hn as Hf.
  assert (Hr : set_attr_parent idx res h
               = Ok tt (<[idx := mkObject (LocalVariablePlaceholder th (Some res) i) (_cache o)]> h)).
  { unfold set_attr_parent. rewrite (bind_Ok _ _ _ _ _ (get_fields_Ok _ _ _ Ho)). rewrite Hf.
    unfold set_fields. by rewrite Ho. }
  eexists. split; [exact Hr|]. split; [by rewrite length_insert|]. split.
  - by eapply keeps_ops_set_attr_parent.
  - intros a Ha. by apply placeholder_at_insert.
Qed.

Lemma mapM_setter_Ok {A} (f : A -> M unit) (tgt : A -> addr) (l : list A) h :
  (forall x h0, placeholder_at h0 (tgt x) ->
                exists h1, f x h0 = Ok tt h1 /\ sets_placeholder h0 h1) ->
  Forall (fun x => placeholder_at h (tgt x)) l ->
  exists us h', mapM f l h = Ok us h' /\ sets_placeholder h h'.
Proof.
  intros Hf. revert h. induction l as [|x l IH]; intros h Hl; cbn [mapM].
  - exists [], h. split; [done|]. split; [done|]. split; [apply keeps_ops_refl | done].
  - apply Forall_cons in Hl as [Hx Hl].
    destruct (Hf x h Hx) as (h1 & Hr & Hlen & Hk & Hp).
    destruct (IH h1) as (us & h' & Hrs & Hlen' & Hk' & Hp').
    { eapply Forall_impl; [exact Hl|]. intros y Hy. by apply Hp. }
    exists (tt :: us), h'. rewrite (bind_Ok _ _ _ _ _ Hr), (bind_Ok _ _ _ _ _ Hrs).
    split; [done|]. split; [congruence|]. split; [by eapply keeps_ops_trans|].
    intros a Ha. by apply Hp', Hp.
Qed.

Lemma mapM_length {A B} (f : A -> M B) (l : list A) h ys h' :
  mapM f l h = Ok ys h' -> length ys = length l.
Proof.
  revert h ys h'. induction l as [|x l IH]; intros h ys h' Hr; cbn [mapM] in Hr.
  - by injection Hr as <- _.
  - apply bind_inv_Ok in Hr as (y & h1 & _ & Hr).
    apply bind_inv_Ok in Hr as (ys' & h2 & Hys & Hr). injection Hr as <- _.
    cbn. f_equal. by eapply IH.
Qed.

Lemma Forall_imap_snd {A} (P : A -> Prop) (l : list A) :
  Forall P l -> Forall (fun p : nat * A => P p.2) (imap (fun i x => (i, x)) l).
Proof.
  intros Hl. apply Forall_forall. intros [i x] Hin.
  apply elem_of_lookup_imap in Hin as (j & y & [= -> ->] & Hy).
  rewrite Forall_forall in Hl. apply Hl. by eapply list_elem_of_lookup_2.
Qed.

(** *** The pairs of a combination *)

Lemma elem_of_combinations2 {A} (l : list A) x y :
  (x, y) ∈ combinations2 l <->
  exists k m, (k < m)%nat /\ l !! k = Some x /\ l !! m = Some y.
Proof.
  induction l as [|x0 l IH]; cbn [combinations2].
  - split; [by intros ?%elem_of_nil | by intros (k & m & _ & ? & _)].
  - rewrite elem_of_app, IH. split.
    + intros [Hin|(k & m & Hkm & Hk & Hm)].
      * apply list_elem_of_fmap in Hin as (y' & [= -> ->] & Hy').
        apply list_elem_of_lookup in Hy' as (j & Hj).
        exists 0%nat, (S j). split; [lia|done].
      * exists (S k), (S m). split; [lia|done].
    + intros (k & m & Hkm & Hk & Hm). destruct m as [|m]; [lia|]. cbn in Hm.
      destruct k as [|k]; cbn in Hk.
      * injection Hk as ->. left. apply list_elem_of_fmap. exists y. split; [done|].
        by eapply list_elem_of_lookup_2.
      * right. exists k, m. split; [lia|done].
Qed.

Lemma lookup_zip {A B} (a : list A) (b : list B) k x y :
  zip a b !! k = Some (x, y) <-> a !! k = Some x /\ b !! k = Some y.
Proof.
  revert b k. induction a as [|x0 a IH]; intros [|y0 b] k; cbn [zip];
    try (split; [done | by intros [? ?]]).
  destruct k as [|k]; cbn.
  - split; [by intros [= -> ->] | by intros [[= ->] [= ->]]].
  - apply IH.
Qed.

Lemma same_base_eq ra rb : same_base ra rb = true <-> _base ra = _base rb.
Proof. unfold same_base. apply Nat.eqb_eq. Qed.

Lemma Forall2_elem_of_l {A B} (P : A -> B -> Prop) l1 l2 x :
  Forall2 P l1 l2 -> x ∈ l1 -> exists y, y ∈ l2 /\ P x y.
Proof.
  intros Hf Hx. apply list_elem_of_lookup in Hx as (i & Hi).
  destruct (Forall2_lookup_l _ _ _ _ _ Hf Hi) as (y & Hy & HP).
  exists y. split; [by eapply list_elem_of_lookup_2 | done].
Qed.

Lemma Forall2_elem_of_r {A B} (P : A -> B -> Prop) l1 l2 y :
  Forall2 P l1 l2 -> y ∈ l2 -> exists x, x ∈ l1 /\ P x y.
Proof.
  intros Hf Hy. apply list_elem_of_lookup in Hy as (i & Hi).
  destruct (Forall2_lookup_r _ _ _ _ _ Hf Hi) as (x & Hx & HP).
  exists x. split; [by eapply list_elem_of_lookup_2 | done].
Qed.

(** The pairs that [Combine.fromRngFun] keeps are those of two positions
    [k < m] whose ranges have the same underlying collection. *)
Lemma same_base_pairs (idx : list addr) (rs : list RangeProxy) ia ra ib rb :
  (ia, ra, (ib, rb)) ∈ filter (fun p => same_base p.1.2 p.2.2) (combinations2 (zip idx rs)) <->
  exists k m, (k < m)%nat /\ idx !! k = Some ia /\ idx !! m = Some ib /\
              rs !! k = Some ra /\ rs !! m = Some rb /\ _base ra = _base rb.
Proof.
  rewrite list_elem_of_filter, elem_of_combinations2. cbn [fst snd].
  rewrite Is_true_true, same_base_eq. setoid_rewrite lookup_zip. split.
  - intros (Hb & k & m & Hkm & [Hk Hrk] & [Hm Hrm]). by exists k, m.
  - intros (k & m & Hkm & Hk & Hm & Hrk & Hrm & Hb). split; [done|]. by exists k, m.
Qed.

Section CombineConstraints.
Context `{Runtime}.
Hypothesis proxy_deps_cache_only :
  forall r select includeLocal,
    (forall o, cache_only (select o)) -> cache_only (proxy_deps r select includeLocal).

(** C5. [Combine.fromRngFun] on the store [h], for ranges that are not
    empty, any [sameIdxPred] and any [candPredFun]. It makes one
    placeholder per range and calls [sameIdxPred] on the pairs of
    placeholders at positions [k < m] whose ranges have the same
    collection, and on no other. Suppose these calls return [diffs],
    which adapt to the nodes [dargs]; that [candPredFun], called next on
    the placeholders, returns [candPred] and leaves the operations made so
    far as they are; that [candPred] adapts to the node [cp]; and that the
    scan for the greatest index returns, the placeholders being
    placeholders still. Then [Combine.fromRngFun] returns a [Combine] over
    the placeholders, whose predicate [e] is [cp] itself when there is no
    such pair, and else the conjunction of the conjunction of [dargs]
    with [cp]. For the default [sameIdxPred], [dargs] are the comparisons
    [ia < ib], one for each such pair and none else, so that an
    assignment of indices for which [e] holds is strictly increasing on
    each such pair. *)
Theorem Combine_fromRngFun_orders_same_collection (fuel num : nat)
    (ranges : list RangeProxy) (candPredFun : list addr -> M pyarg)
    (sameIdxPred : pyarg -> pyarg -> M pyarg) (h : heap)
    (diffs : list pyarg) (h2 : heap) (dargs : list addr) (h3 : heap)
    (candPred : pyarg) (h4 : heap) (cp : addr) (h5 : heap) (m : Z) (h7 : heap) :
  let rs := combined_ranges num ranges in
  let idx := seq (length h) num in
  let pairs := compared_pairs idx rs in
  let areDiff := length h3 in
  let conj := mkObject (MathOp "bool" "and" dargs) (Some empty_cache) in
  let e := match dargs with [] => cp | _ => length h5 end in
  let h6 := match dargs with
            | [] => h5
            | _ => (h5 ++ [mkObject (MathOp "bool" "and" [areDiff; cp]) (Some empty_cache)])%list
            end in
  ranges <> [] ->
  mapM (fun p => sameIdxPred (result_of_placeholder SizeType p.1.1)
                             (result_of_placeholder SizeType p.2.1))
    pairs (placeholders_made h num) = Ok diffs h2 ->
  mapM (fun d => adaptArg d (Some "Double_t")) diffs h2 = Ok dargs h3 ->
  candPredFun (map fst (zip idx rs)) (h3 ++ [conj])%list = Ok candPred h4 ->
  keeps_ops (h3 ++ [conj])%list h4 ->
  adaptArg candPred (match dargs with [] => None | _ => Some "Double_t" end) h4 = Ok cp h5 ->
  max_placeholder_index fuel e h6 = Ok m h7 ->
  Forall (placeholder_at h7) idx ->
  exists h',
    Combine_fromRngFun fuel num ranges candPredFun sameIdxPred h = Ok (length h7) h' /\
    node h' (length h7) = Some (Combine rs e idx) /\
    length dargs = length pairs /\
    (forall ia ib, same_collection idx rs ia ib <->
                   exists ra rb, (ia, ra, (ib, rb)) ∈ pairs) /\
    match dargs with
    | [] => e = cp
    | _ => node h' e = Some (MathOp "bool" "and" [areDiff; cp]) /\
           node h' areDiff = Some (MathOp "bool" "and" dargs)
    end /\
    ((forall ia ib, ~ same_collection idx rs ia ib) -> e = cp) /\
    (sameIdxPred = default_sameIdxPred ->
     (forall lt, lt ∈ dargs ->
        exists ia ib, same_collection idx rs ia ib /\
                      node h' lt = Some (MathOp "bool" "lt" [ia; ib])) /\
     (forall ia ib, same_collection idx rs ia ib ->
        exists lt, lt ∈ dargs /\ node h' lt = Some (MathOp "bool" "lt" [ia; ib])) /\
     (forall user env fuel' ia ib,
        same_collection idx rs ia ib -> holds user env h' fuel' e = true ->
        env ia < env ib)).
Proof.
  intros rs idx pairs areDiff conj e h6 Hne Hdiffs Hdargs Hcand Hkeep Hcp Hscan Hph.
  assert (Hand4 : node h4 areDiff = Some (MathOp "bool" "and" dargs)).
  { apply Hkeep; [apply node_app_new | done]. }
  destruct (mapM_setter_Ok (fun p : nat * addr => set_attr_i p.2 (m + 1 + Z.of_nat p.1)) snd
              (imap (fun i ilvp => (i, ilvp)) idx) h7)
    as (u1 & h8 & Hset & Hlen8 & H78 & Hph8).
  { intros x h0. apply set_attr_i_Ok. }
  { by apply Forall_imap_snd. }
  set (h9 := (h8 ++ [mkObject (Combine rs e idx) (Some empty_cache)])%list).
  destruct (mapM_setter_Ok (fun ilvp => set_attr_parent ilvp (length h8)) id idx h9)
    as (u2 & h' & Hsetp & Hlen' & H9' & _).
  { intros x h0. apply set_attr_parent_Ok. }
  { eapply Forall_impl; [exact Hph|]. intros a Ha. apply Hph8 in Ha.
    destruct Ha as (th & par & i & Ha). exists th, par, i. unfold node in *.
    destruct (h8 !! a) as [o|] eqn:Ho; [|done]. subst h9.
    by rewrite (lookup_app_l_Some _ _ _ _ Ho). }
  assert (He : (match dargs with
                | _ :: _ =>
                    let* both := op_AND [ArgProxy (mkProxy "bool" (Some areDiff)); candPred] in
                    adaptArg (ArgProxy both) None
                | [] => adaptArg candPred None
                end) h4 = Ok e h6).
  { subst e h6. destruct dargs as [|d dargs']; [exact Hcp|].
    unfold op_AND, MathOp_init. cbn [mapM adaptArg proxy_op _parent].
    unfold bind, ret. by rewrite Hcp. }
  assert (H46 : keeps_ops h4 h6).
  { eapply keeps_ops_trans; [by eapply keeps_ops_adaptArg|]. subst h6.
    destruct dargs; [apply keeps_ops_refl | apply keeps_ops_app]. }
  assert (H6' : keeps_ops h6 h').
  { eapply keeps_ops_trans;
      [eapply cache_only_run; [by apply cache_only_max_placeholder_index | exact Hscan]|].
    eapply keeps_ops_trans; [exact H78|].
    eapply keeps_ops_trans; [apply keeps_ops_app | exact H9']. }
  assert (H3' : keeps_ops (h3 ++ [conj])%list h').
  { eapply keeps_ops_trans; [exact Hkeep|]. by eapply keeps_ops_trans. }
  assert (Hlen : length dargs = length pairs).
  { rewrite (mapM_length _ _ _ _ _ Hdargs). by rewrite (mapM_length _ _ _ _ _ Hdiffs). }
  assert (Hpairs : forall ia ib, same_collection idx rs ia ib <->
                                 exists ra rb, (ia, ra, (ib, rb)) ∈ pairs).
  { intros ia ib. subst pairs. unfold compared_pairs. setoid_rewrite same_base_pairs.
    unfold same_collection. split.
    - intros (k & k' & ra & rb & ?). by exists ra, rb, k, k'.
    - intros (ra & rb & k & k' & ?). by exists k, k', ra, rb. }
  assert (Hshape : match dargs with
                   | [] => e = cp
                   | _ => node h' e = Some (MathOp "bool" "and" [areDiff; cp]) /\
                          node h' areDiff = Some (MathOp "bool" "and" dargs)
                   end).
  { subst e h6. destruct dargs as [|d dargs']; [done|]. split.
    - apply H6'; [apply node_app_new | done].
    - apply H6'; [|done]. by apply H46. }
  exists h'. split; [|split; [|split; [|split; [|split; [|split]]]]].
  - unfold Combine_fromRngFun.
    assert (Hrs : match ranges with
                  | _ :: _ :: _ => ret ranges
                  | [r] => ret (replicate num r)
                  | [] => raise (IndexError "list index out of range")
                  end h = Ok rs h).
    { subst rs. by destruct ranges as [|r [|r' rest]]. }
    rewrite (bind_Ok _ _ _ _ _ Hrs).
    rewrite (bind_Ok _ _ _ _ _ (mapM_new_object _ _ _)).
    rewrite length_seq. fold idx.
    change (h ++ map _ (seq 0 num))%list with (placeholders_made h num).
    change (filter _ (combinations2 (zip idx rs))) with pairs.
    rewrite (bind_Ok _ _ _ _ _ Hdiffs).
    assert (Hop : op_AND diffs h2 = Ok (mkProxy "bool" (Some areDiff)) (h3 ++ [conj])%list).
    { unfold op_AND, MathOp_init, bind, ret. by rewrite Hdargs. }
    rewrite (bind_Ok _ _ _ _ _ Hop), (bind_Ok _ _ _ _ _ Hcand).
    rewrite (bind_Ok _ _ _ areDiff h4 eq_refl).
    unfold node in Hand4. destruct (h4 !! areDiff) as [o|] eqn:Ho; [|done].
    cbn in Hand4. injection Hand4 as Hfo.
    rewrite (bind_Ok _ _ _ _ _ (get_fields_Ok _ _ _ Ho)), Hfo. cbn [attr_args].
    rewrite (bind_Ok _ _ _ dargs h4 eq_refl).
    rewrite (bind_Ok _ _ _ _ _ He), (bind_Ok _ _ _ _ _ Hscan), (bind_Ok _ _ _ _ _ Hset).
    assert (Hnew : new_object (Combine rs e idx) h8 = Ok (length h8) h9) by done.
    rewrite (bind_Ok _ _ _ _ _ Hnew), (bind_Ok _ _ _ _ _ Hsetp). unfold ret. by rewrite Hlen8.
  - rewrite <- Hlen8. apply H9'; [apply node_app_new | done].
  - exact Hlen.
  - exact Hpairs.
  - exact Hshape.
  - intros Hnone. destruct dargs as [|d dargs']; [done|].
    destruct pairs as [|[[ia ra] [ib rb]] pairs'] eqn:Hp; [done|].
    destruct (Hnone ia ib). apply Hpairs. exists ra, rb. left.
  - intros ->.
    rewrite mapM_default_sameIdxPred in Hdiffs. injection Hdiffs as <- <-.
    rewrite mapM_adaptArg_proxies in Hdargs. injection Hdargs as <- <-.
    set (h1 := placeholders_made h num) in *.
    set (lts := seq (length h1) (length pairs)) in *.
    assert (Hlts : Forall2 (fun lt p => node h' lt = Some (MathOp "bool" "lt" [p.1.1; p.2.1]))
                     lts pairs).
    { eapply Forall2_impl;
        [apply (nodes_of_new (fun p => mkObject (MathOp "bool" "lt" [p.1.1; p.2.1])
                                         (Some empty_cache)) pairs h1)|].
      intros lt p Hlt. cbv beta in *. apply H3'; [|done]. by apply keeps_ops_app. }
    assert (Hin : forall lt, lt ∈ lts ->
              exists ia ib, same_collection idx rs ia ib /\
                            node h' lt = Some (MathOp "bool" "lt" [ia; ib])).
    { intros lt Hlt.
      destruct (Forall2_elem_of_l _ _ _ _ Hlts Hlt) as ([[ia ra] [ib rb]] & Hp & Hnode).
      exists ia, ib. split; [apply Hpairs; by exists ra, rb | exact Hnode]. }
    assert (Hout : forall ia ib, same_collection idx rs ia ib ->
              exists lt, lt ∈ lts /\ node h' lt = Some (MathOp "bool" "lt" [ia; ib])).
    { intros ia ib Hs. apply Hpairs in Hs as (ra & rb & Hp).
      destruct (Forall2_elem_of_r _ _ _ _ Hlts Hp) as (lt & Hlt & Hnode). by exists lt. }
    split; [exact Hin|]. split; [exact Hout|].
    intros user env fuel' ia ib Hs Hholds.
    destruct (Hout _ _ Hs) as (lt & Hlt & Hnode).
    destruct lts as [|lt0 lts']; [by apply elem_of_nil in Hlt|].
    destruct Hshape as (He' & Hd).
    destruct fuel' as [|f1]; [done|]. cbn [holds] in Hholds. rewrite He' in Hholds.
    cbn [String.eqb Ascii.eqb Bool.eqb forallb] in Hholds.
    apply andb_prop in Hholds as [Hholds _].
    destruct f1 as [|f2]; [done|]. cbn [holds] in Hholds. rewrite Hd in Hholds.
    cbn [String.eqb Ascii.eqb Bool.eqb] in Hholds.
    rewrite forallb_forall in Hholds.
    specialize (Hholds lt ltac:(by apply list_elem_of_In)).
    destruct f2 as [|f3]; [done|]. cbn [holds] in Hholds. rewrite Hnode in Hholds.
    cbn [String.eqb Ascii.eqb Bool.eqb] in Hholds. by apply Z.ltb_lt.
Qed.

End CombineConstraints.

Lemma keeps_ops_new_object f h a h' : new_object f h = Ok a h' -> keeps_ops h h'.
Proof. intros [= _ <-]. apply keeps_ops_app. Qed.

Lemma keeps_ops_MathOp_init op args outType h a h' :
  MathOp_init op args outType h = Ok a h' -> keeps_ops h h'.
Proof.
  unfold MathOp_init. intros Hr. apply bind_inv_Ok in Hr as (args' & h1 & Hargs & Hr).
  eapply keeps_ops_trans; [|by eapply keeps_ops_new_object].
  eapply keeps_ops_mapM; [|exact Hargs]. intros ? ? ? ?. apply keeps_ops_adaptArg.
Qed.

Lemma keeps_ops_GetItem_init arg valueType index indexType h a h' :
  GetItem_init arg valueType index indexType h = Ok a h' -> keeps_ops h h'.
Proof.
  unfold GetItem_init. intros Hr.
  apply bind_inv_Ok in Hr as (arg' & h1 & Harg & Hr).
  apply bind_inv_Ok in Hr as (index' & h2 & Hindex & Hr).
  eapply keeps_ops_trans; [by eapply keeps_ops_adaptArg|].
  eapply keeps_ops_trans; [by eapply keeps_ops_adaptArg | by eapply keeps_ops_new_object].
Qed.

Lemma leading_pt_above_30_keeps_ops ix h p h' :
  leading_pt_above_30 ix h = Ok p h' -> keeps_ops h h'.
Proof.
  destruct ix as [|a [|b [|c ix]]]; try done. cbn [leading_pt_above_30].
  unfold jet_pt_above_30. intros Hr.
  apply bind_inv_Ok in Hr as (pt & h1 & Hpt & Hr).
  apply bind_inv_Ok in Hr as (c & h2 & Hc & Hr). injection Hr as _ <-.
  eapply keeps_ops_trans; [by eapply keeps_ops_GetItem_init | by eapply keeps_ops_MathOp_init].
Qed.

Lemma first_pt_above_30_keeps_ops ix h p h' :
  first_pt_above_30 ix h = Ok p h' -> keeps_ops h h'.
Proof.
  destruct ix as [|a [|b [|c [|d ix]]]]; try done. cbn [first_pt_above_30].
  unfold jet_pt_above_30. intros Hr.
  apply bind_inv_Ok in Hr as (pt & h1 & Hpt & Hr).
  apply bind_inv_Ok in Hr as (g & h2 & Hg & Hr). injection Hr as _ <-.
  eapply keeps_ops_trans; [by eapply keeps_ops_GetItem_init | by eapply keeps_ops_MathOp_init].
Qed.

(** [run_as t a h]: the value and the store that the run [t] returns. *)
Ltac run_as t a h :=
  let v := eval vm_compute in t in
  lazymatch v with
  | Ok ?x ?y => pose (a := x); pose (h := y)
  end.

Lemma Combine_fromRngFun_orders_same_collection_witness :
  (exists res h' e,
     combine_jets_muons_jets (H := example_runtime) columns_heap = Ok res h' /\
     node h' res = Some (Combine [jets; muons; jets] e [4%nat; 5%nat; 6%nat]) /\
     (forall user env fuel', holds user env h' fuel' e = true -> env 4%nat < env 6%nat)) /\
  (exists res h' e areDiff cp d,
     combine_jets_unequal (H := example_runtime) columns_heap = Ok res h' /\
     node h' res = Some (Combine [jets; jets] e [4%nat; 5%nat]) /\
     node h' e = Some (MathOp "bool" "and" [areDiff; cp]) /\
     node h' areDiff = Some (MathOp "bool" "and" [d])).
Proof.
  split.
  - set (rs := [jets; muons; jets]). set (idx := [4%nat; 5%nat; 6%nat]).
    run_as (mapM (fun p : (addr * RangeProxy) * (addr * RangeProxy) =>
                    default_sameIdxPred
                      (result_of_placeholder SizeType p.1.1)
                      (result_of_placeholder SizeType p.2.1))
              (compared_pairs idx rs) (placeholders_made columns_heap 3)) diffs h2.
    run_as (mapM (fun d => adaptArg d (Some "Double_t")) diffs h2) dargs h3.
    run_as (first_pt_above_30 idx
              (h3 ++ [mkObject (MathOp "bool" "and" dargs) (Some empty_cache)])%list)
      candPred h4.
    run_as (adaptArg candPred (Some "Double_t") h4) cp h5.
    run_as (max_placeholder_index (H := example_runtime) 10 (length h5)
              (h5 ++ [mkObject (MathOp "bool" "and" [length h3; cp]) (Some empty_cache)])%list)
      m h7.
    destruct (Combine_fromRngFun_orders_same_collection (H := example_runtime)
                (fun _ _ _ _ => cache_only_ret []) 10 3 rs first_pt_above_30
                default_sameIdxPred columns_heap diffs h2 dargs h3 candPred h4 cp h5 m h7)
      as (h' & Hrun & Hres & _ & _ & _ & _ & Hdefault).
    + discriminate.
    + vm_compute. reflexivity.
    + vm_compute. reflexivity.
    + vm_compute. reflexivity.
    + apply (first_pt_above_30_keeps_ops idx _ candPred). vm_compute. reflexivity.
    + vm_compute. reflexivity.
    + vm_compute. reflexivity.
    + repeat constructor; eexists _, _, _; vm_compute; reflexivity.
    + destruct (Hdefault eq_refl) as (_ & _ & Hord).
      exists (length h7), h', (length h5). split; [exact Hrun|]. split; [exact Hres|].
      intros user env fuel'. apply Hord. exists 0%nat, 2%nat, jets, jets.
      repeat split; lia.
  - set (rs := [jets; jets]). set (idx := [4%nat; 5%nat]).
    run_as (mapM (fun p : (addr * RangeProxy) * (addr * RangeProxy) =>
                    ne_sameIdxPred
                      (result_of_placeholder SizeType p.1.1)
                      (result_of_placeholder SizeType p.2.1))
              (compared_pairs idx rs) (placeholders_made columns_heap 2)) diffs h2.
    run_as (mapM (fun d => adaptArg d (Some "Double_t")) diffs h2) dargs h3.
    run_as (leading_pt_above_30 idx
              (h3 ++ [mkObject (MathOp "bool" "and" dargs) (Some empty_cache)])%list)
      candPred h4.
    run_as (adaptArg candPred (Some "Double_t") h4) cp h5.
    run_as (max_placeholder_index (H := example_runtime) 10 (length h5)
              (h5 ++ [mkObject (MathOp "bool" "and" [length h3; cp]) (Some empty_cache)])%list)
      m h7.
    destruct (Combine_fromRngFun_orders_same_collection (H := example_runtime)
                (fun _ _ _ _ => cache_only_ret []) 10 2 [jets] leading_pt_above_30
                ne_sameIdxPred columns_heap diffs h2 dargs h3 candPred h4 cp h5 m h7)
      as (h' & Hrun & Hres & _ & _ & Hshape & _).
    + discriminate.
    + vm_compute. reflexivity.
    + vm_compute. reflexivity.
    + vm_compute. reflexivity.
    + apply (leading_pt_above_30_keeps_ops idx _ candPred). vm_compute. reflexivity.
    + vm_compute. reflexivity.
    + vm_compute. reflexivity.
    + repeat constructor; eexists _, _, _; vm_compute; reflexivity.
    + exists (length h7), h', (length h5), (length h3), cp, 6%nat.
      split; [exact Hrun|]. split; [exact Hres|]. exact Hshape.
Defined.

(** The predicate of a combination of the jets with themselves is rendered
    with the order of the two indices before the user's condition. *)
Lemma combine_jets_jets_predicate :
  exists h', render_candPredExpr (H := example_runtime) (combine_jets_jets (H := example_runtime))
               columns_heap
             = Ok "( ( ( i0 <  i1 ) ) && ( Jet_pt[i0] >  30.0 ) )" h'.
Proof. eexists. vm_compute. reflexivity. Qed.

(** That of a combination of the jets with the muons is the user's
    condition alone. *)
Lemma combine_jets_muons_predicate :
  exists h', render_candPredExpr (H := example_runtime) (combine_jets_muons (H := example_runtime))
               columns_heap
             = Ok "( Jet_pt[i0] >  30.0 )" h'.
Proof. eexists. vm_compute. reflexivity. Qed.

(** ** The cache of [repr] and [hash] *)

Lemma py_repr_cached `{Runtime} fuel a h o c s :
  h !! a = Some o -> _cache o = Some c -> cache_repr c = Some s ->
  py_repr (S fuel) a h = Ok s h.
Proof.
  intros Ha Hc Hs. cbn [py_repr]. unfold fromopcache_repr.
  destruct o as [f cc]. cbn in Hc. subst cc.
  rewrite (bind_Ok _ _ _ _ _ (get_cache_Ok _ _ _ _ Ha)). by rewrite Hs.
Qed.

Section Memo.
Context `{RuntimeLaws}.

Lemma py_repr_node fuel a h s h1 : py_repr fuel a h = Ok s h1 -> is_Some (h !! a).
Proof.
  destruct fuel as [|fuel]; [done|]. cbn [py_repr]. unfold fromopcache_repr. intros Hr.
  apply bind_inv_Ok in Hr as (c & h' & Hc & _).
  apply get_cache_inv in Hc as [_ (o & Ho & _)]. by exists o.
Qed.

(** X1. [fromopcache] never recomputes: once [repr(a)] has returned a
    text, every later [repr(a)] returns that text and leaves the store as
    it is, also after an attribute of [a] was assigned to. *)
Theorem repr_is_never_recomputed (fuel : nat) (a : addr) (h : heap) (s : string)
    (h1 : heap) :
  py_repr fuel a h = Ok s h1 ->
  (forall fuel', py_repr (S fuel') a h1 = Ok s h1) /\
  (forall f h2 fuel', set_fields a f h1 = Ok tt h2 -> py_repr (S fuel') a h2 = Ok s h2).
Proof.
  intros Hr. destruct (py_repr_node _ _ _ _ _ Hr) as [o Ho].
  destruct (py_repr_fills_cache _ _ _ _ _ _ Ho Hr) as (c1 & Ho1 & Hc1). split.
  - intros fuel'. by apply (py_repr_cached fuel' a h1 _ c1 s Ho1).
  - intros f h2 fuel' Hset. apply set_fields_inv in Hset as (o1 & Ho1' & ->).
    rewrite Ho1 in Ho1'. injection Ho1' as <-.
    apply (py_repr_cached fuel' a _ (mkObject f (Some c1)) c1 s); [|done|done].
    by rewrite list_lookup_insert_eq by (by eapply lookup_lt_Some).
Qed.

(** X2. A hash that is computed is the hash of the text of [repr]: when
    the cache of [a] holds no hash and [hash(a)] returns [z], then
    [repr(a)] returns, from then on, a text [s] with [z = hash(s)]. *)
Theorem hash_is_hash_of_repr (fuel : nat) (a : addr) (h : heap) (o : PyObject)
    (c : TupleOpCache) (z : Z) (h1 : heap) :
  h !! a = Some o -> _cache o = Some c -> cache_hash c = None ->
  py_hash fuel a h = Ok z h1 ->
  exists s, z = str_hash s /\ forall fuel', py_repr (S fuel') a h1 = Ok s h1.
Proof.
  intros Ha Hc Hnone Hr. unfold py_hash, fromopcache_hash in Hr.
  destruct o as [f cc]. cbn in Hc. subst cc.
  rewrite (bind_Ok _ _ _ _ _ (get_cache_Ok _ _ _ _ Ha)), Hnone in Hr.
  apply bind_inv_Ok in Hr as (v & h2 & Hv & Hr).
  apply bind_inv_Ok in Hv as (s & h3 & Hs & Hv). injection Hv as <- <-.
  destruct (py_repr_fills_cache _ _ _ _ _ _ Ha Hs) as (c1 & Ho1 & Hc1).
  rewrite (bind_Ok _ _ _ _ _ (get_cache_Ok _ _ _ _ Ho1)) in Hr.
  apply bind_inv_Ok in Hr as ([] & h4 & Hset & Hr). injection Hr as <- <-.
  apply set_cache_inv in Hset as (o2 & Ho2 & ->).
  exists s. split; [done|]. intros fuel'.
  apply (py_repr_cached fuel' a _ (mkObject (fields o2) (Some (mkCache (Some (str_hash s))
           (cache_repr c1)))) (mkCache (Some (str_hash s)) (cache_repr c1)) s); [|done|done].
  by rewrite list_lookup_insert_eq by (by eapply lookup_lt_Some).
Qed.

(** X3. [==] holds within a class only: when [a == b] returns [True] for
    two nodes that are not the same object, they are of the same class. *)
Theorem eq_only_within_a_class (fuel : nat) (a b : addr) (h h' : heap) :
  py_eq fuel a b h = Ok true h' ->
  a = b \/
  exists fa fb, node h a = Some fa /\ node h b = Some fb /\
                class_name fa = class_name fb.
Proof.
  intros He. destruct fuel as [|fuel]; [done|]. cbn [py_eq] in He.
  destruct (Nat.eqb a b) eqn:Hab; [left; by apply Nat.eqb_eq|]. right.
  apply bind_inv_Ok in He as (hs & h1 & Hhs & He).
  apply bind_inv_Ok in He as (ho & h2 & Hho & He).
  destruct (Z.eqb hs ho); [|done]. cbn [and_then] in He.
  apply bind_inv_Ok in He as (fs & h3 & Hfs & He).
  apply get_fields_inv in Hfs as (-> & oa & Hoa & <-).
  apply bind_inv_Ok in He as (fo & h3 & Hfo & He).
  apply get_fields_inv in Hfo as (-> & ob & Hob & <-).
  destruct (same_class (fields oa) (fields ob)) eqn:Hcls; [|done].
  assert (Hs : same_fields h h2).
  { pose proof (cache_only_py_hash fuel a h) as H1. rewrite Hhs in H1.
    pose proof (cache_only_py_hash fuel b h1) as H2. rewrite Hho in H2.
    by eapply same_fields_trans. }
  exists (fields oa), (fields ob). unfold node.
  rewrite <- !Hs, Hoa, Hob. repeat split. by apply String.eqb_eq.
Qed.

End Memo.

Lemma repr_is_never_recomputed_witness :
  exists s h1,
    py_repr (H := example_runtime) 2 1 columns_heap = Ok s h1 /\
    (forall fuel', py_repr (H := example_runtime) (S fuel') 1 h1 = Ok s h1) /\
    (forall f h2 fuel', set_fields 1 f h1 = Ok tt h2 ->
                        py_repr (H := example_runtime) (S fuel') 1 h2 = Ok s h2).
Proof.
  destruct (py_repr (H := example_runtime) 2 1 columns_heap) as [s h1| |] eqn:Hr;
    [|by vm_compute in Hr..].
  exists s, h1. split; [done|].
  exact (repr_is_never_recomputed (H := example_runtime) 2 1 columns_heap s h1 Hr).
Defined.

Lemma hash_is_hash_of_repr_witness :
  exists z h1 s,
    py_hash (H := example_runtime) 2 1 columns_heap = Ok z h1 /\
    z = str_hash (Runtime := example_runtime) s /\
    forall fuel', py_repr (H := example_runtime) (S fuel') 1 h1 = Ok s h1.
Proof.
  destruct (py_hash (H := example_runtime) 2 1 columns_heap) as [z h1| |] eqn:Hr;
    [|by vm_compute in Hr..].
  destruct (hash_is_hash_of_repr (H := example_runtime) 2 1 columns_heap
              (mkObject (GetArrayColumn "Float_t" "Jet_pt" 0) (Some empty_cache))
              empty_cache z h1 eq_refl eq_refl eq_refl Hr) as (s & Hz & Hs).
  by exists z, h1, s.
Defined.

Lemma eq_only_within_a_class_witness :
  exists h',
    py_eq (H := example_runtime) 3 0 1 twin_heap = Ok true h' /\
    (0%nat = 1%nat \/
     exists fa fb, node twin_heap 0 = Some fa /\ node twin_heap 1 = Some fb /\
                   class_name fa = class_name fb).
Proof.
  destruct (py_eq (H := example_runtime) 3 0 1 twin_heap) as [[|] h'| |] eqn:He;
    [|by vm_compute in He..].
  exists h'. split; [done|].
  exact (eq_only_within_a_class (H := example_runtime) 3 0 1 twin_heap h' He).
Defined.

(** ** Cloning *)

Lemma extends_refl h : extends h h.
Proof. exists []. by rewrite app_nil_r. Qed.

Lemma extends_trans h1 h2 h3 : extends h1 h2 -> extends h2 h3 -> extends h1 h3.
Proof. intros [n1 ->] [n2 ->]. exists (n1 ++ n2)%list. by rewrite app_assoc. Qed.

Lemma extends_length h h' : extends h h' -> (length h <= length h')%nat.
Proof. intros [new ->]. rewrite length_app. lia. Qed.

Lemma extends_node h h' a f : extends h h' -> node h a = Some f -> node h' a = Some f.
Proof.
  intros [new ->] Ha. unfold node in *. destruct (h !! a) as [o|] eqn:Ho; [|done].
  by rewrite (lookup_app_l_Some _ _ _ _ Ho).
Qed.

Lemma extends_lookup h h' a o : extends h h' -> h !! a = Some o -> h' !! a = Some o.
Proof. intros [new ->] Ha. by apply lookup_app_l_Some. Qed.

Lemma copy_of_extends h h' : extends h h' -> forall a c, copy_of h a c -> copy_of h' a c.
Proof.
  intros Hext. fix IH 3. intros a c [a0 c0 fa fc Ha Hc Hs Hops].
  apply (Copy h' a0 c0 fa fc); [by eapply extends_node | by eapply extends_node | done |].
  clear Ha Hc Hs. induction Hops as [|x y l l' Hxy Hops IHops]; constructor.
  - by apply IH.
  - exact IHops.
Qed.

Lemma node_app_inv h o v g :
  node (h ++ [o]) v = Some g -> node h v = Some g \/ (v = length h /\ g = fields o).
Proof.
  unfold node. intros Hg. destruct (decide (v < length h)%nat) as [Hlt|Hge].
  - rewrite lookup_app_l in Hg by done. by left.
  - rewrite lookup_app_r in Hg by lia.
    destruct (v - length h)%nat as [|k] eqn:Hk; [|by destruct k].
    cbn in Hg. injection Hg as <-. right. split; [lia|done].
Qed.

Lemma clone_inv_extends_new n h memo f c :
  (n <= length h)%nat -> clone_inv n h memo ->
  as_constructed f = true ->
  Forall (fun x => (n <= x)%nat) (operands f) ->
  clone_inv n (h ++ [mkObject f c]) memo.
Proof.
  intros Hn (Hcons & Hclosed & Hmemo) Hf Hops. split; [|split].
  - intros v g Hg. apply node_app_inv in Hg as [Hg|[_ ->]]; [by eapply Hcons | done].
  - intros v g Hv Hg. apply node_app_inv in Hg as [Hg|[_ ->]]; [by eapply Hclosed | done].
  - intros k v Hkv. destruct (Hmemo k v Hkv) as [Hv Hc]. split; [done|].
    eapply copy_of_extends; [|exact Hc]. by eexists.
Qed.

Lemma mapM_adaptArg_ArgOp ty (l : list addr) h :
  mapM (fun a => adaptArg a ty) (map ArgOp l) h = Ok l h.
Proof.
  induction l as [|x l IH]; cbn [mapM map]; [done|].
  unfold bind at 1. cbn. unfold bind at 1. by rewrite IH.
Qed.

Section Clone.
Context `{CloneLaws}.
Variable n : nat.

Lemma clone_all_clones cl args memo h args' memo' h' :
  clones n cl ->
  clone_all cl args memo h = Ok (args', memo') h' ->
  (n <= length h)%nat -> clone_inv n h memo ->
  extends h h' /\ clone_inv n h' memo' /\
  Forall (fun x => (n <= x)%nat) args' /\ Forall2 (copy_of h') args args'.
Proof.
  intros Hcl. revert memo h args' memo' h'.
  induction args as [|a args IH]; intros memo h args' memo' h' Hr Hn Hinv; cbn [clone_all] in Hr.
  - injection Hr as <- <- <-. split; [apply extends_refl|]. split; [done|]. by split.
  - apply bind_inv_Ok in Hr as ([a' memo1] & h1 & Ha & Hr).
    apply bind_inv_Ok in Hr as ([rest' memo2] & h2 & Hrest & Hr).
    injection Hr as <- <- <-.
    destruct (Hcl _ _ _ _ _ _ Ha Hn Hinv) as (He1 & Hinv1 & Ha' & Hc1).
    assert (Hn1 : (n <= length h1)%nat) by (apply extends_length in He1; lia).
    destruct (IH _ _ _ _ _ Hrest Hn1 Hinv1) as (He2 & Hinv2 & Hrest' & Hc2).
    split; [by eapply extends_trans|]. split; [done|]. split; [by constructor|].
    constructor; [by eapply copy_of_extends | done].
Qed.

Lemma clone_all_ranges (rs : list RangeProxy) memo h rs' memo' h' :
  clone_all proxy_clone rs memo h = Ok (rs', memo') h' ->
  (n <= length h)%nat -> clone_inv n h memo ->
  extends h h' /\ clone_inv n h' memo' /\ length rs' = length rs.
Proof.
  revert memo h rs' memo' h'.
  induction rs as [|r rs IH]; intros memo h rs' memo' h' Hr Hn Hinv; cbn [clone_all] in Hr.
  - injection Hr as <- <- <-. split; [apply extends_refl|]. by split.
  - apply bind_inv_Ok in Hr as ([r' memo1] & h1 & Hr1 & Hr).
    apply bind_inv_Ok in Hr as ([rest' memo2] & h2 & Hrest & Hr).
    injection Hr as <- <- <-.
    destruct (proxy_clone_creates _ _ _ _ _ _ Hr1) as [He1 Hinv1].
    assert (Hn1 : (n <= length h1)%nat) by (apply extends_length in He1; lia).
    destruct (IH _ _ _ _ _ Hrest Hn1 (Hinv1 _ Hn Hinv)) as (He2 & Hinv2 & Hlen).
    split; [by eapply extends_trans|]. split; [done|]. cbn. by rewrite Hlen.
Qed.

(** The end of every [_clone]: the new node, made of copies. *)
Lemma clone_finish self f h hk memo f' c :
  node h self = Some f -> extends h hk -> (n <= length hk)%nat -> clone_inv n hk memo ->
  skeleton f' = skeleton f -> as_constructed f' = true ->
  Forall (fun x => (n <= x)%nat) (operands f') ->
  Forall2 (copy_of hk) (operands f) (operands f') ->
  extends h (hk ++ [mkObject f' c]) /\ clone_inv n (hk ++ [mkObject f' c]) memo /\
  (n <= length hk)%nat /\ copy_of (hk ++ [mkObject f' c]) self (length hk).
Proof.
  intros Hself Hext Hn Hinv Hsk Hcons Hfresh Hops.
  assert (He : extends hk (hk ++ [mkObject f' c])) by by eexists.
  split; [by eapply extends_trans|]. split; [by apply clone_inv_extends_new|].
  split; [done|].
  apply (Copy _ self (length hk) f f').
  - eapply extends_node; [|exact Hself]. by eapply extends_trans.
  - apply node_app_new.
  - done.
  - eapply Forall2_impl; [exact Hops|]. intros x y. by apply copy_of_extends.
Qed.

End Clone.

Section Constructors.
Context `{Runtime}.

Lemma MathOp_init_ops op (l : list addr) outType h :
  MathOp_init op (map ArgOp l) outType h
  = Ok (length h) (h ++ [mkObject (MathOp outType op l) (Some empty_cache)])%list.
Proof. unfold MathOp_init. by rewrite (bind_Ok _ _ _ _ _ (mapM_adaptArg_ArgOp _ _ _)). Qed.

Lemma Construct_init_ops t (l : list addr) h :
  Construct_init t (map ArgOp l) h
  = Ok (length h) (h ++ [mkObject (Construct t l) (Some empty_cache)])%list.
Proof. unfold Construct_init. by rewrite (bind_Ok _ _ _ _ _ (mapM_adaptArg_ArgOp _ _ _)). Qed.

Lemma InitList_init_ops t (l : list addr) h :
  InitList_init t (map ArgOp l) None h
  = Ok (length h) (h ++ [mkObject (InitList t l) (Some empty_cache)])%list.
Proof. unfold InitList_init. by rewrite (bind_Ok _ _ _ _ _ (mapM_adaptArg_ArgOp _ _ _)). Qed.

Lemma CallMethod_init_ops name (l : list addr) rt g h :
  rt <> "" ->
  CallMethod_init name (map ArgOp l) (Some rt) g h
  = Ok (length h) (h ++ [mkObject (CallMethod name l rt) (Some empty_cache)])%list.
Proof.
  intros Hrt. unfold CallMethod_init.
  rewrite (bind_Ok _ _ _ _ _ (mapM_adaptArg_ArgOp _ _ _)). by destruct rt.
Qed.

Lemma CallMemberMethod_init_ops t name (l : list addr) rt h :
  rt <> "" ->
  CallMemberMethod_init (ArgOp t) name (map ArgOp l) (Some rt) h
  = Ok (length h) (h ++ [mkObject (CallMemberMethod t name l rt) (Some empty_cache)])%list.
Proof.
  intros Hrt. unfold CallMemberMethod_init. cbn [adaptArg].
  rewrite (bind_Ok _ _ _ t h eq_refl).
  rewrite (bind_Ok _ _ _ _ _ (mapM_adaptArg_ArgOp _ _ _)). by destruct rt.
Qed.

End Constructors.

Lemma as_constructed_CallMethod n a r : as_constructed (CallMethod n a r) = true -> r <> "".
Proof. by destruct r. Qed.

Lemma as_constructed_CallMemberMethod t n a r :
  as_constructed (CallMemberMethod t n a r) = true -> r <> "".
Proof. by destruct r. Qed.

Lemma map_any_range (rs rs' : list RangeProxy) :
  length rs' = length rs -> map (fun _ => any_range) rs' = map (fun _ => any_range) rs.
Proof.
  revert rs'. induction rs as [|r rs IH]; intros [|r' rs']; cbn; try done.
  intros [= Hl]. f_equal. by apply IH.
Qed.

(** One call of a cloner in the body of a [_clone], on the current store. *)
Ltac lift_copies He :=
  repeat match goal with
  | Hc : copy_of ?ho _ _ |- _ =>
      lazymatch type of He with
      | extends ho _ => apply (copy_of_extends _ _ He) in Hc
      end
  | Hc : Forall2 (copy_of ?ho) _ _ |- _ =>
      lazymatch type of He with
      | extends ho ?hn =>
          apply (fun F => Forall2_impl _ (copy_of hn) _ _ F (copy_of_extends _ _ He)) in Hc
      end
  end.

Ltac clone_call Hcl Hr Hext Hn Hinv :=
  let x := fresh "x" in let m := fresh "m" in let h1 := fresh "h" in
  let Hx := fresh "Hx" in let He := fresh "He" in let Hinv' := fresh "Hinv" in
  let Hfx := fresh "Hfx" in let Hcx := fresh "Hcx" in
  apply bind_inv_Ok in Hr as ([x m] & h1 & Hx & Hr);
  first
    [ destruct (Hcl _ _ _ _ _ _ Hx Hn Hinv) as (He & Hinv' & Hfx & Hcx)
    | destruct (clone_all_clones _ _ _ _ _ _ _ _ Hcl Hx Hn Hinv) as (He & Hinv' & Hfx & Hcx)
    | destruct (proxy_clone_creates _ _ _ _ _ _ Hx) as [He Hinv'];
      specialize (Hinv' _ Hn Hinv)
    | destruct (clone_all_ranges _ _ _ _ _ _ _ Hx Hn Hinv) as (He & Hinv' & Hfx) ];
  lift_copies He;
  apply (fun E => extends_trans _ _ _ E He) in Hext;
  apply (fun L => Nat.le_trans _ _ _ L (extends_length _ _ He)) in Hn;
  clear Hinv Hx He; rename Hinv' into Hinv.

Section CloneNode.
Context `{CloneLaws}.
Variable n : nat.

Lemma _clone_clones cl self memo h cp memo' h' :
  clones n cl ->
  _clone cl self memo h = Ok (cp, memo') h' ->
  (n <= length h)%nat -> clone_inv n h memo ->
  extends h h' /\ clone_inv n h' memo' /\ (n <= cp)%nat /\ copy_of h' self cp /\
  exists f f', node h self = Some f /\
    h' !! cp = Some (mkObject f' (match f with
                                  | Reduce _ _ _ _ _ _ => None
                                  | _ => Some empty_cache
                                  end)).
Proof.
  intros Hcl Hr Hn Hinv. unfold _clone in Hr.
  apply bind_inv_Ok in Hr as (f & h0 & Hf & Hr).
  apply get_fields_inv in Hf as (-> & o & Ho & <-).
  assert (Hself : node h self = Some (fields o)) by (unfold node; by rewrite Ho).
  assert (Hcons : as_constructed (fields o) = true) by (by eapply (proj1 Hinv)).
  pose proof (extends_refl h) as Hext.
  assert (Hfin : forall hk m f' c,
            extends h hk -> (n <= length hk)%nat -> clone_inv n hk m ->
            skeleton f' = skeleton (fields o) -> as_constructed f' = true ->
            Forall (fun x => (n <= x)%nat) (operands f') ->
            Forall2 (copy_of hk) (operands (fields o)) (operands f') ->
            c = match fields o with Reduce _ _ _ _ _ _ => None | _ => Some empty_cache end ->
            (hk ++ [mkObject f' c])%list = h' -> length hk = cp -> m = memo' ->
            extends h h' /\ clone_inv n h' memo' /\ (n <= cp)%nat /\ copy_of h' self cp /\
            exists f f'0, node h self = Some f /\
              h' !! cp = Some (mkObject f'0 (match f with
                                             | Reduce _ _ _ _ _ _ => None
                                             | _ => Some empty_cache
                                             end))).
  { intros hk m f' c He Hnk Hik Hsk Hc' Hfr Hcp Hc <- <- <-.
    destruct (clone_finish n self (fields o) h hk m f' c Hself He Hnk Hik Hsk Hc' Hfr Hcp)
      as (? & ? & ? & ?).
    do 4 (split; [done|]). exists (fields o), f'. split; [done|].
    rewrite list_lookup_middle by done. by rewrite Hc. }
  destruct (fields o) eqn:Hfo; cbn [skeleton operands] in Hfin.
  all: repeat clone_call Hcl Hr Hext Hn Hinv.
  all: lazymatch type of Hr with
       | context [MathOp_init] =>
           rewrite (bind_Ok _ _ _ _ _ (MathOp_init_ops _ _ _ _)) in Hr
       | context [Construct_init] =>
           rewrite (bind_Ok _ _ _ _ _ (Construct_init_ops _ _ _)) in Hr
       | context [InitList_init] =>
           rewrite (bind_Ok _ _ _ _ _ (InitList_init_ops _ _ _)) in Hr
       | context [CallMethod_init] =>
           apply as_constructed_CallMethod in Hcons as Hrt;
           rewrite (bind_Ok _ _ _ _ _ (CallMethod_init_ops _ _ _ _ _ Hrt)) in Hr
       | context [CallMemberMethod_init] =>
           apply as_constructed_CallMemberMethod in Hcons as Hrt;
           rewrite (bind_Ok _ _ _ _ _ (CallMemberMethod_init_ops _ _ _ _ _ Hrt)) in Hr
       | _ => idtac
       end.
  all: injection Hr as Hcp Hm Hh.
  all: eapply Hfin; [exact Hext | exact Hn | exact Hinv | | | | | reflexivity
                     | exact Hh | exact Hcp | exact Hm ].
  all: cbn [skeleton operands as_constructed]; try done.
  all: try (by repeat constructor).
  - by rewrite (map_any_range _ _ Hfx).
  - by destruct variations.
  - by destruct variations.
Qed.

End CloneNode.

Section CloneMemo.
Context `{CloneLaws}.
Variable n : nat.

Lemma clone_memo_clones fuel : clones n (clone_memo fuel).
Proof.
  induction fuel as [|fuel IH]; intros a memo h cp memo' h' Hr Hn Hinv; [done|].
  cbn [clone_memo] in Hr. destruct (memo !! a) as [v|] eqn:Hmemo.
  - injection Hr as <- <- <-. split; [apply extends_refl|]. split; [done|].
    by apply Hinv.
  - apply bind_inv_Ok in Hr as ([cp0 memo0] & h1 & Hcl & Hr). injection Hr as <- <- <-.
    destruct (_clone_clones n _ _ _ _ _ _ _ IH Hcl Hn Hinv)
      as (Hext & (Hcons & Hclosed & Hmem) & Hcp & Hcopy & _).
    split; [done|]. split; [|by split]. split; [done|]. split; [done|].
    intros k v Hkv. destruct (decide (k = a)) as [->|Hne].
    + rewrite lookup_insert_eq in Hkv. by injection Hkv as <-.
    + rewrite lookup_insert_ne in Hkv by done. by apply Hmem.
Qed.

End CloneMemo.

Lemma reaches_fresh n h c x :
  (forall v f, (n <= v)%nat -> node h v = Some f -> Forall (fun x => (n <= x)%nat) (operands f)) ->
  (n <= c)%nat -> reaches h c x -> (n <= x)%nat.
Proof.
  intros Hclosed Hc Hr. induction Hr as [a|a y z f Ha Hy Hr IH]; [done|].
  apply IH. pose proof (Hclosed _ _ Hc Ha) as Hall.
  rewrite Forall_forall in Hall. by apply Hall.
Qed.

Section CloneTop.
Context `{CloneLaws}.

Lemma clone_spec fuel a h c h' :
  all_as_constructed h -> clone fuel a h = Ok c h' ->
  extends h h' /\ clone_inv (length h) h' ∅ /\ (length h <= c)%nat /\ copy_of h' a c /\
  exists fa fc, node h a = Some fa /\
    h' !! c = Some (mkObject fc (match fa with
                                 | Reduce _ _ _ _ _ _ => None
                                 | _ => Some empty_cache
                                 end)).
Proof.
  intros Hcons Hc. unfold clone in Hc.
  apply bind_inv_Ok in Hc as ([cp memo] & h1 & Hcm & Hc). injection Hc as <- <-.
  destruct fuel as [|fuel]; [done|]. cbn [clone_memo] in Hcm.
  rewrite lookup_empty in Hcm.
  apply bind_inv_Ok in Hcm as ([cp' memo'] & h2 & Hcl & Hcm). injection Hcm as <- _ <-.
  assert (Hinv : clone_inv (length h) h ∅).
  { split; [done|]. split.
    - intros v f Hv Hf. unfold node in Hf. by rewrite lookup_ge_None_2 in Hf.
    - intros k v Hkv. by rewrite lookup_empty in Hkv. }
  destruct (_clone_clones (length h) _ _ _ _ _ _ _ (clone_memo_clones (length h) fuel)
              Hcl (Nat.le_refl _) Hinv) as (Hext & (Hc1 & Hc2 & _) & Hcp & Hcopy & Hnew).
  split; [done|]. split; [|by repeat split]. split; [done|]. split; [done|].
  intros k v Hkv. by rewrite lookup_empty in Hkv.
Qed.

(** X4. [clone] makes a copy and touches nothing else: when [clone(a)]
    returns [c] on a store whose nodes are as constructed, every node
    that existed is still there unchanged, caches included; [c] is a copy
    of [a], node for node; no node that [c] reaches through operands
    existed before; and [c] has an empty cache, unless [a] is a [Reduce],
    in which case it has none. *)
Theorem clone_makes_a_copy (fuel : nat) (a : addr) (h : heap) (c : addr) (h' : heap) :
  all_as_constructed h ->
  clone fuel a h = Ok c h' ->
  extends h h' /\
  copy_of h' a c /\
  (forall x, reaches h' c x -> (length h <= x)%nat) /\
  exists fa fc, node h a = Some fa /\
    h' !! c = Some (mkObject fc (match fa with
                                 | Reduce _ _ _ _ _ _ => None
                                 | _ => Some empty_cache
                                 end)).
Proof.
  intros Hcons Hc.
  destruct (clone_spec _ _ _ _ _ Hcons Hc) as (Hext & (_ & Hclosed & _) & Hfresh & Hcopy & Hnew).
  split; [done|]. split; [done|]. split; [|done].
  intros x Hx. by eapply reaches_fresh.
Qed.

End CloneTop.

(** *** Varying a clone *)

Lemma skeleton_name_of f f' : skeleton f' = skeleton f -> name_of f' = name_of f.
Proof.
  destruct f, f'; cbn; intros Hs; try discriminate; try done;
    injection Hs; intros; by subst.
Qed.

Lemma skeleton_Const f' t v : skeleton f' = skeleton (Const t v) -> f' = Const t v.
Proof. by destruct f'. Qed.

Lemma skeleton_args_of h f f' args :
  skeleton f' = skeleton f -> args_of f = Some args ->
  Forall2 (copy_of h) (operands f) (operands f') ->
  exists args', args_of f' = Some args' /\ Forall2 (copy_of h) args args'.
Proof.
  destruct f, f'; cbn; intros Hs Ha Hops; try discriminate; injection Ha as <-; eauto.
  apply Forall2_cons_1 in Hops as [_ Hops]. eauto.
Qed.

Lemma Forall2_last {A B} (P : A -> B -> Prop) l1 l2 x :
  Forall2 P l1 l2 -> List.last (map Some l1) None = Some x ->
  exists y, List.last (map Some l2) None = Some y /\ P x y.
Proof.
  intros Hf. induction Hf as [|a b l1 l2 Hab Hf IH]; [done|].
  destruct Hf as [|a' b' l1' l2' Hab' Hf'].
  - cbn. intros [= <-]. eauto.
  - intros Hl. apply IH. exact Hl.
Qed.

Lemma Forall2_head {A B} (P : A -> B -> Prop) l1 l2 x :
  Forall2 P l1 l2 -> head l1 = Some x -> exists y, head l2 = Some y /\ P x y.
Proof. intros [|a b l1' l2' Hab _]; [done|]. cbn. intros [= <-]. eauto. Qed.

Lemma copy_of_inv h a c :
  copy_of h a c ->
  exists fa fc, node h a = Some fa /\ node h c = Some fc /\ skeleton fc = skeleton fa /\
                Forall2 (copy_of h) (operands fa) (operands fc).
Proof. intros [a0 c0 fa fc Ha Hc Hs Hops]. by exists fa, fc. Qed.

Lemma node_lookup h a f : node h a = Some f -> exists o, h !! a = Some o /\ fields o = f.
Proof. unfold node. destruct (h !! a) as [o|]; [|done]. intros [= <-]. eauto. Qed.

(** The selector of a copy of a wrapper is a copy of its selector. *)
Lemma copy_of_selector h a c fa fc sel :
  node h a = Some fa -> node h c = Some fc -> copy_of h a c ->
  selector h fa = Some sel ->
  exists sel', selector h fc = Some sel' /\ copy_of h sel sel' /\
               skeleton fc = skeleton fa /\ reaches h c sel'.
Proof.
  intros Ha Hc Hcopy Hsel.
  apply copy_of_inv in Hcopy as (fa' & fc' & Ha' & Hc' & Hsk & Hops).
  rewrite Ha in Ha'. injection Ha' as <-. rewrite Hc in Hc'. injection Hc' as <-.
  assert (Hw : exists wa wc, operands fa = [wa] /\ operands fc = [wc] /\
             selector h fa = (o ← h !! wa; args ← args_of (fields o);
                              match fa with
                              | ScaleFactorWithSystOp _ _ _ => List.last (map Some args) None
                              | _ => head args
                              end) /\
             selector h fc = (o ← h !! wc; args ← args_of (fields o);
                              match fa with
                              | ScaleFactorWithSystOp _ _ _ => List.last (map Some args) None
                              | _ => head args
                              end)).
  { destruct fa; try discriminate; destruct fc; try discriminate; by eexists _, _. }
  destruct Hw as (wa & wc & Hoa & Hoc & Hsa & Hsc).
  rewrite Hoa, Hoc in Hops. apply Forall2_cons_1 in Hops as [Hw _].
  apply copy_of_inv in Hw as (fwa & fwc & Hwa & Hwc & Hskw & Hopsw).
  apply node_lookup in Hwa as (owa & Howa & <-).
  apply node_lookup in Hwc as (owc & Howc & <-).
  rewrite Hsa, Howa in Hsel. cbn in Hsel.
  destruct (args_of (fields owa)) as [args|] eqn:Hargs; [|done]. cbn in Hsel.
  destruct (skeleton_args_of _ _ _ _ Hskw Hargs Hopsw) as (args' & Hargs' & Hall).
  assert (Hsel' : exists sel',
            match fa with
            | ScaleFactorWithSystOp _ _ _ => List.last (map Some args') None
            | _ => head args'
            end = Some sel' /\ copy_of h sel sel').
  { destruct fa; try (by eapply Forall2_head); by eapply Forall2_last. }
  destruct Hsel' as (sel' & Hsel' & Hcs).
  exists sel'. rewrite Hsc, Howc. cbn. rewrite Hargs'. cbn.
  split; [done|]. split; [done|]. split; [done|].
  assert (Hin : sel' ∈ args').
  { destruct fa.
    all: try (destruct args' as [|x args'']; [done|]; cbn in Hsel'; injection Hsel' as ->; left).
    clear -Hsel'. induction args' as [|x [|y l] IH]; [done| |].
    - cbn in Hsel'. injection Hsel' as ->. left.
    - right. by apply IH. }
  eapply (reaches_step h c wc sel'); [exact Hc | rewrite Hoc; left |].
  eapply (reaches_step h wc sel' sel'); [unfold node; by rewrite Howc | | apply reaches_refl].
  destruct (fields owc); cbn in Hargs' |- *; try discriminate; injection Hargs' as ->;
    try done. by right.
Qed.

Section VaryClone.
Context `{CloneLaws}.

Lemma readable_selector_extends h h' w :
  extends h h' -> readable_selector h w -> readable_selector h' w.
Proof.
  intros Hext (sel & so & Hsel & Hso & Hk). exists sel, so.
  split; [|split; [by eapply extends_lookup | done]].
  destruct w; try done; cbn in Hsel |- *.
  all: destruct (h !! wrapped) as [ow|] eqn:How; [|done].
  all: by rewrite (extends_lookup _ _ _ _ Hext How).
Qed.

(** X5. A clone can always be varied, and varying it leaves the original
    alone: for a wrapper [a] with a declared variation [v] and a selector
    that can be read, frozen or not, [changeVariation(v)] on [clone(a)]
    returns, and every node that existed before the clone is afterwards
    as it was. *)
Theorem clone_can_be_varied (fuel : nat) (a : addr) (h : heap) (fa : TupleOp)
    (c : addr) (h1 : heap) (v : string) :
  all_as_constructed h ->
  node h a = Some fa -> is_wrapper fa = true ->
  declared v fa = true -> readable_selector h fa ->
  clone fuel a h = Ok c h1 ->
  exists h2, changeVariation c v h1 = Ok tt h2 /\
             forall x o, h !! x = Some o -> h2 !! x = Some o.
Proof.
  intros Hcons Ha Hw Hd Hsel Hc.
  destruct (clone_spec _ _ _ _ _ Hcons Hc)
    as (Hext & (_ & Hclosed & _) & Hfresh & Hcopy & (fa' & fc & Ha' & Hnew)).
  rewrite Ha in Ha'. injection Ha' as <-.
  assert (Hcache : h1 !! c = Some (mkObject fc (Some empty_cache)))
    by (by destruct fa).
  assert (Hnc : node h1 c = Some fc) by (unfold node; by rewrite Hcache).
  pose proof (extends_node _ _ _ _ Hext Ha) as Ha1.
  destruct (readable_selector_extends _ _ _ Hext Hsel) as (sel & so & Hs & Hso & Hk).
  destruct (copy_of_selector _ _ _ _ _ _ Ha1 Hnc Hcopy Hs)
    as (sel' & Hs' & Hcs & Hsk & Hreach).
  apply copy_of_inv in Hcs as (fs & fs' & Hfs & Hfs' & Hsks & _).
  apply node_lookup in Hfs' as (so' & Hso' & <-).
  unfold node in Hfs. rewrite Hso in Hfs. injection Hfs as <-.
  assert (Hfc : is_wrapper fc = true /\ declared v fc = true /\
                match fc with
                | ScaleFactorWithSystOp _ _ _ => is_Some (name_of (fields so'))
                | SystModifiedCollectionOp _ _ _ => exists t v, fields so' = Const t v
                | _ => False
                end).
  { destruct fa; try discriminate; destruct fc; try discriminate;
      injection Hsk as -> ->; (split; [done|]); (split; [done|]).
    - by rewrite (skeleton_name_of _ _ Hsks).
    - destruct Hk as (t & val & Hval). rewrite Hval in Hsks.
      apply skeleton_Const in Hsks. eauto. }
  destruct Hfc as (Hwc & Hdc & Hkc).
  assert (Hrc : readable_selector h1 fc) by (by exists sel', so').
  destruct (changeVariation_mutable _ _ _ _ _ Hcache eq_refl Hdc Hrc) as [h2 Hcv].
  exists h2. split; [done|]. intros x o Hx.
  pose proof (extends_lookup _ _ _ _ Hext Hx) as Hx1.
  destruct (changeVariation_frame _ _ _ _ _ Hcache Hcv) as [->|Hr]; [done|].
  destruct Hr as [sel2 so2 f2 Hsel2 Hso2 _ _ _ _ ->]. cbn [fields] in Hsel2.
  rewrite Hs' in Hsel2. injection Hsel2 as <-.
  assert (Hge : (length h <= sel')%nat) by (by eapply reaches_fresh).
  rewrite list_lookup_insert_ne; [done|].
  apply lookup_lt_Some in Hx. lia.
Qed.

End VaryClone.

#[export] Instance example_clone_laws : @CloneLaws example_runtime.
Proof.
  split. intros r memo h r' memo' h' Hr. injection Hr as <- <- <-.
  split; [apply extends_refl|]. by intros n _ Hinv.
Qed.

Lemma sf_heap_as_constructed : all_as_constructed sf_heap.
Proof.
  intros v f Hv. unfold node in Hv.
  do 4 (destruct v as [|v]; [by injection Hv as <-|]). done.
Qed.

Lemma clone_makes_a_copy_witness :
  exists c h',
    clone (H := example_runtime) 5 3 sf_heap = Ok c h' /\
    extends sf_heap h' /\ copy_of h' 3 c /\
    (forall x, reaches h' c x -> (length sf_heap <= x)%nat) /\
    exists fa fc, node sf_heap 3 = Some fa /\
      h' !! c = Some (mkObject fc (match fa with
                                   | Reduce _ _ _ _ _ _ => None
                                   | _ => Some empty_cache
                                   end)).
Proof.
  destruct (clone (H := example_runtime) 5 3 sf_heap) as [c h'| |] eqn:Hc;
    [|by vm_compute in Hc..].
  exists c, h'. split; [done|].
  exact (clone_makes_a_copy (H := example_runtime) 5 3 sf_heap c h' sf_heap_as_constructed Hc).
Defined.

Lemma clone_can_be_varied_witness :
  exists c h1 h2,
    clone (H := example_runtime) 5 3 sf_heap = Ok c h1 /\
    changeVariation c "elidup" h1 = Ok tt h2 /\
    forall x o, sf_heap !! x = Some o -> h2 !! x = Some o.
Proof.
  destruct (clone (H := example_runtime) 5 3 sf_heap) as [c h1| |] eqn:Hc;
    [|by vm_compute in Hc..].
  destruct (clone_can_be_varied (H := example_runtime) 5 3 sf_heap
              (ScaleFactorWithSystOp 2 "elid" ["elidup"; "eliddown"]) c h1 "elidup"
              sf_heap_as_constructed eq_refl eq_refl eq_refl) as (h2 & Hcv & Hkeep).
  - exists 1%nat, (mkObject (ExtVar "int" "Nominal") (Some empty_cache)).
    split; [reflexivity|]. split; [reflexivity|]. by eexists.
  - exact Hc.
  - by exists c, h1, h2.
Defined.

(** ** What [deps] yields *)

Lemma filterM_elem_of {A} (f : A -> M bool) (l l' : list A) h h' x :
  filterM f l h = Ok l' h' -> x ∈ l' -> x ∈ l /\ exists h1 h2, f x h1 = Ok true h2.
Proof.
  revert h l'. induction l as [|y l IH]; intros h l' Hr Hx; cbn [filterM] in Hr.
  - injection Hr as <- _. by apply elem_of_nil in Hx.
  - apply bind_inv_Ok in Hr as (b & h1 & Hb & Hr).
    apply bind_inv_Ok in Hr as (ys & h2 & Hys & Hr). injection Hr as <- <-.
    destruct b.
    + apply elem_of_cons in Hx as [->|Hx].
      * split; [left | eauto].
      * destruct (IH _ _ Hys Hx) as [? ?]. split; [by right | done].
    + destruct (IH _ _ Hys Hx) as [? ?]. split; [by right | done].
Qed.

Lemma concatM_elem_of {A B} (f : A -> M (list B)) (l : list A) h r h' x :
  concatM f l h = Ok r h' -> x ∈ r ->
  exists a h1 ys h2, a ∈ l /\ f a h1 = Ok ys h2 /\ x ∈ ys.
Proof.
  revert h r. induction l as [|a l IH]; intros h r Hr Hx; cbn [concatM] in Hr.
  - injection Hr as <- _. by apply elem_of_nil in Hx.
  - apply bind_inv_Ok in Hr as (ys & h1 & Hys & Hr).
    apply bind_inv_Ok in Hr as (zs & h2 & Hzs & Hr). injection Hr as <- <-.
    apply elem_of_app in Hx as [Hx|Hx].
    + exists a, h, ys, h1. split; [left | done].
    + destruct (IH _ _ Hzs Hx) as (a' & h3 & ys' & h4 & Ha' & Hf & Hx').
      exists a', h3, ys', h4. split; [by right | done].
Qed.

Section DepsSelected.
Context `{Runtime}.
Variables (defCache : DefCache) (select : pyobj -> M bool) (P : pyobj -> Prop)
          (includeLocal : bool).
Hypothesis select_accepts : forall o h h', select o h = Ok true h' -> P o.
Hypothesis proxy_deps_selected :
  forall r h l h', proxy_deps r select includeLocal h = Ok l h' -> all_selected P l.

Let sound (rec : addr -> M (list (option addr))) : Prop :=
  forall a h l h', rec a h = Ok l h' -> all_selected P l.

Lemma deps_of_arg_selected rec arg h l h' :
  sound rec -> deps_of_arg select rec arg h = Ok l h' -> all_selected P l.
Proof.
  intros Hrec Hr. unfold deps_of_arg in Hr.
  apply bind_inv_Ok in Hr as (s & h0 & Hs & Hr).
  apply bind_inv_Ok in Hr as (ds & h1 & Hds & Hr). injection Hr as <- <-.
  intros x Hx. destruct s.
  - apply elem_of_cons in Hx as [[= ->]|Hx]; [by eapply select_accepts | by eapply Hrec].
  - by eapply Hrec.
Qed.

Lemma deps_of_arg_local_selected fuel rec _i arg h l h' :
  sound rec ->
  deps_of_arg_local select includeLocal fuel rec _i arg h = Ok l h' -> all_selected P l.
Proof.
  intros Hrec Hr. unfold deps_of_arg_local in Hr.
  apply bind_inv_Ok in Hr as (s & h0 & Hs & Hr).
  apply bind_inv_Ok in Hr as (ds & h1 & Hds & Hr).
  apply bind_inv_Ok in Hr as (ds' & h2 & Hds' & Hr). injection Hr as <- <-.
  assert (Hsub : all_selected P ds').
  { intros x Hx. destruct (filterM_elem_of _ _ _ _ _ _ Hds' Hx) as [Hin _].
    by eapply Hrec. }
  intros x Hx. destruct s.
  - apply elem_of_cons in Hx as [[= ->]|Hx]; [by eapply select_accepts | by apply Hsub].
  - by apply Hsub.
Qed.

Lemma deps_of_arg_bare_selected fuel (arg_deps : M (list (option addr))) arg locals h l h' :
  (forall h l h', arg_deps h = Ok l h' -> all_selected P l) ->
  deps_of_arg_bare select includeLocal fuel arg_deps arg locals h = Ok l h' ->
  all_selected P l.
Proof.
  intros Hrec Hr. unfold deps_of_arg_bare in Hr.
  apply bind_inv_Ok in Hr as (s & h0 & Hs & Hr).
  apply bind_inv_Ok in Hr as (ds & h1 & Hds & Hr).
  apply bind_inv_Ok in Hr as (ds' & h2 & Hds' & Hr). injection Hr as <- <-.
  assert (Hsub : all_selected P ds').
  { intros x Hx. destruct (filterM_elem_of _ _ _ _ _ _ Hds' Hx) as [Hin _].
    by eapply Hrec. }
  intros x Hx. destruct s.
  - apply elem_of_cons in Hx as [[=]|Hx]. by apply Hsub.
  - by apply Hsub.
Qed.

Lemma concatM_selected {A} (f : A -> M (list (option addr))) (l : list A) h r h' :
  (forall a h ys h', f a h = Ok ys h' -> all_selected P ys) ->
  concatM f l h = Ok r h' -> all_selected P r.
Proof.
  intros Hf Hr x Hx.
  destruct (concatM_elem_of _ _ _ _ _ _ Hr Hx) as (a & h1 & ys & h2 & _ & Hys & Hin).
  by eapply Hf.
Qed.

Lemma unless_defined_selected self body h l h' :
  (forall h l h', body h = Ok l h' -> all_selected P l) ->
  unless_defined defCache self body h = Ok l h' -> all_selected P l.
Proof.
  intros Hb Hr. unfold unless_defined in Hr.
  apply bind_inv_Ok in Hr as (cn & h1 & _ & Hr).
  destruct (truthy cn); [|by eapply Hb].
  injection Hr as <- _. intros x Hx. by apply elem_of_nil in Hx.
Qed.

Lemma all_selected_app l1 l2 :
  all_selected P l1 -> all_selected P l2 -> all_selected P (l1 ++ l2).
Proof. intros H1 H2 x Hx. apply elem_of_app in Hx as [?|?]; [by apply H1 | by apply H2]. Qed.

(** X6. What [deps] yields was accepted by [select]: when everything
    that [select] accepts has the property [P], every node in the
    enumeration of any operation has it (the enumeration of a [Reduce] or
    of a [Combine] holds [None] besides). *)
Theorem deps_yields_selected_nodes (fuel : nat) (a : addr) (h : heap)
    (l : list (option addr)) (h' : heap) :
  deps defCache select includeLocal fuel a h = Ok l h' ->
  forall x, Some x ∈ l -> P (POp x).
Proof.
  revert a h l h'. induction fuel as [|fuel IH]; intros a h l h' Hr; [done|].
  change (all_selected P l). cbn [deps] in Hr.
  apply bind_inv_Ok in Hr as (f & h0 & _ & Hr).
  assert (Hrec : sound (deps defCache select includeLocal fuel)) by exact IH.
  destruct f.
  all: try (injection Hr as <- _; intros x Hx; by apply elem_of_nil in Hx).
  all: try exact (IH _ _ _ _ Hr).
  all: try (by eapply deps_of_arg_selected).
  all: try (eapply unless_defined_selected; [|exact Hr]; clear Hr; intros h1 l1 h1' Hr).
  all: try (by eapply deps_of_arg_selected).
  all: try (eapply concatM_selected; [|exact Hr]; intros; by eapply deps_of_arg_selected).
  all: try (apply bind_inv_Ok in Hr as (r & h2 & _ & Hr);
            eapply concatM_selected; [|exact Hr]; intros;
            by eapply deps_of_arg_local_selected).
  - apply bind_inv_Ok in Hr as (d1 & h2 & Hd1 & Hr).
    apply bind_inv_Ok in Hr as (d2 & h3 & Hd2 & Hr). injection Hr as <- <-.
    apply all_selected_app.
    + eapply deps_of_arg_bare_selected; [|exact Hd1]. apply proxy_deps_selected.
    + eapply concatM_selected; [|exact Hd2]. intros a0 h4 ys h5 Hq.
      eapply deps_of_arg_bare_selected; [|exact Hq]. apply Hrec.
  - apply bind_inv_Ok in Hr as (d1 & h2 & Hd1 & Hr).
    apply bind_inv_Ok in Hr as (d2 & h3 & Hd2 & Hr). injection Hr as <- <-.
    apply all_selected_app.
    + eapply concatM_selected; [|exact Hd1]. intros r0 h4 ys h5 Hq.
      eapply deps_of_arg_bare_selected; [|exact Hq]. apply proxy_deps_selected.
    + eapply deps_of_arg_bare_selected; [|exact Hd2]. apply Hrec.
Qed.

End DepsSelected.

Section OwnPlaceholders.
Context `{Runtime}.

Lemma py_ne_self fuel i h b h' : py_ne fuel (Some i) i h = Ok b h' -> b = false.
Proof.
  unfold py_ne. destruct fuel as [|fuel]; [done|]. cbn [py_eq].
  rewrite Nat.eqb_refl. by intros [= <- _].
Qed.

Lemma py_in_member fuel x items h b h' :
  x ∈ items -> py_in fuel (Some x) items h = Ok b h' -> b = true.
Proof.
  revert h. induction items as [|item rest IH]; intros h Hx Hr.
  - by apply elem_of_nil in Hx.
  - cbn [py_in] in Hr. apply bind_inv_Ok in Hr as (b0 & h1 & Hb0 & Hr).
    destruct b0; [by injection Hr as <- _|].
    apply elem_of_cons in Hx as [->|Hx]; [|by eapply IH].
    cbn [py_eq_obj] in Hb0. destruct fuel as [|fuel]; [done|]. cbn [py_eq] in Hb0.
    rewrite Nat.eqb_refl in Hb0. discriminate.
Qed.

Variables (defCache : DefCache) (select : pyobj -> M bool).

Lemma deps_of_arg_local_own fuel rec i arg h l h' :
  deps_of_arg_local select false fuel rec i arg h = Ok l h' ->
  Some i ∈ l -> i = arg.
Proof.
  unfold deps_of_arg_local. intros Hr Hi.
  apply bind_inv_Ok in Hr as (s & h1 & _ & Hr).
  apply bind_inv_Ok in Hr as (ds & h2 & _ & Hr).
  apply bind_inv_Ok in Hr as (ds' & h3 & Hf & Hr). injection Hr as <- <-.
  assert (Hno : Some i ∉ ds').
  { intros Hin. destruct (filterM_elem_of _ _ _ _ _ _ Hf Hin) as (_ & h4 & h5 & Hne).
    by apply py_ne_self in Hne. }
  destruct s; [|done]. apply elem_of_cons in Hi as [[= ->]|Hi]; done.
Qed.

Lemma deps_of_arg_bare_own fuel arg_deps arg locals i h l h' :
  deps_of_arg_bare select false fuel arg_deps arg locals h = Ok l h' ->
  i ∈ locals -> Some i ∉ l.
Proof.
  unfold deps_of_arg_bare. intros Hr Hloc Hi.
  apply bind_inv_Ok in Hr as (s & h1 & _ & Hr).
  apply bind_inv_Ok in Hr as (ds & h2 & _ & Hr).
  apply bind_inv_Ok in Hr as (ds' & h3 & Hf & Hr). injection Hr as <- <-.
  assert (Hno : Some i ∉ ds').
  { intros Hin. destruct (filterM_elem_of _ _ _ _ _ _ Hf Hin) as (_ & h4 & h5 & Hne).
    apply bind_inv_Ok in Hne as (b & h6 & Hb & Hne).
    apply (py_in_member _ _ _ _ _ _ Hloc) in Hb as ->. discriminate. }
  destruct s; [|done]. apply elem_of_cons in Hi as [[=]|Hi]; done.
Qed.

(** X7. The local variables stay inside: without [includeLocal], the
    enumeration of an operation on ranges never holds one of its own
    placeholders, unless that placeholder is itself the body or the node
    of the range, which [Select], [Sort], [Map] and [Next] yield when
    [select] accepts them. *)
Theorem deps_leaves_out_own_placeholders (fuel : nat) (a : addr) (h : heap) (f : TupleOp)
    (l : list (option addr)) (h' : heap) (i : addr) :
  node h a = Some f ->
  deps defCache select false fuel a h = Ok l h' ->
  i ∈ own_placeholders f -> i ∉ yielded_as_operand f ->
  Some i ∉ l.
Proof.
  intros Ha Hr Hown Hdirect Hi. destruct fuel as [|fuel]; [done|]. cbn [deps] in Hr.
  apply node_lookup in Ha as (o & Ho & <-).
  rewrite (bind_Ok _ _ _ _ _ (get_fields_Ok _ _ _ Ho)) in Hr.
  destruct (fields o); cbn [own_placeholders] in Hown;
    try (by apply elem_of_nil in Hown).
  all: unfold unless_defined in Hr; apply bind_inv_Ok in Hr as (cn & h1 & _ & Hr).
  all: destruct (truthy cn); [injection Hr as <- _; by apply elem_of_nil in Hi|].
  1-4: apply bind_inv_Ok in Hr as (r & h2 & Hrng & Hr);
    destruct (concatM_elem_of _ _ _ _ _ _ Hr Hi) as (arg & h3 & ys & h4 & Harg & Hys & Hin);
    apply list_elem_of_singleton in Hown as ->;
    apply (deps_of_arg_local_own _ _ _ _ _ _ _ Hys) in Hin as ->;
    apply Hdirect; cbn [yielded_as_operand];
    unfold proxy_op in Hrng; destruct (_parent (rng_proxy rng)) as [r0|]; [|done];
    injection Hrng as <- _;
    apply elem_of_cons in Harg as [->|Harg]; [right; left|];
    apply list_elem_of_singleton in Harg as ->; left.
  - apply bind_inv_Ok in Hr as (d1 & h2 & Hd1 & Hr).
    apply bind_inv_Ok in Hr as (d2 & h3 & Hd2 & Hr). injection Hr as <- <-.
    apply elem_of_app in Hi as [Hi|Hi].
    + by eapply deps_of_arg_bare_own.
    + destruct (concatM_elem_of _ _ _ _ _ _ Hd2 Hi) as (arg & h4 & ys & h5 & _ & Hys & Hin).
      by eapply deps_of_arg_bare_own.
  - apply bind_inv_Ok in Hr as (d1 & h2 & Hd1 & Hr).
    apply bind_inv_Ok in Hr as (d2 & h3 & Hd2 & Hr). injection Hr as <- <-.
    apply elem_of_app in Hi as [Hi|Hi].
    + destruct (concatM_elem_of _ _ _ _ _ _ Hd1 Hi) as (arg & h4 & ys & h5 & _ & Hys & Hin).
      by eapply deps_of_arg_bare_own.
    + by eapply deps_of_arg_bare_own.
Qed.

End OwnPlaceholders.

Lemma deps_yields_selected_nodes_witness :
  exists l h',
    deps (H := example_runtime) cppNoRedir (select_node 1) false
      6 6 select_heap = Ok l h' /\
    forall x, Some x ∈ l -> POp x = POp 1.
Proof.
  destruct (deps (H := example_runtime) cppNoRedir (select_node 1)
              false 6 6 select_heap) as [l h'| |] eqn:Hd; [|by vm_compute in Hd..].
  exists l, h'. split; [done|].
  apply (deps_yields_selected_nodes (H := example_runtime) cppNoRedir
           (select_node 1) (fun o => o = POp 1) false) with (3 := Hd).
  - intros [|b|r] h h0 [= Ho _]; try done. by apply Nat.eqb_eq in Ho as ->.
  - intros r h l0 h0 [= <- _] x Hx. by apply elem_of_nil in Hx.
Defined.

Lemma deps_leaves_out_own_placeholders_witness :
  exists l h',
    deps (H := example_runtime) cppNoRedir (fun _ => ret true) false 6 6 select_heap
    = Ok l h' /\ Some 2%nat ∉ l.
Proof.
  destruct (deps (H := example_runtime) cppNoRedir (fun _ => ret true) false 6 6 select_heap)
    as [l h'| |] eqn:Hd; [|by vm_compute in Hd..].
  exists l, h'. split; [done|].
  apply (deps_leaves_out_own_placeholders (H := example_runtime) cppNoRedir (fun _ => ret true)
           6 6 select_heap (Select jets 5 2) l h' 2 eq_refl Hd).
  - cbn. left.
  - cbn. intros Hin. apply elem_of_cons in Hin as [?|Hin]; [done|].
    apply list_elem_of_singleton in Hin. done.
Defined.

(** ** Observers *)

Lemma cache_only_foldM {A B} (f : A -> B -> M A) (l : list B) (acc : A) :
  (forall a b, cache_only (f a b)) -> cache_only (foldM f acc l).
Proof.
  intros Hf. revert acc. induction l as [|x l IH]; intros acc; cbn [foldM]; cache_only_tac.
Qed.

Lemma cache_only_placeholder_name i : cache_only (placeholder_name i).
Proof. unfold placeholder_name. cache_only_tac. Qed.

Lemma cache_only_placeholder_decl a : cache_only (placeholder_decl a).
Proof. unfold placeholder_decl. pose proof cache_only_placeholder_name. cache_only_tac. Qed.

Lemma cache_only_unpack3 {T} (z : option T) : cache_only (unpack3 z).
Proof. unfold unpack3. cache_only_tac. Qed.

Lemma cache_only_join_names sep items : cache_only (join_names sep items).
Proof. unfold join_names. cache_only_tac. Qed.

Lemma cache_only__normFunArgs_loop todo e args : cache_only (_normFunArgs_loop todo e args).
Proof.
  revert e args. induction todo as [|[i argN] todo IH]; intros e args; cbn [_normFunArgs_loop];
    cache_only_tac.
Qed.

Lemma cache_only__normFunArgs e args argNames : cache_only (_normFunArgs e args argNames).
Proof. unfold _normFunArgs. pose proof cache_only__normFunArgs_loop. cache_only_tac. Qed.

Lemma cache_only_any_placeholder l : cache_only (any_placeholder l).
Proof.
  pose proof cache_only_is_placeholder.
  induction l as [|x l IH]; cbn [any_placeholder]; cache_only_tac.
Qed.

#[export] Hint Resolve cache_only_py_repr cache_only_py_hash cache_only_py_eq
  cache_only_proxy_op cache_only_is_placeholder cache_only_placeholder_name
  cache_only_placeholder_decl cache_only_unpack3 cache_only_join_names
  cache_only__normFunArgs cache_only_any_placeholder : cache_only.

Section Observers.
Context `{ObserverLaws}.

Lemma cache_only_py_eq_obj fuel a o : cache_only (py_eq_obj fuel a o).
Proof. unfold py_eq_obj. cache_only_tac. Qed.

Hint Resolve cache_only_py_eq_obj : cache_only.

Lemma cache_only_py_ne fuel dp a : cache_only (py_ne fuel dp a).
Proof. unfold py_ne. cache_only_tac. Qed.

Lemma cache_only_py_in fuel dp items : cache_only (py_in fuel dp items).
Proof. induction items as [|x l IH]; cbn [py_in]; cache_only_tac. Qed.

Lemma cache_only_set_insert fuel x hx entries : cache_only (set_insert fuel x hx entries).
Proof. induction entries as [|[y hy] l IH]; cbn [set_insert]; cache_only_tac. Qed.

Lemma cache_only_set_add fuel acc x : cache_only (set_add fuel acc x).
Proof.
  unfold set_add, item_hash.
  apply cache_only_bind; [destruct x; cache_only_tac|].
  intros hx. apply cache_only_set_insert.
Qed.

Lemma cache_only_py_format fuel ld : cache_only (py_format fuel ld).
Proof. unfold py_format. cache_only_tac. Qed.

Lemma cache_only_print_format fuel ld : cache_only (print_format fuel ld).
Proof. unfold print_format. pose proof cache_only_py_format. cache_only_tac. Qed.

Hint Resolve cache_only_py_ne cache_only_py_in cache_only_set_add
  cache_only_py_format cache_only_print_format : cache_only.

Variable defCache : DefCache.
Hypothesis Hcache : observer_cache defCache.

Lemma cache_only_deps_any select includeLocal fuel self :
  (forall o, cache_only (select o)) ->
  cache_only (deps defCache select includeLocal fuel self).
Proof.
  destruct Hcache as (_ & _ & Hcn & _).
  intros Hsel. revert self. induction fuel as [|fuel IH]; intros self; cbn [deps].
  - apply cache_only_out_of_fuel.
  - unfold unless_defined, deps_of_arg, deps_of_arg_local, deps_of_arg_bare.
    repeat first
      [ apply cache_only_concatM; intros ?
      | apply cache_only_filterM; intros ?
      | apply proxy_deps_observes
      | progress cache_only_tac ].
Qed.

Hint Resolve cache_only_deps_any : cache_only.

Lemma cache_only_proxy_each {A} select includeLocal r (body : A -> option addr -> M A) acc :
  (forall o, cache_only (select o)) -> (forall x dp, cache_only (body x dp)) ->
  cache_only (proxy_each select includeLocal r body acc).
Proof.
  intros Hsel Hbody. unfold proxy_each.
  apply cache_only_bind; [by apply proxy_deps_observes|].
  intros ds. by apply cache_only_foldM.
Qed.

Lemma cache_only_deps_each {A} select includeLocal fuel :
  (forall o, cache_only (select o)) ->
  forall self (body : A -> option addr -> M A) acc,
    (forall x dp, cache_only (body x dp)) ->
    cache_only (deps_each defCache select includeLocal fuel self body acc).
Proof.
  destruct Hcache as (_ & _ & Hcn & _).
  intros Hsel. induction fuel as [|fuel IH]; intros self body acc Hbody; cbn [deps_each].
  - apply cache_only_out_of_fuel.
  - assert (Hlocal : forall i x dp, cache_only (unless_local includeLocal fuel i body x dp)).
    { intros i x dp. unfold unless_local. cache_only_tac. }
    assert (Hamong : forall l x dp, cache_only (unless_among includeLocal fuel l body x dp)).
    { intros l x dp. unfold unless_among. cache_only_tac. }
    unfold unless_defined_each, each_of_arg, each_of_arg_local, each_of_arg_bare.
    repeat first
      [ apply cache_only_foldM; intros ? ?
      | apply cache_only_proxy_each; [exact Hsel|]
      | apply proxy_deps_observes
      | apply IH
      | exact Hlocal
      | exact Hamong
      | exact Hbody
      | progress cache_only_tac ].
Qed.

Lemma cache_only_dc_shouldDefine o : cache_only (dc_shouldDefine defCache o).
Proof. by apply Hcache. Qed.

Lemma cache_only_dc_getColName o : cache_only (dc_getColName defCache o).
Proof. by apply Hcache. Qed.

Lemma cache_only_dc_symbol d k : cache_only (dc_symbol defCache d k).
Proof. by apply Hcache. Qed.

Hint Resolve cache_only_dc_shouldDefine cache_only_dc_getColName cache_only_dc_symbol
  result_typeName_observes proxy_deps_observes : cache_only.

Lemma cache_only_collect_select fuel ownLocal op :
  cache_only (collect_select fuel defCache ownLocal op).
Proof. unfold collect_select. cache_only_tac. Qed.

Lemma cache_only_each_of_root {A} fuel select (body : A -> option addr -> M A) acc expr :
  (forall o, cache_only (select o)) -> (forall x dp, cache_only (body x dp)) ->
  cache_only (each_of_root fuel defCache select body acc expr).
Proof.
  intros Hsel Hbody. unfold each_of_root. destruct expr.
  - apply cache_only_raise.
  - by apply cache_only_deps_each.
  - by apply cache_only_proxy_each.
Qed.

Lemma cache_only_trigger_definition fuel cppStr u dep :
  (forall o, cache_only (cppStr o)) ->
  cache_only (trigger_definition fuel cppStr u dep).
Proof. intros Hc. unfold trigger_definition. cache_only_tac. Qed.

Lemma cache_only__collectDeps fuel cppStr exprs ownLocal :
  (forall o, cache_only (cppStr o)) ->
  cache_only (_collectDeps fuel cppStr exprs ownLocal defCache).
Proof.
  intros Hc. unfold _collectDeps.
  apply cache_only_bind.
  { apply cache_only_foldM. intros u expr. apply cache_only_each_of_root.
    - intros o. apply cache_only_dc_shouldDefine.
    - intros x dp. by apply cache_only_trigger_definition. }
  intros _. apply cache_only_bind; [|intros; apply cache_only_ret].
  apply cache_only_foldM. intros acc expr. apply cache_only_each_of_root.
  - intros o. apply cache_only_collect_select.
  - intros x dp. apply cache_only_set_add.
Qed.

Lemma cache_only__convertFunArgs_step fuel acc ld :
  cache_only (_convertFunArgs_step fuel defCache acc ld).
Proof. unfold _convertFunArgs_step. cache_only_tac. Qed.

Lemma cache_only__convertFunArgs fuel deps0 :
  cache_only (_convertFunArgs fuel deps0 defCache).
Proof.
  unfold _convertFunArgs. apply cache_only_bind; [|intros; apply cache_only_ret].
  apply cache_only_foldM. intros. apply cache_only__convertFunArgs_step.
Qed.

Lemma cache_only_inline_or_symbol depList expr rt pd pc :
  cache_only (inline_or_symbol defCache depList expr rt pd pc).
Proof. unfold inline_or_symbol. cache_only_tac. Qed.

Hint Resolve cache_only__collectDeps cache_only__convertFunArgs cache_only_inline_or_symbol
  : cache_only.

Lemma cache_only_get_cppStr fuel self : cache_only (get_cppStr defCache fuel self).
Proof.
  revert self. induction fuel as [|fuel IH]; intros self; cbn [get_cppStr].
  - apply cache_only_out_of_fuel.
  - assert (Hcall : forall o, cache_only (dc_call defCache (get_cppStr defCache fuel) o))
      by (intros o; by apply Hcache).
    unfold apply_mathOpFun.
    repeat first
      [ apply cache_only__collectDeps; intros ?
      | apply cache_only__convertFunArgs
      | apply cache_only_inline_or_symbol
      | apply cache_only__normFunArgs
      | apply cache_only_placeholder_decl
      | apply cache_only_unpack3
      | apply cache_only_any_placeholder
      | apply cache_only_bind; [|intros ?]
      | apply cache_only_mapM; intros ?
      | progress eauto with cache_only
      | match goal with
        | |- cache_only (match ?x with _ => _ end) => destruct x
        | |- cache_only (if ?x then _ else _) => destruct x
        | |- cache_only (let (_, _) := ?x in _) => destruct x
        end ].
Qed.

End Observers.

Section ObserveTheorem.
Context `{ObserverLaws}.

(** X8. Rendering and the enumeration of dependencies only observe: with
    a cache that only observes, [get_cppStr] of any node, and [deps] of any
    node under a [select] that only observes, assign to no attribute of a
    node and create no node, whether they return or raise; they may fill
    the caches of [repr] and [hash]. *)
Theorem rendering_and_deps_only_observe (defCache : DefCache) :
  observer_cache defCache ->
  (forall fuel a, cache_only (get_cppStr defCache fuel a)) /\
  (forall select includeLocal fuel a,
      (forall o, cache_only (select o)) ->
      cache_only (deps defCache select includeLocal fuel a)).
Proof.
  intros Hobs. split.
  - intros fuel a. by apply cache_only_get_cppStr.
  - intros select includeLocal fuel a Hsel. by apply cache_only_deps_any.
Qed.

End ObserveTheorem.

#[export] Instance example_observer_laws : @ObserverLaws example_runtime _.
Proof. split; intros; apply cache_only_ret. Qed.

Lemma cppNoRedir_observes : observer_cache cppNoRedir.
Proof.
  split; [|split; [|split]].
  - intros g [|a|r] Hg; cbn; [apply cache_only_raise | apply Hg | apply cache_only_raise].
  - intros decl kw. apply cache_only_raise.
  - intros o. apply cache_only_ret.
  - intros o. apply cache_only_raise.
Qed.

Lemma rendering_and_deps_only_observe_witness :
  (forall fuel a, cache_only (get_cppStr (H := example_runtime) cppNoRedir fuel a)) /\
  (forall select includeLocal fuel a,
      (forall o, cache_only (select o)) ->
      cache_only (deps (H := example_runtime) cppNoRedir select includeLocal fuel a)).
Proof.
  exact (rendering_and_deps_only_observe (H := example_runtime) cppNoRedir cppNoRedir_observes).
Defined.

(** ** The factories of the operations on ranges *)

Lemma max_from_lower l acc : acc <= fold_left Z.max l acc.
Proof.
  revert acc. induction l as [|x l IH]; intros acc; cbn; [lia|].
  specialize (IH (Z.max acc x)). lia.
Qed.

Lemma max_from_upper l acc x : In x l -> x <= fold_left Z.max l acc.
Proof.
  revert acc. induction l as [|y l IH]; intros acc; [done|]. cbn. intros [->|Hx].
  - pose proof (max_from_lower l (Z.max acc x)). lia.
  - by apply IH.
Qed.

Lemma max_placeholder_index_lower `{Runtime} fuel e h m h' :
  max_placeholder_index fuel e h = Ok m h' -> -1 <= m.
Proof.
  unfold max_placeholder_index. intros Hr.
  apply bind_inv_Ok in Hr as (nds & h1 & _ & Hr).
  apply bind_inv_Ok in Hr as (idxs & h2 & _ & Hr). injection Hr as <- _.
  apply max_from_lower.
Qed.

Lemma set_attr_i_inv idx v h h' :
  set_attr_i idx v h = Ok tt h' ->
  exists o th par i0, h !! idx = Some o /\ fields o = LocalVariablePlaceholder th par i0 /\
    h' = <[idx := mkObject (LocalVariablePlaceholder th par (Some v)) (_cache o)]> h.
Proof.
  unfold set_attr_i. intros Hs. apply bind_inv_Ok in Hs as (f & h1 & Hf & Hs).
  apply get_fields_inv in Hf as (-> & o & Ho & <-).
  destruct (fields o) eqn:Hfo; try done.
  apply set_fields_inv in Hs as (o' & Ho' & ->). rewrite Ho in Ho'. injection Ho' as <-.
  by eexists _, _, _, _.
Qed.

Lemma set_attr_parent_inv idx res h h' :
  set_attr_parent idx res h = Ok tt h' ->
  exists o th par i, h !! idx = Some o /\ fields o = LocalVariablePlaceholder th par i /\
    h' = <[idx := mkObject (LocalVariablePlaceholder th (Some res) i) (_cache o)]> h.
Proof.
  unfold set_attr_parent. intros Hs. apply bind_inv_Ok in Hs as (f & h1 & Hf & Hs).
  apply get_fields_inv in Hf as (-> & o & Ho & <-).
  destruct (fields o) eqn:Hfo; try done.
  apply set_fields_inv in Hs as (o' & Ho' & ->). rewrite Ho in Ho'. injection Ho' as <-.
  by eexists _, _, _, _.
Qed.

Section Factories.
Context `{Runtime}.

(** The end shared by the four factories: the index is set, the node is
    made, the parent is set. *)
Lemma fromRngFun_end fuel fn h res h' (K : addr -> addr -> TupleOp) p h1 e h2 m h3 h4 h5
    u1 u2 :
  fn (length h)
     (h ++ [mkObject (LocalVariablePlaceholder SizeType None None) (Some empty_cache)])%list
  = Ok p h1 ->
  adaptArg p None h1 = Ok e h2 ->
  max_placeholder_index fuel e h2 = Ok m h3 ->
  set_attr_i (length h) (m + 1) h3 = Ok u1 h4 ->
  new_object (K e (length h)) h4 = Ok res h5 ->
  set_attr_parent (length h) res h5 = Ok u2 h' ->
  made_by_fromRngFun fuel fn h res h' K.
Proof.
  intros Hfn Had Hm Hi Hnew Hp. destruct u1, u2.
  apply set_attr_i_inv in Hi as (o & th & par & i0 & Ho & Hfo & ->).
  injection Hnew as <- <-. rewrite length_insert in Hp |- *.
  apply set_attr_parent_inv in Hp as (o' & th' & par' & i' & Ho' & Hfo' & ->).
  assert (Hlt : (length h < length h3)%nat) by (by eapply lookup_lt_Some).
  rewrite lookup_app_l in Ho' by (by rewrite length_insert).
  rewrite list_lookup_insert_eq in Ho' by done. injection Ho' as <-.
  cbn in Hfo'. injection Hfo' as <- <- <-.
  exists p, h1, e, h2, m, h3, th. unfold node.
  split; [exact Hfn|]. split; [exact Had|]. split; [exact Hm|].
  split; [|split].
  - rewrite list_lookup_insert_ne by lia.
    rewrite lookup_app_r by (rewrite length_insert; lia).
    by rewrite length_insert, Nat.sub_diag.
  - rewrite list_lookup_insert_eq; [done|]. rewrite length_app, length_insert. lia.
  - pose proof (max_placeholder_index_lower _ _ _ _ _ Hm). lia.
Qed.

(** X9. A factory gives its placeholder an index and itself as parent:
    when [Select.fromRngFun], [Sort.fromRngFun], [Next.fromRngFun] or
    [Map.fromRngFun] returns [res], [res] is that operation on the given
    range and on the body that the callback returned for the placeholder,
    its placeholder is the node made first, whose parent is [res] and
    whose index is one more than what [max_placeholder_index] returned
    for that body on the store the callback left, and so not negative. *)
Theorem fromRngFun_sets_index_and_parent (fuel : nat) (rng : RangeProxy)
    (fn : addr -> M pyarg) (h : heap) (res : addr) (h' : heap) :
  (Select_fromRngFun fuel rng fn h = Ok res h' ->
   made_by_fromRngFun fuel fn h res h' (Select rng)) /\
  (Sort_fromRngFun fuel rng fn h = Ok res h' ->
   made_by_fromRngFun fuel fn h res h' (Sort rng)) /\
  (Next_fromRngFun fuel rng fn h = Ok res h' ->
   made_by_fromRngFun fuel fn h res h' (Next rng)) /\
  (forall typeName, Map_fromRngFun fuel rng fn typeName h = Ok res h' ->
   exists tn, made_by_fromRngFun fuel fn h res h' (fun e i => Map rng e i tn)).
Proof.
  split; [|split; [|split]].
  1-3: intros Hr;
    apply bind_inv_Ok in Hr as (idx & h1 & Hidx & Hr); injection Hidx as <- <-;
    apply bind_inv_Ok in Hr as (p & h2 & Hfn & Hr);
    apply bind_inv_Ok in Hr as (e & h3 & Had & Hr);
    apply bind_inv_Ok in Hr as (m & h4 & Hm & Hr);
    apply bind_inv_Ok in Hr as (u1 & h5 & Hi & Hr);
    apply bind_inv_Ok in Hr as (res0 & h6 & Hnew & Hr);
    apply bind_inv_Ok in Hr as (u2 & h7 & Hp & Hr); injection Hr as <- <-;
    by eapply fromRngFun_end.
  intros typeName Hr.
  apply bind_inv_Ok in Hr as (idx & h1 & Hidx & Hr); injection Hidx as <- <-.
  apply bind_inv_Ok in Hr as (p & h2 & Hfn & Hr).
  apply bind_inv_Ok in Hr as (e & h3 & Had & Hr).
  apply bind_inv_Ok in Hr as (m & h4 & Hm & Hr).
  apply bind_inv_Ok in Hr as (u1 & h5 & Hi & Hr).
  apply bind_inv_Ok in Hr as (tn & h6 & Htn & Hr).
  assert (h6 = h5) as ->.
  { destruct typeName; [by injection Htn as _ <-|].
    unfold arg_typeName in Htn. destruct p; try done. by injection Htn as _ <-. }
  apply bind_inv_Ok in Hr as (res0 & h7 & Hnew & Hr).
  apply bind_inv_Ok in Hr as (u2 & h8 & Hp & Hr). injection Hr as <- <-.
  exists tn. by eapply (fromRngFun_end _ _ _ _ _ (fun e i => Map rng e i tn)).
Qed.

End Factories.

Section ReduceFactory.
Context `{Runtime}.

(** X10. [Reduce.fromRngFun] numbers its two placeholders one after the
    other: when it returns [res], [res] is a [Reduce] over the given
    range, without cache, whose element placeholder and accumulator
    placeholder are the two nodes made first; both have [res] as parent.
    The body [e] is what the callback returned for the two placeholders,
    adapted; with [m] what [max_placeholder_index] returned for [e] on
    the store these left, the element has the index [i = m + 1], which is
    not negative, and the accumulator has [i + 1]. *)
Theorem Reduce_fromRngFun_numbers_both (fuel : nat) (rng : RangeProxy) (start : pyarg)
    (accuFun : addr -> addr -> M pyarg) (h : heap) (res : addr) (h' : heap) :
  Reduce_fromRngFun fuel rng start accuFun h = Ok res h' ->
  exists rt st e th1 th2 i,
    h' !! res = Some (mkObject (Reduce rng rt st e (length h) (S (length h))) None) /\
    node h' (length h) = Some (LocalVariablePlaceholder th1 (Some res) (Some i)) /\
    node h' (S (length h)) = Some (LocalVariablePlaceholder th2 (Some res) (Some (i + 1))) /\
    0 <= i /\
    exists a h1 h2 m h3,
      accuFun (S (length h)) (length h)
        (h ++ [ mkObject (LocalVariablePlaceholder SizeType None None) (Some empty_cache)
              ; mkObject (LocalVariablePlaceholder rt None (Some (-1))) (Some empty_cache) ])%list
      = Ok a h1 /\
      adaptArg a None h1 = Ok e h2 /\
      max_placeholder_index fuel e h2 = Ok m h3 /\
      i = m + 1.
Proof.
  intros Hr. unfold Reduce_fromRngFun in Hr.
  apply bind_inv_Ok in Hr as (rt & h0 & Hrt & Hr).
  assert (exists p, start = ArgProxy p /\ h0 = h) as (p & -> & ->).
  { unfold arg_typeName in Hrt. destruct start; try done. injection Hrt as _ <-. eauto. }
  apply bind_inv_Ok in Hr as (idx & h1 & Hidx & Hr). injection Hidx as <- <-.
  apply bind_inv_Ok in Hr as (prev & h2 & Hprev & Hr). injection Hprev as <- <-.
  rewrite length_app, Nat.add_1_r in Hr.
  apply bind_inv_Ok in Hr as (a & h3 & Hfn & Hr).
  apply bind_inv_Ok in Hr as (e & h4 & Had & Hr).
  apply bind_inv_Ok in Hr as (m & h5 & Hm & Hr).
  apply bind_inv_Ok in Hr as ([] & h6 & Hi1 & Hr).
  apply bind_inv_Ok in Hr as ([] & h7 & Hi2 & Hr).
  apply bind_inv_Ok in Hr as (st & h8 & Hst & Hr).
  assert (h8 = h7) as ->.
  { cbn [adaptArg] in Hst. unfold proxy_op in Hst. destruct (_parent p); [|done].
    by injection Hst as _ <-. }
  apply bind_inv_Ok in Hr as (res0 & h9 & Hnew & Hr). injection Hnew as <- <-.
  apply bind_inv_Ok in Hr as ([] & h10 & Hp1 & Hr).
  apply bind_inv_Ok in Hr as ([] & h11 & Hp2 & Hr). injection Hr as <- <-.
  apply set_attr_i_inv in Hi1 as (o1 & th1 & par1 & i1 & Ho1 & Hf1 & ->).
  apply set_attr_i_inv in Hi2 as (o2 & th2 & par2 & i2 & Ho2 & Hf2 & ->).
  apply set_attr_parent_inv in Hp1 as (o3 & th3 & par3 & i3 & Ho3 & Hf3 & ->).
  apply set_attr_parent_inv in Hp2 as (o4 & th4 & par4 & i4 & Ho4 & Hf4 & ->).
  assert (Hl1 : (length h < length h5)%nat) by (by eapply lookup_lt_Some).
  assert (Hl2 : (S (length h) < length h5)%nat).
  { apply lookup_lt_Some in Ho2. by rewrite length_insert in Ho2. }
  rewrite !length_insert in *.
  rewrite lookup_app_l in Ho3 by (rewrite !length_insert; lia).
  rewrite list_lookup_insert_ne in Ho3 by lia.
  rewrite list_lookup_insert_eq in Ho3 by lia. injection Ho3 as <-.
  cbn in Hf3. injection Hf3 as <- <- <-.
  rewrite list_lookup_insert_ne in Ho4 by lia.
  rewrite lookup_app_l in Ho4 by (rewrite !length_insert; lia).
  rewrite list_lookup_insert_eq in Ho4 by (rewrite length_insert; lia). injection Ho4 as <-.
  cbn in Hf4. injection Hf4 as <- <- <-.
  exists rt, st, e, th1, th2, (m + 1). unfold node.
  split; [|split; [|split; [|split]]].
  - rewrite !list_lookup_insert_ne by lia.
    rewrite lookup_app_r by (rewrite !length_insert; lia).
    by rewrite !length_insert, Nat.sub_diag.
  - rewrite list_lookup_insert_ne by lia.
    rewrite list_lookup_insert_eq; [done|].
    rewrite length_app, !length_insert. lia.
  - rewrite list_lookup_insert_eq; [by replace (m + 1 + 1) with (m + 2) by lia|].
    rewrite length_insert, length_app, !length_insert. lia.
  - pose proof (max_placeholder_index_lower _ _ _ _ _ Hm). lia.
  - exists a, h3, h4, m, h5. rewrite <- app_assoc in Hfn. done.
Qed.

End ReduceFactory.

Lemma fromRngFun_sets_index_and_parent_witness :
  exists res h',
    Select_fromRngFun (H := example_runtime) 10 jets (fun j => jet_pt_above_30 j j) columns_heap
    = Ok res h' /\
    made_by_fromRngFun (H := example_runtime) 10 (fun j => jet_pt_above_30 j j) columns_heap
      res h' (Select jets).
Proof.
  destruct (Select_fromRngFun (H := example_runtime) 10 jets (fun j => jet_pt_above_30 j j)
              columns_heap) as [res h'| |] eqn:Hr; [|by vm_compute in Hr..].
  exists res, h'. split; [done|].
  exact (proj1 (fromRngFun_sets_index_and_parent (H := example_runtime) 10 jets
                  (fun j => jet_pt_above_30 j j) columns_heap res h') Hr).
Defined.

Lemma Reduce_fromRngFun_numbers_both_witness :
  exists res h',
    Reduce_fromRngFun (H := example_runtime) 10 jets (ArgProxy (mkProxy "UInt_t" (Some 0%nat)))
      add_jet_pt columns_heap = Ok res h' /\
    exists rt st e th1 th2 i,
      h' !! res = Some (mkObject (Reduce jets rt st e 4 5) None) /\
      node h' 4 = Some (LocalVariablePlaceholder th1 (Some res) (Some i)) /\
      node h' 5 = Some (LocalVariablePlaceholder th2 (Some res) (Some (i + 1))) /\
      0 <= i /\
      exists a h1 h2 m h3,
        add_jet_pt 5 4
          (columns_heap ++
           [ mkObject (LocalVariablePlaceholder SizeType None None) (Some empty_cache)
           ; mkObject (LocalVariablePlaceholder rt None (Some (-1))) (Some empty_cache) ])%list
        = Ok a h1 /\
        adaptArg a None h1 = Ok e h2 /\
        max_placeholder_index (H := example_runtime) 10 e h2 = Ok m h3 /\
        i = m + 1.
Proof.
  destruct (Reduce_fromRngFun (H := example_runtime) 10 jets
              (ArgProxy (mkProxy "UInt_t" (Some 0%nat))) add_jet_pt columns_heap)
    as [res h'| |] eqn:Hr; [|by vm_compute in Hr..].
  exists res, h'. split; [done|].
  exact (Reduce_fromRngFun_numbers_both (H := example_runtime) 10 jets _ _ _ _ _ Hr).
Defined.

Lemma bind_inv_Ok_same {A B} (m : M A) (k : A -> M B) h r h' :
  cache_only m -> bind m k h = Ok r h' ->
  exists x h1, same_fields h h1 /\ k x h1 = Ok r h'.
Proof.
  intros Hm Hr. apply bind_inv_Ok in Hr as (x & h1 & Hx & Hr).
  exists x, h1. split; [|done]. specialize (Hm h). by rewrite Hx in Hm.
Qed.

Lemma mapM_Ok_elem {A B} (f : A -> M B) (l : list A) h rs h' b :
  (forall a, cache_only (f a)) -> mapM f l h = Ok rs h' -> b ∈ l ->
  exists h1 s h2, same_fields h h1 /\ f b h1 = Ok s h2.
Proof.
  intros Hf. revert h rs h'. induction l as [|x l IH]; intros h rs h' Hr Hb.
  - by apply elem_of_nil in Hb.
  - cbn [mapM] in Hr. apply bind_inv_Ok in Hr as (y & h1 & Hy & Hr).
    apply elem_of_cons in Hb as [->|Hb].
    + exists h, y, h1. split; [apply same_fields_refl | done].
    + apply bind_inv_Ok in Hr as (ys & h2 & Hys & _).
      destruct (IH _ _ _ Hys Hb) as (h3 & s & h4 & Hs & Hfb).
      exists h3, s, h4. split; [|done].
      eapply same_fields_trans; [|exact Hs].
      specialize (Hf x h). by rewrite Hy in Hf.
Qed.

Lemma cache_only_Ok {A} (m : M A) h x h' : cache_only m -> m h = Ok x h' -> same_fields h h'.
Proof. intros Hm Hr. specialize (Hm h). by rewrite Hr in Hm. Qed.

Lemma apply_mathOpFun_Ok_elem fn (f : addr -> M string) args h s h' b :
  (forall a, cache_only (f a)) -> apply_mathOpFun fn f args h = Ok s h' -> b ∈ args ->
  exists h1 s1 h2, same_fields h h1 /\ f b h1 = Ok s1 h2.
Proof.
  intros Hf Hr Hb. destruct fn; cbn [apply_mathOpFun] in Hr.
  - apply bind_inv_Ok in Hr as (rs & h1 & Hrs & _). by eapply mapM_Ok_elem.
  - destruct args as [|a1 [|a2 args]]; try done.
    apply bind_inv_Ok in Hr as (s1 & h1 & H1 & Hr).
    apply list_elem_of_singleton in Hb as ->.
    exists h, s1, h1. split; [apply same_fields_refl | done].
  - destruct args as [|a1 [|a2 [|a3 args]]]; try done.
    apply bind_inv_Ok in Hr as (s1 & h1 & H1 & Hr).
    apply bind_inv_Ok in Hr as (s2 & h2 & H2 & Hr).
    apply elem_of_cons in Hb as [->|Hb]; [|apply list_elem_of_singleton in Hb as ->].
    + exists h, s1, h1. split; [apply same_fields_refl | done].
    + exists h1, s2, h2. split; [by eapply cache_only_Ok | done].
  - destruct args as [|a1 [|a2 [|a3 [|a4 args]]]]; try done.
    apply bind_inv_Ok in Hr as (s1 & h1 & H1 & Hr).
    apply bind_inv_Ok in Hr as (s2 & h2 & H2 & Hr).
    apply bind_inv_Ok in Hr as (s3 & h3 & H3 & Hr).
    apply elem_of_cons in Hb as [->|Hb];
      [|apply elem_of_cons in Hb as [->|Hb]; [|apply list_elem_of_singleton in Hb as ->]].
    + exists h, s1, h1. split; [apply same_fields_refl | done].
    + exists h1, s2, h2. split; [by eapply cache_only_Ok | done].
    + exists h2, s3, h3. split; [|done].
      eapply same_fields_trans; by eapply cache_only_Ok.
Qed.

Lemma same_fields_node h h' a : same_fields h h' -> node h' a = node h a.
Proof. intros Hs. apply Hs. Qed.

Lemma get_fields_node a h f h' : get_fields a h = Ok f h' -> h' = h /\ node h a = Some f.
Proof.
  intros Hr. apply get_fields_inv in Hr as (-> & o & Ho & <-). split; [done|].
  unfold node. by rewrite Ho.
Qed.

Section DefaultCache.
Context `{ObserverLaws}.

Let cppStr fuel := dc_call cppNoRedir (get_cppStr cppNoRedir fuel).

Lemma cache_only_cppStr fuel o : cache_only (cppStr fuel o).
Proof.
  destruct o; cbn; [apply cache_only_raise| |apply cache_only_raise].
  apply cache_only_get_cppStr, cppNoRedir_observes.
Qed.

Lemma cache_only_idxs fuel rng :
  cache_only (let* ix := proxy_op (_idxs rng) in cppStr fuel (POp ix)).
Proof.
  apply cache_only_bind; [apply cache_only_proxy_op|]. intros ix. apply cache_only_cppStr.
Qed.

Lemma needs_symbol_never_rendered (h : heap) (a : addr) :
  needs_symbol h a ->
  forall fuel h0 s h', same_fields h h0 -> get_cppStr cppNoRedir fuel a h0 <> Ok s h'.
Proof.
  pose proof cppNoRedir_observes as Hobs.
  induction 1 as [a name args rt Ha|a t d n Ha|a f b Ha Hb Hn IH];
    intros [|fuel] h0 s h' Hs Hr; try done; cbn [get_cppStr] in Hr.
  all: apply bind_inv_Ok in Hr as (f0 & h1 & Hf & Hr).
  all: apply get_fields_node in Hf as [-> Hf].
  all: rewrite (same_fields_node _ _ _ Hs), Ha in Hf; injection Hf as <-.
  1-2: done.
  assert (Hc : forall o, cache_only (cppStr fuel o)) by apply cache_only_cppStr.
  assert (Hco : forall x, cache_only (cppStr fuel (POp x))) by (intros; apply Hc).
  assert (Hfound : forall h1 s1 h2, same_fields h0 h1 ->
            get_cppStr cppNoRedir fuel b h1 = Ok s1 h2 -> False).
  { intros h1 s1 h2 Hs1 Hb1. eapply IH; [|exact Hb1]. by eapply same_fields_trans. }
  clear IH Hn Ha Hs.
  pose proof (same_fields_refl h0) as Hs. revert Hs Hr. generalize h0 at 2 3. intros hc Hs Hr.
  destruct f; cbn [rendered] in Hb; try (by apply elem_of_nil in Hb).
  all: repeat (apply elem_of_cons in Hb as [<-|Hb]); try (by apply elem_of_nil in Hb).
  all: try (destruct (dict_get mathOpFuns_cppStr op); [|done];
            destruct (apply_mathOpFun_Ok_elem _ _ _ _ _ _ _ Hco Hr Hb)
              as (h1 & s1 & h2 & Hs1 & Hb1);
            eapply Hfound; [|exact Hb1]; by eapply same_fields_trans).
  all: repeat
    (try (by eapply Hfound);
     first
       [ lazymatch type of Hr with
         | bind (mapM _ _) _ _ = _ =>
             let Hrs := fresh "Hrs" in let Hs1 := fresh "Hs" in let Hb1 := fresh "Hb" in
             apply bind_inv_Ok in Hr as (? & ? & Hrs & Hr);
             destruct (mapM_Ok_elem _ _ _ _ _ _ Hco Hrs Hb) as (? & ? & ? & Hs1 & Hb1);
             eapply Hfound; [|exact Hb1]; by eapply same_fields_trans
         end
       | lazymatch type of Hr with
         | bind (dc_call cppNoRedir _ (POp _)) _ _ = _ =>
             let Hb1 := fresh "Hb" in
             apply bind_inv_Ok in Hr as (? & ? & Hb1 & Hr); by eapply Hfound
         end
       | let Hs' := fresh "Hs" in let x := fresh "x" in
         apply bind_inv_Ok_same in Hr as (x & ? & Hs' & Hr);
         [ apply (same_fields_trans _ _ _ Hs) in Hs'; clear Hs; rename Hs' into Hs;
           try (destruct x as [[? ?] ?])
         | first [ apply cache_only__collectDeps; [exact Hobs | exact Hc]
                 | apply cache_only__convertFunArgs; exact Hobs
                 | apply cache_only_unpack3
                 | apply cache_only_idxs
                 | apply cache_only_placeholder_decl
                 | apply cache_only_mapM; intros; apply cache_only_placeholder_decl
                 | apply Hco ] ] ]).
Qed.

(** X11. The default cache renders no call of a free function: with
    [cppNoRedir], the [get_cppStr] of a node whose rendering comes to a
    [CallMethod] or to a [DefinedVar] never returns a text, whatever the
    fuel; when it raises, no attribute of a node was assigned to. *)
Theorem default_cache_renders_no_call (h : heap) (a : addr) (fuel : nat) :
  needs_symbol h a ->
  match get_cppStr cppNoRedir fuel a h with
  | Ok _ _ => False
  | Raise _ h' => same_fields h h'
  | OutOfFuel => True
  end.
Proof.
  intros Hn.
  pose proof (cache_only_get_cppStr _ cppNoRedir_observes fuel a h) as Hco.
  destruct (get_cppStr cppNoRedir fuel a h) as [s h'|e h'|] eqn:Hr; [|done..].
  by eapply needs_symbol_never_rendered, Hr; [|apply same_fields_refl].
Qed.

End DefaultCache.

Lemma default_cache_renders_no_call_witness :
  needs_symbol call_heap 3 /\
  get_cppStr (H := example_runtime) cppNoRedir 5 3 call_heap
  = Raise (AttributeError "shouldDefine") call_heap /\
  match get_cppStr (H := example_runtime) cppNoRedir 5 3 call_heap with
  | Ok _ _ => False
  | Raise _ h' => same_fields call_heap h'
  | OutOfFuel => True
  end.
Proof.
  assert (Hn : needs_symbol call_heap 3).
  { eapply (needs_operand _ 3%nat _ 2%nat); [reflexivity| |by eapply needs_CallMethod].
    cbn. apply elem_of_cons. right. apply elem_of_cons. by left. }
  split; [exact Hn|]. split; [vm_compute; reflexivity|].
  exact (default_cache_renders_no_call (H := example_runtime) call_heap 3 5 Hn).
Defined.

Lemma reads_only_ret {A} (x : A) : reads_only (ret x).
Proof. by intros h. Qed.

Lemma reads_only_raise {A} e : reads_only (@raise A e).
Proof. by intros h. Qed.

Lemma reads_only_bind {A B} (m : M A) (k : A -> M B) :
  reads_only m -> (forall x, reads_only (k x)) -> reads_only (bind m k).
Proof.
  intros Hm Hk h. unfold bind. specialize (Hm h).
  destruct (m h) as [x h1| |]; [|done..]. subst h1. apply Hk.
Qed.

Lemma reads_only_get_fields a : reads_only (get_fields a).
Proof. intros h. unfold get_fields, get_object, bind, ret. by destruct (h !! a). Qed.

Lemma reads_only_get_cache a : reads_only (get_cache a).
Proof.
  intros h. unfold get_cache, get_object, bind, ret, raise.
  destruct (h !! a) as [o|]; [|done]. by destruct (_cache o).
Qed.

Lemma reads_only_attr_args o : reads_only (attr_args o).
Proof. destruct o; by intros h. Qed.

Lemma reads_only_tuple_last t : reads_only (tuple_last t).
Proof. unfold tuple_last. destruct (List.last _ _); by intros h. Qed.

Lemma reads_only_tuple_first t : reads_only (tuple_first t).
Proof. destruct t; by intros h. Qed.

Lemma reads_only_attr_name a : reads_only (attr_name a).
Proof.
  apply reads_only_bind; [apply reads_only_get_fields|].
  intros o. destruct o; try (by intros h). destruct i; by intros h.
Qed.

Lemma reads_only_attr_value a : reads_only (attr_value a).
Proof.
  apply reads_only_bind; [apply reads_only_get_fields|].
  intros o. destruct o; by intros h.
Qed.

Lemma fails_cleanly_reads {A} (m : M A) : reads_only m -> fails_cleanly m.
Proof. intros Hm h e h' Hr. specialize (Hm h). by rewrite Hr in Hm. Qed.

Lemma fails_cleanly_bind {A B} (m : M A) (k : A -> M B) :
  reads_only m -> (forall x, fails_cleanly (k x)) -> fails_cleanly (bind m k).
Proof.
  intros Hm Hk h e h'. unfold bind. specialize (Hm h).
  destruct (m h) as [x h1|e1 h1|]; [| |done].
  - subst h1. apply Hk.
  - by intros [= _ <-].
Qed.

Lemma fails_cleanly_set_fields a f : fails_cleanly (set_fields a f).
Proof. intros h e h'. unfold set_fields. destruct (h !! a); [done|]. by intros [= _ <-]. Qed.

Lemma fails_cleanly_set_attr_name a v : fails_cleanly (set_attr_name a v).
Proof.
  apply fails_cleanly_bind; [apply reads_only_get_fields|].
  intros o. destruct o; first [apply fails_cleanly_set_fields
                              | apply fails_cleanly_reads, reads_only_raise].
Qed.

Lemma fails_cleanly_set_attr_value a v : fails_cleanly (set_attr_value a v).
Proof.
  apply fails_cleanly_bind; [apply reads_only_get_fields|].
  intros o. destruct o; first [apply fails_cleanly_set_fields
                              | apply fails_cleanly_reads, reads_only_raise].
Qed.

Ltac clean_tac :=
  repeat first
    [ apply fails_cleanly_set_attr_name
    | apply fails_cleanly_set_attr_value
    | apply fails_cleanly_bind; [|intros ?]
    | apply reads_only_get_fields
    | apply reads_only_get_cache
    | apply reads_only_attr_args
    | apply reads_only_tuple_last
    | apply reads_only_tuple_first
    | apply reads_only_attr_name
    | apply reads_only_attr_value
    | apply fails_cleanly_reads, reads_only_raise
    | apply fails_cleanly_reads, reads_only_ret
    | match goal with
      | |- fails_cleanly (if ?x then _ else _) => destruct x
      | |- fails_cleanly (match ?x with _ => _ end) => destruct x
      end ].

Lemma fails_cleanly_changeVariation w v : fails_cleanly (changeVariation w v).
Proof.
  unfold changeVariation, ScaleFactorWithSystOp_changeVariation,
    SystModifiedCollectionOp_changeVariation.
  clean_tac.
Qed.

(** X12. A call of [changeVariation] that fails changes nothing: whatever
    it raises, the store is as it was; and on a wrapper that is not frozen,
    a name that is not among the variations raises ValueError with the
    message of the class. *)
Theorem changeVariation_fails_cleanly (h : heap) (w : addr) (v : string) :
  (forall e h', changeVariation w v h = Raise e h' -> h' = h) /\
  (forall f c, h !! w = Some (mkObject f (Some c)) -> is_wrapper f = true ->
     cache_bool c = false -> declared v f = false ->
     changeVariation w v h = Raise (ValueError (undeclared_msg f v)) h).
Proof.
  split; [intros e h'; apply fails_cleanly_changeVariation|].
  intros f c Hw Hwr Hc Hd. unfold changeVariation.
  rewrite (bind_Ok _ _ _ _ _ (get_fields_Ok _ _ _ Hw)). cbn [fields].
  destruct f; try discriminate; cbn in Hd.
  - unfold ScaleFactorWithSystOp_changeVariation.
    rewrite (bind_Ok _ _ _ _ _ (get_cache_Ok _ _ _ _ Hw)). by rewrite Hc, Hd.
  - unfold SystModifiedCollectionOp_changeVariation.
    rewrite (bind_Ok _ _ _ _ _ (get_cache_Ok _ _ _ _ Hw)). by rewrite Hc, Hd.
Qed.

Lemma changeVariation_fails_cleanly_witness :
  (forall e h', changeVariation 3 "elidsideways" sf_heap = Raise e h' -> h' = sf_heap) /\
  changeVariation 3 "elidsideways" sf_heap
  = Raise (ValueError "Invalid variation: elidsideways") sf_heap.
Proof.
  destruct (changeVariation_fails_cleanly sf_heap 3 "elidsideways") as [H1 H2].
  split; [exact H1|].
  exact (H2 _ _ eq_refl eq_refl eq_refl eq_refl).
Defined.

(** *** The default variations of a scale factor *)

Lemma startswith_app p s : PyStr.startswith p (p ++ s) = true.
Proof.
  unfold PyStr.startswith. induction p as [|c p IH]; simpl; [by destruct s|].
  destruct (Ascii.ascii_dec c c); [exact IH | done].
Qed.

Lemma drop_app p s : PyStr.drop (String.length p) (p ++ s) = s.
Proof. induction p as [|c p IH]; simpl; [by destruct s | exact IH]. Qed.

Lemma name_of_with_name f nm v : name_of f = Some nm -> String.get 0 nm <> Some "i"%char ->
  is_Some (with_name f v).
Proof.
  destruct f; cbn; try done; try (by eexists).
  destruct i; [|done]. intros [= <-]. cbn. done.
Qed.

(** X13. The default variations of a scale factor select [Up] and
    [Down]: for a wrapper made without variations around a call whose
    last argument is named [Nominal], [changeVariation] with the name of
    the systematic followed by [up] (by [down]) returns and has assigned
    [Up] ([Down]) to the name of that argument, and nothing else. *)
Theorem default_variations_select_Up_Down (wrapped : addr) (systName : string)
    (h : heap) (w : addr) (h1 : heap) (sel : addr) (so : PyObject) :
  ScaleFactorWithSystOp_init wrapped systName [] h = Ok w h1 ->
  selector h (ScaleFactorWithSystOp wrapped systName []) = Some sel ->
  h !! sel = Some so ->
  name_of (fields so) = Some "Nominal" ->
  exists up down,
    with_name (fields so) "Up" = Some up /\
    with_name (fields so) "Down" = Some down /\
    changeVariation w (systName ++ "up") h1
    = Ok tt (<[sel := mkObject up (_cache so)]> h1) /\
    changeVariation w (systName ++ "down") h1
    = Ok tt (<[sel := mkObject down (_cache so)]> h1).
Proof.
  intros Hinit Hsel Hso Hnm. injection Hinit as <- <-.
  destruct (name_of_with_name _ _ "Up" Hnm) as [up Hup]; [done|].
  destruct (name_of_with_name _ _ "Down" Hnm) as [down Hdown]; [done|].
  exists up, down. split; [done|]. split; [done|].
  cbn in Hsel. destruct (h !! wrapped) as [ow|] eqn:How; [|done]. cbn in Hsel.
  destruct (args_of (fields ow)) as [args|] eqn:Hargs; [|done]. cbn in Hsel.
  set (wr := mkObject (ScaleFactorWithSystOp wrapped systName
                         [systName ++ "up"; systName ++ "down"]) (Some empty_cache)).
  assert (Hw : (h ++ [wr])%list !! length h = Some wr) by (by rewrite lookup_app_len).
  assert (How1 : (h ++ [wr])%list !! wrapped = Some ow).
  { rewrite lookup_app_l; [done | by eapply lookup_lt_Some]. }
  assert (Hso1 : (h ++ [wr])%list !! sel = Some so).
  { rewrite lookup_app_l; [done | by eapply lookup_lt_Some]. }
  assert (Hlast : forall h0, tuple_last args h0 = Ok sel h0).
  { intros h0. unfold tuple_last. by rewrite Hsel. }
  assert (Hset : forall v f', with_name (fields so) v = Some f' ->
            set_attr_name sel v (h ++ [wr])%list
            = Ok tt (<[sel := mkObject f' (_cache so)]> (h ++ [wr])%list)).
  { intros v f' Hv. unfold set_attr_name.
    rewrite (bind_Ok _ _ _ _ _ (get_fields_Ok _ _ _ Hso1)).
    destruct (fields so); cbn in Hv; try done; injection Hv as <-;
      unfold set_fields; by rewrite Hso1. }
  assert (Hrun : forall d f',
            str_in (systName ++ d) [systName ++ "up"; systName ++ "down"] = true ->
            String.eqb (PyStr.capitalize d) "Nominal" = false ->
            with_name (fields so) (PyStr.capitalize d) = Some f' ->
            changeVariation (length h) (systName ++ d) (h ++ [wr])%list
            = Ok tt (<[sel := mkObject f' (_cache so)]> (h ++ [wr])%list)).
  { intros d f' Hin Hne Hf'. unfold changeVariation.
    rewrite (bind_Ok _ _ _ _ _ (get_fields_Ok _ _ _ Hw)). cbn [fields wr].
    unfold ScaleFactorWithSystOp_changeVariation.
    rewrite (bind_Ok _ _ _ _ _ (get_cache_Ok _ _ _ _ Hw)).
    change (cache_bool empty_cache) with false. cbv iota.
    rewrite Hin. cbn [negb]. rewrite startswith_app, drop_app.
    rewrite (bind_Ok _ _ _ _ _ (get_fields_Ok _ _ _ How1)).
    rewrite !(bind_Ok _ _ _ _ _ (attr_args_Ok _ _ _ Hargs)).
    rewrite !(bind_Ok _ _ _ _ _ (Hlast _)).
    rewrite !(bind_Ok _ _ _ _ _ (attr_name_Ok _ _ _ _ Hso1 Hnm)).
    cbv beta. rewrite String.eqb_refl.
    rewrite !(bind_Ok _ _ _ _ _ (attr_args_Ok _ _ _ Hargs)).
    rewrite !(bind_Ok _ _ _ _ _ (Hlast _)).
    rewrite !(bind_Ok _ _ _ _ _ (attr_name_Ok _ _ _ _ Hso1 Hnm)).
    cbv beta. rewrite Hne. cbn [negb].
    rewrite !(bind_Ok _ _ _ _ _ (attr_args_Ok _ _ _ Hargs)).
    rewrite !(bind_Ok _ _ _ _ _ (Hlast _)).
    by apply Hset. }
  split.
  - apply (Hrun "up"); [|done..]. cbn [str_in existsb]. by rewrite String.eqb_refl.
  - apply (Hrun "down"); [|done..]. cbn [str_in existsb].
    by rewrite String.eqb_refl, orb_true_r.
Qed.

Lemma default_variations_select_Up_Down_witness :
  let wr := mkObject (ScaleFactorWithSystOp 2 "elid" ["elidup"; "eliddown"]) (Some empty_cache) in
  ScaleFactorWithSystOp_init 2 "elid" [] sf_heap
  = Ok 4%nat (sf_heap ++ [wr])%list /\
  selector sf_heap (ScaleFactorWithSystOp 2 "elid" []) = Some 1%nat /\
  changeVariation 4 "elidup" (sf_heap ++ [wr])%list
  = Ok tt (<[1%nat := mkObject (ExtVar "int" "Up") (Some empty_cache)]> (sf_heap ++ [wr])%list) /\
  changeVariation 4 "eliddown" (sf_heap ++ [wr])%list
  = Ok tt (<[1%nat := mkObject (ExtVar "int" "Down") (Some empty_cache)]> (sf_heap ++ [wr])%list).
Proof.
  intros wr. split; [reflexivity|]. split; [reflexivity|].
  destruct (default_variations_select_Up_Down 2 "elid" sf_heap 4
              (sf_heap ++ [wr])%list 1 (mkObject (ExtVar "int" "Nominal") (Some empty_cache))
              eq_refl eq_refl eq_refl eq_refl) as (up & down & [= <-] & [= <-] & Hup & Hdown).
  by split.
Defined.

(** *** Operators are looked up when rendering *)

Section Operators.
Context `{Runtime}.

(** X14. [MathOp] checks nothing when it is made: any operator name and
    any number of operands give a node. The operator is looked up when
    the node is rendered: a name that is not in [mathOpFuns_cppStr] raises
    KeyError then, and a number of operands other than the one its entry
    takes raises TypeError, in both cases before any operand is rendered
    and with the store unchanged. *)
Theorem MathOp_checked_when_rendered (defCache : DefCache) (fuel : nat) (op : string)
    (args : list pyarg) (outType : string) (h : heap) (a : addr) (h1 : heap) :
  MathOp_init op args outType h = Ok a h1 ->
  (exists args', node h1 a = Some (MathOp outType op args') /\ length args' = length args) /\
  (dict_get mathOpFuns_cppStr op = None ->
   get_cppStr defCache (S fuel) a h1 = Raise (KeyError op) h1) /\
  (forall fn n, dict_get mathOpFuns_cppStr op = Some fn -> arity fn = Some n ->
     length args <> n ->
     exists msg, get_cppStr defCache (S fuel) a h1 = Raise (TypeError msg) h1).
Proof.
  intros Hinit. unfold MathOp_init in Hinit.
  apply bind_inv_Ok in Hinit as (args' & h0 & Hargs & Hnew). injection Hnew as <- <-.
  apply mapM_length in Hargs.
  set (o := mkObject (MathOp outType op args') (Some empty_cache)).
  assert (Ha : (h0 ++ [o])%list !! length h0 = Some o) by (by rewrite lookup_app_len).
  assert (Hf : get_fields (length h0) (h0 ++ [o])%list
               = Ok (MathOp outType op args') (h0 ++ [o])%list)
    by exact (get_fields_Ok _ _ _ Ha).
  split; [|split].
  - exists args'. split; [|done]. unfold node. by rewrite Ha.
  - intros Hop. cbn [get_cppStr]. rewrite (bind_Ok _ _ _ _ _ Hf). by rewrite Hop.
  - intros fn n Hop Har Hlen. eexists. cbn [get_cppStr].
    rewrite (bind_Ok _ _ _ _ _ Hf). rewrite Hop. rewrite <- Hargs in Hlen.
    destruct fn; cbn in Har; try discriminate; injection Har as <-.
    + destruct args' as [|a1 [|a2 l]]; try done.
    + destruct args' as [|a1 [|a2 [|a3 l]]]; try done.
    + destruct args' as [|a1 [|a2 [|a3 [|a4 l]]]]; try done.
Qed.

(** X15. How a literal is rendered: a Python value given as operand with
    a type hint becomes one new [Const] node; a [str] is rendered between
    double quotes, as it is; an [int] in decimal; a float by its [repr],
    but the infinities as the [max()] and, for the negative one, the
    [min()] of [std::numeric_limits] of the type hint. Without type hint
    [adaptArg] raises ValueError and makes no node. *)
Theorem literal_rendering (defCache : DefCache) (fuel : nat) (t : string) (h : heap) :
  let render v :=
    (let* a := adaptArg (ArgVal v) (Some t) in get_cppStr defCache (S fuel) a) h in
  let made v := (h ++ [mkObject (Const t v) (Some empty_cache)])%list in
  (forall s, render (PyString s) = Ok (quoted s) (made (PyString (quoted s)))) /\
  (forall z, render (PyInt z) = Ok (PyStr.of_Z z) (made (PyInt z))) /\
  (forall x, (forall neg, x <> PyInf neg) ->
     render (PyFloat x) = Ok (PyFloat.repr x) (made (PyFloat x))) /\
  (forall neg, render (PyFloat (PyInf neg))
               = Ok ("std::numeric_limits<" ++ t ++ ">::" ++ (if neg then "min" else "max")
                     ++ "()") (made (PyFloat (PyInf neg)))) /\
  (forall v, adaptArg (ArgVal v) None h
             = Raise (ValueError "Should get some kind of type hint") h).
Proof.
  intros render made.
  assert (Hrun : forall v v', adaptArg (ArgVal v) (Some t) h = Ok (length h) (made v') ->
            render v = Ok (Const_get_cppStr t v') (made v')).
  { intros v v' Ha. unfold render. rewrite (bind_Ok _ _ _ _ _ Ha). cbn [get_cppStr].
    assert (Hl : made v' !! length h = Some (mkObject (Const t v') (Some empty_cache)))
      by (unfold made; by rewrite lookup_app_len).
    by rewrite (bind_Ok _ _ _ _ _ (get_fields_Ok _ _ _ Hl)). }
  split; [|split; [|split; [|split]]].
  - intros s. by rewrite (Hrun (PyString s) (PyString (quoted s)) eq_refl).
  - intros z. by rewrite (Hrun (PyInt z) (PyInt z) eq_refl).
  - intros x Hx. rewrite (Hrun (PyFloat x) (PyFloat x) eq_refl).
    destruct x; try done. by destruct (Hx neg).
  - intros neg. by rewrite (Hrun (PyFloat (PyInf neg)) _ eq_refl).
  - done.
Qed.

End Operators.

Lemma MathOp_checked_when_rendered_witness :
  MathOp_init "sin" [ArgOp 0%nat; ArgOp 1%nat] "Double_t" columns_heap
  = Ok 4%nat (columns_heap ++ [mkObject (MathOp "Double_t" "sin" [0%nat; 1%nat])
                                 (Some empty_cache)])%list /\
  MathOp_init "sqrt" [ArgOp 0%nat; ArgOp 1%nat] "Double_t" columns_heap
  = Ok 4%nat (columns_heap ++ [mkObject (MathOp "Double_t" "sqrt" [0%nat; 1%nat])
                                 (Some empty_cache)])%list /\
  get_cppStr (H := example_runtime) cppNoRedir 3 4
    (columns_heap ++ [mkObject (MathOp "Double_t" "sin" [0%nat; 1%nat]) (Some empty_cache)])%list
  = Raise (KeyError "sin")
      (columns_heap ++ [mkObject (MathOp "Double_t" "sin" [0%nat; 1%nat])
                          (Some empty_cache)])%list /\
  exists msg,
    get_cppStr (H := example_runtime) cppNoRedir 3 4
      (columns_heap ++ [mkObject (MathOp "Double_t" "sqrt" [0%nat; 1%nat])
                          (Some empty_cache)])%list
    = Raise (TypeError msg)
        (columns_heap ++ [mkObject (MathOp "Double_t" "sqrt" [0%nat; 1%nat])
                            (Some empty_cache)])%list.
Proof.
  split; [reflexivity|]. split; [reflexivity|]. split.
  - exact (proj1 (proj2 (MathOp_checked_when_rendered (H := example_runtime) cppNoRedir 2
                           "sin" [ArgOp 0%nat; ArgOp 1%nat] "Double_t" columns_heap 4 _ eq_refl))
             eq_refl).
  - exact (proj2 (proj2 (MathOp_checked_when_rendered (H := example_runtime) cppNoRedir 2
                           "sqrt" [ArgOp 0%nat; ArgOp 1%nat] "Double_t" columns_heap 4 _ eq_refl))
             (Unary "std::sqrt( " " )") 1%nat eq_refl eq_refl ltac:(discriminate)).
Defined.

Lemma literal_rendering_witness :
  (let* a := adaptArg (ArgVal (PyString "tight")) (Some "std::string") in
   get_cppStr (H := example_runtime) cppNoRedir 1 a) []
  = Ok (quoted "tight") [mkObject (Const "std::string" (PyString (quoted "tight")))
                           (Some empty_cache)] /\
  (let* a := adaptArg (ArgVal (PyFloat (PyInf true))) (Some "float") in
   get_cppStr (H := example_runtime) cppNoRedir 1 a) []
  = Ok "std::numeric_limits<float>::min()"
       [mkObject (Const "float" (PyFloat (PyInf true))) (Some empty_cache)] /\
  (let* a := adaptArg (ArgVal (PyFloat (PyFinite false 15 1))) (Some "float") in
   get_cppStr (H := example_runtime) cppNoRedir 1 a) []
  = Ok "30.0" [mkObject (Const "float" (PyFloat (PyFinite false 15 1))) (Some empty_cache)].
Proof.
  split; [|split].
  - exact (proj1 (literal_rendering (H := example_runtime) cppNoRedir 0 "std::string" [])
             "tight").
  - exact (proj1 (proj2 (proj2 (proj2
             (literal_rendering (H := example_runtime) cppNoRedir 0 "float" [])))) true).
  - exact (proj1 (proj2 (proj2
             (literal_rendering (H := example_runtime) cppNoRedir 0 "float" [])))
             (PyFinite false 15 1) ltac:(discriminate)).
Defined.

Lemma filterM_all {A} (l : list A) h : filterM (fun _ => ret true) l h = Ok l h.
Proof.
  induction l as [|x l IH]; cbn [filterM]; [done|].
  unfold bind at 1. cbn. rewrite (bind_Ok _ _ _ _ _ IH). done.
Qed.

Lemma concatM_Ok_elem {A B} (f : A -> M (list B)) (l : list A) h r h' y :
  (forall a, cache_only (f a)) -> concatM f l h = Ok r h' -> y ∈ l ->
  exists h1 ys h2, same_fields h h1 /\ f y h1 = Ok ys h2 /\ forall z, z ∈ ys -> z ∈ r.
Proof.
  intros Hf. revert h r h'. induction l as [|a l IH]; intros h r h' Hr Hy.
  - by apply elem_of_nil in Hy.
  - cbn [concatM] in Hr. apply bind_inv_Ok in Hr as (ys & h1 & Hys & Hr).
    apply bind_inv_Ok in Hr as (zs & h2 & Hzs & Hr). injection Hr as <- <-.
    apply elem_of_cons in Hy as [->|Hy].
    + exists h, ys, h1. split; [apply same_fields_refl|]. split; [done|].
      intros z Hz. apply elem_of_app. by left.
    + destruct (IH _ _ _ Hzs Hy) as (h3 & ys' & h4 & Hs & Hfy & Hsub).
      exists h3, ys', h4. split; [|split; [done|]].
      * eapply same_fields_trans; [|exact Hs]. by eapply cache_only_Ok.
      * intros z Hz. apply elem_of_app. right. by apply Hsub.
Qed.

Lemma elem_of_swap2 {A} (y b : A) (rs : list A) : y ∈ b :: rs -> y ∈ (rs ++ [b])%list.
Proof.
  intros Hy. apply elem_of_app. apply elem_of_cons in Hy as [->|Hy]; [right; left | by left].
Qed.

Section Complete.
Context `{ObserverLaws}.
Variables (defCache : DefCache) (select : pyobj -> M bool).
Hypothesis Hcache : observer_cache defCache.
Hypothesis Hnames : names_no_column defCache.
Hypothesis Hselect : forall o, cache_only (select o).
Variables (h : heap) (x : addr).
Hypothesis Haccepted : forall h0 b h1,
  same_fields h h0 -> select (POp x) h0 = Ok b h1 -> b = true.

(** What the dependencies of [y] are to hold, on any store with the
    nodes of [h]. *)
Let holds_x (rec : addr -> M (list (option addr))) (y : addr) : Prop :=
  forall h0 ds h1, same_fields h h0 -> rec y h0 = Ok ds h1 -> Some x ∈ ds.

Lemma deps_of_arg_found rec y h0 ys h1 :
  same_fields h h0 ->
  deps_of_arg select rec y h0 = Ok ys h1 ->
  y = x \/ holds_x rec y -> Some x ∈ ys.
Proof.
  intros Hs Hr Hy. unfold deps_of_arg in Hr.
  apply bind_inv_Ok in Hr as (s & h2 & Hsel & Hr).
  apply bind_inv_Ok in Hr as (ds & h3 & Hds & Hr). injection Hr as <- <-.
  destruct Hy as [->|Hy].
  - rewrite (Haccepted _ _ _ Hs Hsel). left.
  - assert (Some x ∈ ds).
    { eapply Hy; [|exact Hds]. eapply same_fields_trans; [exact Hs|].
      by eapply cache_only_Ok. }
    destruct s; [by right | done].
Qed.

Lemma deps_of_arg_local_found fuel rec _i y h0 ys h1 :
  same_fields h h0 ->
  deps_of_arg_local select true fuel rec _i y h0 = Ok ys h1 ->
  y = x \/ holds_x rec y -> Some x ∈ ys.
Proof.
  intros Hs Hr Hy. unfold deps_of_arg_local in Hr.
  apply bind_inv_Ok in Hr as (s & h2 & Hsel & Hr).
  apply bind_inv_Ok in Hr as (ds & h3 & Hds & Hr).
  rewrite (bind_Ok _ _ _ _ _ (filterM_all ds h3)) in Hr. injection Hr as <- <-.
  destruct Hy as [->|Hy].
  - rewrite (Haccepted _ _ _ Hs Hsel). left.
  - assert (Some x ∈ ds).
    { eapply Hy; [|exact Hds]. eapply same_fields_trans; [exact Hs|].
      by eapply cache_only_Ok. }
    destruct s; [by right | done].
Qed.

Lemma deps_of_arg_bare_found fuel rec y locals h0 ys h1 :
  same_fields h h0 ->
  deps_of_arg_bare select true fuel (rec y) (POp y) locals h0 = Ok ys h1 ->
  holds_x rec y -> Some x ∈ ys.
Proof.
  intros Hs Hr Hy. unfold deps_of_arg_bare in Hr.
  apply bind_inv_Ok in Hr as (s & h2 & Hsel & Hr).
  apply bind_inv_Ok in Hr as (ds & h3 & Hds & Hr).
  rewrite (bind_Ok _ _ _ _ _ (filterM_all ds h3)) in Hr. injection Hr as <- <-.
  assert (Some x ∈ ds).
  { eapply Hy; [|exact Hds]. eapply same_fields_trans; [exact Hs|].
    by eapply cache_only_Ok. }
  destruct s; [by right | done].
Qed.

Lemma unless_defined_body self body h0 l h1 :
  same_fields h h0 -> unless_defined defCache self body h0 = Ok l h1 ->
  exists h2, same_fields h h2 /\ body h2 = Ok l h1.
Proof.
  intros Hs Hr. unfold unless_defined in Hr.
  apply bind_inv_Ok in Hr as (cn & h2 & Hcn & Hr).
  rewrite (Hnames _ _ _ _ Hcn) in Hr. exists h2. split; [|done].
  eapply same_fields_trans; [exact Hs|]. eapply cache_only_Ok; [|exact Hcn].
  by apply Hcache.
Qed.

Lemma below_found a :
  below h a x ->
  forall fuel h0 l h1, same_fields h h0 ->
    deps defCache select true fuel a h0 = Ok l h1 -> Some x ∈ l.
Proof.
  assert (Hrec : forall fuel y, cache_only (deps defCache select true fuel y)).
  { intros fuel y. by apply cache_only_deps_any. }
  assert (Harg : forall fuel y, cache_only (deps_of_arg select
                   (deps defCache select true fuel) y)).
  { intros fuel y. unfold deps_of_arg. cache_only_tac. }
  assert (Hloc : forall fuel i y, cache_only (deps_of_arg_local select true fuel
                   (deps defCache select true fuel) i y)).
  { intros fuel i y. unfold deps_of_arg_local.
    repeat first [apply cache_only_filterM; intros ? | progress cache_only_tac]. }
  assert (Hbare : forall fuel locals y, cache_only (deps_of_arg_bare select true fuel
                   (deps defCache select true fuel y) (POp y) locals)).
  { intros fuel locals y. unfold deps_of_arg_bare.
    repeat first [apply cache_only_filterM; intros ? | progress cache_only_tac]. }
  intros Hb.
  assert (Hstep : forall a0 f, node h a0 = Some f ->
            (exists y, y ∈ (yielded f ++ passed_on f)%list /\
               ((y = x /\ y ∈ yielded f) \/
                forall fuel h0 l h1, same_fields h h0 ->
                  deps defCache select true fuel y h0 = Ok l h1 -> Some x ∈ l)) ->
            forall fuel h0 l h1, same_fields h h0 ->
              deps defCache select true fuel a0 h0 = Ok l h1 -> Some x ∈ l).
  { clear Hb a. intros a f Ha (y & Hy & Hfound) [|fuel] h0 l h1 Hs Hr; [done|].
    cbn [deps] in Hr. apply bind_inv_Ok in Hr as (f0 & h2 & Hf & Hr).
    apply get_fields_node in Hf as [-> Hf].
    rewrite (same_fields_node _ _ _ Hs), Ha in Hf. injection Hf as <-.
    assert (Hy' : forall fuel, y = x \/ holds_x (deps defCache select true fuel) y).
    { intros fuel0. destruct Hfound as [[-> _]|Hfound]; [by left|].
      right. intros ? ? ? ? ?. by eapply Hfound. }
    assert (Hp : y ∈ passed_on f -> forall fuel,
              holds_x (deps defCache select true fuel) y).
    { intros Hpo fuel0. destruct Hfound as [[-> Hyy]|Hfound].
      - destruct f; cbn in Hpo, Hyy; try (by apply elem_of_nil in Hpo);
          by apply elem_of_nil in Hyy.
      - intros ? ? ? ? ?. by eapply Hfound. }
    assert (Hcat : forall args h2, same_fields h h2 -> y ∈ args ->
              concatM (deps_of_arg select (deps defCache select true fuel)) args h2
              = Ok l h1 -> Some x ∈ l).
    { intros args h2 Hs2 Hin Hc.
      destruct (concatM_Ok_elem _ _ _ _ _ _ (Harg fuel) Hc Hin)
        as (h3 & ys & h4 & Hs3 & Hys & Hsub).
      apply Hsub. eapply deps_of_arg_found; [|exact Hys|apply Hy'].
      by eapply same_fields_trans. }
    destruct f; cbn [yielded passed_on yielded_as_operand app] in Hy, Hp;
      try (by apply elem_of_nil in Hy).
    all: rewrite ?app_nil_r in Hy; cbn [app] in Hy.
    all: try (apply unless_defined_body in Hr as (h2 & Hs2 & Hr); [|done]).
    all: try (by eapply Hcat).
    all: try (apply list_elem_of_singleton in Hy as ->).
    all: try (eapply deps_of_arg_found; [|exact Hr|apply Hy']; done).
    all: try (eapply (Hp ltac:(left) fuel); [|exact Hr]; done).
    1-4: apply bind_inv_Ok in Hr as (r & h3 & Hrng & Hr);
      unfold proxy_op in Hrng; destruct (_parent (rng_proxy rng)) as [r0|]; [|done];
      injection Hrng as <- <-;
      apply elem_of_swap2 in Hy;
      destruct (concatM_Ok_elem _ _ _ _ _ _ (Hloc fuel _i) Hr Hy)
        as (h4 & ys & h5 & Hs4 & Hys & Hsub);
      apply Hsub; eapply deps_of_arg_local_found; [|exact Hys|apply Hy'];
      by eapply same_fields_trans.
    - apply bind_inv_Ok_same in Hr as (d1 & h3 & Hs3 & Hr).
      2:{ unfold deps_of_arg_bare.
          repeat first [apply cache_only_filterM; intros ? | apply proxy_deps_observes
                       | progress cache_only_tac]. }
      apply bind_inv_Ok in Hr as (d2 & h4 & Hd2 & Hr). injection Hr as <- <-.
      destruct (concatM_Ok_elem _ _ _ _ _ _ (Hbare fuel _) Hd2 Hy)
        as (h5 & ys & h6 & Hs5 & Hys & Hsub).
      apply elem_of_app. right. apply Hsub.
      eapply deps_of_arg_bare_found; [|exact Hys|by apply Hp].
      eapply same_fields_trans; [exact Hs2|]. by eapply same_fields_trans.
    - apply bind_inv_Ok_same in Hr as (d1 & h3 & Hs3 & Hr).
      2:{ apply cache_only_concatM. intros r. unfold deps_of_arg_bare.
          repeat first [apply cache_only_filterM; intros ? | apply proxy_deps_observes
                       | progress cache_only_tac]. }
      apply bind_inv_Ok in Hr as (d2 & h4 & Hd2 & Hr). injection Hr as <- <-.
      apply elem_of_app. right.
      eapply deps_of_arg_bare_found; [|exact Hd2|apply Hp; left].
      by eapply same_fields_trans. }
  induction Hb as [a f x0 Ha Hx|a f y x0 Ha Hy Hb IH].
  - eapply Hstep; [exact Ha|]. exists x0. split; [apply elem_of_app; by left|]. by left.
  - eapply Hstep; [exact Ha|]. exists y. split; [done|]. right. by apply IH.
Qed.

(** X16. [deps] leaves out nothing that is selected: with
    [includeLocal], under a cache that has a column for no node, every
    node below [a] that [select] accepts is in the enumeration of [a],
    whenever [deps] returns. *)
Theorem deps_yields_everything_below (fuel : nat) (a : addr) (l : list (option addr))
    (h' : heap) :
  below h a x ->
  deps defCache select true fuel a h = Ok l h' ->
  Some x ∈ l.
Proof.
  intros Hb Hr. eapply below_found; [exact Hb | apply same_fields_refl | exact Hr].
Qed.

End Complete.

Lemma mapM_Ok_elem_in {A B} (f : A -> M B) (l : list A) h rs h' b :
  (forall a, cache_only (f a)) -> mapM f l h = Ok rs h' -> b ∈ l ->
  exists h1 s h2, same_fields h h1 /\ f b h1 = Ok s h2 /\ In s rs.
Proof.
  intros Hf. revert h rs h'. induction l as [|x l IH]; intros h rs h' Hr Hb.
  - by apply elem_of_nil in Hb.
  - cbn [mapM] in Hr. apply bind_inv_Ok in Hr as (y & h1 & Hy & Hr).
    apply bind_inv_Ok in Hr as (ys & h2 & Hys & Hr). injection Hr as <- <-.
    apply elem_of_cons in Hb as [->|Hb].
    + exists h, y, h1. split; [apply same_fields_refl|]. split; [done | by left].
    + destruct (IH _ _ _ Hys Hb) as (h3 & s & h4 & Hs & Hfb & Hin).
      exists h3, s, h4. split; [|split; [done | by right]].
      eapply same_fields_trans; [|exact Hs]. by eapply cache_only_Ok.
Qed.

Lemma names_no_column_cppNoRedir : names_no_column cppNoRedir.
Proof. by intros o h cn h' [= <- _]. Qed.

Section Scan.
Context `{ObserverLaws}.

(** X17. The scan of a factory misses no placeholder below the body:
    when [max_placeholder_index] returns [m] for [e], every placeholder
    that is [e] or below [e] and has an index has one that is at most [m];
    so the index [m + 1] that [fromRngFun] gives is above them all. *)
Theorem max_placeholder_index_bounds (fuel : nat) (e : addr) (h : heap) (m : Z) (h' : heap)
    (x : addr) (th : string) (p : option addr) (k : Z) :
  max_placeholder_index fuel e h = Ok m h' ->
  x = e \/ below h e x ->
  node h x = Some (LocalVariablePlaceholder th p (Some k)) ->
  k <= m.
Proof.
  intros Hr Hx Hnode. unfold max_placeholder_index in Hr.
  apply bind_inv_Ok in Hr as (nds & h1 & Hnds & Hr).
  apply bind_inv_Ok in Hr as (idxs & h2 & Hidxs & Hr). injection Hr as <- _.
  assert (Hacc : forall h0 b h3, same_fields h h0 ->
            is_placeholder (POp x) h0 = Ok b h3 -> b = true).
  { intros h0 b h3 Hs Hb. cbn [is_placeholder] in Hb.
    apply bind_inv_Ok in Hb as (f & h4 & Hf & Hb).
    apply get_fields_node in Hf as [-> Hf].
    rewrite (same_fields_node _ _ _ Hs), Hnode in Hf. injection Hf as <-.
    by injection Hb as <- _. }
  assert (Hco : cache_only (collectNodes fuel e is_placeholder)).
  { unfold collectNodes. apply cache_only_bind; [apply cache_only_is_placeholder|].
    intros s. apply cache_only_bind; [|intros; apply cache_only_ret].
    apply cache_only_deps_any; [apply cppNoRedir_observes|].
    apply cache_only_is_placeholder. }
  assert (Hin : Some x ∈ nds).
  { unfold collectNodes in Hnds.
    apply bind_inv_Ok in Hnds as (s & h3 & Hs & Hnds).
    apply bind_inv_Ok in Hnds as (ds & h4 & Hds & Hnds). injection Hnds as <- _.
    destruct Hx as [->|Hx].
    - rewrite (Hacc _ _ _ (same_fields_refl h) Hs). left.
    - assert (Some x ∈ ds).
      { eapply (below_found cppNoRedir is_placeholder cppNoRedir_observes
                  names_no_column_cppNoRedir cache_only_is_placeholder h x Hacc e Hx);
          [|exact Hds].
        eapply cache_only_Ok; [apply cache_only_is_placeholder | exact Hs]. }
      destruct s; [by right | done]. }
  assert (Hattr : forall nd, cache_only (let* i := attr_i nd in ret (default (-1) i))).
  { intros nd. unfold attr_i. destruct nd; cache_only_tac. }
  destruct (mapM_Ok_elem_in _ _ _ _ _ _ Hattr Hidxs Hin) as (h3 & s & h4 & Hs & Hk & Hks).
  assert (s = k) as ->.
  { apply bind_inv_Ok in Hk as (i & h5 & Hi & Hk). injection Hk as <- _.
    cbn [attr_i] in Hi. apply bind_inv_Ok in Hi as (f & h6 & Hf & Hi).
    apply get_fields_node in Hf as [-> Hf].
    assert (Hs3 : same_fields h h3).
    { eapply same_fields_trans; [|exact Hs]. by eapply cache_only_Ok. }
    rewrite (same_fields_node _ _ _ Hs3), Hnode in Hf. injection Hf as <-.
    by injection Hi as <- _. }
  by apply max_from_upper.
Qed.

End Scan.

Lemma below_select_heap : below select_heap 5 2.
Proof.
  eapply (below_step _ 5%nat _ 3%nat); [reflexivity| |].
  - cbn. apply elem_of_cons. by left.
  - eapply (below_yielded _ 3%nat); [reflexivity|].
    cbn. apply elem_of_cons. right. apply elem_of_cons. by left.
Qed.

Lemma deps_yields_everything_below_witness :
  exists l h',
    below select_heap 6 2 /\
    deps (H := example_runtime) cppNoRedir (fun _ => ret true) true 6 6 select_heap = Ok l h' /\
    Some 2%nat ∈ l.
Proof.
  assert (Hb : below select_heap 6 2).
  { eapply (below_step _ 6%nat _ 5%nat); [reflexivity| |exact below_select_heap].
    cbn. apply elem_of_cons. by left. }
  destruct (deps (H := example_runtime) cppNoRedir (fun _ => ret true) true 6 6 select_heap)
    as [l h'| |] eqn:Hd; [|by vm_compute in Hd..].
  exists l, h'. split; [exact Hb|]. split; [done|].
  apply (deps_yields_everything_below (H := example_runtime) cppNoRedir (fun _ => ret true)
           cppNoRedir_observes names_no_column_cppNoRedir
           (fun _ => cache_only_ret true) select_heap 2) with (3 := Hd); [|exact Hb].
  by intros h0 b h1 _ [= <- _].
Defined.

Lemma max_placeholder_index_bounds_witness :
  exists m h',
    max_placeholder_index (H := example_runtime) 6 5 select_heap = Ok m h' /\
    (2%nat = 5%nat \/ below select_heap 5 2) /\
    node select_heap 2 = Some (LocalVariablePlaceholder SizeType (Some 6%nat) (Some 0)) /\
    0 <= m.
Proof.
  destruct (max_placeholder_index (H := example_runtime) 6 5 select_heap)
    as [m h'| |] eqn:Hm; [|by vm_compute in Hm..].
  exists m, h'. split; [done|]. split; [right; exact below_select_heap|].
  split; [reflexivity|].
  exact (max_placeholder_index_bounds (H := example_runtime) 6 5 select_heap m h' 2 SizeType
           (Some 6%nat) 0 Hm (or_intror below_select_heap) eq_refl).
Defined.

Lemma grows_refl memo : grows memo memo.
Proof. by intros k v. Qed.

Lemma grows_trans m1 m2 m3 : grows m1 m2 -> grows m2 m3 -> grows m1 m3.
Proof. intros H12 H23 k v Hk. by apply H23, H12. Qed.

Lemma built_in_order_extends n h h' :
  (n <= length h)%nat -> extends h h' -> built_in_order n h -> built_in_order n h'.
Proof.
  intros Hn [new ->] Hord v f Hv Hf. apply (Hord v f Hv).
  unfold node in *. rewrite lookup_app_l in Hf by lia. done.
Qed.

Lemma image_of_mono h h' memo memo' k v :
  extends h h' -> grows memo memo' -> image_of h memo k v -> image_of h' memo' k v.
Proof.
  intros Hext Hg (f & f' & Hk & Hv & Hops). exists f, f'.
  split; [by eapply extends_node|]. split; [by eapply extends_node|].
  eapply Forall2_impl; [exact Hops|]. intros x y. apply Hg.
Qed.

Lemma memo_images_extends h h' memo :
  extends h h' -> memo_images h memo -> memo_images h' memo.
Proof.
  intros Hext Himg k v Hkv. eapply image_of_mono; [exact Hext|apply grows_refl|].
  by apply Himg.
Qed.

Lemma added_step (memo mk m' : memo_t) (self : addr) (R : addr -> Prop) :
  (forall k, memo !! k = None -> is_Some (mk !! k) -> (k < self)%nat) ->
  (forall k, mk !! k = None -> is_Some (m' !! k) -> R k) ->
  (forall k, R k -> (k < self)%nat) ->
  forall k, memo !! k = None -> is_Some (m' !! k) -> (k < self)%nat.
Proof.
  intros Hadd Hnew HR k Hk Hs. destruct (mk !! k) as [v|] eqn:Hmk.
  - apply Hadd; [done|]. by rewrite Hmk.
  - apply HR. by apply Hnew.
Qed.

Section Sharing.
Context `{HR : Runtime} {HC : CloneLaws} {HM : MemoLaws}.
Variable n : nat.

Lemma mid_start self memo h :
  (n <= length h)%nat -> clone_inv n h memo -> built_in_order n h -> memo_images h memo ->
  mid n self memo h h memo.
Proof.
  intros Hn Hinv Hord Himg. split; [apply extends_refl|].
  do 4 (split; [done|]). split; [apply grows_refl|].
  intros k Hk [v Hv]. congruence.
Qed.

Lemma mid_cl cl self memo h hk mk x y m' h1 :
  clones n cl -> shares n cl ->
  mid n self memo h hk mk -> (x < self)%nat -> (self < n)%nat ->
  cl x mk hk = Ok (y, m') h1 ->
  mid n self memo h h1 m' /\ grows mk m' /\ m' !! x = Some y.
Proof.
  intros Hcl Hsh (Hext & Hn & Hinv & Hord & Himg & Hg & Hadd) Hx Hself Hr.
  destruct (Hcl _ _ _ _ _ _ Hr Hn Hinv) as (He & Hinv' & _ & _).
  destruct (Hsh _ _ _ _ _ _ Hr ltac:(lia) Hn Hinv Hord Himg) as (Hg' & Hlk & Ha & Himg').
  split; [|by split]. split; [by eapply extends_trans|].
  split; [apply extends_length in He; lia|]. split; [done|].
  split; [by eapply built_in_order_extends|]. split; [done|].
  split; [by eapply grows_trans|].
  eapply (added_step _ _ _ _ (fun k => (k <= x)%nat)); [exact Hadd | exact Ha |].
  intros k Hk. cbn in Hk. lia.
Qed.

Lemma mid_all cl self memo h args : forall hk mk args' m' h1,
  clones n cl -> shares n cl ->
  mid n self memo h hk mk -> Forall (fun x => (x < self)%nat) args -> (self < n)%nat ->
  clone_all cl args mk hk = Ok (args', m') h1 ->
  mid n self memo h h1 m' /\ grows mk m' /\
  Forall2 (fun x y => m' !! x = Some y) args args'.
Proof.
  induction args as [|a args IH]; intros hk mk args' m' h1 Hcl Hsh Hmid Hargs Hself Hr;
    cbn [clone_all] in Hr.
  - injection Hr as <- <- <-. split; [done|]. split; [apply grows_refl | constructor].
  - apply bind_inv_Ok in Hr as ([a' m1] & h2 & Ha & Hr).
    apply bind_inv_Ok in Hr as ([rest' m2] & h3 & Hrest & Hr). injection Hr as <- <- <-.
    apply Forall_cons in Hargs as [Ha0 Hargs].
    destruct (mid_cl _ _ _ _ _ _ _ _ _ _ Hcl Hsh Hmid Ha0 Hself Ha) as (Hmid1 & Hg1 & Hlk).
    destruct (IH _ _ _ _ _ Hcl Hsh Hmid1 Hargs Hself Hrest) as (Hmid2 & Hg2 & Hall).
    split; [done|]. split; [by eapply grows_trans|].
    constructor; [by apply Hg2 | done].
Qed.

Lemma mid_proxy self memo h hk mk r r' m' h1 :
  mid n self memo h hk mk ->
  (forall x, x ∈ range_nodes r -> (x < self)%nat) ->
  proxy_clone r mk hk = Ok (r', m') h1 ->
  mid n self memo h h1 m' /\ grows mk m'.
Proof.
  intros (Hext & Hn & Hinv & Hord & Himg & Hg & Hadd) Hr Hp.
  destruct (proxy_clone_creates _ _ _ _ _ _ Hp) as [He Hinv'].
  destruct (proxy_clone_memo _ _ _ _ _ _ Hp) as (Hg' & Ha & Himg').
  split; [|done]. split; [by eapply extends_trans|].
  split; [apply extends_length in He; lia|]. split; [by apply Hinv'|].
  split; [by eapply built_in_order_extends|]. split; [by apply Himg'|].
  split; [by eapply grows_trans|].
  eapply (added_step _ _ _ _ (fun k => exists x, x ∈ range_nodes r /\ (k <= x)%nat));
    [exact Hadd | exact Ha |].
  intros k (x & Hx & Hk). specialize (Hr x Hx). lia.
Qed.

Lemma mid_ranges self memo h rs : forall hk mk rs' m' h1,
  mid n self memo h hk mk ->
  (forall r x, r ∈ rs -> x ∈ range_nodes r -> (x < self)%nat) ->
  clone_all proxy_clone rs mk hk = Ok (rs', m') h1 ->
  mid n self memo h h1 m' /\ grows mk m'.
Proof.
  induction rs as [|r rs IH]; intros hk mk rs' m' h1 Hmid Hrs Hr; cbn [clone_all] in Hr.
  - injection Hr as <- <- <-. split; [done | apply grows_refl].
  - apply bind_inv_Ok in Hr as ([r' m1] & h2 & Hp & Hr).
    apply bind_inv_Ok in Hr as ([rest' m2] & h3 & Hrest & Hr). injection Hr as <- <- <-.
    destruct (mid_proxy _ _ _ _ _ _ _ _ _ Hmid (fun x => Hrs r x ltac:(left)) Hp)
      as (Hmid1 & Hg1).
    destruct (IH _ _ _ _ _ Hmid1 (fun r0 x Hr0 => Hrs r0 x ltac:(by right)) Hrest)
      as (Hmid2 & Hg2).
    split; [done | by eapply grows_trans].
Qed.

(** The end of a [_clone]: the new node is made of what [memo] has for
    the operands. *)
Lemma mid_finish self memo h hk mk f f' c :
  mid n self memo h hk mk -> node h self = Some f ->
  Forall2 (fun x y => mk !! x = Some y) (operands f) (operands f') ->
  grows memo mk /\
  (forall k, memo !! k = None -> is_Some (mk !! k) -> (k < self)%nat) /\
  memo_images (hk ++ [mkObject f' c]) mk /\
  built_in_order n (hk ++ [mkObject f' c]) /\
  image_of (hk ++ [mkObject f' c]) mk self (length hk).
Proof.
  intros (Hext & Hn & Hinv & Hord & Himg & Hg & Hadd) Hself Hops.
  assert (He : extends hk (hk ++ [mkObject f' c])) by by eexists.
  split; [done|]. split; [done|]. split; [by eapply memo_images_extends|].
  split; [by eapply built_in_order_extends|].
  exists f, f'. split; [|split; [apply node_app_new | done]].
  eapply extends_node; [|exact Hself]. by eapply extends_trans.
Qed.

End Sharing.

Ltac lift_lookups Hg :=
  repeat match goal with
  | Hl : ?mo !! _ = Some _ |- _ =>
      lazymatch type of Hg with grows mo _ => apply Hg in Hl end
  | Hl : Forall2 (fun x y => ?mo !! x = Some y) _ _ |- _ =>
      lazymatch type of Hg with
      | grows mo ?mn =>
          apply (fun F => Forall2_impl _ (fun x y => mn !! x = Some y) _ _ F Hg) in Hl
      end
  end.

Ltac share_call Hcl Hsh Hself Hrng Hr Hmid :=
  let x := fresh "x" in let m := fresh "m" in let h1 := fresh "h" in
  let Hx := fresh "Hx" in let Hmid' := fresh "Hmid" in let Hg := fresh "Hg" in
  let Hlk := fresh "Hlk" in let Hstep := fresh "Hstep" in
  apply bind_inv_Ok in Hr as ([x m] & h1 & Hx & Hr);
  first
    [ pose proof (fun Hp => mid_cl _ _ _ _ _ _ _ _ _ _ _ Hcl Hsh Hmid Hp Hself Hx) as Hstep;
      destruct (Hstep ltac:(assumption)) as (Hmid' & Hg & Hlk)
    | pose proof (fun Hp => mid_all _ _ _ _ _ _ _ _ _ _ _ Hcl Hsh Hmid Hp Hself Hx) as Hstep;
      destruct (Hstep ltac:(assumption)) as (Hmid' & Hg & Hlk)
    | destruct (mid_proxy _ _ _ _ _ _ _ _ _ _ Hmid
                  (fun x0 Hx0 => Hrng _ x0 ltac:(apply list_elem_of_here) Hx0) Hx)
        as (Hmid' & Hg)
    | destruct (mid_ranges _ _ _ _ _ _ _ _ _ _ Hmid Hrng Hx) as (Hmid' & Hg) ];
  lift_lookups Hg;
  clear Hmid Hx Hg; try clear Hstep; rename Hmid' into Hmid.

Section CloneShares.
Context `{HR : Runtime} {HC : CloneLaws} {HM : MemoLaws}.
Variable n : nat.

Lemma _clone_shares cl self memo h cp memo' h' :
  clones n cl -> shares n cl ->
  _clone cl self memo h = Ok (cp, memo') h' ->
  (self < n)%nat -> (n <= length h)%nat -> clone_inv n h memo ->
  built_in_order n h -> memo_images h memo ->
  grows memo memo' /\
  (forall k, memo !! k = None -> is_Some (memo' !! k) -> (k < self)%nat) /\
  memo_images h' memo' /\ image_of h' memo' self cp.
Proof.
  intros Hcl Hsh Hr Hself Hn Hinv Hord Himg. unfold _clone in Hr.
  apply bind_inv_Ok in Hr as (f & h0 & Hf & Hr).
  apply get_fields_inv in Hf as (-> & o & Ho & <-).
  assert (Hnode : node h self = Some (fields o)) by (unfold node; by rewrite Ho).
  assert (Hcons : as_constructed (fields o) = true) by (by eapply (proj1 Hinv)).
  destruct (Hord _ _ Hself Hnode) as [Hops Hrng].
  pose proof (mid_start n self memo h Hn Hinv Hord Himg) as Hmid.
  assert (Hfin : forall hk mk f' c,
            mid n self memo h hk mk ->
            Forall2 (fun x y => mk !! x = Some y) (operands (fields o)) (operands f') ->
            (hk ++ [mkObject f' c])%list = h' -> length hk = cp -> mk = memo' ->
            grows memo memo' /\
            (forall k, memo !! k = None -> is_Some (memo' !! k) -> (k < self)%nat) /\
            memo_images h' memo' /\ image_of h' memo' self cp).
  { intros hk mk f' c Hm Hall <- <- <-.
    destruct (mid_finish n self memo h hk mk _ f' c Hm Hnode Hall)
      as (? & ? & ? & _ & ?). done. }
  destruct (fields o) eqn:Hfo; cbn [operands ranges_of] in Hfin, Hops, Hrng.
  all: repeat match goal with
              | Hf : Forall _ (_ :: _) |- _ =>
                  let Hx := fresh "Hlt" in apply Forall_cons in Hf as [Hx Hf]
              end.
  all: repeat share_call Hcl Hsh Hself Hrng Hr Hmid.
  all: lazymatch type of Hr with
       | context [MathOp_init] =>
           rewrite (bind_Ok _ _ _ _ _ (MathOp_init_ops _ _ _ _)) in Hr
       | context [Construct_init] =>
           rewrite (bind_Ok _ _ _ _ _ (Construct_init_ops _ _ _)) in Hr
       | context [InitList_init] =>
           rewrite (bind_Ok _ _ _ _ _ (InitList_init_ops _ _ _)) in Hr
       | context [CallMethod_init] =>
           apply as_constructed_CallMethod in Hcons as Hrt;
           rewrite (bind_Ok _ _ _ _ _ (CallMethod_init_ops _ _ _ _ _ Hrt)) in Hr
       | context [CallMemberMethod_init] =>
           apply as_constructed_CallMemberMethod in Hcons as Hrt;
           rewrite (bind_Ok _ _ _ _ _ (CallMemberMethod_init_ops _ _ _ _ _ Hrt)) in Hr
       | _ => idtac
       end.
  all: injection Hr as Hcp Hm Hh.
  all: eapply Hfin; [exact Hmid | | exact Hh | exact Hcp | exact Hm].
  all: cbn [operands]; try done.
  all: try (by repeat constructor).
Qed.

Lemma clone_memo_shares fuel : shares n (clone_memo fuel).
Proof.
  induction fuel as [|fuel IH]; intros a memo h cp memo' h' Hr Ha Hn Hinv Hord Himg; [done|].
  cbn [clone_memo] in Hr. destruct (memo !! a) as [v|] eqn:Hmemo.
  - injection Hr as <- <- <-. split; [apply grows_refl|]. split; [done|]. split; [|done].
    intros k Hk [w Hw]. congruence.
  - apply bind_inv_Ok in Hr as ([cp0 memo0] & h1 & Hcl & Hr). injection Hr as <- <- <-.
    destruct (_clone_shares _ _ _ _ _ _ _ (clone_memo_clones n fuel) IH Hcl Ha Hn Hinv
                Hord Himg) as (Hg & Hadd & Himg0 & Hself).
    assert (Hnone : memo0 !! a = None).
    { destruct (memo0 !! a) as [w|] eqn:Hw; [|done].
      specialize (Hadd a Hmemo ltac:(by rewrite Hw)). lia. }
    assert (Hg0 : grows memo0 (<[a := cp0]> memo0)).
    { intros k w Hk. rewrite lookup_insert_ne; [done|]. intros <-. congruence. }
    split; [by eapply grows_trans|]. split; [by rewrite lookup_insert_eq|]. split.
    + intros k Hk Hs. destruct (decide (k = a)) as [->|Hne]; [lia|].
      rewrite lookup_insert_ne in Hs by done. specialize (Hadd k Hk Hs). lia.
    + intros k w Hkw. eapply image_of_mono; [apply extends_refl | exact Hg0 |].
      destruct (decide (k = a)) as [->|Hne].
      * rewrite lookup_insert_eq in Hkw. by injection Hkw as <-.
      * rewrite lookup_insert_ne in Hkw by done. by apply Himg0.
Qed.

End CloneShares.

Section CloneSharing.
Context `{HR : Runtime} {HC : CloneLaws} {HM : MemoLaws}.

(** X18. [clone] preserves sharing: on a store built in order, the copy
    that [clone(a)] returns is the image of [a] under one map from the
    nodes copied to their copies: the map sends [a] to the copy, each node
    it sends is an old one and goes to a new one, whose operands are what
    the map has for the operands of the node, one by one. So an operand
    that occurs twice below [a], in one node or in two, is copied once. *)
Theorem clone_preserves_sharing (fuel : nat) (a : addr) (h : heap) (c : addr) (h' : heap) :
  all_as_constructed h ->
  built_in_order (length h) h ->
  clone fuel a h = Ok c h' ->
  exists memo : memo_t,
    memo !! a = Some c /\
    (forall k v, memo !! k = Some v ->
       (k < length h <= v)%nat /\ image_of h' memo k v) /\
    (forall k1 k2 v1 v2 f1 f2 g1 g2 i j x,
       memo !! k1 = Some v1 -> memo !! k2 = Some v2 ->
       node h k1 = Some f1 -> node h k2 = Some f2 ->
       node h' v1 = Some g1 -> node h' v2 = Some g2 ->
       operands f1 !! i = Some x -> operands f2 !! j = Some x ->
       operands g1 !! i = operands g2 !! j).
Proof.
  intros Hcons Hord Hc. unfold clone in Hc.
  apply bind_inv_Ok in Hc as ([cp memo] & h1 & Hcm & Hc). injection Hc as <- <-.
  assert (Ha : (a < length h)%nat).
  { destruct fuel as [|fuel]; [done|]. cbn [clone_memo] in Hcm.
    rewrite lookup_empty in Hcm.
    apply bind_inv_Ok in Hcm as ([cp' memo'] & h2 & Hcl & _). unfold _clone in Hcl.
    apply bind_inv_Ok in Hcl as (f & h3 & Hf & _).
    apply get_fields_inv in Hf as (_ & o & Ho & _). by eapply lookup_lt_Some. }
  assert (Hinv : clone_inv (length h) h ∅).
  { split; [done|]. split.
    - intros v f Hv Hf. unfold node in Hf. by rewrite lookup_ge_None_2 in Hf.
    - intros k v Hkv. by rewrite lookup_empty in Hkv. }
  assert (Himg : memo_images h ∅).
  { intros k v Hkv. by rewrite lookup_empty in Hkv. }
  destruct (clone_memo_shares (length h) fuel _ _ _ _ _ _ Hcm Ha (Nat.le_refl _) Hinv
              Hord Himg) as (_ & Hlk & Hadd & Himg').
  destruct (clone_memo_clones (length h) fuel _ _ _ _ _ _ Hcm (Nat.le_refl _) Hinv)
    as (Hext & (_ & _ & Hmemo) & _ & _).
  assert (Hentry : forall k v, memo !! k = Some v ->
            (k < length h <= v)%nat /\ image_of h1 memo k v).
  { intros k v Hkv. split; [|by apply Himg']. split; [|by apply (Hmemo k v)].
    specialize (Hadd k (lookup_empty k) ltac:(by rewrite Hkv)). lia. }
  exists memo. split; [done|]. split; [exact Hentry|].
  intros k1 k2 v1 v2 f1 f2 g1 g2 i j x Hk1 Hk2 Hf1 Hf2 Hg1 Hg2 Hi Hj.
  destruct (Hentry _ _ Hk1) as [_ (f1' & g1' & Hf1' & Hg1' & Hall1)].
  destruct (Hentry _ _ Hk2) as [_ (f2' & g2' & Hf2' & Hg2' & Hall2)].
  rewrite (extends_node _ _ _ _ Hext Hf1) in Hf1'. injection Hf1' as <-.
  rewrite (extends_node _ _ _ _ Hext Hf2) in Hf2'. injection Hf2' as <-.
  rewrite Hg1 in Hg1'. injection Hg1' as <-.
  rewrite Hg2 in Hg2'. injection Hg2' as <-.
  destruct (Forall2_lookup_l _ _ _ _ _ Hall1 Hi) as (y1 & Hy1 & Hm1).
  destruct (Forall2_lookup_l _ _ _ _ _ Hall2 Hj) as (y2 & Hy2 & Hm2).
  rewrite Hy1, Hy2. congruence.
Qed.

End CloneSharing.

#[export] Instance example_memo_laws : @MemoLaws example_runtime.
Proof.
  split. intros r memo h r' memo' h' Hr. injection Hr as <- <- <-.
  split; [apply grows_refl|]. split; [|done]. intros k Hk [v Hv]. congruence.
Qed.

Lemma square_heap_in_order : built_in_order 2 square_heap.
Proof.
  intros v f Hv Hf. unfold node in Hf.
  destruct v as [|[|v]]; [| |lia]; injection Hf as <-; cbn.
  - split; [constructor|]. intros r x Hr. by apply elem_of_nil in Hr.
  - split; [repeat constructor; lia|]. intros r x Hr. by apply elem_of_nil in Hr.
Qed.

Lemma square_heap_as_constructed : all_as_constructed square_heap.
Proof.
  intros v f Hv. unfold node in Hv.
  do 2 (destruct v as [|v]; [by injection Hv as <-|]). done.
Qed.

Lemma clone_preserves_sharing_witness :
  clone (H := example_runtime) 3 1 square_heap
  = Ok 3%nat (square_heap ++ [ mkObject (GetColumn "Float_t" "x") (Some empty_cache)
                             ; mkObject (MathOp "Double_t" "multiply" [2%nat; 2%nat])
                                 (Some empty_cache) ])%list /\
  exists memo : memo_t,
    memo !! 1%nat = Some 3%nat /\
    forall k v, memo !! k = Some v ->
      (k < 2 <= v)%nat /\
      image_of (square_heap ++ [ mkObject (GetColumn "Float_t" "x") (Some empty_cache)
                               ; mkObject (MathOp "Double_t" "multiply" [2%nat; 2%nat])
                                   (Some empty_cache) ])%list memo k v.
Proof.
  split; [vm_compute; reflexivity|].
  destruct (clone_preserves_sharing (HR := example_runtime) 3 1 square_heap 3 _
              square_heap_as_constructed square_heap_in_order eq_refl)
    as (memo & Hc & Hentries & _).
  exists memo. by split.
Defined.

(** ** [guessReturnType] *)

Lemma str_app_cons x (a b : string) : String x a ++ b = String x (a ++ b).
Proof. reflexivity. Qed.

Lemma str_app_assoc (a b c : string) : (a ++ b) ++ c = a ++ (b ++ c).
Proof.
  induction a as [|x a IH]; [done|]. rewrite !str_app_cons. by f_equal.
Qed.

Lemma str_app_nil_r (a : string) : a ++ "" = a.
Proof. induction a as [|x a IH]; [done|]. rewrite str_app_cons. by f_equal. Qed.

Lemma rev_str_acc acc s : PyStr.rev_str acc s = PyStr.rev_str "" s ++ acc.
Proof.
  revert acc. induction s as [|c s IH]; intros acc; cbn [PyStr.rev_str]; [done|].
  rewrite (IH (String c acc)), (IH (String c "")).
  by rewrite str_app_assoc.
Qed.

Lemma rev_str_app a b : PyStr.rev_str "" (a ++ b) = PyStr.rev_str "" b ++ PyStr.rev_str "" a.
Proof.
  induction a as [|c a IH].
  - by rewrite str_app_nil_r.
  - rewrite str_app_cons. cbn [PyStr.rev_str].
    rewrite (rev_str_acc (String c "") (a ++ b)), IH, (rev_str_acc (String c "") a).
    by rewrite str_app_assoc.
Qed.

Lemma rev_str_involutive s : PyStr.rev_str "" (PyStr.rev_str "" s) = s.
Proof.
  induction s as [|c s IH]; [done|]. cbn [PyStr.rev_str].
  rewrite (rev_str_acc (String c "") s), rev_str_app, IH. done.
Qed.

Lemma lstrip_head c s : String.prefix (String c "") (PyStr.lstrip c s) = false.
Proof.
  induction s as [|d s IH]; simpl; [done|].
  destruct (Ascii.eqb c d) eqn:Hcd; [exact IH|]. simpl.
  destruct (Ascii.ascii_dec c d) as [->|Hne]; [|done].
  by rewrite Ascii.eqb_refl in Hcd.
Qed.

(** A text stripped of [c] at its end does not end with [c]. *)
Lemma rstrip_endswith c s : endswith (String c "") (rstrip c s) = false.
Proof.
  unfold endswith, rstrip. rewrite rev_str_involutive. apply lstrip_head.
Qed.

Lemma strip_head_pure toks h :
  match strip_head toks h with
  | Ok r h' => h' = h /\ exists pre, toks = (pre ++ r)%list /\ r <> [] /\
                 match r with t :: _ => qualifier t = false | [] => True end
  | Raise e h' => h' = h /\ e = IndexError "list index out of range" /\
                  Forall (fun t => qualifier t = true) toks
  | OutOfFuel => False
  end.
Proof.
  induction toks as [|t rest IH]; cbn [strip_head]; [by repeat split|].
  destruct (qualifier t) eqn:Hq.
  - destruct (strip_head rest h) as [r h'|e h'|]; [| |done].
    + destruct IH as (-> & pre & -> & Hr & Ht). split; [done|]. by exists (t :: pre).
    + destruct IH as (-> & -> & Hall). split; [done|]. split; [done|]. by constructor.
  - split; [done|]. exists []. split; [done|]. split; [done|]. exact Hq.
Qed.

Lemma first_index_Some {A} (p : A -> bool) (l : list A) i :
  first_index p l = Some i -> (i < length l)%nat.
Proof.
  revert i. induction l as [|x l IH]; intros i; simpl; [done|].
  destruct (p x); [intros [= <-]; lia|].
  destruct (first_index p l) as [j|]; [|done]. intros [= <-].
  specialize (IH j eq_refl). lia.
Qed.

Lemma first_index_None {A} (p : A -> bool) (l : list A) :
  Forall (fun x => p x = false) l -> first_index p l = None.
Proof.
  induction 1 as [|x l Hx Hl IH]; simpl; [done|]. by rewrite Hx, IH.
Qed.

Lemma join_unsigned_pure fuel toks h :
  (length toks < fuel)%nat ->
  match join_unsigned fuel toks h with
  | Ok r h' => h' = h /\ (toks <> [] -> r <> [])
  | Raise e h' => h' = h /\ e = IndexError "list index out of range"
  | OutOfFuel => False
  end.
Proof.
  revert toks. induction fuel as [|fuel IH]; intros toks Hlt; [lia|]. simpl.
  destruct (first_index (endswith "unsigned") toks) as [iU|] eqn:Hi; [|done].
  destruct (toks !! iU) as [t|] eqn:Ht; [|done].
  destruct (toks !! S iU) as [nxt|] eqn:Hn; [|done].
  assert (Hlen : length (delete (S iU) (<[iU := t ++ " " ++ nxt]> toks)) = pred (length toks)).
  { rewrite length_delete; [rewrite length_insert; lia|].
    apply lookup_lt_is_Some. rewrite length_insert. by eapply lookup_lt_Some. }
  specialize (IH (delete (S iU) (<[iU := t ++ " " ++ nxt]> toks))).
  apply lookup_lt_Some in Hn.
  destruct (join_unsigned fuel _ h) as [r h'|e h'|]; rewrite Hlen in IH.
  - destruct IH as [-> Hr]; [lia|]. split; [done|]. intros _. apply Hr.
    intros Hnil. apply (f_equal length) in Hnil. rewrite Hlen in Hnil. cbn in Hnil. lia.
  - apply IH. lia.
  - apply IH. lia.
Qed.

Lemma strip_tail_pure toks h :
  match strip_tail toks h with
  | Ok r h' => h' = h /\ r <> []
  | Raise e h' => h' = h /\ e = IndexError "list index out of range" /\
                  Forall (fun t => qualifier t = true) toks
  | OutOfFuel => False
  end.
Proof.
  unfold strip_tail, bind. pose proof (strip_head_pure (rev toks) h) as Hh.
  destruct (strip_head (rev toks) h) as [r h'|e h'|]; [| |done].
  - destruct Hh as (-> & pre & _ & Hr & _). split; [done|].
    intros Hnil. apply Hr. apply (f_equal (@rev string)) in Hnil.
    by rewrite rev_involutive in Hnil.
  - destruct Hh as (-> & -> & Hall). split; [done|]. split; [done|].
    apply Forall_forall. intros t Ht. rewrite Forall_forall in Hall. apply Hall.
    apply list_elem_of_In, in_rev. rewrite rev_involutive. by apply list_elem_of_In.
Qed.

(** X19. [guessReturnType] on any argument: it never fails to end, and
    leaves the store alone; a result never ends with [&]; without
    [func_doc] or [func_name] the result is [Float_t]; the only errors are
    AttributeError for a documentation that is [None] and IndexError, which
    is what a documentation with nothing but qualifiers ([const], [static],
    [&]), an empty one included, gives. *)
Theorem guessReturnType_result (mp : option (option string)) (h : heap) :
  match guessReturnType mp h with
  | Ok res h' => h' = h /\ endswith "&" res = false
  | Raise e h' =>
      h' = h /\
      (e = IndexError "list index out of range" \/ e = AttributeError "split") /\
      mp <> None
  | OutOfFuel => False
  end /\
  guessReturnType None h = Ok "Float_t" h /\
  (forall doc, Forall (fun t => qualifier t = true) (split_ws "" doc) ->
     guessReturnType (Some (Some doc)) h = Raise (IndexError "list index out of range") h).
Proof.
  split; [|split; [done|]].
  - destruct mp as [[doc|]|]; cbn [guessReturnType]; [| |done].
    2:{ split; [done|]. split; [by right | done]. }
    unfold bind at 1. pose proof (strip_tail_pure (split_ws "" doc) h) as H1.
    destruct (strip_tail (split_ws "" doc) h) as [t1 h1|e h1|]; [| |done].
    2:{ destruct H1 as (-> & -> & _). split; [done|]. split; [by left | done]. }
    destruct H1 as [-> Hne1]. unfold bind at 1.
    pose proof (strip_head_pure t1 h) as H2.
    destruct (strip_head t1 h) as [t2 h2|e h2|]; [| |done].
    2:{ destruct H2 as (-> & -> & _). split; [done|]. split; [by left | done]. }
    destruct H2 as (-> & pre & -> & Hne2 & _). unfold bind at 1.
    pose proof (join_unsigned_pure (S (length t2)) t2 h ltac:(lia)) as H3.
    destruct (join_unsigned (S (length t2)) t2 h) as [t3 h3|e h3|]; [| |done].
    2:{ destruct H3 as (-> & ->). split; [done|]. split; [by left | done]. }
    destruct H3 as [-> Hne3].
    destruct (Nat.eqb (length t3) 2).
    + destruct t3 as [|t t3]; [by destruct (Hne3 Hne2)|].
      split; [done|]. apply rstrip_endswith.
    + split; [done|]. apply rstrip_endswith.
  - intros doc Hall. cbn [guessReturnType]. unfold bind at 1.
    unfold strip_tail, bind.
    pose proof (strip_head_pure (rev (split_ws "" doc)) h) as Hh.
    destruct (strip_head (rev (split_ws "" doc)) h) as [r h'|e h'|]; [| |done].
    + destruct Hh as (_ & pre & Hrev & Hr & Hq). destruct r as [|t r]; [done|].
      rewrite Forall_forall in Hall. rewrite Hall in Hq; [done|].
      apply list_elem_of_In, in_rev. rewrite Hrev. apply in_or_app. right. by left.
    + by destruct Hh as (-> & -> & _).
Qed.

(** X20. [guessReturnType] on the documentation of a plain prototype:
    when the first token is no qualifier and has as many [<] as [>], the
    last token is no qualifier, and no token ends with [unsigned], the
    result is the first token without the [&] at its end. *)
Theorem guessReturnType_first_token (doc t : string) (rest : list string) (h : heap) :
  split_ws "" doc = t :: rest ->
  qualifier t = false ->
  (forall l, last (t :: rest) = Some l -> qualifier l = false) ->
  Forall (fun tok => endswith "unsigned" tok = false) (t :: rest) ->
  count_char "<" t = count_char ">" t ->
  guessReturnType (Some (Some doc)) h = Ok (rstrip "&" t) h.
Proof.
  intros Hsplit Ht Hlast Huns Hbal. cbn [guessReturnType]. rewrite Hsplit.
  assert (Htail : strip_tail (t :: rest) h = Ok (t :: rest) h).
  { unfold strip_tail.
    destruct (last (t :: rest)) as [l|] eqn:Hl; [|by apply last_None in Hl].
    specialize (Hlast l eq_refl). apply last_Some in Hl as [pre Hpre].
    rewrite Hpre, rev_app_distr. cbn [rev app strip_head]. rewrite Hlast.
    unfold bind, ret. cbn [rev]. by rewrite rev_involutive. }
  rewrite (bind_Ok _ _ _ _ _ Htail).
  assert (Hhead : strip_head (t :: rest) h = Ok (t :: rest) h).
  { cbn [strip_head]. by rewrite Ht. }
  rewrite (bind_Ok _ _ _ _ _ Hhead).
  assert (Hjoin : join_unsigned (S (length (t :: rest))) (t :: rest) h = Ok (t :: rest) h).
  { cbn [join_unsigned]. by rewrite (first_index_None _ _ Huns). }
  rewrite (bind_Ok _ _ _ _ _ Hjoin).
  destruct (Nat.eqb (length (t :: rest)) 2); [done|].
  cbn [close_brackets Nat.eqb orb]. rewrite Hbal, Z.sub_diag, Z.add_0_r.
  destruct rest as [|t2 rest]; cbn [close_brackets]; [done|].
  cbn. done.
Qed.

Lemma guessReturnType_result_witness :
  guessReturnType (Some (Some "  const static &  const& ")) []
  = Raise (IndexError "list index out of range") [] /\
  guessReturnType (Some (Some "")) [] = Raise (IndexError "list index out of range") [] /\
  match guessReturnType (Some (Some "const std::vector<float, int>& f(int)")) [] with
  | Ok res h' => h' = [] /\ endswith "&" res = false
  | Raise e h' =>
      h' = [] /\
      (e = IndexError "list index out of range" \/ e = AttributeError "split") /\
      Some (Some "const std::vector<float, int>& f(int)") <> None
  | OutOfFuel => False
  end.
Proof.
  split; [|split].
  - apply (proj2 (proj2 (guessReturnType_result None []))). vm_compute. by repeat constructor.
  - apply (proj2 (proj2 (guessReturnType_result None []))). vm_compute. constructor.
  - exact (proj1 (guessReturnType_result
                    (Some (Some "const std::vector<float, int>& f(int)")) [])).
Defined.

Lemma guessReturnType_first_token_witness :
  split_ws "" "float& sqrt(float x)" = ["float&"; "sqrt(float"; "x)"] /\
  guessReturnType (Some (Some "float& sqrt(float x)")) [] = Ok "float" [].
Proof.
  split; [vm_compute; reflexivity|].
  apply (guessReturnType_first_token "float& sqrt(float x)" "float&" ["sqrt(float"; "x)"] []);
    [vm_compute; reflexivity | vm_compute; reflexivity | | | vm_compute; reflexivity].
  - intros l [= <-]. vm_compute. reflexivity.
  - repeat constructor.
Defined.

(** ** The lists of [_convertFunArgs] *)

Section FunArgs.
Context `{Runtime}.
Variable defCache : DefCache.

Lemma _convertFunArgs_step_length fuel acc ld h acc' h' :
  _convertFunArgs_step fuel defCache acc ld h = Ok acc' h' ->
  (length acc <= length acc' <= S (length acc))%nat.
Proof.
  unfold _convertFunArgs_step, append. intros Hr.
  apply bind_inv_Ok in Hr as (f & h1 & _ & Hr).
  destruct f as [f|]; [destruct f|].
  all: try (injection Hr as <- _; rewrite length_app; cbn; lia).
  all: try (apply bind_inv_Ok in Hr as (sd & h2 & _ & Hr); destruct sd;
            [ apply bind_inv_Ok in Hr as (nm & h3 & _ & Hr);
              apply bind_inv_Ok in Hr as (u & hp & _ & Hr);
              destruct (negb _);
              [ apply bind_inv_Ok in Hr as (rt & h4 & _ & Hr); injection Hr as <- _;
                rewrite length_app; cbn; lia
              | injection Hr as <- _; lia ]
            | by apply bind_inv_Ok in Hr as (r & h3 & _ & Hr) ]).
  apply bind_inv_Ok in Hr as (n0 & h2 & _ & Hr).
  apply bind_inv_Ok in Hr as (n1 & h3 & _ & Hr).
  apply bind_inv_Ok in Hr as (n2 & h4 & _ & Hr).
  apply bind_inv_Ok in Hr as (n3 & h5 & _ & Hr). injection Hr as <- _.
  rewrite length_app. cbn. lia.
Qed.

Lemma _convertFunArgs_fold_length fuel deps : forall acc h acc' h',
  foldM (_convertFunArgs_step fuel defCache) acc deps h = Ok acc' h' ->
  (length acc <= length acc' <= length acc + length deps)%nat.
Proof.
  induction deps as [|ld deps IH]; intros acc h acc' h' Hr; cbn [foldM] in Hr.
  - injection Hr as <- _. cbn. lia.
  - apply bind_inv_Ok in Hr as (acc1 & h1 & Hstep & Hr).
    apply _convertFunArgs_step_length in Hstep. apply IH in Hr. cbn. lia.
Qed.

(** X21. The three lists that the rendering of an operation on ranges
    unpacks from [_convertFunArgs]: when the unpacking returns, the
    captures, the parameter declarations and the call arguments have the
    same length, at least one and at most the number of dependencies;
    with no dependency at all the unpacking raises ValueError, and the
    store is unchanged. *)
Theorem _convertFunArgs_lists (fuel : nat) (deps : list (option addr)) (h : heap) :
  (deps = [] ->
   unpacked_funArgs fuel deps defCache h
   = Raise (ValueError "not enough values to unpack (expected 3)") h) /\
  (forall captures paramDecl paramCall h',
     unpacked_funArgs fuel deps defCache h = Ok (captures, paramDecl, paramCall) h' ->
     length captures = length paramDecl /\ length paramDecl = length paramCall /\
     (1 <= length captures <= length deps)%nat).
Proof.
  split; [by intros ->|].
  intros captures paramDecl paramCall h' Hr. unfold unpacked_funArgs in Hr.
  apply bind_inv_Ok in Hr as (cdc & h1 & Hc & Hr). unfold _convertFunArgs in Hc.
  apply bind_inv_Ok in Hc as (cap & h2 & Hfold & Hc). injection Hc as <- _.
  apply _convertFunArgs_fold_length in Hfold. cbn in Hfold.
  pose proof (Permutation_length (sorted_by_perm (fun x : triple => x.1.2) cap)) as Hlen.
  destruct (sorted_by _ cap) as [|t ts] eqn:Hs; [done|].
  cbn [zip_star unpack3] in Hr. injection Hr as <- <- <- _.
  cbn [length] in *. rewrite !length_map. split; [done|]. split; [done|]. lia.
Qed.

End FunArgs.

Lemma _convertFunArgs_lists_witness :
  unpacked_funArgs (H := example_runtime) 3 [] cppNoRedir columns_heap
  = Raise (ValueError "not enough values to unpack (expected 3)") columns_heap /\
  exists captures paramDecl paramCall h',
    unpacked_funArgs (H := example_runtime) 3 [Some 1%nat; Some 0%nat] cppNoRedir columns_heap
    = Ok (captures, paramDecl, paramCall) h' /\
    length captures = length paramDecl /\ length paramDecl = length paramCall /\
    (1 <= length captures <= 2)%nat.
Proof.
  split.
  - exact (proj1 (_convertFunArgs_lists (H := example_runtime) cppNoRedir 3 [] columns_heap)
             eq_refl).
  - destruct (unpacked_funArgs (H := example_runtime) 3 [Some 1%nat; Some 0%nat] cppNoRedir
                columns_heap) as [[[c d] l] h'| |] eqn:Hr; [|by vm_compute in Hr..].
    exists c, d, l, h'. split; [done|].
    exact (proj2 (_convertFunArgs_lists (H := example_runtime) cppNoRedir 3
                    [Some 1%nat; Some 0%nat] columns_heap) c d l h' Hr).
Defined.
